(** * Drum-variation engine: a shallow embedding of the processing core

    The development embeds the variation engine of the drum-variation web
    application: the effect library of [AudioProcessor], the feature
    extractor, mutator and envelope synthesizer of [MLProcessor], and the two
    orchestrators ([AudioProcessor.generateVariations] and the
    [generateVariations] callback of the [useHybridAudioProcessor] hook).

    Numbers.  JavaScript numbers are modelled as exact rationals extended
    with the three non-finite values of IEEE arithmetic ([PInf], [NInf],
    [NaN]).  Finite values are computed exactly: rounding, the sign of zero
    and the single-precision storage of [Float32Array] are not modelled, and
    of overflow only that of [Math.pow(2, y)], whose exponent the caller
    chooses.  Division by zero, products of zero and infinity, and the
    comparison rules of [NaN] follow IEEE 754, so that the guards of the
    source against degenerate input keep their meaning.  Properties whose
    truth would depend on rounding or on magnitudes near the limits of the
    number formats are stated on the domain where it does not. *)

From Stdlib Require Import ZArith QArith Qcanon Qround Lia Lqa Sorted.
From stdpp Require Import base tactics option list numbers.
From Stdlib Require Ascii String.

Local Open Scope Z_scope.

(** ** Canonical rationals *)

Definition qc (n : Z) (d : positive) : Qc := Q2Qc (n # d).
Definition QcZ (z : Z) : Qc := Q2Qc (inject_Z z).
Definition QcN (n : nat) : Qc := QcZ (Z.of_nat n).
Definition Qcfloor (q : Qc) : Z := Qfloor q.

Definition Qcltb (x y : Qc) : bool := bool_decide (x < y)%Qc.
Definition Qcleb (x y : Qc) : bool := bool_decide (x <= y)%Qc.
Definition Qceqb (x y : Qc) : bool := bool_decide (x = y).
Definition Qcabs (x : Qc) : Qc := if Qcltb x 0 then (- x)%Qc else x.
Definition Qcmax (x y : Qc) : Qc := if Qcltb x y then y else x.
Definition Qcmin (x y : Qc) : Qc := if Qcltb y x then y else x.

(** [2 ^ z] for an integer exponent, exact. *)
Definition Qcpow2 (z : Z) : Qc :=
  match z with
  | Z0 => 1%Qc
  | Zpos p => QcZ (2 ^ Zpos p)
  | Zneg p => (/ QcZ (2 ^ Zpos p))%Qc
  end.

(** ** JavaScript numbers *)

Inductive num : Type :=
  | Fin (q : Qc)
  | PInf
  | NInf
  | NaN.

Declare Scope num_scope.
Delimit Scope num_scope with num.
Bind Scope num_scope with num.

Definition nZ (z : Z) : num := Fin (QcZ z).
Definition nN (n : nat) : num := Fin (QcN n).
Definition nq (n : Z) (d : positive) : num := Fin (qc n d).

Global Instance num_eq_dec : EqDecision num.
Proof. solve_decision. Defined.

Definition is_finite (x : num) : bool :=
  match x with Fin _ => true | _ => false end.

Definition nneg (x : num) : num :=
  match x with
  | Fin q => Fin (- q)%Qc
  | PInf => NInf
  | NInf => PInf
  | NaN => NaN
  end.

Definition nadd (x y : num) : num :=
  match x, y with
  | NaN, _ | _, NaN => NaN
  | Fin a, Fin b => Fin (a + b)%Qc
  | PInf, NInf | NInf, PInf => NaN
  | PInf, _ | _, PInf => PInf
  | NInf, _ | _, NInf => NInf
  end.

Definition nsub (x y : num) : num := nadd x (nneg y).

(** The infinity whose sign is that of [q]; [NaN] when [q] is zero. *)
Definition inf_signed (q : Qc) (pos : bool) : num :=
  if Qceqb q 0 then NaN
  else if Bool.eqb (Qcltb 0 q) pos then PInf else NInf.

Definition nmul (x y : num) : num :=
  match x, y with
  | NaN, _ | _, NaN => NaN
  | Fin a, Fin b => Fin (a * b)%Qc
  | Fin a, PInf | PInf, Fin a => inf_signed a true
  | Fin a, NInf | NInf, Fin a => inf_signed a false
  | PInf, PInf | NInf, NInf => PInf
  | PInf, NInf | NInf, PInf => NInf
  end.

(** Division.  A finite non-zero dividend over zero is the infinity of the
    dividend's sign (zero is taken as positive), and [0 / 0] is [NaN]. *)
Definition ndiv (x y : num) : num :=
  match x, y with
  | NaN, _ | _, NaN => NaN
  | Fin a, Fin b =>
      if Qceqb b 0 then inf_signed a true else Fin (a / b)%Qc
  | Fin _, PInf | Fin _, NInf => Fin 0%Qc
  | PInf, Fin b => if Qcltb b 0 then NInf else PInf
  | NInf, Fin b => if Qcltb b 0 then PInf else NInf
  | PInf, PInf | PInf, NInf | NInf, PInf | NInf, NInf => NaN
  end.

(** Comparisons: every comparison with [NaN] is false. *)
Definition nlt (x y : num) : bool :=
  match x, y with
  | NaN, _ | _, NaN => false
  | Fin a, Fin b => Qcltb a b
  | _, NInf => false
  | NInf, _ => true
  | PInf, _ => false
  | _, PInf => true
  end.

Definition nle (x y : num) : bool :=
  match x, y with
  | NaN, _ | _, NaN => false
  | Fin a, Fin b => Qcleb a b
  | NInf, _ => true
  | _, PInf => true
  | _, NInf => false
  | PInf, _ => false
  end.

Definition ngt (x y : num) : bool := nlt y x.
Definition nge (x y : num) : bool := nle y x.

Definition Math_abs (x : num) : num :=
  match x with
  | Fin q => Fin (Qcabs q)
  | PInf | NInf => PInf
  | NaN => NaN
  end.

Definition Math_floor (x : num) : num :=
  match x with
  | Fin q => Fin (QcZ (Qcfloor q))
  | _ => x
  end.

(** [Math.max] and [Math.min] return [NaN] as soon as one argument is. *)
Definition Math_max (x y : num) : num :=
  match x, y with
  | NaN, _ | _, NaN => NaN
  | _, _ => if nlt x y then y else x
  end.

Definition Math_min (x y : num) : num :=
  match x, y with
  | NaN, _ | _, NaN => NaN
  | _, _ => if nlt y x then y else x
  end.

(** Truthiness of a number, as used by [x || y]. *)
Definition truthy (x : num) : bool :=
  match x with
  | Fin q => negb (Qceqb q 0)
  | PInf | NInf => true
  | NaN => false
  end.

Definition num_or (x y : num) : num := if truthy x then x else y.

Infix "+" := nadd : num_scope.
Infix "-" := nsub : num_scope.
Infix "*" := nmul : num_scope.
Infix "/" := ndiv : num_scope.
Notation "- x" := (nneg x) : num_scope.
Infix "<?" := nlt : num_scope.
Infix "<=?" := nle : num_scope.
Infix ">?" := ngt : num_scope.
Infix ">=?" := nge : num_scope.

(** A number used as an array index or a length: the integer it denotes. *)
Definition to_index (x : num) : option Z :=
  match x with
  | Fin q => let z := Qcfloor q in if Qceqb (QcZ z) q then Some z else None
  | _ => None
  end.

(** ** The transcendental functions of [Math]

    [Math.sqrt], [Math.tanh], [Math.exp] and [Math.pow(2, _)] have no exact
    rational value in general.  The development is parametric in their finite
    parts and relies only on the facts listed here, all of which hold of the
    functions as computed in double precision: [2 ^ z] is exact for the
    integers [z] whose power is a double ([-1074 <= z <= 1023]), and a power
    of two that is neither [0] nor [Infinity] is positive. *)

Class MathLib : Type := {
  sqrt_q : Qc → Qc;
  tanh_q : Qc → Qc;
  exp_q : Qc → Qc;
  exp2_q : Qc → Qc;
  sqrt_q_0 : sqrt_q 0 = 0%Qc;
  sqrt_q_1 : sqrt_q 1 = 1%Qc;
  tanh_q_0 : tanh_q 0 = 0%Qc;
  exp_q_0 : exp_q 0 = 1%Qc;
  exp2_q_int : ∀ z : Z, -1074 ≤ z ≤ 1023 → exp2_q (QcZ z) = Qcpow2 z;
  exp2_q_pos : ∀ x, (0 < exp2_q x)%Qc
}.

Section MathFunctions.
Context {ML : MathLib}.

Definition Math_sqrt (x : num) : num :=
  match x with
  | Fin q => if Qcltb q 0 then NaN else Fin (sqrt_q q)
  | PInf => PInf
  | NInf | NaN => NaN
  end.

Definition Math_tanh (x : num) : num :=
  match x with
  | Fin q => Fin (tanh_q q)
  | PInf => Fin 1%Qc
  | NInf => Fin (-1)%Qc
  | NaN => NaN
  end.

Definition Math_exp (x : num) : num :=
  match x with
  | Fin q => Fin (exp_q q)
  | PInf => PInf
  | NInf => Fin 0%Qc
  | NaN => NaN
  end.

(** [Math.pow(2, y)]: the only base the source uses.  The result is
    [Infinity] from [y = 1024] on, where [2 ^ y] exceeds every double, and
    [0] down from [y = -1075], where it rounds to zero. *)
Definition Math_pow2 (y : num) : num :=
  match y with
  | Fin q =>
      if Qcleb (QcZ 1024) q then PInf
      else if Qcleb q (QcZ (-1075)) then Fin 0%Qc
      else Fin (exp2_q q)
  | PInf => PInf
  | NInf => Fin 0%Qc
  | NaN => NaN
  end.

End MathFunctions.

(** ** Typed arrays

    A [Float32Array] is a list of numbers of fixed length.  Reading outside
    the array yields [undefined], which every numeric use turns into [NaN];
    writing outside the array (or at a key that is not an integer) is
    dropped. *)

Definition getn (d : list num) (i : nat) : num := default NaN (d !! i).

Definition get (d : list num) (i : Z) : num :=
  if bool_decide (0 ≤ i) then getn d (Z.to_nat i) else NaN.

Definition set (d : list num) (i : Z) (v : num) : list num :=
  if bool_decide (0 ≤ i) then <[Z.to_nat i := v]> d else d.

Definition get_at (d : list num) (x : num) : num :=
  match to_index x with Some i => get d i | None => NaN end.

Definition set_at (d : list num) (x : num) (v : num) : list num :=
  match to_index x with Some i => set d i v | None => d end.

(** ** Loops *)

(** [for (let i = lo; i < hi; i++) s = body i s] with a body that leaves
    [i] alone. *)
Definition for_range {S : Type} (lo hi : nat) (body : nat → S → S) (s : S) : S :=
  foldl (λ s i, body i s) s (seq lo (hi - lo)).

(** A loop whose number of iterations is not evident from its header runs on
    fuel: [None] means that the fuel ran out before the condition failed. *)
Fixpoint while {S : Type} (fuel : nat) (cond : S → bool) (body : S → S) (s : S)
  : option S :=
  match fuel with
  | O => None
  | S fuel' => if cond s then while fuel' cond body (body s) else Some s
  end.

(** ** Outcomes, exceptions and the random source *)

Inductive Error : Type :=
  | NotSupportedError   (* createBuffer refuses the requested shape *)
  | IndexSizeError      (* getChannelData on a channel that does not exist *)
  | NoSampleLoaded.     (* 'No audio sample loaded' *)

Inductive Outcome (A : Type) : Type :=
  | Ok (a : A)
  | Throw (e : Error)
  | OutOfFuel.
Arguments Ok {A} a.
Arguments Throw {A} e.
Arguments OutOfFuel {A}.

Global Instance Outcome_ret : MRet Outcome := λ A a, Ok a.
Global Instance Outcome_bind : MBind Outcome := λ A B f m,
  match m with
  | Ok a => f a
  | Throw e => Throw e
  | OutOfFuel => OutOfFuel
  end.
Global Instance Outcome_fmap : FMap Outcome := λ A B f m,
  match m with
  | Ok a => Ok (f a)
  | Throw e => Throw e
  | OutOfFuel => OutOfFuel
  end.

Global Instance Error_eq_dec : EqDecision Error.
Proof. solve_decision. Defined.

Global Instance Outcome_eq_dec {A : Type} `{EqDecision A} :
  EqDecision (Outcome A).
Proof. solve_decision. Defined.

Definition of_fuel {A : Type} (o : option A) : Outcome A :=
  match o with Some a => Ok a | None => OutOfFuel end.

(** The random source is the sequence of values that successive calls of
    [Math.random] return. *)
Definition rng : Type := nat → Qc.

Definition rng_tail (r : rng) : rng := λ n, r (S n).

Definition Rand (A : Type) : Type := rng → Outcome (A * rng).

Global Instance Rand_ret : MRet Rand := λ A a r, Ok (a, r).
Global Instance Rand_bind : MBind Rand := λ A B f m r,
  match m r with
  | Ok (a, r') => f a r'
  | Throw e => Throw e
  | OutOfFuel => OutOfFuel
  end.

Definition Math_random : Rand num := λ r, Ok (Fin (r O), rng_tail r).

(** A computation that does not consult the random source. *)
Definition pure_of {A : Type} (m : Outcome A) : Rand A := λ r,
  match m with
  | Ok a => Ok (a, r)
  | Throw e => Throw e
  | OutOfFuel => OutOfFuel
  end.

Definition result {A : Type} (o : Outcome (A * rng)) : Outcome A := fst <$> o.

(** ** Audio buffers *)

Record AudioBuffer : Type := mkBuffer {
  sampleRate : Qc;
  blength : nat;
  channelData : list (list num)
}.

Global Instance AudioBuffer_eq_dec : EqDecision AudioBuffer.
Proof. solve_decision. Defined.

Definition numberOfChannels (b : AudioBuffer) : nat := length (channelData b).

Definition bduration (b : AudioBuffer) : num :=
  (nN (blength b) / Fin (sampleRate b))%num.

(** [createBuffer] accepts a sample rate in the range that implementations
    of the Web Audio API support. *)
Definition supportedRate (r : Qc) : bool :=
  Qcleb (QcZ 3000) r && Qcleb r (QcZ 768000).

(** [audioContext.createBuffer(numberOfChannels, length, sampleRate)]: a
    zero-filled buffer, or [NotSupportedError] when there is no channel, no
    sample frame, or the rate is not supported. *)
Definition createBuffer (nch : nat) (length : num) (rate : Qc)
  : Outcome AudioBuffer :=
  match length with
  | Fin q =>
      let n := Qcfloor q in
      if bool_decide (0 < n) && bool_decide (0 < nch)%nat && supportedRate rate
      then Ok (mkBuffer rate (Z.to_nat n)
                 (replicate nch (replicate (Z.to_nat n) (Fin 0%Qc))))
      else Throw NotSupportedError
  | _ => Throw NotSupportedError
  end.

Definition getChannelData (b : AudioBuffer) (channel : nat)
  : Outcome (list num) :=
  match channelData b !! channel with
  | Some d => Ok d
  | None => Throw IndexSizeError
  end.

Definition channel_of (b : AudioBuffer) (channel : nat) : list num :=
  default [] (channelData b !! channel).

Definition setChannelData (b : AudioBuffer) (channel : nat) (d : list num)
  : AudioBuffer :=
  mkBuffer (sampleRate b) (blength b) (<[channel := d]> (channelData b)).

(** A left fold in a monad: the loop body may throw, run out of fuel or
    draw random numbers. *)
Fixpoint foldlM {M : Type → Type} `{!MBind M, !MRet M} {S A : Type}
    (f : S → A → M S) (s : S) (l : list A) : M S :=
  match l with
  | [] => mret s
  | a :: l' => s' ← f s a; foldlM f s' l'
  end.

(** The channel loop shared by the effects: for every channel of [buffer],
    [body] receives the channel index, the input samples and the output
    samples allocated so far, and returns the output samples. *)
Definition forChannels (buffer processed : AudioBuffer)
    (body : nat → list num → list num → Outcome (list num))
  : Outcome AudioBuffer :=
  foldlM
    (λ p channel,
       d ← body channel (channel_of buffer channel) (channel_of p channel);
       mret (setChannelData p channel d))
    processed (seq 0 (numberOfChannels buffer)).

(** The number of iterations of [for (j = 0; j < x; j++)] for a bound [x]
    that is finite (the loops below run only after [createBuffer] has
    accepted [x] as a length). *)
Definition iterations (x : num) : nat :=
  match x with
  | Fin q => Z.to_nat (Qceiling q)
  | _ => O
  end.

(** * The effect library ([AudioProcessor], src/lib/audioProcessor.js) *)

Module AudioProcessor.
Section WithMath.
Context {ML : MathLib}.

(** [buffer.duration > 2.0]: the test by which every effect decides on its
    own whether its input is likely a loop. *)
Definition isLikelyLoop (buffer : AudioBuffer) : bool :=
  (bduration buffer >? nq 2 1)%num.

Definition processTransientEnhancement (buffer : AudioBuffer)
    (attackGain sustainGain : num) : Outcome AudioBuffer :=
  processedBuffer ← createBuffer (numberOfChannels buffer)
                      (nN (blength buffer)) (sampleRate buffer);
  forChannels buffer processedBuffer (λ channel inputData outputData,
    let isLikelyLoop := isLikelyLoop buffer in
    let attackTime := if isLikelyLoop then nq 2 1000 else nq 5 1000 in
    let releaseTime := if isLikelyLoop then nq 2 100 else nq 5 100 in
    let attackSamples := Math_floor (attackTime * Fin (sampleRate buffer)) in
    let releaseSamples := Math_floor (releaseTime * Fin (sampleRate buffer)) in
    Ok (snd (for_range 0 (length inputData)
      (λ i '(envelope, outputData),
         let inputSample := Math_abs (getn inputData i) in
         let envelope :=
           if inputSample >? envelope
           then envelope + (inputSample - envelope) / attackSamples
           else envelope + (inputSample - envelope) / releaseSamples in
         let transientThreshold := if isLikelyLoop then nq 12 10 else nq 15 10 in
         let isTransient := inputSample >? envelope * transientThreshold in
         (envelope,
          <[i := getn inputData i * (if isTransient then attackGain else sustainGain)]>
            outputData))
      (Fin 0%Qc, outputData))))%num.

(** One output sample of the resampler: [None] when neither branch of the
    interpolation writes, so that the sample keeps the zero it was allocated
    with. *)
Definition resample (inputData : list num) (pitchRatio : num) (i : nat)
  : option num :=
  (let readIndex := nN i * pitchRatio in
   let readIndex1 := Math_floor readIndex in
   let readIndex2 := readIndex1 + nZ 1 in
   let fraction := readIndex - readIndex1 in
   if readIndex2 <? nN (length inputData) then
     Some (get_at inputData readIndex1 * (nZ 1 - fraction)
           + get_at inputData readIndex2 * fraction)
   else if readIndex1 <? nN (length inputData) then
     Some (get_at inputData readIndex1)
   else None)%num.

Definition pitchRatio (semitones : num) : num :=
  Math_pow2 (semitones / nZ 12)%num.

Definition processPitchShift (buffer : AudioBuffer) (semitones : num)
  : Outcome AudioBuffer :=
  processedBuffer ← createBuffer (numberOfChannels buffer)
                      (nN (blength buffer)) (sampleRate buffer);
  let pitchRatio := pitchRatio semitones in
  forChannels buffer processedBuffer (λ channel inputData outputData,
    Ok (for_range 0 (length outputData)
      (λ i outputData,
         match resample inputData pitchRatio i with
         | Some v => <[i := v]> outputData
         | None => outputData
         end)
      outputData)).

(** One sample of the bit crusher. *)
Definition crush (steps : num) (x : num) : num :=
  (let scaled := (x + nZ 1) / nZ 2 in
   let quantized := Math_floor (scaled * steps) / steps in
   quantized * nZ 2 - nZ 1)%num.

Definition processBitCrush (buffer : AudioBuffer) (bits : num)
  : Outcome AudioBuffer :=
  processedBuffer ← createBuffer (numberOfChannels buffer)
                      (nN (blength buffer)) (sampleRate buffer);
  let steps := Math_pow2 bits in
  forChannels buffer processedBuffer (λ channel inputData outputData,
    Ok (for_range 0 (length inputData)
      (λ i outputData, <[i := crush steps (getn inputData i)]> outputData)
      outputData)).

Definition processDistortion (buffer : AudioBuffer) (amount : num)
  : Outcome AudioBuffer :=
  processedBuffer ← createBuffer (numberOfChannels buffer)
                      (nN (blength buffer)) (sampleRate buffer);
  forChannels buffer processedBuffer (λ channel inputData outputData,
    Ok (for_range 0 (length inputData)
      (λ i outputData,
         <[i := Math_tanh (getn inputData i * amount)%num]> outputData)
      outputData)).

(** The impulse response of the reverb: decaying noise, one [Math.random]
    draw per sample, channel 0 first. *)
Definition fillImpulse (impulse : AudioBuffer) (impulseLength : num)
  : Rand AudioBuffer :=
  foldlM
    (λ impulse channel,
       impulseData ←
         foldlM
           (λ impulseData i,
              r ← Math_random;
              mret (<[i := ((r * nZ 2 - nZ 1)
                            * Math_exp (- nN i / (impulseLength * nq 1 2)))%num]>
                      impulseData))
           (channel_of impulse channel) (seq 0 (iterations impulseLength));
       mret (setChannelData impulse channel impulseData))
    impulse (seq 0 (numberOfChannels impulse)).

(** The direct-form convolution of one channel with the impulse. *)
Definition convolve (inputData impulseData : list num)
    (impulseLength wetDry : num) (outputData : list num) : list num :=
  for_range 0 (length inputData)
    (λ i outputData,
       for_range 0 (Nat.min (iterations impulseLength) (length outputData - i))
         (λ j outputData,
            <[(i + j)%nat :=
                (getn outputData (i + j)
                 + getn inputData i * getn impulseData j * wetDry)%num]>
              outputData)
         outputData)
    outputData.

Definition extraTime (buffer : AudioBuffer) : num :=
  if isLikelyLoop buffer then nq 1 2 else nZ 1.

Definition processReverb (buffer : AudioBuffer) (roomSize wetDry : num)
  : Rand AudioBuffer :=
  processedBuffer ← pure_of
    (createBuffer (numberOfChannels buffer)
       (nN (blength buffer)
        + Math_floor (Fin (sampleRate buffer) * extraTime buffer))%num
       (sampleRate buffer));
  let impulseLength := Math_floor (Fin (sampleRate buffer) * roomSize)%num in
  impulse ← pure_of (createBuffer 2 impulseLength (sampleRate buffer));
  impulse ← fillImpulse impulse impulseLength;
  pure_of (forChannels buffer processedBuffer (λ channel inputData outputData,
    let outputData :=
      for_range 0 (length inputData)
        (λ i outputData,
           <[i := (getn inputData i * (nZ 1 - wetDry))%num]> outputData)
        outputData in
    let impulseData :=
      channel_of impulse (channel mod numberOfChannels impulse) in
    Ok (convolve inputData impulseData impulseLength wetDry outputData))).

(** The state of the tap loop of the delay: the output samples, the feedback
    of the next tap and the number of taps written so far. *)
Definition tapState : Type := list num * num * nat.

Definition tapCond (maxTaps : nat) (s : tapState) : bool :=
  let '(_, currentFeedback, tapCount) := s in
  (currentFeedback >? nq 1 100)%num && bool_decide (tapCount < maxTaps)%nat.

Definition tapBody (inputData : list num) (delaySamples feedback : num)
    (s : tapState) : tapState :=
  let '(outputData, currentFeedback, tapCount) := s in
  (for_range 0 (length inputData)
     (λ i outputData,
        let delayPos := (nN i + delaySamples)%num in
        if (delayPos <? nN (length outputData))%num
        then set_at outputData delayPos
               (get_at outputData delayPos
                + getn inputData i * currentFeedback)%num
        else outputData)
     outputData,
   (currentFeedback * feedback)%num,
   S tapCount).

Definition maxTaps (buffer : AudioBuffer) : nat :=
  if isLikelyLoop buffer then 3%nat else 10%nat.

Definition delayTaps (fuel : nat) (buffer : AudioBuffer)
    (inputData outputData : list num) (delaySamples feedback : num)
  : option tapState :=
  while fuel (tapCond (maxTaps buffer))
    (tapBody inputData delaySamples feedback)
    (outputData, feedback, O).

Definition processDelay (fuel : nat) (buffer : AudioBuffer)
    (delayTime feedback : num) : Outcome AudioBuffer :=
  processedBuffer ←
    createBuffer (numberOfChannels buffer)
      (nN (blength buffer)
       + Math_floor (Fin (sampleRate buffer) * extraTime buffer))%num
      (sampleRate buffer);
  let delaySamples := Math_floor (delayTime * Fin (sampleRate buffer))%num in
  forChannels buffer processedBuffer (λ channel inputData outputData,
    let outputData :=
      for_range 0 (length inputData)
        (λ i outputData, <[i := getn inputData i]> outputData) outputData in
    s ← of_fuel (delayTaps fuel buffer inputData outputData delaySamples feedback);
    mret (s.1.1)).

(** [generateVariations(isLoop)] of the processor: the recipe of eight
    effect chains over the loaded sample. *)
Definition generateVariations (fuel : nat) (originalBuffer : option AudioBuffer)
    (isLoop : bool) : Rand (list AudioBuffer) :=
  match originalBuffer with
  | None => pure_of (Throw NoSampleLoaded)
  | Some originalBuffer =>
      let variations := [] in
      v ← pure_of (processTransientEnhancement originalBuffer
                     (if isLoop then nq 11 10 else nq 13 10)
                     (if isLoop then nq 95 100 else nq 85 100));
      let variations := variations ++ [v] in
      v ← pure_of (processPitchShift originalBuffer
                     (if isLoop then nZ 1 else nZ 3));
      let variations := variations ++ [v] in
      v ← pure_of (processPitchShift originalBuffer
                     (if isLoop then nZ (-1) else nZ (-3)));
      let variations := variations ++ [v] in
      v ← pure_of (processBitCrush originalBuffer
                     (if isLoop then nZ 10 else nZ 8));
      let variations := variations ++ [v] in
      v ← processReverb originalBuffer
            (if isLoop then nq 1 10 else nq 3 10)
            (if isLoop then nq 3 10 else nq 5 10);
      let variations := variations ++ [v] in
      v ← pure_of (processDelay fuel originalBuffer
                     (if isLoop then nq 125 1000 else nq 25 100)
                     (if isLoop then nq 3 10 else nq 4 10));
      let variations := variations ++ [v] in
      pitchShifted ← pure_of (processPitchShift originalBuffer
                                (if isLoop then nq 1 2 else nZ 1));
      v ← processReverb pitchShifted
            (if isLoop then nq 5 100 else nq 1 10)
            (if isLoop then nq 2 10 else nq 3 10);
      let variations := variations ++ [v] in
      v ← (if isLoop then
             delayed ← pure_of (processDelay fuel originalBuffer
                                  (nq 125 1000) (nq 3 10));
             pure_of (processDistortion delayed (nZ 3))
           else
             distorted ← pure_of (processDistortion originalBuffer (nZ 10));
             pure_of (processBitCrush distorted (nZ 6)));
      let variations := variations ++ [v] in
      mret variations
  end.

End WithMath.
End AudioProcessor.

(** * Feature extraction, mutation and resynthesis ([MLProcessor],
      src/lib/mlProcessor.js) *)

Module MLProcessor.

Record Peak : Type := mkPeak {
  index : num;
  value : num;
  time : num
}.

Record FeatureSet : Type := mkFeatures {
  attackTime : num;
  decayTime : num;
  sustainLevel : num;
  releaseTime : num;
  energy : num;
  spectralCentroid : num;
  peakValue : num;
  peakIndex : nat;
  duration : num;
  dynamicRange : num;
  transientDensity : num;
  significantPeaks : list Peak
}.

(** The [focus] option of a variation; any other string behaves as
    ['balanced']. *)
Inductive Focus : Type :=
  | attack | decay | sustain | release | tone | balanced.

Global Instance Focus_eq_dec : EqDecision Focus.
Proof. solve_decision. Defined.

Record Options : Type := mkOptions { focus : option Focus }.

Section WithMath.
Context {ML : MathLib}.

Definition isLikelyLoop (features : FeatureSet) : bool :=
  bool_decide (3 < length (significantPeaks features))%nat
  || (duration features >? nq 2 1)%num.

(** *** Peak detection *)

Definition threshold : num := nq 3 10.

Definition windowSize (sampleRate : Qc) : Z :=
  Qcfloor (sampleRate * qc 1 100)%Qc.

(** The maximum absolute value, as the first loop of
    [findSignificantPeaks] computes it. *)
Definition maxValue (data : list num) : num :=
  for_range 0 (length data)
    (λ i maxValue, Math_max maxValue (Math_abs (getn data i))) (Fin 0%Qc).

(** The local-maximum test over [i - windowSize, i + windowSize). *)
Definition isPeak (data : list num) (windowSize i : Z) : bool :=
  forallb
    (λ j, negb (negb (bool_decide (j = i))
                && (Math_abs (get data j) >? Math_abs (get data i))%num))
    (seqZ (i - windowSize) (2 * windowSize)).

Definition scanState : Type := Z * list Peak.

Definition scanCond (data : list num) (windowSize : Z) (s : scanState) : bool :=
  bool_decide (s.1 < Z.of_nat (length data) - windowSize).

Definition scanBody (data : list num) (sampleRate : Qc) (maxValue : num)
    (s : scanState) : scanState :=
  let windowSize := windowSize sampleRate in
  let '(i, peaks) := s in
  let currentValue := Math_abs (get data i) in
  if (currentValue >? maxValue * threshold)%num && isPeak data windowSize i
  then (i + windowSize + 1,
        peaks ++ [mkPeak (nZ i) currentValue (nZ i / Fin sampleRate)%num])
  else (i + 1, peaks).

Definition findSignificantPeaks (fuel : nat) (data : list num) (sampleRate : Qc)
  : option (list Peak) :=
  s ← while fuel (scanCond data (windowSize sampleRate))
         (scanBody data sampleRate (maxValue data))
         (windowSize sampleRate, []);
  Some (s.2).

(** *** Feature extraction *)

Definition findMainPeak (data : list num) : nat * num :=
  for_range 0 (length data)
    (λ i '(peakIndex, peakValue),
       let absValue := Math_abs (getn data i) in
       if (absValue >? peakValue)%num then (i, absValue)
       else (peakIndex, peakValue))
    (O, Fin 0%Qc).

Definition findDecayIndex (data : list num) (peakIndex : nat) (peakValue : num)
  : nat :=
  let decayThreshold := (peakValue * nq 25 100)%num in
  default peakIndex
    (find (λ i, (Math_abs (getn data i) <? decayThreshold)%num)
       (seq peakIndex (length data - peakIndex))).

Definition floorOfLength (n : nat) (ratio : Qc) : nat :=
  Z.to_nat (Qcfloor (QcN n * ratio)%Qc).

Definition sustainLevelOf (data : list num) (decayIndex : nat) : num :=
  let sustainStart := Nat.min decayIndex (floorOfLength (length data) (qc 3 10)) in
  let sustainEnd := floorOfLength (length data) (qc 7 10) in
  let sustainLevel :=
    for_range sustainStart (Nat.min sustainEnd (length data))
      (λ i sustainLevel, (sustainLevel + Math_abs (getn data i))%num)
      (Fin 0%Qc) in
  (sustainLevel
   / num_or (nZ (Z.of_nat sustainEnd - Z.of_nat sustainStart)) (nZ 1))%num.

Definition energyOf (data : list num) : num :=
  (for_range 0 (length data)
     (λ i energy, energy + getn data i * getn data i) (Fin 0%Qc)
   / nN (length data))%num.

Definition zeroCrossings (data : list num) : nat :=
  for_range 1 (length data)
    (λ i zeroCrossings,
       if (getn data i >=? Fin 0%Qc)%num && (getn data (i - 1) <? Fin 0%Qc)%num
          || (getn data i <? Fin 0%Qc)%num && (getn data (i - 1) >=? Fin 0%Qc)%num
       then S zeroCrossings else zeroCrossings)
    O.

Definition dynamicRangeOf (data : list num) : num :=
  let '(min, max) :=
    for_range 0 (length data)
      (λ i '(min, max),
         (Math_min min (getn data i), Math_max max (getn data i)))
      (Fin 1%Qc, Fin (-1)%Qc) in
  (max - min)%num.

Definition extractFeatures (fuel : nat) (buffer : AudioBuffer)
  : Outcome FeatureSet :=
  data ← getChannelData buffer 0;
  significantPeaks ← of_fuel (findSignificantPeaks fuel data (sampleRate buffer));
  let '(peakIndex, peakValue) := findMainPeak data in
  let attackTime := (nN peakIndex / Fin (sampleRate buffer))%num in
  let decayIndex := findDecayIndex data peakIndex peakValue in
  let decayTime :=
    (nZ (Z.of_nat decayIndex - Z.of_nat peakIndex) / Fin (sampleRate buffer))%num in
  let sustainLevel := sustainLevelOf data decayIndex in
  let releaseStart := floorOfLength (length data) (qc 7 10) in
  let releaseTime :=
    (nZ (Z.of_nat (length data) - Z.of_nat releaseStart)
     / Fin (sampleRate buffer))%num in
  let energy := energyOf data in
  let spectralCentroid :=
    (nN (zeroCrossings data) / nN (length data) * Fin (sampleRate buffer)
     / nZ 2)%num in
  let dynamicRange := dynamicRangeOf data in
  let transientDensity :=
    (nN (length significantPeaks) / bduration buffer)%num in
  mret (mkFeatures attackTime decayTime sustainLevel releaseTime energy
          spectralCentroid peakValue peakIndex (bduration buffer) dynamicRange
          transientDensity significantPeaks).

(** *** Feature mutation *)

Definition randomize (amount value range focusFactor : num) : Rand num :=
  r ← Math_random;
  let variation := ((r * nZ 2 - nZ 1) * range * amount * focusFactor)%num in
  mret (value * (nZ 1 + variation))%num.

Definition focusFactor (options : Options) (field : Focus) : num :=
  let focus := default balanced (focus options) in
  if bool_decide (focus = field) then nZ 2 else nZ 1.

Definition mutatePeak (amount : num) (peak : Peak) : Rand Peak :=
  i ← randomize amount (index peak) (nq 2 100) (nZ 1);
  v ← randomize amount (value peak) (nq 1 10) (nZ 1);
  mret (mkPeak (Math_floor i) v (time peak)).

Fixpoint mapM_Rand {A B : Type} (f : A → Rand B) (l : list A) : Rand (list B) :=
  match l with
  | [] => mret []
  | a :: l' => b ← f a; bs ← mapM_Rand f l'; mret (b :: bs)
  end.

Definition modifyFeatures (features : FeatureSet) (amount : num)
    (options : Options) (isLoop : bool) : Rand FeatureSet :=
  attackTime' ← randomize amount (attackTime features) (nq 7 10)
                  (focusFactor options attack);
  decayTime' ← randomize amount (decayTime features) (nq 8 10)
                 (focusFactor options decay);
  sustainLevel' ← randomize amount (sustainLevel features) (nq 6 10)
                    (focusFactor options sustain);
  releaseTime' ← randomize amount (releaseTime features) (nq 9 10)
                   (focusFactor options release);
  spectralCentroid' ← randomize amount (spectralCentroid features) (nq 6 10)
                        (focusFactor options tone);
  let energyRange := if isLoop then nq 2 10 else nq 4 10 in
  energy' ← randomize amount (energy features) energyRange (nZ 1);
  significantPeaks' ←
    (if isLoop && bool_decide (0 < length (significantPeaks features))%nat
     then mapM_Rand (mutatePeak amount) (significantPeaks features)
     else mret (significantPeaks features));
  mret (mkFeatures attackTime' decayTime' sustainLevel' releaseTime' energy'
          spectralCentroid' (peakValue features) (peakIndex features)
          (duration features) (dynamicRange features)
          (transientDensity features) significantPeaks').

(** *** Resynthesis *)

Definition lastIndex (inputData : list num) : num :=
  (nN (length inputData) - nZ 1)%num.

Definition processOneShot (inputData outputData : list num)
    (features : FeatureSet) : list num :=
  (let len := nN (length inputData) in
   let attackEnd := Math_floor (attackTime features * peakValue features * len) in
   let decayEnd := attackEnd + Math_floor (decayTime features * len) in
   let releaseStart := Math_floor (len * nq 7 10) in
   for_range 0 (length outputData)
     (λ i outputData,
        if nN i <? attackEnd then
          let originalIndex :=
            Math_floor (nN i * nN (peakIndex features) / attackEnd) in
          <[i := get_at inputData (Math_min originalIndex (lastIndex inputData))]>
            outputData
        else if nN i <? decayEnd then
          let decayPosition := (nN i - attackEnd) / (decayEnd - attackEnd) in
          let originalDecayIndex :=
            Math_floor (nN (peakIndex features)
                        + decayPosition * (decayTime features * len)) in
          <[i := get_at inputData
                   (Math_min originalDecayIndex (lastIndex inputData))]>
            outputData
        else if nN i <? releaseStart then
          <[i := getn inputData i * (sustainLevel features / nq 25 100)]>
            outputData
        else
          let releasePosition :=
            (nN i - releaseStart) / (nN (length outputData) - releaseStart) in
          let releaseValue :=
            nZ 1 - releasePosition * (releaseTime features / nq 3 10) in
          <[i := getn inputData i * Math_max (Fin 0%Qc) releaseValue]>
            outputData)
     outputData)%num.

(** The values that the counter of
    [for (let i = segmentStart; i < segmentEnd && i < length; i++)] takes,
    for an integer start. *)
Definition segmentRange (segmentStart : Z) (segmentEnd : num) (length : nat)
  : list Z :=
  let stop :=
    match segmentEnd with
    | Fin e => Z.min (Qceiling e) (Z.of_nat length)
    | PInf => Z.of_nat length
    | NInf | NaN => segmentStart
    end in
  seqZ segmentStart (stop - segmentStart).

(** The loop over one segment.  A start that is not an integer only
    addresses keys that a typed array ignores; [NaN] and [+Infinity] fail the
    loop test at once; from [-Infinity] the counter never advances. *)
Definition segmentLoop (segmentStart segmentEnd : num) (length : nat)
    (body : Z → list num → list num) (outputData : list num)
  : option (list num) :=
  match segmentStart with
  | Fin _ =>
      match to_index segmentStart with
      | Some s =>
          Some (foldl (λ outputData i, body i outputData) outputData
                  (segmentRange s segmentEnd length))
      | None => Some outputData
      end
  | PInf | NaN => Some outputData
  | NInf => if (NInf <? segmentEnd)%num then None else Some outputData
  end.

Definition processSegment (inputData : list num) (features : FeatureSet)
    (segmentStart segmentEnd : num) (outputData : list num)
  : option (list num) :=
  (let segmentLength := segmentEnd - segmentStart in
   if segmentLength <? nZ 10 then Some outputData
   else
     let attackEnd :=
       segmentStart
       + Math_floor (segmentLength * nq 1 10 * attackTime features / nq 1 100) in
     let decayEnd := segmentStart + Math_floor (segmentLength * nq 3 10) in
     let releaseStart := segmentStart + Math_floor (segmentLength * nq 7 10) in
     segmentLoop segmentStart segmentEnd (length outputData)
       (λ i outputData,
          if nZ i <? attackEnd then
            let attackPosition := (nZ i - segmentStart) / (attackEnd - segmentStart) in
            let attackFactor :=
              attackPosition * (nZ 2 - attackTime features / nq 1 100) in
            set outputData i (get inputData i * attackFactor)
          else if nZ i <? decayEnd then
            let decayPosition := (nZ i - attackEnd) / (decayEnd - attackEnd) in
            let decayFactor :=
              nZ 1 - decayPosition * (nZ 1 - sustainLevel features / nq 25 100)
                     * (decayTime features / nq 5 100) in
            set outputData i (get inputData i * decayFactor)
          else if nZ i <? releaseStart then
            set outputData i
              (get inputData i * (sustainLevel features / nq 25 100))
          else
            let releasePosition :=
              (nZ i - releaseStart) / (segmentEnd - releaseStart) in
            let releaseValue :=
              (sustainLevel features / nq 25 100)
              * (nZ 1 - releasePosition * (releaseTime features / nq 1 10)) in
            set outputData i
              (get inputData i * Math_max (Fin 0%Qc) releaseValue))
       outputData)%num.

Definition processLoopAudio (inputData outputData : list num)
    (features : FeatureSet) : option (list num) :=
  let outputData :=
    for_range 0 (length inputData)
      (λ i outputData, <[i := getn inputData i]> outputData) outputData in
  let peaks := significantPeaks features in
  if bool_decide (1 < length peaks)%nat then
    foldlM
      (λ outputData p,
         let segmentStart := from_option index NaN (peaks !! p) in
         let segmentEnd :=
           from_option index (nN (length inputData)) (peaks !! S p) in
         processSegment inputData features segmentStart segmentEnd outputData)
      outputData (seq 0 (length peaks))
  else Some outputData.

Definition applySpectralAdjustment (data : list num) (spectralRatio : num)
  : list num :=
  (if spectralRatio >? nZ 1 then
     for_range 1 (length data)
       (λ i data,
          <[i := getn data i
                 + (getn data i - getn data (i - 1))
                   * (spectralRatio - nZ 1) * nq 1 2]> data)
       data
   else if spectralRatio <? nZ 1 then
     snd (for_range 1 (length data)
            (λ i '(prevSample, data),
               let v := getn data i * spectralRatio
                        + prevSample * (nZ 1 - spectralRatio) in
               (v, <[i := v]> data))
            (getn data 0, data))
   else data)%num.

Definition energyRatio (features : FeatureSet) : num :=
  Math_sqrt
    (energy features
     / (if energy features >? Fin 0%Qc then energy features else nq 1 10000))%num.

Definition spectralRatio (features : FeatureSet) : num :=
  (spectralCentroid features
   / (if spectralCentroid features >? Fin 0%Qc
      then spectralCentroid features else nq 1 10000))%num.

(** The two post-processing steps that close the channel loop of
    [synthesizeAudio]. *)
Definition postProcess (features : FeatureSet) (outputData : list num)
  : list num :=
  let outputData :=
    for_range 0 (length outputData)
      (λ i outputData,
         <[i := (getn outputData i * energyRatio features)%num]> outputData)
      outputData in
  applySpectralAdjustment outputData (spectralRatio features).

Definition synthesizeAudio (originalBuffer : AudioBuffer)
    (features : FeatureSet) (isLoop : bool) : Outcome AudioBuffer :=
  newBuffer ← createBuffer (numberOfChannels originalBuffer)
                (nN (blength originalBuffer)) (sampleRate originalBuffer);
  forChannels originalBuffer newBuffer (λ channel inputData outputData,
    outputData ←
      (if isLoop then of_fuel (processLoopAudio inputData outputData features)
       else Ok (processOneShot inputData outputData features));
    mret (postProcess features outputData)).

Definition generateVariation (fuel : nat) (buffer : AudioBuffer)
    (variationAmount : num) (options : Options) : Rand AudioBuffer :=
  features ← pure_of (extractFeatures fuel buffer);
  let isLoop := isLikelyLoop features in
  modifiedFeatures ← modifyFeatures features variationAmount options isLoop;
  pure_of (synthesizeAudio buffer modifiedFeatures isLoop).

End WithMath.
End MLProcessor.

(** * The orchestrating hook (src/hooks/useHybridAudioProcessor.js) *)

Module Hook.

Inductive Message : Type :=
  | NoSampleLoadedMsg          (* 'No sample loaded' *)
  | Raised (e : Error).        (* the message of a caught exception *)

Record State : Type := mkState {
  originalSample : option AudioBuffer;
  variations : list AudioBuffer;
  isProcessing : bool;
  error : option Message;
  mlBalance : num;
  isLoop : bool
}.

Section WithMath.
Context {ML : MathLib}.

(** The part of [loadAudioFile] that follows decoding: the sample is stored,
    classified once, and the variations are reset. *)
Definition loadSample (fuel : nat) (st : State) (buffer : AudioBuffer)
  : Outcome State :=
  features ← MLProcessor.extractFeatures fuel buffer;
  let detectedIsLoop := MLProcessor.isLikelyLoop features in
  mret (mkState (Some buffer) [] false None (mlBalance st) detectedIsLoop).

(** The body of the [try] block of [generateVariations]. *)
Definition recipe (fuel : nat) (originalSample : AudioBuffer)
    (mlBalance : num) (isLoop : bool) : Rand (list AudioBuffer) :=
  let generatedVariations := [] in
  v ← MLProcessor.generateVariation fuel originalSample
        (nq 6 10 * mlBalance)%num (MLProcessor.mkOptions (Some MLProcessor.attack));
  let generatedVariations := generatedVariations ++ [v] in
  v ← MLProcessor.generateVariation fuel originalSample
        (nq 7 10 * mlBalance)%num (MLProcessor.mkOptions (Some MLProcessor.decay));
  let generatedVariations := generatedVariations ++ [v] in
  v ← MLProcessor.generateVariation fuel originalSample
        (nq 65 100 * mlBalance)%num (MLProcessor.mkOptions (Some MLProcessor.sustain));
  let generatedVariations := generatedVariations ++ [v] in
  v ← MLProcessor.generateVariation fuel originalSample
        (nq 7 10 * mlBalance)%num (MLProcessor.mkOptions (Some MLProcessor.release));
  let generatedVariations := generatedVariations ++ [v] in
  toneVariation ← MLProcessor.generateVariation fuel originalSample
        (nq 8 10 * mlBalance)%num (MLProcessor.mkOptions (Some MLProcessor.tone));
  v ← (if (mlBalance <? nq 7 10)%num
       then pure_of (AudioProcessor.processBitCrush toneVariation (nZ 10))
       else mret toneVariation);
  let generatedVariations := generatedVariations ++ [v] in
  pitchShifted ← pure_of (AudioProcessor.processPitchShift originalSample
                            (if isLoop then nZ 1 else nZ 3));
  v ← MLProcessor.generateVariation fuel pitchShifted
        (nq 5 10 * mlBalance)%num (MLProcessor.mkOptions (Some MLProcessor.balanced));
  let generatedVariations := generatedVariations ++ [v] in
  reverbed ← AudioProcessor.processReverb originalSample
               (if isLoop then nq 1 10 else nq 3 10)
               (if isLoop then nq 3 10 else nq 6 10);
  v ← MLProcessor.generateVariation fuel reverbed
        (nq 4 10 * mlBalance)%num
        (MLProcessor.mkOptions
           (Some (if isLoop then MLProcessor.sustain else MLProcessor.release)));
  let generatedVariations := generatedVariations ++ [v] in
  extreme ←
    (if isLoop then
       delayed ← pure_of (AudioProcessor.processDelay fuel originalSample
                            (nq 125 1000) (nq 3 10));
       pure_of (AudioProcessor.processDistortion delayed (nZ 3))
     else
       distorted ← pure_of (AudioProcessor.processDistortion originalSample (nZ 8));
       pure_of (AudioProcessor.processBitCrush distorted (nZ 6)));
  v ← MLProcessor.generateVariation fuel extreme
        (nq 9 10 * mlBalance)%num (MLProcessor.mkOptions (Some MLProcessor.balanced));
  let generatedVariations := generatedVariations ++ [v] in
  mret generatedVariations.

(** [generateVariations]: without a sample the error is set and nothing else
    changes; an exception of the recipe is caught and recorded; otherwise the
    variations are replaced by the recipe's. *)
Definition generateVariations (fuel : nat) (st : State) (r : rng)
  : option State :=
  match originalSample st with
  | None =>
      Some (mkState None (variations st) (isProcessing st)
              (Some NoSampleLoadedMsg) (mlBalance st) (isLoop st))
  | Some sample =>
      match recipe fuel sample (mlBalance st) (isLoop st) r with
      | Ok (generatedVariations, _) =>
          Some (mkState (Some sample) generatedVariations false None
                  (mlBalance st) (isLoop st))
      | Throw e =>
          Some (mkState (Some sample) (variations st) false (Some (Raised e))
                  (mlBalance st) (isLoop st))
      | OutOfFuel => None
      end
  end.

End WithMath.
End Hook.

(** * The first version of the effect library (src/lib/audioProcessor.js
      before the loop-aware rewrite)

    Only the two effects whose bounds differ from the current version are
    embedded: the delay has no cap on its taps, and both tails last one
    second. *)

Module Legacy.
Section WithMath.
Context {ML : MathLib}.

Definition tapState : Type := list num * num.

Definition tapCond (s : tapState) : bool := (s.2 >? nq 1 100)%num.

Definition tapBody (inputData : list num) (delaySamples feedback : num)
    (s : tapState) : tapState :=
  let '(outputData, currentFeedback) := s in
  (for_range 0 (length inputData)
     (λ i outputData,
        let delayPos := (nN i + delaySamples)%num in
        if (delayPos <? nN (length outputData))%num
        then set_at outputData delayPos
               (get_at outputData delayPos
                + getn inputData i * currentFeedback)%num
        else outputData)
     outputData,
   (currentFeedback * feedback)%num).

Definition delayTaps (fuel : nat) (inputData outputData : list num)
    (delaySamples feedback : num) : option tapState :=
  while fuel tapCond (tapBody inputData delaySamples feedback)
    (outputData, feedback).

Definition processDelay (fuel : nat) (buffer : AudioBuffer)
    (delayTime feedback : num) : Outcome AudioBuffer :=
  processedBuffer ←
    createBuffer (numberOfChannels buffer)
      (nN (blength buffer) + Fin (sampleRate buffer))%num (sampleRate buffer);
  let delaySamples := Math_floor (delayTime * Fin (sampleRate buffer))%num in
  forChannels buffer processedBuffer (λ channel inputData outputData,
    let outputData :=
      for_range 0 (length inputData)
        (λ i outputData, <[i := getn inputData i]> outputData) outputData in
    s ← of_fuel (delayTaps fuel inputData outputData delaySamples feedback);
    mret (s.1)).

Definition processReverb (buffer : AudioBuffer) (roomSize wetDry : num)
  : Rand AudioBuffer :=
  processedBuffer ← pure_of
    (createBuffer (numberOfChannels buffer)
       (nN (blength buffer) + Fin (sampleRate buffer))%num (sampleRate buffer));
  let impulseLength := Math_floor (Fin (sampleRate buffer) * roomSize)%num in
  impulse ← pure_of (createBuffer 2 impulseLength (sampleRate buffer));
  impulse ← AudioProcessor.fillImpulse impulse impulseLength;
  pure_of (forChannels buffer processedBuffer (λ channel inputData outputData,
    let outputData :=
      for_range 0 (length inputData)
        (λ i outputData,
           <[i := (getn inputData i * (nZ 1 - wetDry))%num]> outputData)
        outputData in
    let impulseData :=
      channel_of impulse (channel mod numberOfChannels impulse) in
    Ok (AudioProcessor.convolve inputData impulseData impulseLength wetDry
          outputData))).

End WithMath.
End Legacy.

(** * A reference instance of the [Math] functions

    Rational stand-ins used to run the embedding on concrete inputs: the
    square root is truncated to six decimals, [tanh] is replaced by the
    sigmoid [x / (1 + |x|)], and [2 ^ x] is interpolated linearly between
    consecutive integers (so it is exact at every integer exponent). *)

Definition ref_sqrt (q : Qc) : Qc :=
  let n := Qnum q in
  let d := Zpos (Qden q) in
  Q2Qc (Qmake (Z.sqrt (n * d * 10 ^ 12)) (Z.to_pos (d * 10 ^ 6))).

Definition ref_tanh (q : Qc) : Qc := (q / (1 + Qcabs q))%Qc.

Definition ref_exp2 (q : Qc) : Qc :=
  (Qcpow2 (Qcfloor q) * (1 + (q - QcZ (Qcfloor q))))%Qc.

Definition ref_exp (q : Qc) : Qc := ref_exp2 (q * qc 13 9)%Qc.

(** * Example inputs *)


(** A short click: full scale, then a decaying tail. *)
Definition click : AudioBuffer :=
  mkBuffer (QcZ 44100) 4 [[Fin 1%Qc; nq 1 2; nq (-1) 4; Fin 0%Qc]].

(** Five unit spikes, a hundred frames apart, mono, 8 kHz: 75 ms of
    material with five transients. *)
Definition spikes : AudioBuffer :=
  mkBuffer (QcZ 8000) 600
    [flat_map (λ _, replicate 99 (Fin 0%Qc) ++ [Fin 1%Qc]) (seq 0 5)
     ++ replicate 100 (Fin 0%Qc)].

(** * The vocabulary of the properties *)

(** A loop that writes sample [i] at step [i], or leaves it, from data that
    the loop does not change. *)
Definition written (g : nat → option num) (n : nat) (out : list num)
  : list num :=
  imap (λ i x, if bool_decide (i < n)%nat then default x (g i) else x) out.

(** A buffer as the platform hands it out: at least one channel and one
    sample frame, a supported rate, and channels of the announced length. *)
Definition wf_buffer (b : AudioBuffer) : Prop :=
  (0 < numberOfChannels b)%nat ∧ (0 < blength b)%nat ∧
  supportedRate (sampleRate b) = true ∧
  Forall (λ d, length d = blength b) (channelData b).

Definition zeros (n : nat) : list num := replicate n (Fin 0%Qc).

Definition same_shape (b b' : AudioBuffer) : Prop :=
  numberOfChannels b' = numberOfChannels b ∧ sampleRate b' = sampleRate b.

(** The amplitude levels of a [b]-bit reduction: [2 k / 2^b - 1]. *)
Definition level (b k : Z) : num :=
  Fin (QcZ k / Qcpow2 b * QcZ 2 - 1)%Qc.

(** A sample in the nominal range [[-1, 1]]. *)
Definition in_unit (x : num) : Prop :=
  ∃ q, x = Fin q ∧ (- (1) <= q)%Qc ∧ (q <= 1)%Qc.

(** The sample at frame [i] of channel [c]. *)
Definition sample (b : AudioBuffer) (c i : nat) : option num :=
  d ← channelData b !! c; d !! i.


(** The samples that the resampling loop leaves in a zero-filled channel of
    [n] frames. *)
Definition resampled {ML : MathLib} (ratio : num) (n : nat) (d : list num)
  : list num :=
  map (λ i, default (Fin 0%Qc) (AudioProcessor.resample d ratio i)) (seq 0 n).

(** The feedback of tap [k] (counting from 0): [feedback ^ (k + 1)]. *)
Fixpoint feedbackAt (feedback : num) (k : nat) : num :=
  match k with
  | O => feedback
  | S k' => (feedbackAt feedback k' * feedback)%num
  end.

(** The samples of a channel once the dry signal is copied in. *)
Definition copied (inputData outputData : list num) : list num :=
  for_range 0 (length inputData)
    (λ i outputData, <[i := getn inputData i]> outputData) outputData.

(** The tail that reverb and delay append: half a second or a second. *)
Definition tailFrames (buffer : AudioBuffer) : Z :=
  Qcfloor (sampleRate buffer
           * (if AudioProcessor.isLikelyLoop buffer then qc 1 2 else 1))%Qc.

(** [m] is the largest absolute value of [data] (0 for an empty array). *)
Definition is_global_max (data : list num) (m : num) : Prop :=
  (∀ x, x ∈ data → (Math_abs x <=? m)%num = true) ∧
  (m ∈ map Math_abs data ∨ (data = [] ∧ m = Fin 0%Qc)).

Definition peak_before (p q : MLProcessor.Peak) : Prop :=
  (MLProcessor.index p <? MLProcessor.index q)%num = true.

(** What the scan records of a peak at frame [j]. *)
Definition peak_at (data : list num) (sampleRate : Qc) (j : Z)
    (p : MLProcessor.Peak) : Prop :=
  MLProcessor.index p = nZ j ∧
  MLProcessor.value p = Math_abs (get data j) ∧
  MLProcessor.time p = (nZ j / Fin sampleRate)%num ∧
  (MLProcessor.value p >? MLProcessor.maxValue data * MLProcessor.threshold)%num
  = true.

Definition all_finite (data : list num) : Prop :=
  Forall (λ x, is_finite x = true) data.

(** The channel loop of [synthesizeAudio] without its two post-processing
    steps. *)
Definition synthesizeEnvelope (originalBuffer : AudioBuffer)
    (features : MLProcessor.FeatureSet) (isLoop : bool) : Outcome AudioBuffer :=
  newBuffer ← createBuffer (numberOfChannels originalBuffer)
                (nN (blength originalBuffer)) (sampleRate originalBuffer);
  forChannels originalBuffer newBuffer (λ channel inputData outputData,
    if isLoop
    then of_fuel (MLProcessor.processLoopAudio inputData outputData features)
    else Ok (MLProcessor.processOneShot inputData outputData features)).

(** An outcome that is a value satisfying [P]. *)
Definition ok_with {A : Type} (P : A → Prop) (o : Outcome A) : Prop :=
  ∃ a, o = Ok a ∧ P a.

(** A computation that returns a value satisfying [P] whatever the random
    source. *)
Definition rand_ok {A : Type} (P : A → Prop) (m : Rand A) : Prop :=
  ∀ r, ∃ a r', m r = Ok (a, r') ∧ P a.

(** A well-formed buffer of [n] frames with the rate and the channel count
    of [b]. *)
Definition shaped (b : AudioBuffer) (n : nat) (b' : AudioBuffer) : Prop :=
  wf_buffer b' ∧ blength b' = n ∧ same_shape b b'.

(** The length of a buffer with its reverb or delay tail. *)
Definition extended (buffer : AudioBuffer) : nat :=
  Z.to_nat (Z.of_nat (blength buffer) + tailFrames buffer).

(** The impulse response has two channels of the requested length, and
    every sample of it is finite. *)
Definition impulse_ok (n : nat) (impulse : AudioBuffer) : Prop :=
  numberOfChannels impulse = 2%nat ∧
  Forall (λ d, length d = n ∧ all_finite d) (channelData impulse).

(** The counter of a segment loop must not start at [-Infinity]. *)
Definition peaks_ok (peaks : list MLProcessor.Peak) : Prop :=
  Forall (λ p, MLProcessor.index p ≠ NInf) peaks.

(** A buffer of the sample's shape that a variation can be made of within
    the fuel. *)
Definition workable (fuel : nat) (sample b : AudioBuffer) : Prop :=
  ∃ n, shaped sample n b ∧ (n < fuel)%nat.

(** The all-zero buffer of a given shape. *)
Definition silence (rate : Qc) (nch len : nat) : AudioBuffer :=
  mkBuffer rate len (replicate nch (zeros len)).

(** A buffer whose every sample is zero. *)
Definition silent (b : AudioBuffer) : Prop :=
  ∀ c i x, sample b c i = Some x → x = Fin 0%Qc.

(** A buffer whose every sample is a finite number. *)
Definition finite_buffer (b : AudioBuffer) : Prop :=
  ∀ c i x, sample b c i = Some x → is_finite x = true.

(** The features of a silent buffer: no peak, no energy, no attack and no
    decay. *)
Definition quiet (f : MLProcessor.FeatureSet) : Prop :=
  MLProcessor.attackTime f = Fin 0%Qc ∧
  MLProcessor.decayTime f = Fin 0%Qc ∧
  MLProcessor.sustainLevel f = Fin 0%Qc ∧
  is_finite (MLProcessor.releaseTime f) = true ∧
  MLProcessor.energy f = Fin 0%Qc ∧
  MLProcessor.spectralCentroid f = Fin 0%Qc ∧
  MLProcessor.peakValue f = Fin 0%Qc ∧
  MLProcessor.peakIndex f = O ∧
  MLProcessor.significantPeaks f = [].

(** A list of buffers that are all silences of one rate and one channel
    count. *)
Definition silences (rate : Qc) (nch : nat) (vs : list AudioBuffer) : Prop :=
  Forall (λ b, ∃ n, b = silence rate nch n) vs.

(** Two random sources whose first [n] draws coincide. *)
Definition same_draws (n : nat) (r1 r2 : rng) : Prop :=
  ∀ k, (k < n)%nat → r1 k = r2 k.

(** A computation whose outcome is a function of the next [c] draws: over
    two sources that agree on [c + n] draws it ends the same way, and what it
    leaves of them agrees on [n] draws. *)
Definition draws_at_most {A : Type} (c : nat) (m : Rand A) : Prop :=
  ∀ n r1 r2, same_draws (c + n) r1 r2 →
    match m r1, m r2 with
    | Ok (a1, r1'), Ok (a2, r2') => a1 = a2 ∧ same_draws n r1' r2'
    | Throw e1, Throw e2 => e1 = e2
    | OutOfFuel, OutOfFuel => True
    | _, _ => False
    end.

(** Two computations that both return, whatever their random sources, with
    results related by [R]. *)
Definition both_ok {A : Type} (R : A → A → Prop) (m1 m2 : Rand A) : Prop :=
  ∀ r1 r2, ∃ a1 r1' a2 r2',
    m1 r1 = Ok (a1, r1') ∧ m2 r2 = Ok (a2, r2') ∧ R a1 a2.

(** Two lists that agree at every position outside [skip]. *)
Definition agree_except (skip : list nat) (vs1 vs2 : list AudioBuffer)
  : Prop :=
  length vs1 = length vs2 ∧ ∀ i, i ∉ skip → vs1 !! i = vs2 !! i.

(** The number of draws of one reverb: one per sample of the two channels of
    the impulse response. *)
Definition reverbDraws (buffer : AudioBuffer) (roomSize : num) : nat :=
  2 * iterations (Math_floor (Fin (sampleRate buffer) * roomSize)%num).

(** Two applications of the reverb, one after the other, to the same buffer
    with the same parameters. *)
Definition reverbTwice {ML : MathLib} (buffer : AudioBuffer)
    (roomSize wetDry : num) : Rand (AudioBuffer * AudioBuffer) :=
  first ← AudioProcessor.processReverb buffer roomSize wetDry;
  second ← AudioProcessor.processReverb buffer roomSize wetDry;
  mret (first, second).

(** The first sample of each buffer of a pair. *)
Definition firstSamples (o : Outcome (AudioBuffer * AudioBuffer))
  : option (option num * option num) :=
  match o with
  | Ok (first, second) => Some (sample first 0 0, sample second 0 0)
  | _ => None
  end.



(** ** Further inputs *)

(** The features of a short decaying click, after mutation. *)
Definition clickFeatures : MLProcessor.FeatureSet :=
  MLProcessor.mkFeatures (Fin 0%Qc) (nq 1 1000) (nq 1 2) (nq 1 1500)
    (nq 21 64) (nZ 750) (Fin 1%Qc) 0 (nq 1 11025) (nq 5 4) (Fin 0%Qc) [].

(** The state of the hook once the click is loaded, at the default
    balance. *)
Definition clickLoaded : Hook.State :=
  Hook.mkState (Some click) [] false None (nq 1 2) false.

(** Fuel for every loop that a variation of the click runs. *)
Definition clickFuel : nat := Z.to_nat 44105.

(** A random source that always returns one half. *)
Definition halves : rng := λ _, qc 1 2.

(** Four frames of silence on one channel at 44.1 kHz. *)
Definition hush : AudioBuffer := silence (QcZ 44100) 1 4.

(** The state of the hook once the silence is loaded, at the default
    balance. *)
Definition hushLoaded : Hook.State :=
  Hook.mkState (Some hush) [] false None (nq 1 2) false.

(** A random source that is not constant: [1/2, 1/3, 1/4, ...]. *)
Definition harmonic : rng := λ n, qc 1 (Pos.of_succ_nat (S n)).

(** Two frames on one channel at 3 kHz. *)
Definition tick : AudioBuffer := mkBuffer (QcZ 3000) 2 [[Fin 1%Qc; nq 1 2]].

(** * WAV export ([bufferToWav] and [writeString] of [AudioProcessor],
      src/lib/audioProcessor.js)

    An [ArrayBuffer] is a list of bytes, each an integer in [[0, 256)]; a
    [DataView] over it writes at byte offsets, which the source always
    computes as natural numbers.  A write that does not fit in the buffer
    throws [RangeError], rendered as [None].  Multi-byte values are written
    little-endian, the byte order the source asks for in every call. *)

Module Wav.

Import Stdlib.Strings.String.
Local Abbreviation length := Datatypes.length (only parsing).

Definition ArrayBuffer : Type := list Z.

(** [new ArrayBuffer(n)]: [n] zero bytes. *)
Definition newArrayBuffer (n : nat) : ArrayBuffer := replicate n 0.

(** The integer that [ToInt16], [ToUint16], [ToUint32] and [ToUint8] start
    from: the number truncated toward zero, and 0 for [NaN] and the
    infinities. *)
Definition truncate (x : num) : Z :=
  match x with
  | Fin q => if Qcltb q 0 then Qceiling q else Qcfloor q
  | _ => 0
  end.

(** The [n] low bytes of an integer, least significant first; a negative
    integer yields the bytes of its two's complement. *)
Definition le_bytes (n : nat) (v : Z) : list Z :=
  map (λ k : nat, (v / 256 ^ Z.of_nat k) mod 256) (seq 0 n).

Definition setBytes (view : ArrayBuffer) (byteOffset : nat) (bytes : list Z)
  : option ArrayBuffer :=
  if bool_decide (byteOffset + length bytes ≤ length view)%nat
  then Some (list_inserts byteOffset bytes view)
  else None.

Definition setUint8 (view : ArrayBuffer) (byteOffset : nat) (value : num)
  : option ArrayBuffer :=
  setBytes view byteOffset (le_bytes 1 (truncate value)).

Definition setUint16 (view : ArrayBuffer) (byteOffset : nat) (value : num)
  : option ArrayBuffer :=
  setBytes view byteOffset (le_bytes 2 (truncate value)).

Definition setInt16 (view : ArrayBuffer) (byteOffset : nat) (value : num)
  : option ArrayBuffer :=
  setBytes view byteOffset (le_bytes 2 (truncate value)).

Definition setUint32 (view : ArrayBuffer) (byteOffset : nat) (value : num)
  : option ArrayBuffer :=
  setBytes view byteOffset (le_bytes 4 (truncate value)).

(** [string.charCodeAt(i)]: [NaN] past the end of the string. *)
Definition charCodeAt (s : string) (i : nat) : num :=
  match String.get i s with
  | Some c => nN (Ascii.nat_of_ascii c)
  | None => NaN
  end.

Definition writeString (view : ArrayBuffer) (offset : nat) (s : string)
  : option ArrayBuffer :=
  foldlM (λ view i, setUint8 view (offset + i) (charCodeAt s i))
    view (seq 0 (String.length s)).

Definition volume : num := nq 9 10.

(** The value handed to [setInt16] for one sample. *)
Definition pcmSample (x : num) : num :=
  (let sample := Math_max (nZ (-1)) (Math_min (nZ 1) x) * volume in
   if sample <? nZ 0 then sample * nZ 32768 else sample * nZ 32767)%num.

Definition bufferToWav (buffer : AudioBuffer) : option ArrayBuffer :=
  let numChannels := numberOfChannels buffer in
  let sampleRate := Fin (sampleRate buffer) in
  let format := nZ 1 in
  let bitDepth := 16%nat in
  let bytesPerSample := (bitDepth / 8)%nat in
  let blockAlign := (numChannels * bytesPerSample)%nat in
  let dataLength := (blength buffer * blockAlign)%nat in
  let headerLength := 44%nat in
  let view := newArrayBuffer (headerLength + dataLength) in
  view ← writeString view 0 "RIFF";
  view ← setUint32 view 4 (nN (36 + dataLength));
  view ← writeString view 8 "WAVE";
  view ← writeString view 12 "fmt ";
  view ← setUint32 view 16 (nZ 16);
  view ← setUint16 view 20 format;
  view ← setUint16 view 22 (nN numChannels);
  view ← setUint32 view 24 sampleRate;
  view ← setUint32 view 28 (sampleRate * nN blockAlign)%num;
  view ← setUint16 view 32 (nN blockAlign);
  view ← setUint16 view 34 (nN bitDepth);
  view ← writeString view 36 "data";
  view ← setUint32 view 40 (nN dataLength);
  let offset := 44%nat in
  let channelData := map (channel_of buffer) (seq 0 numChannels) in
  s ← foldlM
         (λ s i,
            foldlM
              (λ '(view, index) channel,
                 view ← setInt16 view (offset + index)
                          (pcmSample (getn (default [] (channelData !! channel)) i));
                 Some (view, (index + 2)%nat))
              s (seq 0 numChannels))
         (view, O) (seq 0 (blength buffer));
  Some (s.1).

End Wav.

(** ** Reading a WAV file back *)

(** The unsigned integer that [n] little-endian bytes at [byteOffset]
    denote; [None] past the end of the file. *)
Definition getUint (n : nat) (view : list Z) (byteOffset : nat) : option Z :=
  foldr (λ k acc, b ← view !! (byteOffset + k)%nat; v ← acc; Some (b + 256 * v))
    (Some 0) (seq 0 n).

(** The signed 16-bit integer at [byteOffset]. *)
Definition getInt16 (view : list Z) (byteOffset : nat) : option Z :=
  u ← getUint 2 view byteOffset;
  Some (if bool_decide (u < 32768) then u else u - 65536).

(** The char codes of a string. *)
Definition codes (s : String.string) : list Z :=
  map (λ c, Z.of_nat (Ascii.nat_of_ascii c)) (String.list_ascii_of_string s).

(** The [n] bytes at [byteOffset]. *)
Definition bytesAt (view : list Z) (byteOffset n : nat) : list Z :=
  take n (drop byteOffset view).

(** The 16-bit sample that the encoder stores for a sample value: the clamped
    value scaled by 0.9 and by 32768 (negative) or 32767, truncated toward
    zero. *)
Definition pcm16 (x : num) : Z := Wav.truncate (Wav.pcmSample x).

(** A byte. *)
Definition is_byte (b : Z) : Prop := 0 ≤ b < 256.

(** The bytes of one frame and of all frames in a 16-bit file. *)
Definition blockAlign (buffer : AudioBuffer) : nat :=
  (numberOfChannels buffer * 2)%nat.

Definition dataLength (buffer : AudioBuffer) : nat :=
  (blength buffer * blockAlign buffer)%nat.

(** The 44 bytes of the header that [bufferToWav] writes. *)
Definition wavHeader (buffer : AudioBuffer) : list Z :=
  let blockAlign := blockAlign buffer in
  let dataLength := dataLength buffer in
  [82; 73; 70; 70]
  ++ Wav.le_bytes 4 (Z.of_nat (36 + dataLength))
  ++ [87; 65; 86; 69]
  ++ [102; 109; 116; 32]
  ++ Wav.le_bytes 4 16
  ++ Wav.le_bytes 2 1
  ++ Wav.le_bytes 2 (Z.of_nat (numberOfChannels buffer))
  ++ Wav.le_bytes 4 (Wav.truncate (Fin (sampleRate buffer)))
  ++ Wav.le_bytes 4 (Wav.truncate (Fin (sampleRate buffer) * nN blockAlign)%num)
  ++ Wav.le_bytes 2 (Z.of_nat blockAlign)
  ++ Wav.le_bytes 2 16
  ++ [100; 97; 116; 97]
  ++ Wav.le_bytes 4 (Z.of_nat dataLength).

(** The bytes of frame [i]: the 16-bit samples of the channels in turn. *)
Definition frameBytes (buffer : AudioBuffer) (i : nat) : list Z :=
  flat_map (λ c, Wav.le_bytes 2 (pcm16 (getn (channel_of buffer c) i)))
    (seq 0 (numberOfChannels buffer)).

(** The data chunk: the frames in turn. *)
Definition wavData (buffer : AudioBuffer) : list Z :=
  flat_map (frameBytes buffer) (seq 0 (blength buffer)).

(** A buffer extended to [n] frames with silence. *)
Definition padded (buffer : AudioBuffer) (n : nat) : AudioBuffer :=
  mkBuffer (sampleRate buffer) n
    (map (λ d, d ++ zeros (n - length d)) (channelData buffer)).

(** The sample at frame [p] of a channel followed by silence. *)
Definition dryAt (d : list num) (p : nat) : num := default (Fin 0%Qc) (d !! p).

(** [taps] echoes of the sample [x] added in turn to [dry]: echo [k] has the
    gain [feedback ^ (k + 1)]. *)
Definition echoed (x feedback : num) (taps : nat) (dry : num) : num :=
  foldl (λ acc k, (acc + x * feedbackAt feedback k)%num) dry (seq 0 taps).

(** The output of the delay after [taps] taps at a delay of [D] frames. *)
Definition delayedAt (d : list num) (D : nat) (feedback : num) (taps p : nat)
  : num :=
  if bool_decide (D ≤ p < D + length d)%nat
  then echoed (getn d (p - D)) feedback taps (dryAt d p)
  else dryAt d p.

(** A buffer in the nominal range: every sample lies in [[-1, 1]]. *)
Definition nominal_buffer (b : AudioBuffer) : Prop :=
  ∀ c i x, sample b c i = Some x → in_unit x.

(** Two peaks more than [w] frames apart, the earlier one first. *)
Definition peaks_apart (w : Z) (p q : MLProcessor.Peak) : Prop :=
  ∃ j j', MLProcessor.index p = nZ j ∧ MLProcessor.index q = nZ j' ∧ j + w < j'.

(** No sample from [w] frames before frame [j] to [w - 1] frames after it is
    larger in absolute value than the sample at [j]. *)
Definition local_maximum (data : list num) (w j : Z) : Prop :=
  ∀ m, j - w ≤ m < j + w →
       (Math_abs (get data m) >? Math_abs (get data j))%num = false.

(** A random source whose draws lie in [[0, 1)], as those of [Math.random]
    do. *)
Definition unit_draws (r : rng) : Prop := ∀ n, (0 <= r n)%Qc ∧ (r n < 1)%Qc.

(** A computation that returns a value satisfying [P] whenever the draws lie
    in [[0, 1)]. *)
Definition unit_ok {A : Type} (P : A → Prop) (m : Rand A) : Prop :=
  ∀ r, unit_draws r → ∃ a r', m r = Ok (a, r') ∧ unit_draws r' ∧ P a.

(** [x'] is finite when [x] is, and differs from it by at most the fraction
    [d] of its magnitude. *)
Definition within (d : Qc) (x x' : num) : Prop :=
  ∀ q, x = Fin q →
       ∃ q', x' = Fin q' ∧ (Qcabs (q' - q) <= d * Qcabs q)%Qc.

(** The weight of a feature under the focus of a variation: 2 for the
    feature in focus, 1 for the others. *)
Definition focusWeight (options : MLProcessor.Options)
    (field : MLProcessor.Focus) : Qc :=
  if bool_decide (default MLProcessor.balanced (MLProcessor.focus options)
                  = field)
  then QcZ 2 else QcZ 1.

(** What the mutation of amount [a] may do to a peak: the time is kept, the
    value moves by at most 10 % of [a], and the frame by at most 2 % of [a],
    rounded down. *)
Definition mutated_peak (a : Qc) (p p' : MLProcessor.Peak) : Prop :=
  MLProcessor.time p' = MLProcessor.time p ∧
  within (qc 1 10 * a) (MLProcessor.value p) (MLProcessor.value p') ∧
  ∀ j, MLProcessor.index p = nZ j →
       ∃ j', MLProcessor.index p' = nZ j' ∧
             (Qcabs (QcZ j' - QcZ j) <= qc 2 100 * a * Qcabs (QcZ j) + 1)%Qc.

(** What the mutation of amount [a] may do to a feature set: five features
    are kept, six move within their ranges (doubled for the feature in
    focus), and the peaks are touched only for a loop. *)
Definition bounded_mutation (a : Qc) (options : MLProcessor.Options)
    (isLoop : bool) (features modified : MLProcessor.FeatureSet) : Prop :=
  MLProcessor.peakValue modified = MLProcessor.peakValue features ∧
  MLProcessor.peakIndex modified = MLProcessor.peakIndex features ∧
  MLProcessor.duration modified = MLProcessor.duration features ∧
  MLProcessor.dynamicRange modified = MLProcessor.dynamicRange features ∧
  MLProcessor.transientDensity modified
  = MLProcessor.transientDensity features ∧
  within (qc 7 10 * a * focusWeight options MLProcessor.attack)
    (MLProcessor.attackTime features) (MLProcessor.attackTime modified) ∧
  within (qc 8 10 * a * focusWeight options MLProcessor.decay)
    (MLProcessor.decayTime features) (MLProcessor.decayTime modified) ∧
  within (qc 6 10 * a * focusWeight options MLProcessor.sustain)
    (MLProcessor.sustainLevel features) (MLProcessor.sustainLevel modified) ∧
  within (qc 9 10 * a * focusWeight options MLProcessor.release)
    (MLProcessor.releaseTime features) (MLProcessor.releaseTime modified) ∧
  within (qc 6 10 * a * focusWeight options MLProcessor.tone)
    (MLProcessor.spectralCentroid features)
    (MLProcessor.spectralCentroid modified) ∧
  within ((if isLoop then qc 2 10 else qc 4 10) * a)
    (MLProcessor.energy features) (MLProcessor.energy modified) ∧
  (if isLoop
   then Forall2 (mutated_peak a) (MLProcessor.significantPeaks features)
          (MLProcessor.significantPeaks modified)
   else MLProcessor.significantPeaks modified
        = MLProcessor.significantPeaks features).

(** The source [r'] is what is left of the source [r] after [n] draws. *)
Definition draws_consumed (n : nat) (r r' : rng) : Prop :=
  ∀ k, r' k = r (n + k)%nat.

(** A computation that returns, from every source, a value satisfying [P]
    after exactly [n] draws. *)
Definition draws_ok {A : Type} (n : nat) (P : A → Prop) (m : Rand A) : Prop :=
  ∀ r, ∃ a r', m r = Ok (a, r') ∧ draws_consumed n r r' ∧ P a.

(** The number of draws of one mutation: six for the features, and two for
    each peak of a loop. *)
Definition mutationDraws (isLoop : bool) (features : MLProcessor.FeatureSet) :
    nat :=
  6 + (if isLoop then 2 * length (MLProcessor.significantPeaks features)
       else 0).

(** What no mutation touches: peak value and index, duration, dynamic range
    and transient density; the number of the peaks and the time of each; and
    the peaks altogether unless the sample is a loop. *)
Definition kept_by_mutation (isLoop : bool)
    (features modified : MLProcessor.FeatureSet) : Prop :=
  MLProcessor.peakValue modified = MLProcessor.peakValue features ∧
  MLProcessor.peakIndex modified = MLProcessor.peakIndex features ∧
  MLProcessor.duration modified = MLProcessor.duration features ∧
  MLProcessor.dynamicRange modified = MLProcessor.dynamicRange features ∧
  MLProcessor.transientDensity modified
  = MLProcessor.transientDensity features ∧
  Forall2 (λ p p', MLProcessor.time p' = MLProcessor.time p)
    (MLProcessor.significantPeaks features)
    (MLProcessor.significantPeaks modified) ∧
  (isLoop = false →
   MLProcessor.significantPeaks modified
   = MLProcessor.significantPeaks features).

(** Peaks that sit on whole frames, as those that the extraction finds. *)
Definition whole_frames (peaks : list MLProcessor.Peak) : Prop :=
  Forall (λ p, ∃ j, MLProcessor.index p = nZ j) peaks.

(** ** Inputs for the feature properties *)

(** Two seconds and one frame at 3 kHz, mono: one full-scale swing, then
    silence. *)
Definition longHit : AudioBuffer :=
  mkBuffer (QcZ 3000) (Z.to_nat 6001)
    [[Fin 1%Qc; Fin (-1)%Qc] ++ zeros (Z.to_nat 5999)].

Definition longHitFuel : nat := Z.to_nat 6002.

(** The features of a short loop with two peaks, at frames 100 and 300. *)
Definition twoPeakFeatures : MLProcessor.FeatureSet :=
  MLProcessor.mkFeatures (nq 1 441) (nq 1 1000) (nq 1 2) (nq 1 1500)
    (nq 21 64) (nZ 750) (Fin 1%Qc) 100 (nq 1 100) (nq 5 4) (nZ 200)
    [MLProcessor.mkPeak (nZ 100) (Fin 1%Qc) (nq 1 441);
     MLProcessor.mkPeak (nZ 300) (nq 3 4) (nq 3 441)].

(** * A session with the hook

    The callbacks of [useHybridAudioProcessor] as transitions of its state.
    A file is taken at the point where the processor has decoded it; every
    call of [generateVariations] comes with the random draws that it
    consumes. *)

Module Session.
Section WithMath.
Context {ML : MathLib}.

(** The state that [useState] sets up. *)
Definition initial : Hook.State :=
  Hook.mkState None [] false None (nq 5 10) false.

(** [setProcessingBalance]: [setMlBalance(Math.max(0, Math.min(1, balance)))]. *)
Definition setProcessingBalance (st : Hook.State) (balance : num)
  : Hook.State :=
  Hook.mkState (Hook.originalSample st) (Hook.variations st)
    (Hook.isProcessing st) (Hook.error st)
    (Math_max (nZ 0) (Math_min (nZ 1) balance)) (Hook.isLoop st).

(** [loadAudioFile] from the decoded buffer on.  The sample is stored before
    the features are extracted, so that an exception of the extraction
    leaves the new sample with the old variations and the old
    classification. *)
Definition loadAudioFile (fuel : nat) (st : Hook.State) (buffer : AudioBuffer)
  : option Hook.State :=
  match Hook.loadSample fuel st buffer with
  | Ok st' => Some st'
  | Throw e =>
      Some (Hook.mkState (Some buffer) (Hook.variations st) false
              (Some (Hook.Raised e)) (Hook.mlBalance st) (Hook.isLoop st))
  | OutOfFuel => None
  end.

Inductive Action : Type :=
  | SetBalance (balance : num)
  | Load (buffer : AudioBuffer)
  | Generate (draws : rng).

Definition step (fuel : nat) (st : Hook.State) (a : Action)
  : option Hook.State :=
  match a with
  | SetBalance balance => Some (setProcessingBalance st balance)
  | Load buffer => loadAudioFile fuel st buffer
  | Generate draws => Hook.generateVariations fuel st draws
  end.

Definition run (fuel : nat) (st : Hook.State) (actions : list Action)
  : option Hook.State :=
  foldlM (step fuel) st actions.

End WithMath.
End Session.

(** ** The vocabulary of the session properties *)

(** The lengths of the eight variations of the hook, in order: the reverb
    variation carries the tail, and so does the last one for a loop. *)
Definition hookLengths (sample : AudioBuffer) (isLoop : bool) : list nat :=
  let n := blength sample in
  [n; n; n; n; n; n; extended sample; if isLoop then extended sample else n].

(** The lengths of the eight variations of the effect library, in order. *)
Definition processorLengths (sample : AudioBuffer) (isLoop : bool) : list nat :=
  let n := blength sample in
  let t := extended sample in
  [n; n; n; n; t; t; t; if isLoop then t else n].

(** An action that the hook can carry out within the fuel: a balance that
    is a number, a well-formed sample whose loops fit in the fuel. *)
Definition feasible (fuel : nat) (a : Session.Action) : Prop :=
  match a with
  | Session.SetBalance balance => balance ≠ NaN
  | Session.Load buffer =>
      wf_buffer buffer ∧
      Z.of_nat (blength buffer) + Qcfloor (sampleRate buffer) < Z.of_nat fuel
  | Session.Generate _ => True
  end.

(** What every state of a session satisfies. *)
Definition consistent (fuel : nat) (st : Hook.State) : Prop :=
  (∃ β, Hook.mlBalance st = Fin β ∧ (0 <= β)%Qc ∧ (β <= 1)%Qc) ∧
  Hook.isProcessing st = false ∧
  (Hook.error st = None ∨ Hook.error st = Some Hook.NoSampleLoadedMsg) ∧
  match Hook.originalSample st with
  | None => Hook.variations st = []
  | Some sample =>
      wf_buffer sample ∧
      Z.of_nat (blength sample) + Qcfloor (sampleRate sample) < Z.of_nat fuel ∧
      (Hook.variations st = [] ∨
       Forall2 (shaped sample) (hookLengths sample (Hook.isLoop st))
         (Hook.variations st))
  end.

(** * The waveform display ([WaveformVisualizer],
      src/lib/waveformVisualizer.js)

    The canvas is taken by its width, a non-negative integer.  The inner
    loop of [generateWaveformData] runs while
    [j < samplesPerPixel && startSample + j < channelData.length]; both tests
    fail for good once they fail, and the second one fails from
    [j = channelData.length] on at the latest, so that the loop is the
    guarded iteration over [j < channelData.length]. *)

Module WaveformVisualizer.

Record WaveformData : Type := mkWaveformData {
  min : list num;
  max : list num
}.

(** The smallest and the largest sample of the pixel that starts at
    [startSample], zero included. *)
Definition pixelRange (channelData : list num)
    (samplesPerPixel startSample : num) : num * num :=
  for_range 0 (length channelData)
    (λ j '(min, max),
       if (nN j <? samplesPerPixel)%num
          && (startSample + nN j <? nN (length channelData))%num
       then
         let sample := get_at channelData (startSample + nN j)%num in
         let min := if (sample <? min)%num then sample else min in
         let max := if (sample >? max)%num then sample else max in
         (min, max)
       else (min, max))
    (Fin 0%Qc, Fin 0%Qc).

Definition generateWaveformData (buffer : AudioBuffer) (width : nat)
  : Outcome WaveformData :=
  channelData ← getChannelData buffer 0;
  let numSamples := width in
  let samplesPerPixel :=
    Math_floor (nN (length channelData) / nN numSamples)%num in
  mret
    (for_range 0 numSamples
       (λ i waveformData,
          let startSample := (nN i * samplesPerPixel)%num in
          let '(min, max) := pixelRange channelData samplesPerPixel startSample in
          mkWaveformData (<[i := min]> (WaveformVisualizer.min waveformData))
            (<[i := max]> (WaveformVisualizer.max waveformData)))
       (mkWaveformData (replicate numSamples (Fin 0%Qc))
          (replicate numSamples (Fin 0%Qc)))).

End WaveformVisualizer.

(** ** The vocabulary of the display properties *)

(** The samples that pixel [i] stands for when every pixel covers [k]
    samples. *)
Definition pixelSample (data : list num) (k i : nat) (x : Qc) : Prop :=
  ∃ j, (j < k)%nat ∧ data !! (i * k + j)%nat = Some (Fin x).

(** A feature set that the resynthesis can work from: the envelope
    parameters are numbers, the energy is not negative, and every peak sits
    at a whole frame. *)
Definition finite_features (f : MLProcessor.FeatureSet) : Prop :=
  is_finite (MLProcessor.attackTime f) = true ∧
  is_finite (MLProcessor.decayTime f) = true ∧
  is_finite (MLProcessor.sustainLevel f) = true ∧
  is_finite (MLProcessor.releaseTime f) = true ∧
  is_finite (MLProcessor.spectralCentroid f) = true ∧
  is_finite (MLProcessor.peakValue f) = true ∧
  (∃ e, MLProcessor.energy f = Fin e ∧ (0 <= e)%Qc) ∧
  Forall (λ p, ∃ j, MLProcessor.index p = nZ j)
    (MLProcessor.significantPeaks f).

(** A well-formed buffer of [n] frames with the rate and the channel count
    of [b], whose every sample is a finite number. *)
Definition finite_shaped (b : AudioBuffer) (n : nat) (b' : AudioBuffer)
  : Prop :=
  shaped b n b' ∧ finite_buffer b'.

(** An action of a session on nominal data: the samples that are loaded lie
    in [[-1, 1]], and the draws of a generation lie in [[0, 1)]. *)
Definition finite_action (a : Session.Action) : Prop :=
  match a with
  | Session.SetBalance _ => True
  | Session.Load buffer => nominal_buffer buffer
  | Session.Generate draws => unit_draws draws
  end.

(** A state whose sample lies in [[-1, 1]] and whose variations hold finite
    numbers only. *)
Definition finite_state (st : Hook.State) : Prop :=
  from_option nominal_buffer True (Hook.originalSample st) ∧
  Forall finite_buffer (Hook.variations st).

(** * Properties *)

(** Closed equations between computed values are settled by evaluating the
    decision procedure of equality. *)
Ltac decide_eq := apply (bool_decide_eq_true_1 _); vm_compute; reflexivity.

(** ** Rational arithmetic *)

Lemma Qc_eq_iff (x y : Qc) : x = y ↔ (this x == this y)%Q.
Proof. split; [intros ->; reflexivity | apply Qc_is_canon]. Qed.

(** Turn a goal over [Qc] into one over [Q], where [lra] applies. *)
Ltac qcq :=
  rewrite ?Qc_eq_iff in *;
  unfold QcN, QcZ, qc, Qclt, Qcle, Qcminus, Qcdiv, Qcplus, Qcmult, Qcopp,
    Qcinv, Q2Qc in *;
  cbn [this] in *; rewrite ?Qred_correct in *.

Lemma Qcltb_spec (x y : Qc) : Qcltb x y = true ↔ (x < y)%Qc.
Proof. unfold Qcltb. apply bool_decide_eq_true. Qed.

Lemma Qcltb_false (x y : Qc) : Qcltb x y = false ↔ (y <= x)%Qc.
Proof.
  unfold Qcltb. rewrite bool_decide_eq_false. split.
  - apply Qcnot_lt_le.
  - apply Qcle_not_lt.
Qed.

Lemma Qcleb_spec (x y : Qc) : Qcleb x y = true ↔ (x <= y)%Qc.
Proof. unfold Qcleb. apply bool_decide_eq_true. Qed.

Lemma Qcleb_false (x y : Qc) : Qcleb x y = false ↔ (y < x)%Qc.
Proof.
  unfold Qcleb. rewrite bool_decide_eq_false. split.
  - apply Qcnot_le_lt.
  - apply Qclt_not_le.
Qed.

Lemma Qceqb_spec (x y : Qc) : Qceqb x y = true ↔ x = y.
Proof. unfold Qceqb. apply bool_decide_eq_true. Qed.

Lemma Qceqb_false (x y : Qc) : Qceqb x y = false ↔ x ≠ y.
Proof. unfold Qceqb. apply bool_decide_eq_false. Qed.

Lemma Qceqb_refl (x : Qc) : Qceqb x x = true.
Proof. by apply Qceqb_spec. Qed.

Lemma Qcltb_irrefl (x : Qc) : Qcltb x x = false.
Proof. apply Qcltb_false, Qcle_refl. Qed.

Lemma Qcleb_refl (x : Qc) : Qcleb x x = true.
Proof. apply Qcleb_spec, Qcle_refl. Qed.

(** Case analysis on the comparisons that occur in a goal. *)
Ltac qcases :=
  repeat match goal with
  | |- context [Qcltb ?x ?y] =>
      let E := fresh "E" in
      destruct (Qcltb x y) eqn:E;
      [apply Qcltb_spec in E | apply Qcltb_false in E]
  | |- context [Qcleb ?x ?y] =>
      let E := fresh "E" in
      destruct (Qcleb x y) eqn:E;
      [apply Qcleb_spec in E | apply Qcleb_false in E]
  | |- context [Qceqb ?x ?y] =>
      let E := fresh "E" in
      destruct (Qceqb x y) eqn:E;
      [apply Qceqb_spec in E | apply Qceqb_false in E]
  end.

Lemma this_QcZ (z : Z) : (this (QcZ z) == inject_Z z)%Q.
Proof. unfold QcZ. cbn [this Q2Qc]. apply Qred_correct. Qed.

Lemma Qcfloor_QcZ (z : Z) : Qcfloor (QcZ z) = z.
Proof.
  unfold Qcfloor. erewrite Qfloor_comp by apply this_QcZ. apply Qfloor_Z.
Qed.

Lemma QcZ_add (a b : Z) : QcZ (a + b) = (QcZ a + QcZ b)%Qc.
Proof. qcq. rewrite inject_Z_plus. reflexivity. Qed.

Lemma QcZ_mul (a b : Z) : QcZ (a * b) = (QcZ a * QcZ b)%Qc.
Proof. qcq. rewrite inject_Z_mult. reflexivity. Qed.

Lemma QcZ_opp (a : Z) : QcZ (- a) = (- QcZ a)%Qc.
Proof. qcq. rewrite inject_Z_opp. reflexivity. Qed.

Lemma QcZ_lt (a b : Z) : (QcZ a < QcZ b)%Qc ↔ a < b.
Proof. qcq. rewrite Zlt_Qlt. reflexivity. Qed.

Lemma QcZ_le (a b : Z) : (QcZ a <= QcZ b)%Qc ↔ a ≤ b.
Proof. qcq. rewrite Zle_Qle. reflexivity. Qed.

Lemma QcZ_inj (a b : Z) : QcZ a = QcZ b → a = b.
Proof.
  intros H. apply Z.le_antisymm; apply QcZ_le; rewrite H; apply Qcle_refl.
Qed.

Lemma Qcfloor_le (x : Qc) : (QcZ (Qcfloor x) <= x)%Qc.
Proof. unfold Qcfloor. qcq. apply Qfloor_le. Qed.

Lemma Qcfloor_lt (x : Qc) : (x < QcZ (Qcfloor x + 1))%Qc.
Proof. unfold Qcfloor. qcq. apply Qlt_floor. Qed.

Lemma Qcfloor_unique (x : Qc) (z : Z) :
  (QcZ z <= x)%Qc → (x < QcZ (z + 1))%Qc → Qcfloor x = z.
Proof.
  intros Hl Hu.
  pose proof (Qcfloor_le x) as Hl'. pose proof (Qcfloor_lt x) as Hu'.
  assert (z < Qcfloor x + 1).
  { apply QcZ_lt. eapply Qcle_lt_trans; eassumption. }
  assert (Qcfloor x < z + 1).
  { apply QcZ_lt. eapply Qcle_lt_trans; eassumption. }
  lia.
Qed.

Lemma Qcfloor_mono (x y : Qc) : (x <= y)%Qc → Qcfloor x ≤ Qcfloor y.
Proof. intros H. unfold Qcfloor. apply Qfloor_resp_le. exact H. Qed.

Lemma Qcpow2_pos (z : Z) : (0 < Qcpow2 z)%Qc.
Proof.
  assert (Hp : ∀ p, (0 < QcZ (2 ^ Z.pos p))%Qc).
  { intros p. change 0%Qc with (QcZ 0). apply QcZ_lt. lia. }
  destruct z as [|p|p]; cbn [Qcpow2].
  - reflexivity.
  - apply Hp.
  - specialize (Hp p). revert Hp. generalize (QcZ (2 ^ Z.pos p)). intros q Hq.
    qcq. apply Qinv_lt_0_compat. exact Hq.
Qed.

Lemma Qcpow2_nonneg_ge1 (z : Z) : 0 ≤ z → (1 <= Qcpow2 z)%Qc.
Proof.
  intros Hz. destruct z as [|p|p]; cbn [Qcpow2]; [apply Qcle_refl| |lia].
  change 1%Qc with (QcZ 1). apply QcZ_le.
  pose proof (Z.pow_pos_nonneg 2 (Z.pos p)). lia.
Qed.



(** ** The reference instance *)

Lemma ref_exp2_int (z : Z) : ref_exp2 (QcZ z) = Qcpow2 z.
Proof. unfold ref_exp2. rewrite Qcfloor_QcZ. ring. Qed.

Lemma ref_frac_bounds (x : Qc) :
  (0 <= x - QcZ (Qcfloor x))%Qc ∧ (x - QcZ (Qcfloor x) < 1)%Qc.
Proof.
  pose proof (Qcfloor_le x) as Hl. pose proof (Qcfloor_lt x) as Hu.
  rewrite QcZ_add in Hu. change (QcZ 1) with 1%Qc in Hu.
  revert Hl Hu. generalize (QcZ (Qcfloor x)). intros f Hl Hu.
  split; qcq; lra.
Qed.

Lemma ref_exp2_pos (x : Qc) : (0 < ref_exp2 x)%Qc.
Proof.
  unfold ref_exp2. destruct (ref_frac_bounds x) as [Hl Hu].
  apply Qcmult_pos_pos; [apply Qcpow2_pos|].
  revert Hl Hu. generalize (x - QcZ (Qcfloor x))%Qc. intros f Hl Hu.
  qcq; lra.
Qed.

Lemma ref_sqrt_0 : ref_sqrt 0 = 0%Qc.
Proof. apply Qc_is_canon. vm_compute. reflexivity. Qed.

Lemma ref_sqrt_1 : ref_sqrt 1 = 1%Qc.
Proof. apply Qc_is_canon. vm_compute. reflexivity. Qed.

Lemma ref_tanh_0 : ref_tanh 0 = 0%Qc.
Proof. apply Qc_is_canon. vm_compute. reflexivity. Qed.

Lemma ref_exp_0 : ref_exp 0 = 1%Qc.
Proof. apply Qc_is_canon. vm_compute. reflexivity. Qed.

(** The reference functions satisfy every fact the development relies on. *)
#[export] Instance ref_math : MathLib := {|
  sqrt_q := ref_sqrt;
  tanh_q := ref_tanh;
  exp_q := ref_exp;
  exp2_q := ref_exp2;
  sqrt_q_0 := ref_sqrt_0;
  sqrt_q_1 := ref_sqrt_1;
  tanh_q_0 := ref_tanh_0;
  exp_q_0 := ref_exp_0;
  exp2_q_int := λ z _, ref_exp2_int z;
  exp2_q_pos := ref_exp2_pos
|}.

(** ** Loops *)

Lemma for_range_nil {S : Type} (lo hi : nat) (body : nat → S → S) (s : S) :
  (hi ≤ lo)%nat → for_range lo hi body s = s.
Proof.
  intros H. unfold for_range. replace (hi - lo)%nat with O by lia. reflexivity.
Qed.

Lemma for_range_first {S : Type} (lo hi : nat) (body : nat → S → S) (s : S) :
  (lo < hi)%nat →
  for_range lo hi body s = for_range (Datatypes.S lo) hi body (body lo s).
Proof.
  intros H. unfold for_range.
  replace (hi - lo)%nat with (Datatypes.S (hi - Datatypes.S lo)) by lia.
  reflexivity.
Qed.

Lemma for_range_last {S : Type} (lo hi : nat) (body : nat → S → S) (s : S) :
  (lo ≤ hi)%nat →
  for_range lo (Datatypes.S hi) body s = body hi (for_range lo hi body s).
Proof.
  intros H. unfold for_range.
  replace (Datatypes.S hi - lo)%nat with (Datatypes.S (hi - lo)) by lia.
  rewrite seq_S, foldl_app. cbn [foldl].
  replace (lo + (hi - lo))%nat with hi by lia. reflexivity.
Qed.

(** A loop preserves every invariant that its body preserves. *)
Lemma for_range_inv {S : Type} (P : nat → S → Prop) (lo hi : nat)
    (body : nat → S → S) (s : S) :
  (lo ≤ hi)%nat →
  P lo s →
  (∀ i s, (lo ≤ i < hi)%nat → P i s → P (Datatypes.S i) (body i s)) →
  P hi (for_range lo hi body s).
Proof.
  intros Hle H0 Hstep. induction hi as [|hi IH].
  - assert (lo = O) by lia. subst. rewrite for_range_nil by lia. exact H0.
  - destruct (decide (lo = Datatypes.S hi)) as [->|Hne].
    + rewrite for_range_nil by lia. exact H0.
    + rewrite for_range_last by lia. apply Hstep; [lia|].
      apply IH; [lia|]. intros i s' Hi. apply Hstep. lia.
Qed.

Lemma for_range_inv' {S : Type} (P : S → Prop) (lo hi : nat)
    (body : nat → S → S) (s : S) :
  P s →
  (∀ i s, (lo ≤ i < hi)%nat → P s → P (body i s)) →
  P (for_range lo hi body s).
Proof.
  intros H0 Hstep. destruct (decide (lo ≤ hi)%nat) as [Hle|Hgt].
  - apply (for_range_inv (λ _, P)); auto.
  - rewrite for_range_nil by lia. exact H0.
Qed.

Lemma for_range_ext {S : Type} (lo hi : nat) (f g : nat → S → S) (s : S) :
  (∀ i s, (lo ≤ i < hi)%nat → f i s = g i s) →
  for_range lo hi f s = for_range lo hi g s.
Proof.
  intros H. destruct (decide (lo ≤ hi)%nat) as [Hle|Hgt].
  - induction hi as [|hi IH].
    + rewrite !for_range_nil by lia. reflexivity.
    + destruct (decide (lo = Datatypes.S hi)) as [->|Hne].
      * rewrite !for_range_nil by lia. reflexivity.
      * rewrite !for_range_last by lia. rewrite IH; [|intros; apply H; lia|lia].
        apply H. lia.
  - rewrite !for_range_nil by lia. reflexivity.
Qed.

Lemma written_length g n out : length (written g n out) = length out.
Proof. unfold written. apply length_imap. Qed.

Lemma written_lookup g n out i :
  written g n out !! i =
  (λ x, if bool_decide (i < n)%nat then default x (g i) else x) <$> out !! i.
Proof. unfold written. apply list_lookup_imap. Qed.

Lemma for_range_written (g : nat → option num) (n : nat)
    (body : nat → list num → list num) (out : list num) :
  (∀ i out, (i < n)%nat →
     body i out = match g i with Some v => <[i := v]> out | None => out end) →
  for_range 0 n body out = written g n out.
Proof.
  intros Hbody. induction n as [|n IH].
  - rewrite for_range_nil by lia. unfold written.
    apply list_eq. intros i. rewrite list_lookup_imap.
    destruct (out !! i); reflexivity.
  - rewrite for_range_last by lia. rewrite IH by (intros; apply Hbody; lia).
    rewrite Hbody by lia.
    apply list_eq. intros i.
    destruct (g n) as [v|] eqn:Eg.
    + destruct (decide (i = n)) as [->|Hne].
      * destruct (decide (n < length out)%nat) as [Hlt|Hge].
        -- rewrite list_lookup_insert_eq by (rewrite written_length; lia).
           rewrite written_lookup.
           destruct (lookup_lt_is_Some_2 out n Hlt) as [x Hx]. rewrite Hx. cbn.
           rewrite bool_decide_eq_true_2 by lia. rewrite Eg. reflexivity.
        -- rewrite list_insert_ge by (rewrite written_length; lia).
           rewrite !written_lookup. rewrite lookup_ge_None_2 by lia. reflexivity.
      * rewrite list_lookup_insert_ne by auto. rewrite !written_lookup.
        destruct (out !! i); cbn; [|reflexivity].
        repeat case_bool_decide; try lia; reflexivity.
    + rewrite !written_lookup. destruct (out !! i); cbn; [|reflexivity].
      repeat case_bool_decide; try lia; try reflexivity.
      assert (i = n) by lia. subst. rewrite Eg. reflexivity.
Qed.

Lemma while_fuel_mono {S : Type} (fuel fuel' : nat) (cond : S → bool)
    (body : S → S) (s s' : S) :
  while fuel cond body s = Some s' → (fuel ≤ fuel')%nat →
  while fuel' cond body s = Some s'.
Proof.
  revert fuel' s. induction fuel as [|fuel IH]; intros fuel' s H Hle; [done|].
  destruct fuel' as [|fuel']; [lia|]. cbn in *.
  destruct (cond s); [|done]. apply IH; [done|lia].
Qed.

Lemma while_final {S : Type} (fuel : nat) (cond : S → bool)
    (body : S → S) (s s' : S) :
  while fuel cond body s = Some s' → cond s' = false.
Proof.
  revert s. induction fuel as [|fuel IH]; intros s H; [done|]. cbn in H.
  destruct (cond s) eqn:E; [eauto|congruence].
Qed.

(** A loop on fuel preserves every invariant of its body. *)
Lemma while_inv {S : Type} (P : S → Prop) (fuel : nat) (cond : S → bool)
    (body : S → S) (s s' : S) :
  while fuel cond body s = Some s' →
  P s → (∀ s, cond s = true → P s → P (body s)) → P s'.
Proof.
  revert s. induction fuel as [|fuel IH]; intros s H H0 Hstep; [done|].
  cbn in H. destruct (cond s) eqn:E.
  - eapply IH; eauto.
  - congruence.
Qed.

(** A loop whose measure decreases at every iteration terminates within the
    fuel that the measure of its first state allows. *)
Lemma while_terminates {S : Type} (m : S → nat) (cond : S → bool)
    (body : S → S) (P : S → Prop) :
  (∀ s, P s → cond s = true → P (body s) ∧ (m (body s) < m s)%nat) →
  ∀ fuel s, P s → (m s < fuel)%nat → is_Some (while fuel cond body s).
Proof.
  intros Hdec fuel. induction fuel as [|fuel IH]; intros s Hs Hm; [lia|].
  cbn. destruct (cond s) eqn:E; [|eauto].
  destruct (Hdec s Hs E) as [HP Hlt]. apply IH; [done|lia].
Qed.

(** ** Numbers *)

Lemma nmul_1_r (x : num) : (x * Fin 1%Qc)%num = x.
Proof.
  destruct x; cbn; try reflexivity.
  - f_equal. ring.
Qed.

Lemma nmul_0_l (x : num) : is_finite x = true → (Fin 0%Qc * x)%num = Fin 0%Qc.
Proof. destruct x; [|done..]. intros _. cbn. f_equal. ring. Qed.

Lemma nmul_0_r (x : num) : is_finite x = true → (x * Fin 0%Qc)%num = Fin 0%Qc.
Proof. destruct x; [|done..]. intros _. cbn. f_equal. ring. Qed.

Lemma nadd_0_l (x : num) : (Fin 0%Qc + x)%num = x.
Proof. destruct x; cbn; try reflexivity. f_equal. ring. Qed.

Lemma nadd_0_r (x : num) : (x + Fin 0%Qc)%num = x.
Proof. destruct x; cbn; try reflexivity. f_equal. ring. Qed.

Lemma nN_0 : nN 0 = Fin 0%Qc.
Proof. reflexivity. Qed.

Lemma nlt_irrefl (x : num) : (x <? x)%num = false.
Proof. destruct x; cbn; auto using Qcltb_irrefl. Qed.

Lemma to_index_nZ (z : Z) : to_index (nZ z) = Some z.
Proof.
  unfold to_index, nZ. cbn. rewrite Qcfloor_QcZ, Qceqb_refl. reflexivity.
Qed.

Lemma to_index_nN (n : nat) : to_index (nN n) = Some (Z.of_nat n).
Proof. apply to_index_nZ. Qed.

Lemma to_index_Some (x : num) (z : Z) : to_index x = Some z → x = nZ z.
Proof.
  destruct x as [q| | |]; cbn; try done.
  destruct (Qceqb (QcZ (Qcfloor q)) q) eqn:E; [|done].
  intros [= <-]. apply Qceqb_spec in E. unfold nZ. congruence.
Qed.

Lemma QcN_lt (a b : nat) : (QcN a < QcN b)%Qc ↔ (a < b)%nat.
Proof. unfold QcN. rewrite QcZ_lt. lia. Qed.

Lemma QcN_le (a b : nat) : (QcN a <= QcN b)%Qc ↔ (a ≤ b)%nat.
Proof. unfold QcN. rewrite QcZ_le. lia. Qed.

Lemma nlt_nN (a b : nat) : (nN a <? nN b)%num = bool_decide (a < b)%nat.
Proof.
  cbn. unfold Qcltb. apply bool_decide_ext. apply QcN_lt.
Qed.

Lemma nlt_nZ (a b : Z) : (nZ a <? nZ b)%num = bool_decide (a < b).
Proof.
  cbn. unfold Qcltb. apply bool_decide_ext. apply QcZ_lt.
Qed.

Lemma getn_lookup (d : list num) (i : nat) (x : num) :
  d !! i = Some x → getn d i = x.
Proof. unfold getn. intros ->. reflexivity. Qed.

Lemma get_nat (d : list num) (i : nat) : get d (Z.of_nat i) = getn d i.
Proof.
  unfold get. rewrite bool_decide_eq_true_2 by lia. by rewrite Nat2Z.id.
Qed.

Lemma get_at_nN (d : list num) (i : nat) : get_at d (nN i) = getn d i.
Proof. unfold get_at. rewrite to_index_nN. apply get_nat. Qed.

Lemma set_length (d : list num) (i : Z) (v : num) :
  length (set d i v) = length d.
Proof. unfold set. case_bool_decide; [apply length_insert|reflexivity]. Qed.

Lemma set_at_length (d : list num) (x v : num) :
  length (set_at d x v) = length d.
Proof. unfold set_at. destruct (to_index x); [apply set_length|reflexivity]. Qed.

(** ** Buffers *)

Lemma createBuffer_ok (nch len : nat) (rate : Qc) :
  (0 < nch)%nat → (0 < len)%nat → supportedRate rate = true →
  createBuffer nch (nN len) rate =
  Ok (mkBuffer rate len (replicate nch (zeros len))).
Proof.
  intros Hn Hl Hr. unfold createBuffer, nN, QcN.
  rewrite Qcfloor_QcZ, Hr, Nat2Z.id.
  rewrite !bool_decide_eq_true_2 by lia. reflexivity.
Qed.

Lemma createBuffer_Z_ok (nch : nat) (len : Z) (rate : Qc) :
  (0 < nch)%nat → 0 < len → supportedRate rate = true →
  createBuffer nch (nZ len) rate =
  Ok (mkBuffer rate (Z.to_nat len) (replicate nch (zeros (Z.to_nat len)))).
Proof.
  intros Hn Hl Hr. unfold createBuffer, nZ.
  rewrite Qcfloor_QcZ, Hr.
  rewrite !bool_decide_eq_true_2 by lia. reflexivity.
Qed.

Lemma wf_zero_buffer (nch len : nat) (rate : Qc) :
  (0 < nch)%nat → (0 < len)%nat → supportedRate rate = true →
  wf_buffer (mkBuffer rate len (replicate nch (zeros len))).
Proof.
  intros. repeat split; cbn; try done.
  - unfold numberOfChannels. cbn. by rewrite length_replicate.
  - apply Forall_replicate. apply length_replicate.
Qed.

Lemma foldlM_app_Outcome {S A : Type} (f : S → A → Outcome S) (s : S)
    (l1 l2 : list A) :
  foldlM f s (l1 ++ l2) = s' ← foldlM f s l1; foldlM f s' l2.
Proof.
  revert s. induction l1 as [|a l1 IH]; intros s; cbn; [reflexivity|].
  destruct (f s a); cbn; auto.
Qed.

(** The channel loop, when the body succeeds on every channel: channel [c]
    of the result is the body's output for channel [c]. *)
Lemma forChannels_ok (buffer processed : AudioBuffer)
    (body : nat → list num → list num → Outcome (list num))
    (f : nat → list num → list num) :
  numberOfChannels processed = numberOfChannels buffer →
  (∀ c out, channelData processed !! c = Some out →
     body c (channel_of buffer c) out = Ok (f c out)) →
  forChannels buffer processed body =
  Ok (mkBuffer (sampleRate processed) (blength processed)
        (imap f (channelData processed))).
Proof.
  intros Hn Hbody. unfold forChannels. rewrite <- Hn.
  set (step := λ (p : AudioBuffer) (channel : nat),
         d ← body channel (channel_of buffer channel) (channel_of p channel);
         mret (setChannelData p channel d)).
  assert (Hgen : ∀ m, (m ≤ numberOfChannels processed)%nat →
    foldlM step processed (seq 0 m) =
    Ok (mkBuffer (sampleRate processed) (blength processed)
          (imap (λ c out, if bool_decide (c < m)%nat then f c out else out)
             (channelData processed)))).
  { induction m as [|m IH]; intros Hm.
    - cbn. f_equal. destruct processed as [r l cs]. cbn. f_equal.
      apply list_eq. intros i. rewrite list_lookup_imap.
      destruct (cs !! i); reflexivity.
    - rewrite seq_S, foldlM_app_Outcome, IH by lia. cbn.
      unfold step at 1. unfold channel_of at 2. cbn.
      rewrite list_lookup_imap.
      destruct (lookup_lt_is_Some_2 (channelData processed) m) as [out Hout];
        [unfold numberOfChannels in Hm; lia|].
      rewrite Hout. cbn. rewrite bool_decide_eq_false_2 by lia.
      rewrite (Hbody _ _ Hout). cbn. unfold setChannelData. cbn. do 2 f_equal.
      apply list_eq. intros i. rewrite list_lookup_imap.
      destruct (decide (i = m)) as [->|Hne].
      + rewrite list_lookup_insert_eq by (rewrite length_imap; eapply lookup_lt_Some; eauto).
        rewrite Hout. cbn. by rewrite bool_decide_eq_true_2 by lia.
      + rewrite list_lookup_insert_ne by auto. rewrite list_lookup_imap.
        destruct (channelData processed !! i); cbn; [|reflexivity].
        repeat case_bool_decide; try lia; reflexivity. }
  rewrite Hgen by lia. do 2 f_equal.
  apply imap_ext. intros i x Hx. rewrite bool_decide_eq_true_2; [done|].
  eapply lookup_lt_Some; eauto.
Qed.

Lemma channel_of_lookup (b : AudioBuffer) (c : nat) (d : list num) :
  channelData b !! c = Some d → channel_of b c = d.
Proof. unfold channel_of. intros ->. reflexivity. Qed.

(** An effect that allocates a buffer of the input's shape and fills every
    channel from the corresponding input channel. *)
Lemma forChannels_fresh (buffer : AudioBuffer) (len : nat)
    (body : nat → list num → list num → Outcome (list num))
    (f : nat → list num → list num) :
  (∀ c d, channelData buffer !! c = Some d →
     body c d (zeros len) = Ok (f c d)) →
  forChannels buffer
    (mkBuffer (sampleRate buffer) len
       (replicate (numberOfChannels buffer) (zeros len))) body =
  Ok (mkBuffer (sampleRate buffer) len (imap f (channelData buffer))).
Proof.
  intros Hbody.
  rewrite (forChannels_ok _ _ _ (λ c _, f c (channel_of buffer c))).
  - cbn. do 2 f_equal. apply list_eq. intros i. rewrite !list_lookup_imap.
    destruct (decide (i < numberOfChannels buffer)%nat) as [Hlt|Hge].
    + rewrite lookup_replicate_2 by done.
      destruct (lookup_lt_is_Some_2 (channelData buffer) i Hlt) as [d Hd].
      rewrite Hd. cbn. by rewrite (channel_of_lookup _ _ _ Hd).
    + rewrite (lookup_ge_None_2 (replicate _ _)) by (rewrite length_replicate; lia).
      rewrite lookup_ge_None_2 by (unfold numberOfChannels in Hge; lia). done.
  - unfold numberOfChannels. cbn. by rewrite length_replicate.
  - cbn. intros c out [-> Hc]%lookup_replicate.
    destruct (lookup_lt_is_Some_2 (channelData buffer) c Hc) as [d Hd].
    rewrite (channel_of_lookup _ _ _ Hd). by apply Hbody.
Qed.

Lemma fill_indexed (h : nat → num) (n : nat) (out : list num) :
  length out = n →
  for_range 0 n (λ i out, <[i := h i]> out) out = map h (seq 0 n).
Proof.
  intros Hlen.
  rewrite (for_range_written (λ i, Some (h i))) by done.
  apply list_eq. intros i. rewrite written_lookup, list_lookup_fmap.
  destruct (decide (i < n)%nat) as [Hlt|Hge].
  - rewrite lookup_seq_lt by done.
    destruct (lookup_lt_is_Some_2 out i) as [x Hx]; [lia|]. rewrite Hx. cbn.
    by rewrite bool_decide_eq_true_2.
  - rewrite lookup_seq_ge by lia. rewrite lookup_ge_None_2 by lia. done.
Qed.

Lemma fill_map (h : num → num) (d out : list num) :
  length out = length d →
  for_range 0 (length d) (λ i out, <[i := h (getn d i)]> out) out = map h d.
Proof.
  intros Hlen. rewrite (fill_indexed (λ i, h (getn d i))) by done.
  apply list_eq. intros i. rewrite !list_lookup_fmap.
  destruct (decide (i < length d)%nat) as [Hlt|Hge].
  - rewrite lookup_seq_lt by done.
    destruct (lookup_lt_is_Some_2 d i Hlt) as [x Hx]. rewrite Hx. cbn.
    by rewrite (getn_lookup _ _ _ Hx).
  - rewrite lookup_seq_ge by lia. rewrite lookup_ge_None_2 by lia. done.
Qed.

Lemma wf_channel (b : AudioBuffer) (c : nat) (d : list num) :
  wf_buffer b → channelData b !! c = Some d → length d = blength b.
Proof.
  intros (_ & _ & _ & Hall) Hd. rewrite Forall_lookup in Hall. eauto.
Qed.

Lemma zeros_length (n : nat) : length (zeros n) = n.
Proof. apply length_replicate. Qed.

(** ** Bit-depth reduction *)

Section BitCrush.
Context {ML : MathLib}.

Lemma processBitCrush_spec (buffer : AudioBuffer) (bits : num) :
  wf_buffer buffer →
  AudioProcessor.processBitCrush buffer bits =
  Ok (mkBuffer (sampleRate buffer) (blength buffer)
        (map (map (AudioProcessor.crush (Math_pow2 bits))) (channelData buffer))).
Proof.
  intros Hwf. pose proof Hwf as (Hn & Hl & Hr & Hall).
  unfold AudioProcessor.processBitCrush.
  rewrite createBuffer_ok by done. cbn.
  rewrite (forChannels_fresh _ _ _
             (λ _ d, map (AudioProcessor.crush (Math_pow2 bits)) d)).
  - do 2 f_equal. apply list_eq. intros i.
    rewrite list_lookup_imap, list_lookup_fmap. done.
  - intros c d Hd. f_equal. apply fill_map.
    rewrite zeros_length. symmetry. eapply wf_channel; eauto.
Qed.

Lemma Math_pow2_int (b : Z) :
  -1074 ≤ b ≤ 1023 → Math_pow2 (nZ b) = Fin (Qcpow2 b).
Proof.
  intros Hb. unfold Math_pow2, nZ.
  rewrite (proj2 (Qcleb_false (QcZ 1024) (QcZ b))) by (apply (proj2 (QcZ_lt _ _)); lia).
  rewrite (proj2 (Qcleb_false (QcZ b) (QcZ (-1075)))) by (apply (proj2 (QcZ_lt _ _)); lia).
  by rewrite exp2_q_int.
Qed.

(** From 1024 bits on the number of steps is [Infinity]. *)
Lemma Math_pow2_overflow (b : Z) : 1024 ≤ b → Math_pow2 (nZ b) = PInf.
Proof.
  intros Hb. unfold Math_pow2, nZ.
  by rewrite (proj2 (Qcleb_spec (QcZ 1024) (QcZ b))) by (apply (proj2 (QcZ_le _ _)); lia).
Qed.

Lemma Math_pow2_underflow (b : Z) : b ≤ -1075 → Math_pow2 (nZ b) = Fin 0%Qc.
Proof.
  intros Hb. unfold Math_pow2, nZ.
  rewrite (proj2 (Qcleb_false (QcZ 1024) (QcZ b))) by (apply (proj2 (QcZ_lt _ _)); lia).
  by rewrite (proj2 (Qcleb_spec (QcZ b) (QcZ (-1075)))) by (apply (proj2 (QcZ_le _ _)); lia).
Qed.

Lemma crush_finite (s q : Qc) :
  s ≠ 0%Qc →
  AudioProcessor.crush (Fin s) (Fin q) =
  Fin (QcZ (Qcfloor ((q + 1) / QcZ 2 * s)) / s * QcZ 2 - 1)%Qc.
Proof.
  intros Hs. unfold AudioProcessor.crush. cbn.
  assert (Qceqb (QcZ 2) 0 = false) as -> by reflexivity.
  cbn. rewrite (proj2 (Qceqb_false s 0)) by done. cbn.
  f_equal.
Qed.

Lemma Qc_sign_cases (s : Qc) :
  s ≠ 0%Qc →
  (Qcltb s 0 = true ∧ Qcltb 0 s = false ∧ Qceqb s 0 = false) ∨
  (Qcltb s 0 = false ∧ Qcltb 0 s = true ∧ Qceqb s 0 = false).
Proof.
  intros Hs. destruct (Qclt_le_dec s 0) as [Hlt|Hge].
  - left. rewrite Qcltb_spec, Qcltb_false, Qceqb_false. repeat split; try done.
    by apply Qclt_le_weak.
  - right. rewrite Qcltb_spec, Qcltb_false, Qceqb_false. repeat split; try done.
    destruct (Qcle_lt_or_eq _ _ Hge) as [H|H]; [done|congruence].
Qed.

Ltac nsimpl E :=
  repeat (cbn -[Math_floor];
          rewrite ?(proj1 E), ?(proj1 (proj2 E)), ?(proj2 (proj2 E));
          change (Qcltb (QcZ 2) 0) with false;
          change (Qceqb (QcZ 2) 0) with false;
          change (Qcltb 0 (QcZ 2)) with true;
          unfold inf_signed; cbn [Math_floor]).

Lemma crush_PInf (s : Qc) : s ≠ 0%Qc → AudioProcessor.crush (Fin s) PInf = PInf.
Proof.
  intros Hs. unfold AudioProcessor.crush.
  destruct (Qc_sign_cases s Hs) as [E|E]; nsimpl E; reflexivity.
Qed.

Lemma crush_NInf (s : Qc) : s ≠ 0%Qc → AudioProcessor.crush (Fin s) NInf = NInf.
Proof.
  intros Hs. unfold AudioProcessor.crush.
  destruct (Qc_sign_cases s Hs) as [E|E]; nsimpl E; reflexivity.
Qed.

(** With infinitely many steps, or with none, no sample survives: the
    quantised value is [Infinity / Infinity] or [0 / 0]. *)
Lemma crush_PInf_steps (x : num) : AudioProcessor.crush PInf x = NaN.
Proof.
  unfold AudioProcessor.crush. destruct x as [q| | |]; try reflexivity.
  change ((Fin q + nZ 1) / nZ 2)%num with (Fin ((q + QcZ 1) / QcZ 2)).
  cbn [nmul]. unfold inf_signed.
  destruct (Qceqb _ 0); [reflexivity|]. by destruct (Bool.eqb _ _).
Qed.

Lemma crush_zero_steps (x : num) : AudioProcessor.crush (Fin 0%Qc) x = NaN.
Proof.
  unfold AudioProcessor.crush. destruct x as [q| | |]; try reflexivity.
  change ((Fin q + nZ 1) / nZ 2)%num with (Fin ((q + QcZ 1) / QcZ 2)).
  cbn [nmul]. rewrite Qcmult_0_r. reflexivity.
Qed.

(** Reducing twice is reducing once, sample by sample. *)
Lemma crush_idempotent (s : Qc) (x : num) :
  s ≠ 0%Qc →
  AudioProcessor.crush (Fin s) (AudioProcessor.crush (Fin s) x) =
  AudioProcessor.crush (Fin s) x.
Proof.
  intros Hs. destruct x as [q| | |].
  - rewrite !crush_finite by done. f_equal.
    set (k := Qcfloor ((q + 1) / QcZ 2 * s)).
    replace ((QcZ k / s * QcZ 2 - 1 + 1) / QcZ 2 * s)%Qc with (QcZ k).
    + by rewrite Qcfloor_QcZ.
    + change (QcZ 2) with (1 + 1)%Qc. field. split; [done|]. done.
  - by rewrite !crush_PInf.
  - by rewrite !crush_NInf.
  - reflexivity.
Qed.

Lemma wf_map (buffer : AudioBuffer) (h : list num → list num) :
  wf_buffer buffer → (∀ d, length (h d) = length d) →
  wf_buffer (mkBuffer (sampleRate buffer) (blength buffer)
               (map h (channelData buffer))).
Proof.
  intros (Hn & Hl & Hr & Hall) Hh. repeat split; cbn; try done.
  - unfold numberOfChannels in *. cbn. by rewrite length_map.
  - apply Forall_fmap. eapply List.Forall_impl; [|exact Hall].
    cbn. intros d Hd. by rewrite Hh.
Qed.

End BitCrush.

Section BitCrushClaims.
Context {ML : MathLib}.

(** C9. Bit-depth reduction is idempotent: for every buffer and every
    integer bit depth [b], reducing the reduced buffer again at [b] bits
    returns it unchanged. *)
Theorem bitcrush_idempotent (buffer : AudioBuffer) (b : Z) :
  wf_buffer buffer →
  ∃ crushed,
    AudioProcessor.processBitCrush buffer (nZ b) = Ok crushed ∧
    AudioProcessor.processBitCrush crushed (nZ b) = Ok crushed.
Proof.
  intros Hwf. eexists. split; [by apply processBitCrush_spec|].
  rewrite processBitCrush_spec by (apply wf_map; [done|apply length_map]).
  cbn [sampleRate blength channelData].
  do 2 f_equal. rewrite <- list_fmap_compose.
  apply list_fmap_ext. intros _ d _. cbn [compose]. rewrite <- list_fmap_compose.
  apply list_fmap_ext. intros _ x _. cbn [compose].
  destruct (decide (1024 ≤ b)) as [Hover|Hb].
  { rewrite Math_pow2_overflow by done. by rewrite !crush_PInf_steps. }
  destruct (decide (b ≤ -1075)) as [Hunder|Hb'].
  { rewrite Math_pow2_underflow by done. by rewrite !crush_zero_steps. }
  rewrite Math_pow2_int by lia.
  apply crush_idempotent.
  apply not_eq_sym, Qclt_not_eq, Qcpow2_pos.
Qed.

Lemma crush_level (b : Z) (q : Qc) :
  1 ≤ b ≤ 1023 → (- (1) <= q)%Qc → (q <= 1)%Qc →
  ∃ k, 0 ≤ k ≤ 2 ^ b ∧
       AudioProcessor.crush (Math_pow2 (nZ b)) (Fin q) = level b k ∧
       (k = 2 ^ b → q = 1%Qc).
Proof.
  intros Hb Hlo Hhi. rewrite Math_pow2_int by lia.
  rewrite crush_finite by apply not_eq_sym, Qclt_not_eq, Qcpow2_pos.
  exists (Qcfloor ((q + 1) / QcZ 2 * Qcpow2 b)).
  assert (Hp : Qcpow2 b = QcZ (2 ^ b)).
  { destruct b as [|p|p]; [lia|reflexivity|lia]. }
  assert (H2 : 0 < 2 ^ b) by (apply Z.pow_pos_nonneg; lia).
  assert (H2q : (0 < QcZ (2 ^ b))%Qc).
  { change 0%Qc with (QcZ 0). by apply QcZ_lt. }
  set (X := ((q + 1) / QcZ 2)%Qc).
  assert (HX : q = (X * QcZ 2 - 1)%Qc).
  { unfold X. change (QcZ 2) with (1 + 1)%Qc. field. done. }
  assert (HX01 : (0 <= X)%Qc ∧ (X <= 1)%Qc).
  { rewrite HX in Hlo, Hhi. clearbody X. qcq.
    change (inject_Z 2) with 2%Q in *. split; lra. }
  destruct HX01 as [HX0 HX1]. clearbody X. rewrite Hp.
  split; [split|split].
  - change 0 with (Qcfloor (QcZ 0)). apply Qcfloor_mono.
    revert H2q. generalize (QcZ (2 ^ b)). intros p H2q.
    qcq. change (inject_Z 0) with 0%Q.
    apply Qmult_le_0_compat; [done|lra].
  - apply Z.le_trans with (Qcfloor (QcZ (2 ^ b)));
      [|rewrite Qcfloor_QcZ; lia].
    apply Qcfloor_mono.
    revert H2q. generalize (QcZ (2 ^ b)). intros p H2q.
    qcq. apply Qle_trans with (1 * this p)%Q; [|lra].
    apply Qmult_le_compat_r; [done|lra].
  - unfold level. by rewrite Hp.
  - intros Hk.
    pose proof (Qcfloor_le (X * QcZ (2 ^ b))) as Hfl.
    rewrite Hk in Hfl. revert H2q Hfl. generalize (QcZ (2 ^ b)).
    intros p H2q Hfl. rewrite HX. clear HX Hlo Hhi Hk. qcq.
    change (inject_Z 2) with 2%Q.
    assert (1 <= this X)%Q.
    { apply Qmult_le_r with (z := this p); [done|]. lra. }
    lra.
Qed.

Lemma level_fixed (b k : Z) :
  -1074 ≤ b ≤ 1023 →
  AudioProcessor.crush (Math_pow2 (nZ b)) (level b k) = level b k.
Proof.
  intros Hb.
  assert (Hs : Qcpow2 b ≠ 0%Qc) by apply not_eq_sym, Qclt_not_eq, Qcpow2_pos.
  rewrite Math_pow2_int by done. unfold level. rewrite crush_finite by done.
  f_equal.
  replace ((QcZ k / Qcpow2 b * QcZ 2 - 1 + 1) / QcZ 2 * Qcpow2 b)%Qc
    with (QcZ k).
  - by rewrite Qcfloor_QcZ.
  - change (QcZ 2) with (1 + 1)%Qc. field. split; done.
Qed.

Lemma level_inj (b k k' : Z) : level b k = level b k' → k = k'.
Proof.
  assert (Hs : Qcpow2 b ≠ 0%Qc) by apply not_eq_sym, Qclt_not_eq, Qcpow2_pos.
  assert (Hinv : ∀ y,
    ((QcZ y / Qcpow2 b * QcZ 2 - 1 + 1) / QcZ 2 * Qcpow2 b)%Qc = QcZ y).
  { intros y. change (QcZ 2) with (1 + 1)%Qc. field. split; done. }
  unfold level. intros H. apply QcZ_inj.
  rewrite <- (Hinv k), <- (Hinv k'). congruence.
Qed.

(** C10 (amended). For samples in [[-1, 1]] and an integer bit depth [b]
    from 1 to 1023, every output sample of the reduction is one of the
    [2^b + 1] levels [2 k / 2^b - 1] with [0 <= k <= 2^b]; the top level
    [k = 2^b] (the value [+1]) occurs only where the input sample is exactly
    [+1]; the levels are pairwise distinct and each is the output of some
    input in range (itself), so an 8-bit reduction can emit 257 distinct
    values.  From 1024 bits on [Math.pow(2, b)] is [Infinity] and no output
    sample is a level. *)
Theorem bitcrush_levels (buffer : AudioBuffer) (b : Z) :
  wf_buffer buffer → 1 ≤ b ≤ 1023 →
  (∀ c i x, sample buffer c i = Some x → in_unit x) →
  ∃ crushed,
    AudioProcessor.processBitCrush buffer (nZ b) = Ok crushed ∧
    (∀ c i y, sample crushed c i = Some y →
       ∃ k x, 0 ≤ k ≤ 2 ^ b ∧ y = level b k ∧
              sample buffer c i = Some x ∧ (k = 2 ^ b → x = Fin 1%Qc)) ∧
    (∀ k, 0 ≤ k ≤ 2 ^ b →
       in_unit (level b k) ∧
       AudioProcessor.crush (Math_pow2 (nZ b)) (level b k) = level b k) ∧
    (∀ k k', level b k = level b k' → k = k').
Proof.
  intros Hwf Hb Hunit. eexists. split; [by apply processBitCrush_spec|].
  split; [|split].
  - intros c i y. unfold sample. cbn. rewrite list_lookup_fmap.
    destruct (channelData buffer !! c) as [d|] eqn:Hd; cbn; [|done].
    rewrite list_lookup_fmap. destruct (d !! i) as [x|] eqn:Hx; cbn; [|done].
    intros [= <-].
    destruct (Hunit c i x) as (q & -> & Hlo & Hhi).
    { unfold sample. rewrite Hd. cbn. done. }
    destruct (crush_level b q Hb Hlo Hhi) as (k & Hk & Hy & Htop).
    exists k, (Fin q). repeat split; try done; try lia.
    intros ->%Htop. done.
  - intros k Hk. split; [|apply level_fixed; lia].
    eexists. split; [reflexivity|].
    assert (Hp : Qcpow2 b = QcZ (2 ^ b)).
    { destruct b as [|p|p]; [lia|reflexivity|lia]. }
    assert (H2 : 0 < 2 ^ b) by (apply Z.pow_pos_nonneg; lia).
    assert (H2q : (0 < QcZ (2 ^ b))%Qc).
    { change 0%Qc with (QcZ 0). by apply QcZ_lt. }
    assert (H0 : (0 <= QcZ k)%Qc).
    { change 0%Qc with (QcZ 0). apply QcZ_le. lia. }
    assert (H1 : (QcZ k <= QcZ (2 ^ b))%Qc) by (apply (proj2 (QcZ_le _ _)); lia).
    rewrite Hp. revert H2q H0 H1. generalize (QcZ (2 ^ b)) (QcZ k).
    intros p kk H2q H0 H1. qcq. change (inject_Z 2) with 2%Q.
    assert (0 <= this kk / this p)%Q by (apply Qle_shift_div_l; lra).
    assert (this kk / this p <= 1)%Q by (apply Qle_shift_div_r; lra).
    unfold Qdiv in *. split; lra.
  - apply level_inj.
Qed.

End BitCrushClaims.

(** ** Classification *)

Section Classification.
Context {ML : MathLib}.

(** C2. The loop classification is the hard threshold rule: [isLoop] holds
    exactly when there are more than three significant peaks or the duration
    exceeds 2.0 seconds.  It is therefore a function of the pair (number of
    peaks, duration), and it is the value that loading a sample stores. *)
Theorem classification_rule :
  (∀ features,
     MLProcessor.isLikelyLoop features = true ↔
     (3 < length (MLProcessor.significantPeaks features))%nat ∨
     (MLProcessor.duration features >? nq 2 1)%num = true) ∧
  (∀ features d,
     MLProcessor.duration features = Fin d →
     (MLProcessor.isLikelyLoop features = true ↔
      (3 < length (MLProcessor.significantPeaks features))%nat ∨ (QcZ 2 < d)%Qc)) ∧
  (∀ f1 f2,
     length (MLProcessor.significantPeaks f1) =
       length (MLProcessor.significantPeaks f2) →
     MLProcessor.duration f1 = MLProcessor.duration f2 →
     MLProcessor.isLikelyLoop f1 = MLProcessor.isLikelyLoop f2) ∧
  (∀ fuel st buffer st',
     Hook.loadSample fuel st buffer = Ok st' →
     ∃ features,
       MLProcessor.extractFeatures fuel buffer = Ok features ∧
       Hook.isLoop st' = MLProcessor.isLikelyLoop features).
Proof.
  split; [|split; [|split]].
  - intros features. unfold MLProcessor.isLikelyLoop.
    rewrite orb_true_iff, bool_decide_eq_true. reflexivity.
  - intros features d Hd. unfold MLProcessor.isLikelyLoop.
    rewrite orb_true_iff, bool_decide_eq_true, Hd. cbn.
    rewrite Qcltb_spec. reflexivity.
  - intros f1 f2 Hlen Hdur. unfold MLProcessor.isLikelyLoop.
    by rewrite Hlen, Hdur.
  - intros fuel st buffer st'. unfold Hook.loadSample.
    destruct (MLProcessor.extractFeatures fuel buffer) as [features| |];
      cbn; [|done..].
    intros [= <-]. exists features. split; reflexivity.
Qed.

End Classification.

(** ** Pitch shift *)

Section PitchShift.
Context {ML : MathLib}.

Lemma processPitchShift_spec (buffer : AudioBuffer) (semitones : num) :
  wf_buffer buffer →
  AudioProcessor.processPitchShift buffer semitones =
  Ok (mkBuffer (sampleRate buffer) (blength buffer)
        (map (resampled (AudioProcessor.pitchRatio semitones) (blength buffer))
           (channelData buffer))).
Proof.
  intros Hwf. pose proof Hwf as (Hn & Hl & Hr & Hall).
  unfold AudioProcessor.processPitchShift.
  rewrite createBuffer_ok by done. cbn.
  rewrite (forChannels_fresh _ _ _
             (λ _, resampled (AudioProcessor.pitchRatio semitones) (blength buffer))).
  - do 2 f_equal. apply list_eq. intros i.
    rewrite list_lookup_imap, list_lookup_fmap. done.
  - intros c d Hd. f_equal.
    rewrite (for_range_written
               (AudioProcessor.resample d (AudioProcessor.pitchRatio semitones)))
      by done.
    rewrite zeros_length. unfold resampled.
    apply list_eq. intros i. rewrite written_lookup, list_lookup_fmap.
    destruct (decide (i < blength buffer)%nat) as [Hlt|Hge].
    + rewrite lookup_seq_lt by done. unfold zeros.
      rewrite lookup_replicate_2 by done. cbn.
      by rewrite bool_decide_eq_true_2.
    + rewrite lookup_seq_ge by lia. unfold zeros.
      rewrite lookup_ge_None_2 by (rewrite length_replicate; lia). done.
Qed.

(** The ratio of a shift is [Infinity] from 12288 semitones on, and a
    number that is not negative below. *)
Lemma pitchRatio_cases (s : Qc) :
  AudioProcessor.pitchRatio (Fin s) = PInf ∨
  ∃ r, AudioProcessor.pitchRatio (Fin s) = Fin r ∧ (0 <= r)%Qc.
Proof.
  change (AudioProcessor.pitchRatio (Fin s))
    with (Math_pow2 (Fin (s / QcZ 12))).
  unfold Math_pow2. destruct (Qcleb (QcZ 1024) _); [by left|right].
  destruct (Qcleb _ (QcZ (-1075))); eexists; (split; [reflexivity|]).
  - apply Qcle_refl.
  - apply Qclt_le_weak, exp2_q_pos.
Qed.



Lemma resample_PInf (d : list num) (i : nat) :
  AudioProcessor.resample d PInf i = None.
Proof.
  unfold AudioProcessor.resample. cbv zeta.
  unfold nN. cbn [nmul]. unfold inf_signed.
  destruct (decide (i = O)) as [->|Hi]; [reflexivity|].
  assert (Hpos : (0 < QcN i)%Qc) by (apply (QcN_lt 0); lia).
  rewrite (proj2 (Qceqb_false (QcN i) 0)), (proj2 (Qcltb_spec 0 (QcN i)))
    by (done || by apply not_eq_sym, Qclt_not_eq).
  reflexivity.
Qed.

(** The resampler at a finite ratio: it reads the input at the integer part
    [f] of [i * r] and at [f + 1]. *)
Lemma resample_finite (d : list num) (r : Qc) (i : nat) :
  let f := Qcfloor (QcN i * r) in
  let fraction := Fin (QcN i * r - QcZ f)%Qc in
  AudioProcessor.resample d (Fin r) i =
  if bool_decide (f + 1 < Z.of_nat (length d)) then
    Some (get d f * (nZ 1 - fraction) + get d (f + 1) * fraction)%num
  else if bool_decide (f < Z.of_nat (length d)) then Some (get d f)
  else None.
Proof.
  intros f fraction. unfold AudioProcessor.resample.
  change (nN i * Fin r)%num with (Fin (QcN i * r)).
  change (Math_floor (Fin (QcN i * r))) with (nZ f).
  assert (nZ f + nZ 1 = nZ (f + 1))%num as ->.
  { unfold nZ. cbn. by rewrite QcZ_add. }
  unfold nN, QcN. change (Fin (QcZ ?z)) with (nZ z).
  rewrite !nlt_nZ. unfold get_at. rewrite !to_index_nZ.
  reflexivity.
Qed.


Lemma resampled_length (r : num) (n : nat) (d : list num) :
  length (resampled r n d) = n.
Proof. unfold resampled. by rewrite length_map, length_seq. Qed.

Lemma floor_index_nonneg (i : nat) (r : Qc) :
  (0 <= r)%Qc → 0 ≤ Qcfloor (QcN i * r).
Proof.
  intros Hr. change 0 with (Qcfloor (QcZ 0)). apply Qcfloor_mono.
  assert (Hi : (0 <= QcN i)%Qc).
  { change 0%Qc with (QcN 0). apply QcN_le. lia. }
  revert Hi. generalize (QcN i). intros q Hq. qcq.
  change (inject_Z 0) with 0%Q. by apply Qmult_le_0_compat.
Qed.


Lemma floor_index_below (i n : nat) (r : Qc) :
  (0 <= r)%Qc → (r < 1)%Qc → (i < n)%nat → Qcfloor (QcN i * r) < Z.of_nat n.
Proof.
  intros Hr0 Hr1 Hi. apply QcZ_lt.
  eapply Qcle_lt_trans; [apply Qcfloor_le|].
  assert (Hq : (QcN i < QcN n)%Qc) by by apply QcN_lt.
  assert (Hi0 : (0 <= QcN i)%Qc).
  { change 0%Qc with (QcN 0). apply QcN_le. lia. }
  fold (QcN n). revert Hq Hi0. generalize (QcN i) (QcN n). intros a b Hab Ha.
  qcq. nra.
Qed.



Lemma wf_map_len (buffer : AudioBuffer) (h : list num → list num) (n : nat) :
  wf_buffer buffer → (0 < n)%nat →
  (∀ d, d ∈ channelData buffer → length (h d) = n) →
  wf_buffer (mkBuffer (sampleRate buffer) n (map h (channelData buffer))).
Proof.
  intros (Hn & Hl & Hr & Hall) Hpos Hh. repeat split; cbn; try done.
  - unfold numberOfChannels in *. cbn. by rewrite length_map.
  - apply Forall_fmap, Forall_forall. intros d Hd. cbn.
    by apply Hh, list_elem_of_In.
Qed.

Lemma sample_map (buffer : AudioBuffer) (h : list num → list num)
    (r : Qc) (n c i : nat) (d : list num) :
  channelData buffer !! c = Some d →
  sample (mkBuffer r n (map h (channelData buffer))) c i = h d !! i.
Proof.
  intros Hd. unfold sample. cbn. rewrite list_lookup_fmap, Hd. reflexivity.
Qed.


End PitchShift.



Lemma click_wf : wf_buffer click.
Proof. repeat split; try (cbn; lia). repeat constructor. Qed.


Lemma bitcrush_idempotent_witness :
  wf_buffer click ∧
  ∃ crushed,
    AudioProcessor.processBitCrush click (nZ 8) = Ok crushed ∧
    AudioProcessor.processBitCrush crushed (nZ 8) = Ok crushed.
Proof.
  split; [exact click_wf|]. exact (bitcrush_idempotent click 8 click_wf).
Defined.

Lemma click_in_unit (c i : nat) (x : num) :
  sample click c i = Some x → in_unit x.
Proof.
  unfold sample. destruct c as [|c]; cbn; [|by destruct c].
  destruct i as [|[|[|[|i]]]]; cbn; intros [= <-];
    (eexists; split; [reflexivity|]; split; apply Qcleb_spec; reflexivity).
Qed.

Lemma bitcrush_levels_witness :
  wf_buffer click ∧ 1 ≤ 8 ≤ 1023 ∧
  (∀ c i x, sample click c i = Some x → in_unit x) ∧
  ∃ crushed,
    AudioProcessor.processBitCrush click (nZ 8) = Ok crushed ∧
    (∀ c i y, sample crushed c i = Some y →
       ∃ k x, 0 ≤ k ≤ 2 ^ 8 ∧ y = level 8 k ∧
              sample click c i = Some x ∧ (k = 2 ^ 8 → x = Fin 1%Qc)) ∧
    (∀ k, 0 ≤ k ≤ 2 ^ 8 →
       in_unit (level 8 k) ∧
       AudioProcessor.crush (Math_pow2 (nZ 8)) (level 8 k) = level 8 k) ∧
    (∀ k k', level 8 k = level 8 k' → k = k').
Proof.
  split; [exact click_wf|]. split; [lia|]. split; [exact click_in_unit|].
  exact (bitcrush_levels click 8 click_wf ltac:(lia) click_in_unit).
Defined.

(** At 1024 bits the click, whose samples lie in [[-1, 1]], is reduced to
    four [NaN]s, none of which is a level: the number of steps is
    [Infinity], and the quantised value [Infinity / Infinity]. *)
Lemma bitcrush_overflow_counterexample :
  (∀ c i x, sample click c i = Some x → in_unit x) ∧
  AudioProcessor.processBitCrush click (nZ 1024)
  = Ok (mkBuffer (QcZ 44100) 4 [[NaN; NaN; NaN; NaN]]) ∧
  (∀ k, NaN ≠ level 1024 k).
Proof.
  split; [exact click_in_unit|]. split; [decide_eq|]. intros k. discriminate.
Qed.

(** ** Delay *)

Section Delay.
Context {ML : MathLib}.

Lemma tapBody_count inputData delaySamples feedback out cf n :
  AudioProcessor.tapBody inputData delaySamples feedback (out, cf, n) =
  ((AudioProcessor.tapBody inputData delaySamples feedback (out, cf, n)).1.1,
   (cf * feedback)%num, S n).
Proof. reflexivity. Qed.

Lemma tapBody_length inputData delaySamples feedback out cf n :
  length (AudioProcessor.tapBody inputData delaySamples feedback (out, cf, n)).1.1
  = length out.
Proof.
  cbn. apply (for_range_inv' (λ o, length o = length out)); [done|].
  intros i o _ Ho. destruct (_ <? _)%num; [|done].
  by rewrite set_at_length.
Qed.

(** The tap loop stops within [maxTaps] iterations, whatever the feedback. *)
Lemma delayTaps_terminates (fuel : nat) (buffer : AudioBuffer)
    (inputData outputData : list num) (delaySamples feedback : num) :
  (AudioProcessor.maxTaps buffer < fuel)%nat →
  is_Some (AudioProcessor.delayTaps fuel buffer inputData outputData
             delaySamples feedback).
Proof.
  intros Hfuel. unfold AudioProcessor.delayTaps.
  apply (while_terminates
           (λ s : AudioProcessor.tapState, (AudioProcessor.maxTaps buffer - s.2)%nat)
           _ _ (λ _, True)); [|done|cbn; lia].
  intros [[out cf] n] _ Hc. split; [done|].
  unfold AudioProcessor.tapCond in Hc.
  apply andb_true_iff in Hc as [_ Hn%bool_decide_eq_true]. cbn. lia.
Qed.

Lemma delayTaps_spec (fuel : nat) (buffer : AudioBuffer)
    (inputData outputData : list num) (delaySamples feedback : num)
    (out : list num) (cf : num) (n : nat) :
  AudioProcessor.delayTaps fuel buffer inputData outputData delaySamples feedback
  = Some (out, cf, n) →
  (n ≤ AudioProcessor.maxTaps buffer)%nat ∧
  cf = feedbackAt feedback n ∧
  length out = length outputData ∧
  (∀ k, (k < n)%nat → (feedbackAt feedback k >? nq 1 100)%num = true) ∧
  (n = AudioProcessor.maxTaps buffer ∨
   (feedbackAt feedback n >? nq 1 100)%num = false).
Proof.
  intros H. unfold AudioProcessor.delayTaps in H.
  pose proof (while_final _ _ _ _ _ H) as Hfin.
  pose proof (while_inv
    (λ s : AudioProcessor.tapState,
       (s.2 ≤ AudioProcessor.maxTaps buffer)%nat ∧
       s.1.2 = feedbackAt feedback s.2 ∧
       length s.1.1 = length outputData ∧
       (∀ k, (k < s.2)%nat → (feedbackAt feedback k >? nq 1 100)%num = true))
    _ _ _ _ _ H) as Hinv.
  cbn in Hinv. destruct Hinv as (Hle & Hcf & Hlen & Hall).
  - repeat split; try done; lia.
  - intros [[o c] k] Hc (Hle & Hcf & Hlen & Hall).
    unfold AudioProcessor.tapCond in Hc.
    apply andb_true_iff in Hc as [Hgt Hk%bool_decide_eq_true].
    rewrite tapBody_count. cbn [fst snd] in *. repeat split.
    + lia.
    + cbn. by rewrite Hcf.
    + by rewrite tapBody_length.
    + intros j Hj. destruct (decide (j = k)) as [->|Hne].
      * by rewrite <- Hcf.
      * apply Hall. lia.
  - repeat split; try done.
    unfold AudioProcessor.tapCond in Hfin. subst cf.
    apply andb_false_iff in Hfin as [Hfin|Hfin%bool_decide_eq_false].
    + by right.
    + left. lia.
Qed.

Lemma copied_length (inputData outputData : list num) :
  length (copied inputData outputData) = length outputData.
Proof.
  unfold copied. apply (for_range_inv' (λ o, length o = length outputData)); [done|].
  intros i o _ Ho. by rewrite length_insert.
Qed.

Lemma supportedRate_bounds (r : Qc) :
  supportedRate r = true → (QcZ 3000 <= r)%Qc ∧ (r <= QcZ 768000)%Qc.
Proof.
  unfold supportedRate. rewrite andb_true_iff, !Qcleb_spec. done.
Qed.

Lemma tailFrames_pos (buffer : AudioBuffer) :
  supportedRate (sampleRate buffer) = true → 1500 ≤ tailFrames buffer.
Proof.
  intros [Hlo _]%supportedRate_bounds. unfold tailFrames.
  change 1500 with (Qcfloor (QcZ 1500)). apply Qcfloor_mono.
  revert Hlo. generalize (sampleRate buffer). intros r Hlo.
  destruct (AudioProcessor.isLikelyLoop buffer); qcq;
    change (inject_Z 3000) with 3000%Q in Hlo;
    change (inject_Z 1500) with 1500%Q; lra.
Qed.

Lemma extended_length (buffer : AudioBuffer) :
  (nN (blength buffer)
   + Math_floor (Fin (sampleRate buffer) * AudioProcessor.extraTime buffer))%num
  = nZ (Z.of_nat (blength buffer) + tailFrames buffer).
Proof.
  unfold AudioProcessor.extraTime, tailFrames, nZ, nN, QcN.
  destruct (AudioProcessor.isLikelyLoop buffer); cbn; by rewrite QcZ_add.
Qed.

Lemma maxTaps_le_10 (buffer : AudioBuffer) :
  (AudioProcessor.maxTaps buffer ≤ 10)%nat.
Proof. unfold AudioProcessor.maxTaps. destruct (_ buffer); lia. Qed.

Lemma processDelay_spec (fuel : nat) (buffer : AudioBuffer)
    (delayTime feedback : num) :
  wf_buffer buffer → (10 < fuel)%nat →
  let n := Z.to_nat (Z.of_nat (blength buffer) + tailFrames buffer) in
  AudioProcessor.processDelay fuel buffer delayTime feedback =
  Ok (mkBuffer (sampleRate buffer) n
        (map (λ d,
                from_option (λ s : AudioProcessor.tapState, s.1.1) []
                  (AudioProcessor.delayTaps fuel buffer d (copied d (zeros n))
                     (Math_floor (delayTime * Fin (sampleRate buffer))%num)
                     feedback))
           (channelData buffer))).
Proof.
  intros Hwf Hfuel n. pose proof Hwf as (Hn & Hl & Hr & Hall).
  pose proof (tailFrames_pos buffer Hr) as Htail.
  unfold AudioProcessor.processDelay.
  rewrite extended_length, createBuffer_Z_ok by (done || lia). cbn [mbind Outcome_bind].
  fold n.
  rewrite (forChannels_fresh _ _ _
             (λ _ d,
                from_option (λ s : AudioProcessor.tapState, s.1.1) []
                  (AudioProcessor.delayTaps fuel buffer d (copied d (zeros n))
                     (Math_floor (delayTime * Fin (sampleRate buffer))%num)
                     feedback))).
  - do 2 f_equal. apply list_eq. intros i.
    rewrite list_lookup_imap, list_lookup_fmap. done.
  - intros c d Hd. fold (copied d (zeros n)).
    destruct (delayTaps_terminates fuel buffer d (copied d (zeros n))
                (Math_floor (delayTime * Fin (sampleRate buffer))%num) feedback)
      as [s Hs].
    { pose proof (maxTaps_le_10 buffer). lia. }
    rewrite Hs. reflexivity.
Qed.


End Delay.


(** ** Peak detection *)

Section Peaks.
Context {ML : MathLib}.

#[local] Arguments MLProcessor.windowSize : simpl never.

Lemma windowSize_nonneg (rate : Qc) :
  (0 <= rate)%Qc → 0 ≤ MLProcessor.windowSize rate.
Proof.
  intros Hr. unfold MLProcessor.windowSize.
  change 0 with (Qcfloor (QcZ 0)). apply Qcfloor_mono.
  qcq. change (inject_Z 0) with 0%Q. apply Qmult_le_0_compat; [done|].
  discriminate.
Qed.

Lemma scan_terminates (fuel : nat) (data : list num) (rate : Qc) :
  (0 <= rate)%Qc → (length data < fuel)%nat →
  is_Some (MLProcessor.findSignificantPeaks fuel data rate).
Proof.
  intros Hr Hfuel. pose proof (windowSize_nonneg rate Hr) as Hw.
  unfold MLProcessor.findSignificantPeaks.
  destruct (while_terminates
    (λ s : MLProcessor.scanState,
       Z.to_nat (Z.of_nat (length data) - MLProcessor.windowSize rate - s.1))
    (MLProcessor.scanCond data (MLProcessor.windowSize rate))
    (MLProcessor.scanBody data rate (MLProcessor.maxValue data))
    (λ _, True)) with (fuel := fuel) (s := (MLProcessor.windowSize rate, @nil MLProcessor.Peak))
    as [s Hs]; [|done|cbn; lia|].
  - intros [i peaks] _ Hc. split; [done|].
    unfold MLProcessor.scanCond in Hc. apply bool_decide_eq_true in Hc.
    cbn in Hc. unfold MLProcessor.scanBody.
    destruct (_ && _); cbn; lia.
  - rewrite Hs. cbn. eauto.
Qed.

Lemma StronglySorted_snoc {A : Type} (R : A → A → Prop) (l : list A) (x : A) :
  StronglySorted R l → Forall (λ y, R y x) l → StronglySorted R (l ++ [x]).
Proof.
  intros Hs Hall. induction Hs as [|a l Hs IH Ha]; cbn.
  - repeat constructor.
  - inversion_clear Hall as [|? ? Hax Hall']. constructor; [by apply IH|].
    apply Forall_app. split; [done|]. by constructor.
Qed.

Lemma scan_spec (fuel : nat) (data : list num) (rate : Qc)
    (peaks : list MLProcessor.Peak) :
  (0 <= rate)%Qc →
  MLProcessor.findSignificantPeaks fuel data rate = Some peaks →
  StronglySorted peak_before peaks ∧
  Forall (λ p, ∃ j, MLProcessor.windowSize rate ≤ j
                    < Z.of_nat (length data) - MLProcessor.windowSize rate ∧
                    peak_at data rate j p) peaks.
Proof.
  intros Hr H. pose proof (windowSize_nonneg rate Hr) as Hw.
  unfold MLProcessor.findSignificantPeaks in H.
  destruct (while _ _ _ _) as [[i ps]|] eqn:Hwhile; [|done].
  cbn in H. injection H as ->.
  pose proof (while_inv
    (λ s : MLProcessor.scanState,
       MLProcessor.windowSize rate ≤ s.1 ∧
       StronglySorted peak_before s.2 ∧
       Forall (λ p, ∃ j, (MLProcessor.windowSize rate ≤ j
                          < Z.of_nat (length data) - MLProcessor.windowSize rate)
                         ∧ j < s.1 ∧ peak_at data rate j p) s.2)
    _ _ _ _ _ Hwhile) as Hinv.
  cbn in Hinv. destruct Hinv as (_ & Hsorted & Hall).
  - split; [lia|]. split; constructor.
  - intros [k qs] Hc (Hk & Hs & Ha). cbn in Hk, Hs, Ha.
    unfold MLProcessor.scanCond in Hc. apply bool_decide_eq_true in Hc.
    cbn in Hc. unfold MLProcessor.scanBody.
    destruct (_ && _) eqn:Htest; cbn.
    + apply andb_true_iff in Htest as [Hgt _]. split; [lia|]. split.
      * apply StronglySorted_snoc; [done|].
        eapply List.Forall_impl; [|exact Ha]. cbn.
        intros p (j & _ & Hj & Hidx & _). unfold peak_before.
        rewrite Hidx. cbn [MLProcessor.index]. rewrite nlt_nZ.
        by apply bool_decide_eq_true.
      * apply Forall_app. split.
        -- eapply List.Forall_impl; [|exact Ha]. cbn.
           intros p (j & Hj1 & Hj2 & Hp). exists j. split; [done|]. split; [lia|done].
        -- constructor; [|constructor]. exists k.
           split; [lia|]. split; [lia|]. repeat split. exact Hgt.
    + split; [lia|]. split; [done|]. eapply List.Forall_impl; [|exact Ha]. cbn.
      intros p (j & Hj1 & Hj2 & Hp). exists j. split; [done|]. split; [lia|done].
  - split; [done|]. eapply List.Forall_impl; [|exact Hall]. cbn.
    intros p (j & Hj1 & _ & Hp). eauto.
Qed.

Lemma nmul_comm (x y : num) : (x * y)%num = (y * x)%num.
Proof.
  destruct x as [a| | |], y as [b| | |]; cbn; try reflexivity.
  f_equal. ring.
Qed.

Lemma nle_Fin (a b : Qc) : (Fin a <=? Fin b)%num = true ↔ (a <= b)%Qc.
Proof. cbn. apply Qcleb_spec. Qed.

Lemma Qcabs_nonneg (a : Qc) : (0 <= Qcabs a)%Qc.
Proof. unfold Qcabs. qcases; qcq; lra. Qed.

(** On finite samples the first loop of the scan computes the global
    maximum of the absolute values. *)
Lemma maxValue_global (data : list num) :
  all_finite data → is_global_max data (MLProcessor.maxValue data).
Proof.
  intros Hfin. unfold MLProcessor.maxValue.
  pose proof (for_range_inv
    (λ i m, ∃ q, m = Fin q ∧ (0 <= q)%Qc ∧
       (∀ j x, (j < i)%nat → data !! j = Some x → (Math_abs x <=? m)%num = true) ∧
       ((i = O ∧ q = 0%Qc) ∨
        ∃ j x, (j < i)%nat ∧ data !! j = Some x ∧ m = Math_abs x))
    0 (length data)
    (λ i maxValue, Math_max maxValue (Math_abs (getn data i))) (Fin 0%Qc))
    as Hinv.
  destruct Hinv as (q & -> & Hq & Hub & Hat).
  - lia.
  - exists 0%Qc. repeat split; [apply Qcle_refl|lia|by left].
  - intros i m [_ Hi] (q & -> & Hq & Hub & Hat).
    destruct (lookup_lt_is_Some_2 data i Hi) as [x Hx].
    rewrite (getn_lookup _ _ _ Hx).
    assert (is_finite x = true) as Hxf.
    { unfold all_finite in Hfin. rewrite Forall_lookup in Hfin. eauto. }
    destruct x as [a| | |]; try done. cbn [Math_abs Math_max nlt].
    pose proof (Qcabs_nonneg a) as Ha.
    destruct (Qcltb q (Qcabs a)) eqn:E;
      [apply Qcltb_spec in E | apply Qcltb_false in E].
    + exists (Qcabs a). repeat split; [done| |right; exists i, (Fin a); auto].
      intros j y Hj Hy. destruct (decide (j = i)) as [->|Hne].
      * rewrite Hx in Hy. injection Hy as <-. apply nle_Fin, Qcle_refl.
      * specialize (Hub j y ltac:(lia) Hy).
        destruct (Math_abs y) as [b| | |]; try done.
        apply nle_Fin in Hub. apply nle_Fin.
        eapply Qcle_trans; [exact Hub|by apply Qclt_le_weak].
    + exists q. repeat split; [done| |].
      * intros j y Hj Hy. destruct (decide (j = i)) as [->|Hne].
        -- rewrite Hx in Hy. injection Hy as <-. by apply nle_Fin.
        -- apply (Hub j y); [lia|done].
      * destruct Hat as [[-> ->]|(j & y & Hj & Hy & Hm)].
        -- right. exists O, (Fin a). repeat split; [lia|done|].
           cbn. f_equal. apply Qcle_antisym; done.
        -- right. exists j, y. repeat split; [lia|done|done].
  - split.
    + intros x [j Hj]%list_elem_of_lookup.
      apply (Hub j x); [eapply lookup_lt_Some; eauto|done].
    + destruct Hat as [[Hlen ->]|(j & y & Hj & Hy & Hm)].
      * right. split; [|done]. by apply nil_length_inv.
      * left. rewrite Hm. apply list_elem_of_fmap. exists y. split; [done|].
        eapply list_elem_of_lookup_2; eauto.
Qed.

Lemma getChannelData_wf (buffer : AudioBuffer) :
  wf_buffer buffer →
  ∃ data, getChannelData buffer 0 = Ok data ∧
          channelData buffer !! O = Some data ∧
          length data = blength buffer.
Proof.
  intros Hwf. pose proof Hwf as (Hn & _).
  destruct (lookup_lt_is_Some_2 (channelData buffer) 0 Hn) as [d Hd].
  exists d. unfold getChannelData. rewrite Hd. repeat split.
  by eapply wf_channel.
Qed.

Lemma rate_nonneg (buffer : AudioBuffer) :
  wf_buffer buffer → (0 <= sampleRate buffer)%Qc.
Proof.
  intros (_ & _ & [Hlo _]%supportedRate_bounds & _).
  eapply Qcle_trans; [|exact Hlo]. discriminate.
Qed.

Lemma extractFeatures_ok (fuel : nat) (buffer : AudioBuffer)
    (data : list num) (peaks : list MLProcessor.Peak) :
  getChannelData buffer 0 = Ok data →
  MLProcessor.findSignificantPeaks fuel data (sampleRate buffer) = Some peaks →
  ∃ features,
    MLProcessor.extractFeatures fuel buffer = Ok features ∧
    MLProcessor.significantPeaks features = peaks ∧
    MLProcessor.duration features = bduration buffer.
Proof.
  intros Hd Hp. unfold MLProcessor.extractFeatures. rewrite Hd. cbn.
  rewrite Hp. cbn. destruct (MLProcessor.findMainPeak data) as [pi pv].
  eexists. split; [reflexivity|]. split; reflexivity.
Qed.

(** C5. The significant peaks that feature extraction returns are strictly
    increasing in sample index, and the value of each (the absolute sample at
    its index) is strictly greater than 0.3 times the maximum absolute value
    of the analysed channel. *)
Theorem significant_peaks_sorted_above_threshold (fuel : nat)
    (buffer : AudioBuffer) :
  wf_buffer buffer → (blength buffer < fuel)%nat →
  ∃ features data,
    MLProcessor.extractFeatures fuel buffer = Ok features ∧
    channelData buffer !! O = Some data ∧
    StronglySorted peak_before (MLProcessor.significantPeaks features) ∧
    (all_finite data → is_global_max data (MLProcessor.maxValue data)) ∧
    Forall
      (λ p, ∃ j, 0 ≤ j < Z.of_nat (length data) ∧
                 MLProcessor.index p = nZ j ∧
                 MLProcessor.value p = Math_abs (get data j) ∧
                 (MLProcessor.value p >? nq 3 10 * MLProcessor.maxValue data)%num
                 = true)
      (MLProcessor.significantPeaks features).
Proof.
  intros Hwf Hfuel.
  destruct (getChannelData_wf buffer Hwf) as (data & Hget & Hd & Hlen).
  pose proof (rate_nonneg buffer Hwf) as Hr.
  destruct (scan_terminates fuel data (sampleRate buffer) Hr) as [peaks Hp];
    [lia|].
  destruct (extractFeatures_ok fuel buffer data peaks Hget Hp)
    as (features & Hf & Hpeaks & _).
  destruct (scan_spec fuel data (sampleRate buffer) peaks Hr Hp)
    as [Hsorted Hall].
  pose proof (windowSize_nonneg _ Hr) as Hw.
  exists features, data. rewrite Hpeaks.
  split; [done|]. split; [done|]. split; [done|].
  split; [apply maxValue_global|].
  eapply List.Forall_impl; [|exact Hall]. cbn beta.
  intros p (j & Hj & Hidx & Hval & _ & Hgt). exists j.
  split; [lia|]. split; [done|]. split; [done|].
  rewrite (nmul_comm (nq 3 10)). exact Hgt.
Qed.

End Peaks.

Lemma spikes_wf : wf_buffer spikes.
Proof.
  split; [cbn; lia|]. split; [cbn; lia|]. split; [vm_compute; reflexivity|].
  constructor; [vm_compute; reflexivity|constructor].
Qed.

Lemma significant_peaks_sorted_above_threshold_witness :
  wf_buffer spikes ∧ (blength spikes < 601)%nat ∧
  ∃ features data,
    MLProcessor.extractFeatures 601 spikes = Ok features ∧
    channelData spikes !! O = Some data ∧
    StronglySorted peak_before (MLProcessor.significantPeaks features) ∧
    (all_finite data → is_global_max data (MLProcessor.maxValue data)) ∧
    Forall
      (λ p, ∃ j, 0 ≤ j < Z.of_nat (length data) ∧
                 MLProcessor.index p = nZ j ∧
                 MLProcessor.value p = Math_abs (get data j) ∧
                 (MLProcessor.value p >? nq 3 10 * MLProcessor.maxValue data)%num
                 = true)
      (MLProcessor.significantPeaks features).
Proof.
  assert (H : (blength spikes < 601)%nat) by (cbn; lia).
  split; [exact spikes_wf|]. split; [exact H|].
  exact (significant_peaks_sorted_above_threshold 601 spikes spikes_wf H).
Defined.

(** ** Envelope synthesis: the post-processing steps *)

Section PostProcess.
Context {ML : MathLib}.

Lemma foldlM_ext_Outcome {S A : Type} (f g : S → A → Outcome S) (s : S)
    (l : list A) :
  (∀ s a, f s a = g s a) → foldlM f s l = foldlM g s l.
Proof.
  intros H. revert s. induction l as [|a l IH]; intros s; cbn; [done|].
  rewrite H. destruct (g s a); cbn; auto.
Qed.

Lemma forChannels_ext (buffer processed : AudioBuffer)
    (body body' : nat → list num → list num → Outcome (list num)) :
  (∀ c d out, body c d out = body' c d out) →
  forChannels buffer processed body = forChannels buffer processed body'.
Proof.
  intros H. unfold forChannels. apply foldlM_ext_Outcome.
  intros p c. by rewrite H.
Qed.

Lemma rescale_by_one (outputData : list num) :
  for_range 0 (length outputData)
    (λ i outputData, <[i := (getn outputData i * Fin 1%Qc)%num]> outputData)
    outputData
  = outputData.
Proof.
  apply (for_range_inv' (λ o, o = outputData)); [done|].
  intros i o [_ Hi] ->. rewrite nmul_1_r.
  destruct (lookup_lt_is_Some_2 outputData i Hi) as [x Hx].
  rewrite (getn_lookup _ _ _ Hx). by apply list_insert_id.
Qed.

Lemma energyRatio_one (features : MLProcessor.FeatureSet) (e : Qc) :
  MLProcessor.energy features = Fin e → (0 < e)%Qc →
  MLProcessor.energyRatio features = Fin 1%Qc.
Proof.
  intros He Hpos. unfold MLProcessor.energyRatio. rewrite He.
  cbn [ngt nlt]. rewrite (proj2 (Qcltb_spec 0 e) Hpos).
  cbn [ndiv]. rewrite (proj2 (Qceqb_false e 0)) by by apply not_eq_sym, Qclt_not_eq.
  replace (e / e)%Qc with 1%Qc by (field; by apply not_eq_sym, Qclt_not_eq).
  cbn [Math_sqrt]. change (Qcltb 1 0) with false. cbn. by rewrite sqrt_q_1.
Qed.

Lemma spectralRatio_one (features : MLProcessor.FeatureSet) (c : Qc) :
  MLProcessor.spectralCentroid features = Fin c → (0 < c)%Qc →
  MLProcessor.spectralRatio features = Fin 1%Qc.
Proof.
  intros Hc Hpos. unfold MLProcessor.spectralRatio. rewrite Hc.
  cbn [ngt nlt]. rewrite (proj2 (Qcltb_spec 0 c) Hpos).
  cbn [ndiv]. rewrite (proj2 (Qceqb_false c 0)) by by apply not_eq_sym, Qclt_not_eq.
  f_equal. field. by apply not_eq_sym, Qclt_not_eq.
Qed.

(** C7. For a feature set whose energy and spectral centroid are positive
    (finite) numbers, the energy factor [sqrt (energy / energy)] is exactly 1
    and the spectral ratio is exactly 1: the rescaling multiplies every
    sample by 1, neither branch of the spectral adjustment runs, and the
    post-processing leaves every buffer as the envelope stage produced it. *)
Theorem postprocessing_is_identity (features : MLProcessor.FeatureSet)
    (e c : Qc) :
  MLProcessor.energy features = Fin e → (0 < e)%Qc →
  MLProcessor.spectralCentroid features = Fin c → (0 < c)%Qc →
  MLProcessor.energyRatio features = Fin 1%Qc ∧
  MLProcessor.spectralRatio features = Fin 1%Qc ∧
  (∀ data, MLProcessor.applySpectralAdjustment data (Fin 1%Qc) = data) ∧
  (∀ outputData, MLProcessor.postProcess features outputData = outputData) ∧
  (∀ originalBuffer isLoop,
     MLProcessor.synthesizeAudio originalBuffer features isLoop =
     synthesizeEnvelope originalBuffer features isLoop).
Proof.
  intros He Hepos Hc Hcpos.
  pose proof (energyRatio_one features e He Hepos) as HE.
  pose proof (spectralRatio_one features c Hc Hcpos) as HS.
  assert (Hadj : ∀ data,
    MLProcessor.applySpectralAdjustment data (Fin 1%Qc) = data).
  { intros data. unfold MLProcessor.applySpectralAdjustment.
    change (Fin 1%Qc >? nZ 1)%num with false.
    change (Fin 1%Qc <? nZ 1)%num with false. reflexivity. }
  assert (Hpost : ∀ outputData,
    MLProcessor.postProcess features outputData = outputData).
  { intros outputData. unfold MLProcessor.postProcess.
    rewrite HE, HS, rescale_by_one. apply Hadj. }
  repeat split; try done.
  intros originalBuffer isLoop.
  unfold MLProcessor.synthesizeAudio, synthesizeEnvelope.
  destruct (createBuffer _ _ _) as [newBuffer| |]; cbn; [|done..].
  apply forChannels_ext. intros ch d out.
  destruct isLoop.
  - destruct (MLProcessor.processLoopAudio d out features); cbn; [|done].
    by rewrite Hpost.
  - cbn. by rewrite Hpost.
Qed.

End PostProcess.

Lemma postprocessing_is_identity_witness :
  MLProcessor.energy clickFeatures = Fin (qc 21 64) ∧ (0 < qc 21 64)%Qc ∧
  MLProcessor.spectralCentroid clickFeatures = Fin (QcZ 750) ∧
  (0 < QcZ 750)%Qc ∧
  MLProcessor.energyRatio clickFeatures = Fin 1%Qc ∧
  MLProcessor.spectralRatio clickFeatures = Fin 1%Qc ∧
  (∀ data, MLProcessor.applySpectralAdjustment data (Fin 1%Qc) = data) ∧
  (∀ outputData, MLProcessor.postProcess clickFeatures outputData = outputData) ∧
  (∀ originalBuffer isLoop,
     MLProcessor.synthesizeAudio originalBuffer clickFeatures isLoop =
     synthesizeEnvelope originalBuffer clickFeatures isLoop).
Proof.
  split; [reflexivity|]. split; [reflexivity|].
  split; [reflexivity|]. split; [reflexivity|].
  exact (postprocessing_is_identity clickFeatures (qc 21 64) (QcZ 750)
           eq_refl eq_refl eq_refl eq_refl).
Defined.

(** ** Every stage returns a buffer *)

Lemma rand_ok_ret {A : Type} (P : A → Prop) (a : A) :
  P a → rand_ok P (mret a).
Proof. intros H r. exists a, r. split; [reflexivity|done]. Qed.

Lemma rand_ok_bind {A B : Type} (P : A → Prop) (Q : B → Prop)
    (m : Rand A) (f : A → Rand B) :
  rand_ok P m → (∀ a, P a → rand_ok Q (f a)) → rand_ok Q (m ≫= f).
Proof.
  intros Hm Hf r. destruct (Hm r) as (a & r1 & Hr & Ha).
  destruct (Hf a Ha r1) as (b & r2 & Hr2 & Hb).
  exists b, r2. split; [|done].
  unfold mbind, Rand_bind. by rewrite Hr.
Qed.

Lemma rand_ok_pure {A : Type} (P : A → Prop) (o : Outcome A) :
  ok_with P o → rand_ok P (pure_of o).
Proof. intros (a & -> & Ha) r. exists a, r. split; [reflexivity|done]. Qed.

Lemma rand_ok_impl {A : Type} (P Q : A → Prop) (m : Rand A) :
  rand_ok P m → (∀ a, P a → Q a) → rand_ok Q m.
Proof.
  intros Hm HPQ r. destruct (Hm r) as (a & r' & Hr & Ha). eauto.
Qed.

Lemma ok_with_bind {A B : Type} (P : A → Prop) (Q : B → Prop)
    (o : Outcome A) (f : A → Outcome B) :
  ok_with P o → (∀ a, P a → ok_with Q (f a)) → ok_with Q (o ≫= f).
Proof. intros (a & -> & Ha) Hf. cbn. by apply Hf. Qed.

Lemma shaped_refl (b : AudioBuffer) : wf_buffer b → shaped b (blength b) b.
Proof. intros H. split; [done|]. split; [done|]. split; reflexivity. Qed.

Lemma shaped_trans (b b' b'' : AudioBuffer) (n n' : nat) :
  shaped b n b' → shaped b' n' b'' → shaped b n' b''.
Proof.
  intros (Hwf & Hl & Hc & Hr) (Hwf' & Hl' & Hc' & Hr').
  split; [done|]. split; [done|]. split; congruence.
Qed.

(** The channel loop over a freshly allocated buffer succeeds with a
    well-formed buffer as soon as the body returns, for every channel, as
    many samples as it was given. *)
Lemma forChannels_shaped (buffer : AudioBuffer) (len : nat)
    (body : nat → list num → list num → Outcome (list num)) :
  wf_buffer buffer → (0 < len)%nat →
  (∀ c d, channelData buffer !! c = Some d →
     ∃ x, body c d (zeros len) = Ok x ∧ length x = len) →
  ok_with (shaped buffer len)
    (forChannels buffer
       (mkBuffer (sampleRate buffer) len
          (replicate (numberOfChannels buffer) (zeros len))) body).
Proof.
  intros Hwf Hlen Hbody. pose proof Hwf as (Hn & Hl & Hr & Hall).
  set (f := λ c d, match body c d (zeros len) with Ok x => x | _ => [] end).
  eexists. split.
  - apply (forChannels_fresh _ _ _ f). intros c d Hd.
    destruct (Hbody c d Hd) as (x & Hx & _). unfold f. by rewrite Hx.
  - repeat split; cbn; try done.
    + unfold numberOfChannels in *. cbn. by rewrite length_imap.
    + apply Forall_lookup. intros c x. rewrite list_lookup_imap.
      destruct (channelData buffer !! c) as [d|] eqn:Hd; cbn; [|done].
      intros [= <-]. destruct (Hbody c d Hd) as (x & Hx & Hxl).
      unfold f. by rewrite Hx.
    + unfold numberOfChannels. cbn. by rewrite length_imap.
Qed.

Section Stages.
Context {ML : MathLib}.

Lemma processTransientEnhancement_shaped (buffer : AudioBuffer)
    (attackGain sustainGain : num) :
  wf_buffer buffer →
  ok_with (shaped buffer (blength buffer))
    (AudioProcessor.processTransientEnhancement buffer attackGain sustainGain).
Proof.
  intros Hwf. pose proof Hwf as (Hn & Hl & Hr & Hall).
  unfold AudioProcessor.processTransientEnhancement.
  rewrite createBuffer_ok by done. cbn [mbind Outcome_bind].
  apply forChannels_shaped; [done..|].
  intros c d Hd. eexists. split; [reflexivity|].
  apply (for_range_inv'
           (λ s : num * list num, length s.2 = blength buffer)).
  - apply zeros_length.
  - intros i [e o] _ Ho. cbn in *. by rewrite length_insert.
Qed.

Lemma processPitchShift_shaped (buffer : AudioBuffer) (semitones : num) :
  wf_buffer buffer →
  ok_with (shaped buffer (blength buffer))
    (AudioProcessor.processPitchShift buffer semitones).
Proof.
  intros Hwf. eexists. split; [by apply processPitchShift_spec|].
  pose proof Hwf as (Hn & Hl & Hr & Hall).
  repeat split; cbn; try done.
  - unfold numberOfChannels in *. cbn. by rewrite length_map.
  - apply Forall_fmap, Forall_forall. intros d _. apply resampled_length.
  - unfold numberOfChannels. cbn. by rewrite length_map.
Qed.

Lemma processBitCrush_shaped (buffer : AudioBuffer) (bits : num) :
  wf_buffer buffer →
  ok_with (shaped buffer (blength buffer))
    (AudioProcessor.processBitCrush buffer bits).
Proof.
  intros Hwf. eexists. split; [by apply processBitCrush_spec|].
  split; [apply wf_map; [done|apply length_map]|].
  repeat split. unfold numberOfChannels. cbn. by rewrite length_map.
Qed.

Lemma processDistortion_spec (buffer : AudioBuffer) (amount : num) :
  wf_buffer buffer →
  AudioProcessor.processDistortion buffer amount =
  Ok (mkBuffer (sampleRate buffer) (blength buffer)
        (map (map (λ x, Math_tanh (x * amount)%num)) (channelData buffer))).
Proof.
  intros Hwf. pose proof Hwf as (Hn & Hl & Hr & Hall).
  unfold AudioProcessor.processDistortion.
  rewrite createBuffer_ok by done. cbn [mbind Outcome_bind].
  rewrite (forChannels_fresh _ _ _
             (λ _ d, map (λ x, Math_tanh (x * amount)%num) d)).
  - do 2 f_equal. apply list_eq. intros i.
    rewrite list_lookup_imap, list_lookup_fmap. done.
  - intros c d Hd. f_equal.
    apply (fill_map (λ x, Math_tanh (x * amount)%num)).
    rewrite zeros_length. symmetry. eapply wf_channel; eauto.
Qed.

Lemma processDistortion_shaped (buffer : AudioBuffer) (amount : num) :
  wf_buffer buffer →
  ok_with (shaped buffer (blength buffer))
    (AudioProcessor.processDistortion buffer amount).
Proof.
  intros Hwf. eexists. split; [by apply processDistortion_spec|].
  split; [apply wf_map; [done|apply length_map]|].
  repeat split. unfold numberOfChannels. cbn. by rewrite length_map.
Qed.

Lemma extended_pos (buffer : AudioBuffer) :
  wf_buffer buffer → (blength buffer < extended buffer)%nat.
Proof.
  intros (_ & _ & Hr & _). pose proof (tailFrames_pos buffer Hr).
  unfold extended. lia.
Qed.

Lemma processDelay_shaped (fuel : nat) (buffer : AudioBuffer)
    (delayTime feedback : num) :
  wf_buffer buffer → (10 < fuel)%nat →
  ok_with (shaped buffer (extended buffer))
    (AudioProcessor.processDelay fuel buffer delayTime feedback).
Proof.
  intros Hwf Hfuel. eexists. split; [by apply processDelay_spec|].
  pose proof (extended_pos buffer Hwf) as Hext. fold (extended buffer).
  split; [|repeat split; unfold numberOfChannels; cbn; by rewrite length_map].
  apply wf_map_len; [done|lia|]. intros d _.
  destruct (delayTaps_terminates fuel buffer d
              (copied d (zeros (extended buffer)))
              (Math_floor (delayTime * Fin (sampleRate buffer))%num) feedback)
    as [[[out cf] k] Hs].
  { pose proof (maxTaps_le_10 buffer). lia. }
  rewrite Hs. cbn.
  destruct (delayTaps_spec _ _ _ _ _ _ _ _ _ Hs) as (_ & _ & Hlen & _).
  by rewrite Hlen, copied_length, zeros_length.
Qed.

End Stages.

(** ** Reverb *)

Lemma foldlM_rand_inv {S A : Type} (P : S → Prop) (f : S → A → Rand S)
    (l : list A) (s : S) :
  P s → (∀ s a, a ∈ l → P s → rand_ok P (f s a)) →
  rand_ok P (foldlM f s l).
Proof.
  revert s. induction l as [|a l IH]; intros s Hs Hf.
  - by apply rand_ok_ret.
  - cbn. eapply rand_ok_bind.
    + apply Hf; [left|done].
    + intros s' Hs'. apply IH; [done|].
      intros s'' b Hb. apply Hf. by right.
Qed.

Lemma iterations_nZ (z : Z) : iterations (nZ z) = Z.to_nat z.
Proof.
  unfold iterations, nZ. f_equal.
  erewrite Qceiling_comp by apply this_QcZ. apply Qceiling_Z.
Qed.

Lemma all_finite_insert (d : list num) (i : nat) (x : num) :
  all_finite d → is_finite x = true → all_finite (<[i := x]> d).
Proof. intros Hd Hx. by apply Forall_insert. Qed.

Lemma all_finite_zeros (n : nat) : all_finite (zeros n).
Proof. by apply Forall_replicate. Qed.

Lemma all_finite_getn (d : list num) (i : nat) :
  all_finite d → (i < length d)%nat → is_finite (getn d i) = true.
Proof.
  intros Hd Hi. destruct (lookup_lt_is_Some_2 d i Hi) as [x Hx].
  rewrite (getn_lookup _ _ _ Hx). unfold all_finite in Hd.
  rewrite Forall_lookup in Hd. eauto.
Qed.

Lemma rand_ok_pure_bind {A B : Type} (Q : B → Prop) (a : A) (f : A → Rand B) :
  rand_ok Q (f a) → rand_ok Q (pure_of (Ok a) ≫= f).
Proof. intros H r. exact (H r). Qed.

Section Reverb.
Context {ML : MathLib}.

Lemma impulse_sample_finite (r : Qc) (i : nat) (L : Z) :
  0 < L →
  is_finite ((Fin r * nZ 2 - nZ 1)
             * Math_exp (- nN i / (nZ L * nq 1 2)))%num = true.
Proof.
  intros HL. cbn.
  assert (Qceqb (QcZ L * qc 1 2) 0 = false) as ->; [|reflexivity].
  apply Qceqb_false. intros H.
  assert (HL' : (0 < QcZ L)%Qc) by (change 0%Qc with (QcZ 0); by apply QcZ_lt).
  revert H HL'. generalize (QcZ L). intros q H Hq. qcq. lra.
Qed.

Lemma Math_random_ok : rand_ok (λ x, is_finite x = true) Math_random.
Proof. intros r. eexists _, _. split; reflexivity. Qed.

Lemma impulse_sample_ok (x : num) (i : nat) (L : Z) :
  0 < L → is_finite x = true →
  is_finite ((x * nZ 2 - nZ 1)
             * Math_exp (- nN i / (nZ L * nq 1 2)))%num = true.
Proof.
  intros HL Hx. destruct x as [r| | |]; try done.
  by apply impulse_sample_finite.
Qed.

Lemma fillImpulse_ok (L : Z) (rate : Qc) :
  0 < L →
  rand_ok (impulse_ok (Z.to_nat L))
    (AudioProcessor.fillImpulse
       (mkBuffer rate (Z.to_nat L) (replicate 2 (zeros (Z.to_nat L))))
       (nZ L)).
Proof.
  intros HL. unfold AudioProcessor.fillImpulse.
  apply foldlM_rand_inv.
  - split; [reflexivity|]. apply Forall_replicate.
    split; [apply zeros_length|apply all_finite_zeros].
  - intros imp c Hc [Hn Himp].
    assert (Hc2 : (c < length (channelData imp))%nat).
    { apply list_elem_of_In, in_seq in Hc. unfold numberOfChannels in *.
      cbn in Hc. lia. }
    destruct (lookup_lt_is_Some_2 _ _ Hc2) as [d0 Hd0].
    eapply rand_ok_bind.
    + apply (foldlM_rand_inv
               (λ d, length d = Z.to_nat L ∧ all_finite d)).
      * rewrite (channel_of_lookup _ _ _ Hd0).
        rewrite Forall_lookup in Himp. eauto.
      * intros d i _ [Hlen Hfin]. eapply rand_ok_bind.
        -- apply Math_random_ok.
        -- intros x Hx. apply rand_ok_ret. split.
           ++ by rewrite length_insert.
           ++ apply all_finite_insert; [done|]. by apply impulse_sample_ok.
    + intros d Hd. apply rand_ok_ret. split.
      * unfold numberOfChannels in *. cbn. by rewrite length_insert.
      * cbn. by apply Forall_insert.
Qed.

Lemma convolve_length (inputData impulseData : list num)
    (impulseLength wetDry : num) (outputData : list num) :
  length (AudioProcessor.convolve inputData impulseData impulseLength wetDry
            outputData)
  = length outputData.
Proof.
  unfold AudioProcessor.convolve.
  apply (for_range_inv' (λ o, length o = length outputData)); [done|].
  intros i o _ Ho.
  apply (for_range_inv' (λ o, length o = length outputData)); [done|].
  intros j o' _ Ho'. by rewrite length_insert.
Qed.

Lemma impulseLength_pos (rate q : Qc) :
  supportedRate rate = true → (qc 1 3000 <= q)%Qc →
  0 < Qcfloor (rate * q).
Proof.
  intros [Hlo _]%supportedRate_bounds Hq.
  assert (1 ≤ Qcfloor (rate * q)); [|lia].
  change 1 with (Qcfloor (QcZ 1)). apply Qcfloor_mono.
  qcq. change (inject_Z 3000) with 3000%Q in Hlo.
  change (inject_Z 1) with 1%Q. nra.
Qed.

(** The reverb returns a buffer extended by its tail, whatever the random
    source, as soon as the room size makes an impulse of at least one
    frame. *)
Lemma processReverb_shaped (buffer : AudioBuffer) (q : Qc) (wetDry : num) :
  wf_buffer buffer → (qc 1 3000 <= q)%Qc →
  rand_ok (shaped buffer (extended buffer))
    (AudioProcessor.processReverb buffer (Fin q) wetDry).
Proof.
  intros Hwf Hq. pose proof Hwf as (Hn & Hl & Hr & Hall).
  pose proof (extended_pos buffer Hwf) as Hext.
  pose proof (tailFrames_pos buffer Hr) as Htail.
  pose proof (impulseLength_pos _ _ Hr Hq) as HL.
  unfold AudioProcessor.processReverb.
  rewrite extended_length, createBuffer_Z_ok by (done || lia).
  change (Math_floor (Fin (sampleRate buffer) * Fin q))%num
    with (nZ (Qcfloor (sampleRate buffer * q))).
  rewrite createBuffer_Z_ok by (done || lia).
  fold (extended buffer).
  apply rand_ok_pure_bind, rand_ok_pure_bind.
  eapply rand_ok_bind; [by apply fillImpulse_ok|].
  intros impulse [Hn2 Himp]. apply rand_ok_pure.
  apply forChannels_shaped; [done|lia|].
  intros c d Hd. eexists. split; [reflexivity|].
  rewrite convolve_length.
  apply (for_range_inv' (λ o, length o = extended buffer));
    [apply zeros_length|].
  intros i o _ Ho. by rewrite length_insert.
Qed.

End Reverb.

(** ** Resynthesis returns a buffer *)

Lemma foldlM_option_inv {S A : Type} (P : S → Prop) (f : S → A → option S)
    (l : list A) (s : S) :
  P s → (∀ s a, a ∈ l → P s → ∃ s', f s a = Some s' ∧ P s') →
  ∃ s', foldlM f s l = Some s' ∧ P s'.
Proof.
  revert s. induction l as [|a l IH]; intros s Hs Hf.
  - exists s. split; [reflexivity|done].
  - cbn. destruct (Hf s a) as (s1 & Hs1 & HP1); [left|done|].
    rewrite Hs1. cbn. apply IH; [done|].
    intros s'' b Hb. apply Hf. by right.
Qed.

Lemma mapM_Rand_ok {A B : Type} (Q : B → Prop) (f : A → Rand B) (l : list A) :
  (∀ a, a ∈ l → rand_ok Q (f a)) →
  rand_ok (λ bs, Forall Q bs ∧ length bs = length l) (MLProcessor.mapM_Rand f l).
Proof.
  induction l as [|a l IH]; intros Hf.
  - apply rand_ok_ret. split; [constructor|reflexivity].
  - cbn. eapply rand_ok_bind; [apply Hf; left|].
    intros b Hb. eapply rand_ok_bind.
    + apply IH. intros a' Ha'. apply Hf. by right.
    + intros bs [Hbs Hlen]. apply rand_ok_ret. split.
      * by constructor.
      * cbn. by rewrite Hlen.
Qed.

Lemma foldl_inv {S A : Type} (P : S → Prop) (f : S → A → S) (l : list A)
    (s : S) :
  P s → (∀ s a, P s → P (f s a)) → P (foldl f s l).
Proof.
  revert s. induction l as [|a l IH]; intros s Hs Hf; cbn; [done|].
  apply IH; [by apply Hf|done].
Qed.

Section Resynthesis.
Context {ML : MathLib}.

Lemma processOneShot_length (inputData outputData : list num)
    (features : MLProcessor.FeatureSet) :
  length (MLProcessor.processOneShot inputData outputData features)
  = length outputData.
Proof.
  unfold MLProcessor.processOneShot.
  apply (for_range_inv' (λ o, length o = length outputData)); [done|].
  intros i o _ Ho. repeat destruct (_ <? _)%num; by rewrite length_insert.
Qed.

Lemma segmentLoop_ok (segmentStart segmentEnd : num) (n : nat)
    (body : Z → list num → list num) (outputData : list num) :
  segmentStart ≠ NInf →
  (∀ i o, length (body i o) = length o) →
  ∃ x, MLProcessor.segmentLoop segmentStart segmentEnd n body outputData
       = Some x ∧ length x = length outputData.
Proof.
  intros Hs Hbody. unfold MLProcessor.segmentLoop.
  destruct segmentStart as [q| | |]; [|by eauto|done|by eauto].
  destruct (to_index (Fin q)); [|by eauto].
  eexists. split; [reflexivity|].
  apply (foldl_inv (λ o, length o = length outputData)); [done|].
  intros o i Ho. by rewrite Hbody.
Qed.

Lemma processSegment_ok (inputData : list num)
    (features : MLProcessor.FeatureSet) (segmentStart segmentEnd : num)
    (outputData : list num) :
  segmentStart ≠ NInf →
  ∃ x, MLProcessor.processSegment inputData features segmentStart segmentEnd
         outputData = Some x ∧ length x = length outputData.
Proof.
  intros Hs. unfold MLProcessor.processSegment.
  destruct (_ <? _)%num; [by eauto|].
  apply segmentLoop_ok; [done|].
  intros i o. repeat destruct (_ <? _)%num; apply set_length.
Qed.

Lemma processLoopAudio_ok (inputData outputData : list num)
    (features : MLProcessor.FeatureSet) :
  peaks_ok (MLProcessor.significantPeaks features) →
  ∃ x, MLProcessor.processLoopAudio inputData outputData features = Some x ∧
       length x = length outputData.
Proof.
  intros Hp. unfold MLProcessor.processLoopAudio.
  set (out := for_range _ _ _ _).
  assert (Hout : length out = length outputData).
  { apply (for_range_inv' (λ o, length o = length outputData)); [done|].
    intros i o _ Ho. by rewrite length_insert. }
  case_bool_decide; [|by eauto].
  apply (foldlM_option_inv (λ o, length o = length outputData)); [done|].
  intros o p Hpin Ho.
  assert (Hlt : (p < length (MLProcessor.significantPeaks features))%nat).
  { apply list_elem_of_In, in_seq in Hpin. lia. }
  destruct (lookup_lt_is_Some_2 _ _ Hlt) as [pk Hpk].
  rewrite Hpk. cbn [from_option].
  destruct (processSegment_ok inputData features (MLProcessor.index pk)
              (from_option MLProcessor.index (nN (length inputData))
                 (MLProcessor.significantPeaks features !! S p)) o)
    as (x & Hx & Hxl).
  { unfold peaks_ok in Hp. rewrite Forall_lookup in Hp. eauto. }
  exists x. split; [done|congruence].
Qed.

Lemma applySpectralAdjustment_length (data : list num) (ratio : num) :
  length (MLProcessor.applySpectralAdjustment data ratio) = length data.
Proof.
  unfold MLProcessor.applySpectralAdjustment.
  destruct (_ >? _)%num.
  - apply (for_range_inv' (λ o, length o = length data)); [done|].
    intros i o _ Ho. by rewrite length_insert.
  - destruct (_ <? _)%num; [|done].
    apply (for_range_inv' (λ s : num * list num, length s.2 = length data));
      [done|].
    intros i [p o] _ Ho. cbn in *. by rewrite length_insert.
Qed.

Lemma postProcess_length (features : MLProcessor.FeatureSet)
    (outputData : list num) :
  length (MLProcessor.postProcess features outputData) = length outputData.
Proof.
  unfold MLProcessor.postProcess. rewrite applySpectralAdjustment_length.
  apply (for_range_inv' (λ o, length o = length outputData)); [done|].
  intros i o _ Ho. by rewrite length_insert.
Qed.

Lemma synthesizeAudio_shaped (buffer : AudioBuffer)
    (features : MLProcessor.FeatureSet) (isLoop : bool) :
  wf_buffer buffer → peaks_ok (MLProcessor.significantPeaks features) →
  ok_with (shaped buffer (blength buffer))
    (MLProcessor.synthesizeAudio buffer features isLoop).
Proof.
  intros Hwf Hp. pose proof Hwf as (Hn & Hl & Hr & Hall).
  unfold MLProcessor.synthesizeAudio.
  rewrite createBuffer_ok by done. cbn [mbind Outcome_bind].
  apply forChannels_shaped; [done..|].
  intros c d Hd. destruct isLoop.
  - destruct (processLoopAudio_ok d (zeros (blength buffer)) features Hp)
      as (x & Hx & Hxl).
    rewrite Hx. cbn. eexists. split; [reflexivity|].
    by rewrite postProcess_length, Hxl, zeros_length.
  - cbn. eexists. split; [reflexivity|].
    by rewrite postProcess_length, processOneShot_length, zeros_length.
Qed.

Lemma randomize_eq (amount value range focus : num) (r : rng) :
  MLProcessor.randomize amount value range focus r =
  Ok ((value * (nZ 1 + (Fin (r O) * nZ 2 - nZ 1) * range * amount * focus))%num,
      rng_tail r).
Proof. reflexivity. Qed.

Lemma randomize_ok (amount value range focus : num) :
  rand_ok (λ _, True) (MLProcessor.randomize amount value range focus).
Proof. intros r. rewrite randomize_eq. eauto. Qed.

Lemma mutatePeak_ok (a : Qc) (p : MLProcessor.Peak) :
  is_finite (MLProcessor.index p) = true →
  rand_ok (λ p', MLProcessor.index p' ≠ NInf)
    (MLProcessor.mutatePeak (Fin a) p).
Proof.
  intros Hp. destruct p as [i v t]. cbn in Hp.
  destruct i as [j| | |]; try done.
  intros r. unfold MLProcessor.mutatePeak, mbind, Rand_bind.
  rewrite !randomize_eq. eexists _, _. split; [reflexivity|]. done.
Qed.

Lemma modifyFeatures_ok (features : MLProcessor.FeatureSet) (a : Qc)
    (options : MLProcessor.Options) (isLoop : bool) :
  Forall (λ p, is_finite (MLProcessor.index p) = true)
    (MLProcessor.significantPeaks features) →
  rand_ok (λ f', peaks_ok (MLProcessor.significantPeaks f'))
    (MLProcessor.modifyFeatures features (Fin a) options isLoop).
Proof.
  intros Hp. unfold MLProcessor.modifyFeatures.
  do 6 (eapply rand_ok_bind; [apply randomize_ok|]; intros ? _).
  eapply rand_ok_bind with (P := peaks_ok).
  - destruct (_ && _).
    + eapply rand_ok_impl.
      * apply mapM_Rand_ok. intros p Hpin. apply mutatePeak_ok.
        rewrite Forall_forall in Hp. by apply Hp, list_elem_of_In.
      * intros ps [Hps _]. exact Hps.
    + apply rand_ok_ret. eapply List.Forall_impl; [|exact Hp].
      cbn beta. intros p Hfin E. by rewrite E in Hfin.
  - intros ps Hps. apply rand_ok_ret. exact Hps.
Qed.

(** Feature extraction returns, and every peak it records sits at a whole
    frame. *)
Lemma extractFeatures_frames (fuel : nat) (buffer : AudioBuffer) :
  wf_buffer buffer → (blength buffer < fuel)%nat →
  ok_with (λ f, Forall (λ p, ∃ j, MLProcessor.index p = nZ j)
                  (MLProcessor.significantPeaks f))
    (MLProcessor.extractFeatures fuel buffer).
Proof.
  intros Hwf Hfuel.
  destruct (getChannelData_wf buffer Hwf) as (data & Hget & Hd & Hlen).
  pose proof (rate_nonneg buffer Hwf) as Hr.
  destruct (scan_terminates fuel data (sampleRate buffer) Hr) as [peaks Hp];
    [lia|].
  destruct (extractFeatures_ok fuel buffer data peaks Hget Hp)
    as (f & Hf & Hpeaks & _).
  destruct (scan_spec fuel data (sampleRate buffer) peaks Hr Hp)
    as [_ Hall].
  exists f. split; [done|]. rewrite Hpeaks.
  eapply List.Forall_impl; [|exact Hall]. cbn beta.
  intros p (j & _ & Hidx & _). by exists j.
Qed.

Lemma extractFeatures_wf (fuel : nat) (buffer : AudioBuffer) :
  wf_buffer buffer → (blength buffer < fuel)%nat →
  ok_with (λ f, Forall (λ p, is_finite (MLProcessor.index p) = true)
                  (MLProcessor.significantPeaks f))
    (MLProcessor.extractFeatures fuel buffer).
Proof.
  intros Hwf Hfuel.
  destruct (extractFeatures_frames fuel buffer Hwf Hfuel) as (f & Hf & Hall).
  exists f. split; [done|].
  eapply List.Forall_impl; [|exact Hall]. cbn beta.
  intros p (j & ->). reflexivity.
Qed.

(** A variation of a well-formed buffer is a well-formed buffer of the same
    shape, whatever the random source, for every finite amount. *)
Lemma generateVariation_shaped (fuel : nat) (buffer : AudioBuffer) (a : Qc)
    (options : MLProcessor.Options) :
  wf_buffer buffer → (blength buffer < fuel)%nat →
  rand_ok (shaped buffer (blength buffer))
    (MLProcessor.generateVariation fuel buffer (Fin a) options).
Proof.
  intros Hwf Hfuel. unfold MLProcessor.generateVariation.
  eapply rand_ok_bind; [apply rand_ok_pure; by apply extractFeatures_wf|].
  intros f Hf. eapply rand_ok_bind; [by apply modifyFeatures_ok|].
  intros f' Hf'. apply rand_ok_pure. by apply synthesizeAudio_shaped.
Qed.

End Resynthesis.

(** ** The orchestrators *)

Section Orchestrators.
Context {ML : MathLib}.

Lemma tailFrames_le_rate (buffer : AudioBuffer) :
  wf_buffer buffer → tailFrames buffer ≤ Qcfloor (sampleRate buffer).
Proof.
  intros Hwf. pose proof (rate_nonneg buffer Hwf) as Hr.
  unfold tailFrames. apply Qcfloor_mono.
  revert Hr. generalize (sampleRate buffer). intros q Hq.
  destruct (AudioProcessor.isLikelyLoop buffer); qcq; lra.
Qed.

Lemma fuel_bounds (fuel : nat) (buffer : AudioBuffer) :
  wf_buffer buffer →
  Z.of_nat (blength buffer) + Qcfloor (sampleRate buffer) < Z.of_nat fuel →
  (blength buffer < fuel)%nat ∧ (extended buffer < fuel)%nat ∧ (10 < fuel)%nat.
Proof.
  intros Hwf Hfuel. pose proof Hwf as (_ & _ & Hr & _).
  pose proof (tailFrames_le_rate buffer Hwf).
  pose proof (tailFrames_pos buffer Hr). unfold extended. lia.
Qed.

Ltac stage lem :=
  eapply rand_ok_bind; [first [apply lem | apply rand_ok_pure; apply lem]|].

Lemma variation_of_shaped (fuel : nat) (b b' : AudioBuffer) (n : nat) (a : Qc)
    (options : MLProcessor.Options) :
  shaped b n b' → (n < fuel)%nat →
  rand_ok (shaped b n)
    (MLProcessor.generateVariation fuel b' (Fin a) options).
Proof.
  intros Hs Hfuel. pose proof Hs as (Hwf & Hlen & _).
  eapply rand_ok_impl.
  - apply generateVariation_shaped; [done|lia].
  - intros b'' Hb''. rewrite Hlen in Hb''. by eapply shaped_trans.
Qed.

Lemma ok_shaped_via (b b' : AudioBuffer) (n m : nat) (o : Outcome AudioBuffer) :
  shaped b n b' → ok_with (shaped b' m) o → ok_with (shaped b m) o.
Proof.
  intros Hs (x & -> & Hx). exists x. split; [done|]. by eapply shaped_trans.
Qed.

Lemma rand_shaped_via (b b' : AudioBuffer) (n m : nat) (c : Rand AudioBuffer) :
  shaped b n b' → rand_ok (shaped b' m) c → rand_ok (shaped b m) c.
Proof.
  intros Hs Hc. eapply rand_ok_impl; [exact Hc|].
  intros x Hx. by eapply shaped_trans.
Qed.

Lemma variation_of_workable (fuel : nat) (sample b : AudioBuffer) (a : Qc)
    (options : MLProcessor.Options) :
  workable fuel sample b →
  rand_ok (workable fuel sample)
    (MLProcessor.generateVariation fuel b (Fin a) options).
Proof.
  intros (n & Hs & Hn). eapply rand_ok_impl.
  - by apply (variation_of_shaped fuel sample b n).
  - intros x Hx. by exists n.
Qed.

Lemma hook_recipe_eight (fuel : nat) (sample : AudioBuffer) (β : Qc)
    (isLoop : bool) :
  wf_buffer sample →
  Z.of_nat (blength sample) + Qcfloor (sampleRate sample) < Z.of_nat fuel →
  rand_ok (λ vs, length vs = 8%nat)
    (Hook.recipe fuel sample (Fin β) isLoop).
Proof.
  intros Hwf Hfuel.
  destruct (fuel_bounds fuel sample Hwf Hfuel) as (Hf1 & Hf2 & Hf3).
  pose proof (shaped_refl sample Hwf) as Hs.
  assert (Hw : workable fuel sample sample) by by exists (blength sample).
  unfold Hook.recipe.
  eapply rand_ok_bind; [by apply variation_of_workable|]. intros v1 _.
  eapply rand_ok_bind; [by apply variation_of_workable|]. intros v2 _.
  eapply rand_ok_bind; [by apply variation_of_workable|]. intros v3 _.
  eapply rand_ok_bind; [by apply variation_of_workable|]. intros v4 _.
  eapply rand_ok_bind; [by apply variation_of_workable|].
  intros toneVariation (nt & Htone & _).
  eapply rand_ok_bind with (P := λ _, True).
  { destruct (_ <? _)%num; [|by apply rand_ok_ret].
    apply rand_ok_pure.
    destruct (processBitCrush_shaped toneVariation (nZ 10)) as (x & Hx & _);
      [apply Htone|].
    eexists. split; [exact Hx|done]. }
  intros v5 _.
  eapply rand_ok_bind;
    [apply rand_ok_pure; by apply processPitchShift_shaped|].
  intros pitchShifted Hps.
  eapply rand_ok_bind;
    [apply variation_of_workable; by exists (blength sample)|].
  intros v6 _.
  eapply rand_ok_bind.
  { destruct isLoop; apply processReverb_shaped; try done;
      apply Qcleb_spec; reflexivity. }
  intros reverbed Hrev.
  eapply rand_ok_bind;
    [apply variation_of_workable; by exists (extended sample)|].
  intros v7 _.
  eapply rand_ok_bind with (P := workable fuel sample).
  { destruct isLoop.
    - eapply rand_ok_bind;
        [apply rand_ok_pure; by apply processDelay_shaped|].
      intros delayed Hd. apply rand_ok_pure.
      destruct (ok_shaped_via _ _ _ _ _ Hd
                  (processDistortion_shaped delayed (nZ 3) (proj1 Hd)))
        as (x & Hx & Hxs).
      exists x. split; [done|]. exists (blength delayed). split; [done|].
      destruct Hd as (_ & -> & _). done.
    - eapply rand_ok_bind;
        [apply rand_ok_pure; by apply processDistortion_shaped|].
      intros distorted Hd. apply rand_ok_pure.
      destruct (ok_shaped_via _ _ _ _ _ Hd
                  (processBitCrush_shaped distorted (nZ 6) (proj1 Hd)))
        as (x & Hx & Hxs).
      exists x. split; [done|]. exists (blength distorted). split; [done|].
      destruct Hd as (_ & -> & _). done. }
  intros extreme Hext.
  eapply rand_ok_bind; [by apply variation_of_workable|]. intros v8 _.
  apply rand_ok_ret. reflexivity.
Qed.

Lemma processor_recipe_eight (fuel : nat) (sample : AudioBuffer)
    (isLoop : bool) :
  wf_buffer sample → (10 < fuel)%nat →
  rand_ok (λ vs, length vs = 8%nat)
    (AudioProcessor.generateVariations fuel (Some sample) isLoop).
Proof.
  intros Hwf Hfuel. unfold AudioProcessor.generateVariations.
  eapply rand_ok_bind;
    [apply rand_ok_pure; by apply processTransientEnhancement_shaped|].
  intros v1 _.
  eapply rand_ok_bind;
    [apply rand_ok_pure; by apply processPitchShift_shaped|].
  intros v2 _.
  eapply rand_ok_bind;
    [apply rand_ok_pure; by apply processPitchShift_shaped|].
  intros v3 _.
  eapply rand_ok_bind;
    [apply rand_ok_pure; by apply processBitCrush_shaped|].
  intros v4 _.
  eapply rand_ok_bind.
  { destruct isLoop; apply processReverb_shaped; try done;
      apply Qcleb_spec; reflexivity. }
  intros v5 _.
  eapply rand_ok_bind;
    [apply rand_ok_pure; by apply processDelay_shaped|].
  intros v6 _.
  eapply rand_ok_bind;
    [apply rand_ok_pure; by apply processPitchShift_shaped|].
  intros pitchShifted Hps.
  eapply rand_ok_bind.
  { destruct isLoop; apply processReverb_shaped; try apply Hps;
      apply Qcleb_spec; reflexivity. }
  intros v7 _.
  eapply rand_ok_bind with (P := λ _, True).
  { destruct isLoop.
    - eapply rand_ok_bind;
        [apply rand_ok_pure; by apply processDelay_shaped|].
      intros delayed Hd. apply rand_ok_pure.
      destruct (processDistortion_shaped delayed (nZ 3) (proj1 Hd))
        as (x & Hx & _).
      by exists x.
    - eapply rand_ok_bind;
        [apply rand_ok_pure; by apply processDistortion_shaped|].
      intros distorted Hd. apply rand_ok_pure.
      destruct (processBitCrush_shaped distorted (nZ 6) (proj1 Hd))
        as (x & Hx & _).
      by exists x. }
  intros v8 _. apply rand_ok_ret. reflexivity.
Qed.

(** C1. For every loaded sample, every balance in [[0, 1]] and both
    classifications, one run of variation generation produces exactly eight
    buffers: the recipe of the hook returns a list of length 8, the hook
    stores it with no error, and the recipe of the processor returns a list of
    length 8 as well. *)
Theorem exactly_eight_variations (fuel : nat) (sample : AudioBuffer)
    (β : Qc) (isLoop : bool) (r : rng) (st : Hook.State) :
  wf_buffer sample → (0 <= β)%Qc → (β <= 1)%Qc →
  Z.of_nat (blength sample) + Qcfloor (sampleRate sample) < Z.of_nat fuel →
  Hook.originalSample st = Some sample →
  Hook.mlBalance st = Fin β →
  Hook.isLoop st = isLoop →
  (∃ vs r', Hook.recipe fuel sample (Fin β) isLoop r = Ok (vs, r') ∧
            length vs = 8%nat) ∧
  (∃ st', Hook.generateVariations fuel st r = Some st' ∧
          length (Hook.variations st') = 8%nat ∧
          Hook.error st' = None) ∧
  (∃ vs r', AudioProcessor.generateVariations fuel (Some sample) isLoop r
            = Ok (vs, r') ∧
            length vs = 8%nat).
Proof.
  intros Hwf _ _ Hfuel Hsample Hbal Hloop.
  destruct (hook_recipe_eight fuel sample β isLoop Hwf Hfuel r)
    as (vs & r' & Hrec & Hlen).
  destruct (fuel_bounds fuel sample Hwf Hfuel) as (_ & _ & Hf3).
  destruct (processor_recipe_eight fuel sample isLoop Hwf Hf3 r)
    as (vs2 & r2 & Hrec2 & Hlen2).
  split; [eauto|]. split; [|eauto].
  unfold Hook.generateVariations. rewrite Hsample, Hbal, Hloop, Hrec.
  eexists. split; [reflexivity|]. split; [exact Hlen|reflexivity].
Qed.

End Orchestrators.

Lemma exactly_eight_variations_witness :
  wf_buffer click ∧ (0 <= qc 1 2)%Qc ∧ (qc 1 2 <= 1)%Qc ∧
  Z.of_nat (blength click) + Qcfloor (sampleRate click) < Z.of_nat clickFuel ∧
  Hook.originalSample clickLoaded = Some click ∧
  Hook.mlBalance clickLoaded = Fin (qc 1 2) ∧
  Hook.isLoop clickLoaded = false ∧
  (∃ vs r', Hook.recipe clickFuel click (Fin (qc 1 2)) false halves = Ok (vs, r') ∧
            length vs = 8%nat) ∧
  (∃ st', Hook.generateVariations clickFuel clickLoaded halves = Some st' ∧
          length (Hook.variations st') = 8%nat ∧
          Hook.error st' = None) ∧
  (∃ vs r', AudioProcessor.generateVariations clickFuel (Some click) false halves
            = Ok (vs, r') ∧
            length vs = 8%nat).
Proof.
  assert (H1 : (0 <= qc 1 2)%Qc) by discriminate.
  assert (H2 : (qc 1 2 <= 1)%Qc) by discriminate.
  assert (H3 : Z.of_nat (blength click) + Qcfloor (sampleRate click)
               < Z.of_nat clickFuel).
  { unfold clickFuel. rewrite Z2Nat.id by lia. vm_compute. reflexivity. }
  split; [exact click_wf|]. split; [exact H1|]. split; [exact H2|].
  split; [exact H3|]. split; [reflexivity|]. split; [reflexivity|].
  split; [reflexivity|].
  exact (exactly_eight_variations clickFuel click (qc 1 2) false halves clickLoaded
           click_wf H1 H2 H3 eq_refl eq_refl eq_refl).
Defined.

(** ** Silence *)

Lemma zeros_lookup (n i : nat) : (i < n)%nat → zeros n !! i = Some (Fin 0%Qc).
Proof. intros H. unfold zeros. by apply lookup_replicate_2. Qed.

Lemma getn_zeros (n i : nat) : (i < n)%nat → getn (zeros n) i = Fin 0%Qc.
Proof. intros H. apply getn_lookup. by apply zeros_lookup. Qed.

Lemma zeros_insert (n i : nat) : <[i := Fin 0%Qc]> (zeros n) = zeros n.
Proof.
  destruct (decide (i < n)%nat).
  - apply list_insert_id. by apply zeros_lookup.
  - apply list_insert_ge. rewrite zeros_length. lia.
Qed.

Lemma all_zero_eq (d : list num) :
  (∀ i x, d !! i = Some x → x = Fin 0%Qc) → d = zeros (length d).
Proof.
  intros H. apply list_eq. intros i.
  destruct (d !! i) as [x|] eqn:Hx.
  - rewrite (H i x Hx). symmetry. apply zeros_lookup.
    eapply lookup_lt_Some; eauto.
  - symmetry. apply lookup_ge_None_2. rewrite zeros_length.
    by apply lookup_ge_None_1.
Qed.

Lemma silent_eq (b : AudioBuffer) :
  wf_buffer b → silent b →
  b = silence (sampleRate b) (numberOfChannels b) (blength b).
Proof.
  intros Hwf Hs. destruct b as [rate len cs]. unfold silence. cbn. f_equal.
  apply list_eq. intros c. unfold numberOfChannels. cbn.
  destruct (cs !! c) as [d|] eqn:Hd.
  - rewrite lookup_replicate_2 by (eapply lookup_lt_Some; eauto). f_equal.
    pose proof (wf_channel _ c d Hwf Hd) as Hl. cbn in Hl. rewrite <- Hl.
    apply all_zero_eq.
    intros i x Hx. apply (Hs c i x). unfold sample. cbn. rewrite Hd. done.
  - symmetry. apply lookup_ge_None_2. rewrite length_replicate.
    by apply lookup_ge_None_1.
Qed.

Lemma silence_wf (rate : Qc) (nch len : nat) :
  (0 < nch)%nat → (0 < len)%nat → supportedRate rate = true →
  wf_buffer (silence rate nch len).
Proof. apply wf_zero_buffer. Qed.

Lemma silence_finite (rate : Qc) (nch len : nat) :
  finite_buffer (silence rate nch len).
Proof.
  intros c i x. unfold sample, silence. cbn.
  destruct (replicate nch (zeros len) !! c) as [d|] eqn:Hd; cbn; [|done].
  apply lookup_replicate in Hd as [-> _].
  intros [-> _]%lookup_replicate. reflexivity.
Qed.

(** The channel loop over silence yields silence as soon as the body maps
    zeros to zeros. *)
Lemma forChannels_silence (rate : Qc) (nch len n : nat)
    (body : nat → list num → list num → Outcome (list num)) :
  (∀ c, (c < nch)%nat → body c (zeros len) (zeros n) = Ok (zeros n)) →
  forChannels (silence rate nch len) (silence rate nch n) body
  = Ok (silence rate nch n).
Proof.
  intros Hbody.
  rewrite (forChannels_ok _ _ _ (λ _ _, zeros n)).
  - unfold silence. cbn. do 2 f_equal. apply list_eq. intros c.
    rewrite list_lookup_imap.
    destruct (replicate nch (zeros n) !! c) as [d|] eqn:Hd; cbn; [|done].
    by apply lookup_replicate in Hd as [-> _].
  - unfold numberOfChannels. cbn. by rewrite !length_replicate.
  - cbn. intros c out [-> Hc]%lookup_replicate.
    unfold channel_of. cbn. rewrite lookup_replicate_2 by done. cbn.
    by apply Hbody.
Qed.

Lemma silence_create (rate : Qc) (nch len : nat) :
  (0 < nch)%nat → (0 < len)%nat → supportedRate rate = true →
  createBuffer nch (nN len) rate = Ok (silence rate nch len).
Proof. apply createBuffer_ok. Qed.

Lemma nmul_0_fin (q : Qc) : (Fin 0%Qc * Fin q)%num = Fin 0%Qc.
Proof. cbn. f_equal; try ring. Qed.

Section SilentEffects.
Context {ML : MathLib}.
Variables (rate : Qc) (nch len : nat).
Hypothesis Hnch : (0 < nch)%nat.
Hypothesis Hlen : (0 < len)%nat.
Hypothesis Hrate : supportedRate rate = true.

Let sil := silence rate nch len.

Lemma silence_channels : numberOfChannels sil = nch.
Proof. unfold numberOfChannels, sil. cbn. apply length_replicate. Qed.

Lemma crush_zero (b : Z) :
  1 ≤ b ≤ 1023 →
  AudioProcessor.crush (Math_pow2 (nZ b)) (Fin 0%Qc) = Fin 0%Qc.
Proof.
  intros Hb. rewrite Math_pow2_int by lia.
  assert (Hs : Qcpow2 b ≠ 0%Qc) by apply not_eq_sym, Qclt_not_eq, Qcpow2_pos.
  rewrite crush_finite by done. f_equal.
  assert (Hp : Qcpow2 b = (QcZ (2 ^ (b - 1)) * QcZ 2)%Qc).
  { destruct b as [|p|p]; [lia| |lia]. cbn [Qcpow2].
    rewrite <- QcZ_mul. f_equal.
    replace (Z.pos p) with (Z.succ (Z.pos p - 1)) at 1 by lia.
    rewrite Z.pow_succ_r by lia. lia. }
  replace ((0 + 1) / QcZ 2 * Qcpow2 b)%Qc with (QcZ (2 ^ (b - 1))).
  - rewrite Qcfloor_QcZ, Hp. change (QcZ 2) with (1 + 1)%Qc.
    field. split; [discriminate|].
    intros E. apply Hs. rewrite Hp. change (QcZ 2) with (1 + 1)%Qc.
    rewrite E. ring.
  - rewrite Hp. change (QcZ 2) with (1 + 1)%Qc. field. discriminate.
Qed.

Lemma bitcrush_silence (b : Z) :
  1 ≤ b ≤ 1023 → AudioProcessor.processBitCrush sil (nZ b) = Ok sil.
Proof.
  intros Hb. rewrite processBitCrush_spec by by apply silence_wf.
  unfold sil, silence. cbn. do 2 f_equal.
  rewrite fmap_replicate. f_equal. unfold zeros. rewrite fmap_replicate.
  f_equal. by apply crush_zero.
Qed.

Lemma distortion_silence (a : Qc) :
  AudioProcessor.processDistortion sil (Fin a) = Ok sil.
Proof.
  rewrite processDistortion_spec by by apply silence_wf.
  unfold sil, silence. cbn. do 2 f_equal.
  rewrite fmap_replicate. f_equal. unfold zeros. rewrite fmap_replicate.
  f_equal. rewrite nmul_0_fin. cbn. by rewrite tanh_q_0.
Qed.

Lemma sil_wf : wf_buffer sil.
Proof. by apply silence_wf. Qed.

Lemma sil_channel (c : nat) (d : list num) :
  channelData sil !! c = Some d → d = zeros len.
Proof. unfold sil, silence. cbn. by intros [-> _]%lookup_replicate. Qed.

Lemma sil_map (h : list num → list num) (n : nat) :
  h (zeros len) = zeros n →
  mkBuffer rate n (map h (channelData sil)) = silence rate nch n.
Proof.
  intros Hh. unfold sil, silence. cbn. f_equal.
  by rewrite fmap_replicate, Hh.
Qed.

Lemma resample_zeros (r : Qc) (i : nat) :
  (0 <= r)%Qc →
  default (Fin 0%Qc) (AudioProcessor.resample (zeros len) (Fin r) i)
  = Fin 0%Qc.
Proof.
  intros Hr. rewrite resample_finite. cbn zeta.
  pose proof (floor_index_nonneg i r Hr) as Hf.
  set (f := Qcfloor (QcN i * r)) in *. rewrite zeros_length.
  assert (Hget : ∀ z, 0 ≤ z < Z.of_nat len → get (zeros len) z = Fin 0%Qc).
  { intros z Hz. unfold get. rewrite bool_decide_eq_true_2 by lia.
    apply getn_zeros. lia. }
  repeat case_bool_decide; cbn [default]; try reflexivity.
  - rewrite !Hget by lia. change (nZ 1) with (Fin 1%Qc).
    cbn [nsub nadd nneg nmul]. f_equal; try ring.
  - rewrite Hget by lia. reflexivity.
Qed.

Lemma pitchShift_silence (s : Qc) :
  AudioProcessor.processPitchShift sil (Fin s) = Ok sil.
Proof.
  rewrite processPitchShift_spec by apply sil_wf.
  change (blength sil) with len. change (sampleRate sil) with rate.
  f_equal. apply sil_map. unfold resampled.
  apply list_eq. intros i. rewrite list_lookup_fmap.
  destruct (decide (i < len)%nat) as [Hi|Hi].
  - rewrite lookup_seq_lt, zeros_lookup by done. cbn. f_equal.
    destruct (pitchRatio_cases s) as [->|(r & -> & Hr)];
      [by rewrite resample_PInf|by apply resample_zeros].
  - rewrite lookup_seq_ge by lia. symmetry.
    apply lookup_ge_None_2. rewrite zeros_length. lia.
Qed.

Lemma releaseSamples_nonzero (t : Qc) :
  (qc 1 1000 <= t)%Qc → Qceqb (QcZ (Qcfloor (t * rate))) 0 = false.
Proof.
  intros Ht. apply Qceqb_false. intros E.
  apply (QcZ_inj _ 0) in E.
  assert (1 ≤ Qcfloor (t * rate)); [|lia].
  change 1 with (Qcfloor (QcZ 1)). apply Qcfloor_mono.
  destruct (supportedRate_bounds _ Hrate) as [Hlo _].
  qcq. change (inject_Z 3000) with 3000%Q in Hlo.
  change (inject_Z 1) with 1%Q. nra.
Qed.

Lemma transient_silence (attackGain : num) (g : Qc) :
  AudioProcessor.processTransientEnhancement sil attackGain (Fin g) = Ok sil.
Proof.
  unfold AudioProcessor.processTransientEnhancement.
  change (blength sil) with len. change (sampleRate sil) with rate.
  rewrite silence_channels, silence_create by done.
  cbn [mbind Outcome_bind]. apply forChannels_silence.
  intros c Hc. f_equal.
  apply (for_range_inv'
           (λ s : num * list num, s.1 = Fin 0%Qc ∧ s.2 = zeros len)).
  - done.
  - intros i [e o] [_ Hi] [He Ho]. cbn in He, Ho. subst e o.
    rewrite zeros_length in Hi. rewrite getn_zeros by done.
    change (Math_abs (Fin 0%Qc)) with (Fin 0%Qc).
    change (Fin 0%Qc >? Fin 0%Qc)%num with false. cbn iota.
    assert (Henv : ((Fin 0%Qc + (Fin 0%Qc - Fin 0%Qc)
                     / Math_floor
                         ((if AudioProcessor.isLikelyLoop sil
                           then nq 2 100 else nq 5 100) * Fin rate))%num
                    = Fin 0%Qc)).
    { destruct (AudioProcessor.isLikelyLoop sil); cbn;
        rewrite releaseSamples_nonzero by (apply Qcleb_spec; reflexivity);
        f_equal; apply Qc_is_canon; reflexivity. }
    rewrite Henv. split; [reflexivity|].
    cbn [snd].
    assert (Hthr : (Fin 0%Qc >?
                    Fin 0%Qc * (if AudioProcessor.isLikelyLoop sil
                                then nq 12 10 else nq 15 10))%num = false).
    { destruct (AudioProcessor.isLikelyLoop sil); reflexivity. }
    rewrite Hthr, nmul_0_fin. apply zeros_insert.
Qed.

Lemma set_zeros (n : nat) (z : Z) (v : num) :
  (0 ≤ z < Z.of_nat n → v = Fin 0%Qc) → set (zeros n) z v = zeros n.
Proof.
  intros Hv. unfold set. case_bool_decide; [|done].
  destruct (decide (z < Z.of_nat n)) as [Hz|Hz].
  - rewrite Hv by lia. apply zeros_insert.
  - apply list_insert_ge. rewrite zeros_length. lia.
Qed.

Lemma get_zeros (n : nat) (z : Z) :
  0 ≤ z < Z.of_nat n → get (zeros n) z = Fin 0%Qc.
Proof.
  intros Hz. unfold get. rewrite bool_decide_eq_true_2 by lia.
  apply getn_zeros. lia.
Qed.

Lemma copied_zeros (n : nat) : copied (zeros len) (zeros n) = zeros n.
Proof.
  unfold copied. apply (for_range_inv' (λ o, o = zeros n)); [done|].
  intros i o [_ Hi] ->. rewrite zeros_length in Hi.
  rewrite getn_zeros by done. apply zeros_insert.
Qed.

Lemma tapBody_zeros (n : nat) (delaySamples : num) (f cf : Qc) (k : nat) :
  AudioProcessor.tapBody (zeros len) delaySamples (Fin f) (zeros n, Fin cf, k)
  = (zeros n, Fin (cf * f), Datatypes.S k).
Proof.
  unfold AudioProcessor.tapBody. f_equal. f_equal.
  apply (for_range_inv' (λ o, o = zeros n)); [done|].
  intros i o [_ Hi] ->. rewrite zeros_length in Hi.
  destruct (_ <? _)%num; [|done].
  unfold set_at, get_at.
  destruct (to_index (nN i + delaySamples)) as [z|]; [|done].
  apply set_zeros. intros Hz.
  rewrite get_zeros, getn_zeros by done. cbn. f_equal; try ring.
Qed.

Lemma delayTaps_zeros (fuel n : nat) (delaySamples : num) (f : Qc) :
  (10 < fuel)%nat →
  ∃ cf k, AudioProcessor.delayTaps fuel sil (zeros len) (zeros n) delaySamples
            (Fin f) = Some (zeros n, cf, k).
Proof.
  intros Hfuel.
  destruct (delayTaps_terminates fuel sil (zeros len) (zeros n) delaySamples
              (Fin f)) as [[[out cf] k] Hs].
  { pose proof (maxTaps_le_10 sil). lia. }
  exists cf, k. rewrite Hs. do 3 f_equal.
  unfold AudioProcessor.delayTaps in Hs.
  apply (while_inv
    (λ s : AudioProcessor.tapState,
       s.1.1 = zeros n ∧ is_finite s.1.2 = true) _ _ _ _ _ Hs); [done|].
  intros [[o c] j] _ [Ho Hc]. cbn in Ho, Hc. subst o.
  destruct c as [c| | |]; try done. rewrite tapBody_zeros. done.
Qed.

Lemma delay_silence (fuel : nat) (delayTime : num) (f : Qc) :
  (10 < fuel)%nat →
  AudioProcessor.processDelay fuel sil delayTime (Fin f)
  = Ok (silence rate nch (extended sil)).
Proof.
  intros Hfuel. rewrite processDelay_spec by (apply sil_wf || done).
  cbn zeta. fold (extended sil). change (sampleRate sil) with rate.
  f_equal. apply sil_map. rewrite copied_zeros.
  destruct (delayTaps_zeros fuel (extended sil)
              (Math_floor (delayTime * Fin rate)%num) f Hfuel) as (cf & k & ->).
  reflexivity.
Qed.

Lemma convolve_zeros (n : nat) (impulseData : list num) (L : Z) (w : Qc) :
  length impulseData = Z.to_nat L → all_finite impulseData →
  AudioProcessor.convolve (zeros len) impulseData (nZ L) (Fin w) (zeros n)
  = zeros n.
Proof.
  intros Himp Hfin. unfold AudioProcessor.convolve.
  apply (for_range_inv' (λ o, o = zeros n)); [done|].
  intros i o [_ Hi] ->. rewrite zeros_length in Hi.
  apply (for_range_inv' (λ o, o = zeros n)); [done|].
  intros j o [_ Hj] ->. rewrite iterations_nZ, zeros_length in Hj.
  rewrite !getn_zeros by lia.
  pose proof (all_finite_getn impulseData j Hfin ltac:(lia)) as Hx.
  destruct (getn impulseData j) as [x| | |]; try done.
  assert ((Fin 0%Qc + Fin 0%Qc * Fin x * Fin w)%num = Fin 0%Qc) as ->.
  { cbn. f_equal; try ring. }
  apply zeros_insert.
Qed.

Lemma reverb_silence (q w : Qc) :
  (qc 1 3000 <= q)%Qc →
  rand_ok (λ b, b = silence rate nch (extended sil))
    (AudioProcessor.processReverb sil (Fin q) (Fin w)).
Proof.
  intros Hq. pose proof sil_wf as Hwf.
  pose proof (extended_pos sil Hwf) as Hext.
  pose proof (tailFrames_pos sil Hrate) as Htail.
  pose proof (impulseLength_pos _ _ Hrate Hq) as HL.
  unfold AudioProcessor.processReverb.
  rewrite extended_length. change (sampleRate sil) with rate.
  rewrite silence_channels.
  rewrite createBuffer_Z_ok by (done || lia).
  change (Math_floor (Fin rate * Fin q))%num with (nZ (Qcfloor (rate * q))).
  rewrite createBuffer_Z_ok by (done || lia).
  fold (extended sil).
  apply rand_ok_pure_bind, rand_ok_pure_bind.
  eapply rand_ok_bind; [by apply fillImpulse_ok|].
  intros impulse [Hn2 Himp]. apply rand_ok_pure.
  eexists. split; [|reflexivity].
  apply (forChannels_silence rate nch len (extended sil)).
  intros c Hc. f_equal.
  assert (Hdry : for_range 0 (length (zeros len))
                   (λ i outputData,
                      <[i := (getn (zeros len) i * (nZ 1 - Fin w))%num]>
                        outputData)
                   (zeros (extended sil)) = zeros (extended sil)).
  { apply (for_range_inv' (λ o, o = zeros (extended sil))); [done|].
    intros i o [_ Hi] ->. rewrite zeros_length in Hi.
    rewrite getn_zeros by done.
    assert ((Fin 0%Qc * (nZ 1 - Fin w))%num = Fin 0%Qc) as ->.
    { cbn. f_equal; try ring. }
    apply zeros_insert. }
  rewrite Hdry.
  assert (Hc2 : (c mod numberOfChannels impulse
                 < length (channelData impulse))%nat).
  { rewrite Hn2. unfold numberOfChannels in Hn2. rewrite Hn2.
    apply Nat.mod_upper_bound. lia. }
  destruct (lookup_lt_is_Some_2 _ _ Hc2) as [d Hd].
  rewrite (channel_of_lookup _ _ _ Hd).
  rewrite Forall_lookup in Himp. destruct (Himp _ _ Hd) as [Hdl Hdf].
  by apply convolve_zeros.
Qed.

End SilentEffects.

(** ** Resynthesis of silence *)

Lemma ndiv_0_l (q : Qc) : q ≠ 0%Qc → (Fin 0%Qc / Fin q)%num = Fin 0%Qc.
Proof.
  intros Hq. cbn. rewrite (proj2 (Qceqb_false q 0) Hq). f_equal.
  unfold Qcdiv. ring.
Qed.

Lemma ndiv_finite (x : num) (q : Qc) :
  is_finite x = true → q ≠ 0%Qc → is_finite (x / Fin q)%num = true.
Proof.
  intros Hx Hq. destruct x as [a| | |]; try done.
  cbn. by rewrite (proj2 (Qceqb_false q 0) Hq).
Qed.

Lemma nmul_finite (x y : num) :
  is_finite x = true → is_finite y = true → is_finite (x * y)%num = true.
Proof. by destruct x, y. Qed.

Lemma nadd_finite (x y : num) :
  is_finite x = true → is_finite y = true → is_finite (x + y)%num = true.
Proof. by destruct x, y. Qed.

Lemma nsub_finite (x y : num) :
  is_finite x = true → is_finite y = true → is_finite (x - y)%num = true.
Proof. by destruct x, y. Qed.

Lemma Math_max_finite (x y : num) :
  is_finite x = true → is_finite y = true → is_finite (Math_max x y) = true.
Proof.
  destruct x as [a| | |], y as [b| | |]; try done.
  intros _ _. unfold Math_max. by destruct (_ <? _)%num.
Qed.

Lemma find_nothing {A : Type} (f : A → bool) (l : list A) :
  (∀ x, x ∈ l → f x = false) → find f l = None.
Proof.
  induction l as [|a l IH]; [done|]. intros H. cbn.
  rewrite (H a) by left. apply IH. intros x Hx. apply H. by right.
Qed.

Lemma QcN_pos (n : nat) : (0 < n)%nat → QcN n ≠ 0%Qc.
Proof.
  intros Hn E. apply (proj2 (QcN_lt 0 n)) in Hn.
  rewrite E in Hn. revert Hn. apply Qcle_not_lt. apply Qcle_refl.
Qed.

Lemma floorOfLength_lt (n : nat) :
  (0 < n)%nat → (MLProcessor.floorOfLength n (qc 7 10) < n)%nat.
Proof.
  intros Hn. unfold MLProcessor.floorOfLength.
  assert (Qcfloor (QcN n * qc 7 10) < Z.of_nat n); [|lia].
  apply QcZ_lt. eapply Qcle_lt_trans; [apply Qcfloor_le|].
  apply (proj2 (QcN_lt 0 n)) in Hn.
  change (QcZ (Z.of_nat n)) with (QcN n). revert Hn.
  generalize (QcN n). intros q Hq. qcq.
  change (inject_Z (Z.of_nat 0)) with 0%Q in Hq. lra.
Qed.

Section SilentResynthesis.
Context {ML : MathLib}.
Variables (rate : Qc) (nch len : nat).
Hypothesis Hnch : (0 < nch)%nat.
Hypothesis Hlen : (0 < len)%nat.
Hypothesis Hrate : supportedRate rate = true.

Let sil := silence rate nch len.

Lemma rate_nonzero : rate ≠ 0%Qc.
Proof.
  destruct (supportedRate_bounds rate Hrate) as [Hlo _]. intros E.
  rewrite E in Hlo. revert Hlo. apply Qclt_not_le. reflexivity.
Qed.

Lemma get_zeros_cases (n : nat) (z : Z) :
  get (zeros n) z = Fin 0%Qc ∨ get (zeros n) z = NaN.
Proof.
  unfold get. case_bool_decide; [|by right].
  unfold getn. destruct (zeros n !! Z.to_nat z) as [x|] eqn:Hx; [|by right].
  apply lookup_replicate in Hx as [-> _]. by left.
Qed.

Lemma maxValue_zeros : MLProcessor.maxValue (zeros len) = Fin 0%Qc.
Proof.
  unfold MLProcessor.maxValue.
  apply (for_range_inv' (λ m, m = Fin 0%Qc)); [done|].
  intros i m [_ Hi] ->. rewrite zeros_length in Hi.
  rewrite getn_zeros by done. decide_eq.
Qed.

Lemma peaks_zeros (fuel : nat) :
  (len < fuel)%nat →
  MLProcessor.findSignificantPeaks fuel (zeros len) rate = Some [].
Proof.
  intros Hfuel.
  assert (Hr : (0 <= rate)%Qc).
  { destruct (supportedRate_bounds rate Hrate) as [Hlo _].
    eapply Qcle_trans; [|exact Hlo]. discriminate. }
  destruct (scan_terminates fuel (zeros len) rate Hr) as [peaks Hp].
  { by rewrite zeros_length. }
  rewrite Hp. f_equal.
  unfold MLProcessor.findSignificantPeaks in Hp.
  destruct (while _ _ _ _) as [s|] eqn:Hs; [|done].
  cbn in Hp. injection Hp as <-.
  apply (while_inv (λ s : MLProcessor.scanState, s.2 = []) _ _ _ _ _ Hs);
    [done|].
  intros [i ps] _ Hps. cbn in Hps. subst ps.
  unfold MLProcessor.scanBody. rewrite maxValue_zeros.
  destruct (get_zeros_cases len i) as [-> | ->]; reflexivity.
Qed.

Lemma findMainPeak_zeros : MLProcessor.findMainPeak (zeros len) = (O, Fin 0%Qc).
Proof.
  unfold MLProcessor.findMainPeak.
  apply (for_range_inv' (λ s, s = (O, Fin 0%Qc))); [done|].
  intros i s [_ Hi] ->. rewrite zeros_length in Hi.
  rewrite getn_zeros by done. reflexivity.
Qed.

Lemma findDecayIndex_zeros :
  MLProcessor.findDecayIndex (zeros len) O (Fin 0%Qc) = O.
Proof.
  unfold MLProcessor.findDecayIndex. rewrite find_nothing; [done|].
  intros i [_ Hi]%elem_of_seq. rewrite zeros_length in Hi.
  rewrite getn_zeros by lia. reflexivity.
Qed.

Lemma sustainLevelOf_zeros :
  MLProcessor.sustainLevelOf (zeros len) O = Fin 0%Qc.
Proof.
  unfold MLProcessor.sustainLevelOf. rewrite zeros_length.
  cbn [Nat.min].
  assert (Hsum :
    for_range 0
      (Nat.min (MLProcessor.floorOfLength len (qc 7 10)) len)
      (λ i sustainLevel, (sustainLevel + Math_abs (getn (zeros len) i))%num)
      (Fin 0%Qc) = Fin 0%Qc).
  { apply (for_range_inv' (λ s, s = Fin 0%Qc)); [done|].
    intros i s [_ Hi] ->. rewrite getn_zeros by lia. decide_eq. }
  rewrite Hsum. unfold num_or, truthy, nZ.
  destruct (Qceqb _ 0) eqn:E; cbn [negb].
  - apply ndiv_0_l. discriminate.
  - apply ndiv_0_l. by apply Qceqb_false.
Qed.

Lemma energyOf_zeros : MLProcessor.energyOf (zeros len) = Fin 0%Qc.
Proof.
  unfold MLProcessor.energyOf. rewrite zeros_length.
  assert (Hsum :
    for_range 0 len
      (λ i energy, (energy + getn (zeros len) i * getn (zeros len) i)%num)
      (Fin 0%Qc) = Fin 0%Qc).
  { apply (for_range_inv' (λ s, s = Fin 0%Qc)); [done|].
    intros i s [_ Hi] ->. rewrite getn_zeros by lia. decide_eq. }
  rewrite Hsum. apply ndiv_0_l. by apply QcN_pos.
Qed.

Lemma zeroCrossings_zeros : MLProcessor.zeroCrossings (zeros len) = O.
Proof.
  unfold MLProcessor.zeroCrossings. rewrite zeros_length.
  apply (for_range_inv' (λ s, s = O)); [done|].
  intros i s [Hlo Hi] ->. rewrite !getn_zeros by lia. reflexivity.
Qed.

Lemma extractFeatures_silence (fuel : nat) :
  (len < fuel)%nat →
  ok_with quiet (MLProcessor.extractFeatures fuel sil).
Proof.
  intros Hfuel. pose proof rate_nonzero as Hr.
  unfold MLProcessor.extractFeatures, getChannelData.
  change (channelData sil) with (replicate nch (zeros len)).
  rewrite lookup_replicate_2 by done. cbn [mbind Outcome_bind].
  change (sampleRate sil) with rate.
  rewrite peaks_zeros by done. cbn [of_fuel mbind Outcome_bind].
  rewrite findMainPeak_zeros, findDecayIndex_zeros, sustainLevelOf_zeros,
    energyOf_zeros, zeroCrossings_zeros.
  eexists. split; [reflexivity|].
  split; [|split; [|split; [|split; [|split; [|split; [|split; [|split]]]]]]];
    cbn [MLProcessor.attackTime MLProcessor.decayTime MLProcessor.sustainLevel
         MLProcessor.releaseTime MLProcessor.energy
         MLProcessor.spectralCentroid MLProcessor.peakValue
         MLProcessor.peakIndex MLProcessor.significantPeaks];
    try reflexivity.
  - by apply ndiv_0_l.
  - by apply ndiv_0_l.
  - by apply ndiv_finite.
  - unfold nN, nZ. change (QcN 0) with 0%Qc.
    rewrite ndiv_0_l by (rewrite zeros_length; by apply QcN_pos).
    rewrite nmul_0_fin. apply ndiv_0_l. discriminate.
Qed.

Lemma focusFactor_finite (options : MLProcessor.Options)
    (field : MLProcessor.Focus) :
  is_finite (MLProcessor.focusFactor options field) = true.
Proof. unfold MLProcessor.focusFactor. by case_bool_decide. Qed.

Lemma randomize_finite (a : Qc) (value range focusFactor : num) :
  is_finite value = true → is_finite range = true →
  is_finite focusFactor = true →
  rand_ok (λ x, is_finite x = true)
    (MLProcessor.randomize (Fin a) value range focusFactor).
Proof.
  intros Hv Hr Hf r. rewrite randomize_eq. eexists _, _.
  split; [reflexivity|].
  destruct value, range, focusFactor; done.
Qed.

Lemma randomize_zero (a : Qc) (range focusFactor : num) :
  is_finite range = true → is_finite focusFactor = true →
  rand_ok (λ x, x = Fin 0%Qc)
    (MLProcessor.randomize (Fin a) (Fin 0%Qc) range focusFactor).
Proof.
  intros Hr Hf r. rewrite randomize_eq. eexists _, _.
  split; [reflexivity|].
  apply nmul_0_l. destruct range, focusFactor; done.
Qed.

Lemma modifyFeatures_quiet (features : MLProcessor.FeatureSet) (a : Qc)
    (options : MLProcessor.Options) (isLoop : bool) :
  quiet features →
  rand_ok quiet (MLProcessor.modifyFeatures features (Fin a) options isLoop).
Proof.
  intros (Ha & Hd & Hs & Hrel & He & Hc & Hp & Hi & Hps).
  unfold MLProcessor.modifyFeatures. rewrite Ha, Hd, Hs, He, Hc, Hps.
  pose proof (focusFactor_finite options) as Hff.
  eapply rand_ok_bind; [by apply randomize_zero|]. intros ? ->.
  eapply rand_ok_bind; [by apply randomize_zero|]. intros ? ->.
  eapply rand_ok_bind; [by apply randomize_zero|]. intros ? ->.
  eapply rand_ok_bind; [by apply randomize_finite|]. intros rel Hrel'.
  eapply rand_ok_bind; [by apply randomize_zero|]. intros ? ->.
  eapply rand_ok_bind; [apply randomize_zero; by destruct isLoop|].
  intros ? ->.
  rewrite andb_false_r. apply rand_ok_bind with (P := λ ps, ps = []).
  { by apply rand_ok_ret. }
  intros ? ->. apply rand_ok_ret. done.
Qed.

Lemma processOneShot_zeros (features : MLProcessor.FeatureSet) :
  quiet features →
  MLProcessor.processOneShot (zeros len) (zeros len) features = zeros len.
Proof.
  intros (Ha & Hd & Hs & Hrel & He & Hc & Hp & Hi & Hps).
  unfold MLProcessor.processOneShot. rewrite Ha, Hd, Hs, Hp, !zeros_length.
  assert (E0 : (Math_floor (Fin 0%Qc * Fin 0%Qc * nN len))%num = Fin 0%Qc).
  { rewrite nmul_0_fin. unfold nN. rewrite nmul_0_fin. decide_eq. }
  assert (E1 : (Math_floor (Fin 0%Qc * nN len))%num = Fin 0%Qc).
  { unfold nN. rewrite nmul_0_fin. decide_eq. }
  rewrite E0, E1. rewrite nadd_0_l.
  apply (for_range_inv' (λ o, o = zeros len)); [done|].
  intros i o [_ Hi'] ->.
  assert (E2 : (nN i <? Fin 0%Qc)%num = false).
  { change (Fin 0%Qc) with (nN 0). rewrite nlt_nN.
    apply bool_decide_eq_false_2. lia. }
  rewrite !E2, zeros_length. rewrite getn_zeros by done. clear E2.
  destruct (_ <? _)%num.
  - assert ((Fin 0%Qc * (Fin 0%Qc / nq 25 100))%num = Fin 0%Qc) as ->
      by decide_eq.
    apply zeros_insert.
  - rewrite nmul_0_l; [apply zeros_insert|].
    apply Math_max_finite; [done|]. apply nsub_finite; [done|].
    apply nmul_finite.
    + pose proof (floorOfLength_lt len Hlen) as Hlt.
      unfold MLProcessor.floorOfLength in Hlt.
      change (Math_floor (nN len * nq 7 10))%num
        with (nZ (Qcfloor (QcN len * qc 7 10))).
      apply ndiv_finite; [done|].
      set (z := Qcfloor _) in *.
      assert (Hz : (QcZ z < QcN len)%Qc) by (apply (proj2 (QcZ_lt _ _)); lia).
      revert Hz. generalize (QcZ z) (QcN len). intros a b Hab E.
      qcq. lra.
    + apply ndiv_finite; [done|discriminate].
Qed.

Lemma energyRatio_quiet (features : MLProcessor.FeatureSet) :
  quiet features → MLProcessor.energyRatio features = Fin 0%Qc.
Proof.
  intros (_ & _ & _ & _ & He & _). unfold MLProcessor.energyRatio.
  rewrite He.
  assert ((Fin 0%Qc / (if (Fin 0%Qc >? Fin 0%Qc)%num then Fin 0%Qc
                       else nq 1 10000))%num = Fin 0%Qc) as -> by decide_eq.
  cbn. by rewrite sqrt_q_0.
Qed.

Lemma spectralRatio_quiet (features : MLProcessor.FeatureSet) :
  quiet features → MLProcessor.spectralRatio features = Fin 0%Qc.
Proof.
  intros (_ & _ & _ & _ & _ & Hc & _). unfold MLProcessor.spectralRatio.
  rewrite Hc. decide_eq.
Qed.

Lemma postProcess_zeros (features : MLProcessor.FeatureSet) :
  quiet features → MLProcessor.postProcess features (zeros len) = zeros len.
Proof.
  intros Hq. unfold MLProcessor.postProcess.
  rewrite energyRatio_quiet, spectralRatio_quiet by done.
  assert (Hscale :
    for_range 0 (length (zeros len))
      (λ i outputData,
         <[i := (getn outputData i * Fin 0%Qc)%num]> outputData)
      (zeros len) = zeros len).
  { apply (for_range_inv' (λ o, o = zeros len)); [done|].
    intros i o [_ Hi] ->. rewrite zeros_length in Hi.
    rewrite getn_zeros by done.
    assert ((Fin 0%Qc * Fin 0%Qc)%num = Fin 0%Qc) as -> by decide_eq.
    apply zeros_insert. }
  rewrite Hscale. unfold MLProcessor.applySpectralAdjustment.
  assert ((Fin 0%Qc >? nZ 1)%num = false) as -> by decide_eq.
  assert ((Fin 0%Qc <? nZ 1)%num = true) as -> by decide_eq.
  rewrite zeros_length, (getn_zeros len 0) by done.
  match goal with
  | |- ?x.2 = _ => assert (x = (Fin 0%Qc, zeros len)) as ->; [|done]
  end.
  apply (for_range_inv' (λ s, s = (Fin 0%Qc, zeros len))); [done|].
  intros i s [_ Hi] ->. rewrite getn_zeros by done. cbn zeta.
  assert ((Fin 0%Qc * Fin 0%Qc + Fin 0%Qc * (nZ 1 - Fin 0%Qc))%num
          = Fin 0%Qc) as -> by decide_eq.
  by rewrite zeros_insert.
Qed.

Lemma processLoopAudio_zeros (features : MLProcessor.FeatureSet) :
  quiet features →
  MLProcessor.processLoopAudio (zeros len) (zeros len) features
  = Some (zeros len).
Proof.
  intros (_ & _ & _ & _ & _ & _ & _ & _ & Hps).
  unfold MLProcessor.processLoopAudio. rewrite Hps. cbn [length].
  rewrite bool_decide_eq_false_2 by lia. f_equal.
  apply (for_range_inv' (λ o, o = zeros len)); [done|].
  intros i o [_ Hi] ->. rewrite zeros_length in Hi.
  rewrite getn_zeros by done. apply zeros_insert.
Qed.

Lemma synthesizeAudio_silence (features : MLProcessor.FeatureSet)
    (isLoop : bool) :
  quiet features →
  MLProcessor.synthesizeAudio sil features isLoop = Ok sil.
Proof.
  intros Hq. unfold MLProcessor.synthesizeAudio.
  rewrite (silence_channels rate nch len : numberOfChannels sil = nch).
  change (blength sil) with len. change (sampleRate sil) with rate.
  rewrite silence_create by done. cbn [mbind Outcome_bind].
  apply forChannels_silence. intros c Hc. destruct isLoop.
  - rewrite processLoopAudio_zeros by done. cbn.
    by rewrite postProcess_zeros.
  - rewrite processOneShot_zeros by done. cbn.
    by rewrite postProcess_zeros.
Qed.

(** A variation of silence is the same silence, whatever the random
    source. *)
Lemma generateVariation_silence (fuel : nat) (a : Qc)
    (options : MLProcessor.Options) :
  (len < fuel)%nat →
  rand_ok (λ b, b = sil)
    (MLProcessor.generateVariation fuel sil (Fin a) options).
Proof.
  intros Hfuel. unfold MLProcessor.generateVariation.
  eapply rand_ok_bind;
    [apply rand_ok_pure; by apply extractFeatures_silence|].
  intros f Hf. eapply rand_ok_bind; [by apply modifyFeatures_quiet|].
  intros f' Hf'. apply rand_ok_pure. eexists. split; [|reflexivity].
  by apply synthesizeAudio_silence.
Qed.


End SilentResynthesis.

(** ** The pipeline over silence *)

Lemma silences_finite (rate : Qc) (nch : nat) (vs : list AudioBuffer) :
  silences rate nch vs → Forall finite_buffer vs.
Proof.
  apply List.Forall_impl. intros b [n ->]. apply silence_finite.
Qed.

Lemma rand_ok_is {A : Type} (a : A) (o : Outcome A) :
  o = Ok a → rand_ok (λ x, x = a) (pure_of o).
Proof. intros ->. apply rand_ok_pure. by exists a. Qed.

Section SilentPipeline.
Context {ML : MathLib}.
Variables (rate : Qc) (nch len : nat).
Hypothesis Hnch : (0 < nch)%nat.
Hypothesis Hlen : (0 < len)%nat.
Hypothesis Hrate : supportedRate rate = true.
Variable fuel : nat.
Hypothesis Hfuel : Z.of_nat len + Qcfloor rate < Z.of_nat fuel.

Let sil := silence rate nch len.
Let tail := silence rate nch (extended sil).

Lemma silent_fuel :
  (len < fuel)%nat ∧ (0 < extended sil)%nat ∧ (extended sil < fuel)%nat
  ∧ (10 < fuel)%nat.
Proof.
  pose proof (sil_wf rate nch len Hnch Hlen Hrate) as Hwf.
  destruct (fuel_bounds fuel sil Hwf Hfuel) as (H1 & H2 & H3).
  pose proof (extended_pos sil Hwf) as H4.
  change (blength sil) with len in *. repeat split; try done. lia.
Qed.

Lemma variation_of_sil (a : Qc) (options : MLProcessor.Options) :
  rand_ok (λ b, b = sil)
    (MLProcessor.generateVariation fuel sil (Fin a) options).
Proof.
  destruct silent_fuel as (H1 & _). by apply generateVariation_silence.
Qed.

Lemma variation_of_tail (a : Qc) (options : MLProcessor.Options) :
  rand_ok (λ b, b = tail)
    (MLProcessor.generateVariation fuel tail (Fin a) options).
Proof.
  destruct silent_fuel as (_ & H2 & H3 & _).
  by apply generateVariation_silence.
Qed.

Lemma reverb_of_sil (q w : Qc) :
  (qc 1 3000 <= q)%Qc →
  rand_ok (λ b, b = tail) (AudioProcessor.processReverb sil (Fin q) (Fin w)).
Proof. by apply reverb_silence. Qed.

Lemma delay_of_sil (delayTime : num) (f : Qc) :
  AudioProcessor.processDelay fuel sil delayTime (Fin f) = Ok tail.
Proof. destruct silent_fuel as (_ & _ & _ & H4). by apply delay_silence. Qed.

Lemma distortion_of_tail (a : Qc) :
  AudioProcessor.processDistortion tail (Fin a) = Ok tail.
Proof. destruct silent_fuel as (_ & H2 & _). by apply distortion_silence. Qed.

Ltac silence_list :=
  apply rand_ok_ret; cbn [app];
  unfold silences;
  repeat (apply List.Forall_cons; [eexists; reflexivity|]);
  apply List.Forall_nil.

Lemma hook_recipe_silence (β : Qc) (isLoop : bool) :
  rand_ok (silences rate nch) (Hook.recipe fuel sil (Fin β) isLoop).
Proof.
  unfold Hook.recipe.
  eapply rand_ok_bind; [apply variation_of_sil|]. intros ? ->.
  eapply rand_ok_bind; [apply variation_of_sil|]. intros ? ->.
  eapply rand_ok_bind; [apply variation_of_sil|]. intros ? ->.
  eapply rand_ok_bind; [apply variation_of_sil|]. intros ? ->.
  eapply rand_ok_bind; [apply variation_of_sil|]. intros ? ->.
  eapply rand_ok_bind with (P := λ b, b = sil).
  { destruct (_ <? _)%num; [|by apply rand_ok_ret].
    apply rand_ok_is. by apply bitcrush_silence. }
  intros ? ->.
  eapply rand_ok_bind with (P := λ b, b = sil).
  { apply rand_ok_is. destruct isLoop; by apply pitchShift_silence. }
  intros ? ->.
  eapply rand_ok_bind; [apply variation_of_sil|]. intros ? ->.
  eapply rand_ok_bind with (P := λ b, b = tail).
  { destruct isLoop; apply reverb_of_sil; apply Qcleb_spec; reflexivity. }
  intros ? ->.
  eapply rand_ok_bind; [apply variation_of_tail|]. intros ? ->.
  destruct isLoop.
  - eapply rand_ok_bind with (P := λ b, b = tail).
    { eapply rand_ok_bind; [apply rand_ok_is, delay_of_sil|]. intros ? ->.
      apply rand_ok_is, distortion_of_tail. }
    intros ? ->.
    eapply rand_ok_bind; [apply variation_of_tail|]. intros ? ->.
    silence_list.
  - eapply rand_ok_bind with (P := λ b, b = sil).
    { eapply rand_ok_bind;
        [apply rand_ok_is; by apply distortion_silence|].
      intros ? ->. apply rand_ok_is. by apply bitcrush_silence. }
    intros ? ->.
    eapply rand_ok_bind; [apply variation_of_sil|]. intros ? ->.
    silence_list.
Qed.

Lemma processor_recipe_silence (isLoop : bool) :
  rand_ok (silences rate nch)
    (AudioProcessor.generateVariations fuel (Some sil) isLoop).
Proof.
  unfold AudioProcessor.generateVariations.
  eapply rand_ok_bind with (P := λ b, b = sil).
  { apply rand_ok_is. destruct isLoop; by apply transient_silence. }
  intros ? ->.
  eapply rand_ok_bind with (P := λ b, b = sil).
  { apply rand_ok_is. destruct isLoop; by apply pitchShift_silence. }
  intros ? ->.
  eapply rand_ok_bind with (P := λ b, b = sil).
  { apply rand_ok_is. destruct isLoop; by apply pitchShift_silence. }
  intros ? ->.
  eapply rand_ok_bind with (P := λ b, b = sil).
  { apply rand_ok_is. destruct isLoop; by apply bitcrush_silence. }
  intros ? ->.
  eapply rand_ok_bind with (P := λ b, b = tail).
  { destruct isLoop; apply reverb_of_sil; apply Qcleb_spec; reflexivity. }
  intros ? ->.
  eapply rand_ok_bind with (P := λ b, b = tail).
  { apply rand_ok_is. destruct isLoop; apply delay_of_sil. }
  intros ? ->.
  eapply rand_ok_bind with (P := λ b, b = sil).
  { apply rand_ok_is. destruct isLoop; by apply pitchShift_silence. }
  intros ? ->.
  eapply rand_ok_bind with (P := λ b, b = tail).
  { destruct isLoop; apply reverb_of_sil; apply Qcleb_spec; reflexivity. }
  intros ? ->.
  destruct isLoop.
  - eapply rand_ok_bind with (P := λ b, b = tail).
    { eapply rand_ok_bind; [apply rand_ok_is, delay_of_sil|]. intros ? ->.
      apply rand_ok_is, distortion_of_tail. }
    intros ? ->. silence_list.
  - eapply rand_ok_bind with (P := λ b, b = sil).
    { eapply rand_ok_bind;
        [apply rand_ok_is; by apply distortion_silence|].
      intros ? ->. apply rand_ok_is. by apply bitcrush_silence. }
    intros ? ->. silence_list.
Qed.

End SilentPipeline.

Lemma silence_silent (rate : Qc) (nch len : nat) :
  silent (silence rate nch len).
Proof.
  intros c i x. unfold sample, silence. cbn.
  destruct (replicate nch (zeros len) !! c) as [d|] eqn:Hd; cbn; [|done].
  apply lookup_replicate in Hd as [-> _].
  by intros [-> _]%lookup_replicate.
Qed.

(** C3. For every silent loaded sample, every balance in [[0, 1]] and both
    classifications, the whole pipeline completes without an exception and
    every sample of every buffer it returns is finite: the recipe of the hook
    (feature extraction, mutation and resynthesis over the sample and over
    its effected copies) returns finite buffers, the hook stores them with no
    error, and the recipe of the processor, which applies each effect of the
    library, returns finite buffers as well. *)
Theorem silent_input_finite_outputs {ML : MathLib} (fuel : nat)
    (sample : AudioBuffer) (β : Qc) (isLoop : bool) (r : rng)
    (st : Hook.State) :
  wf_buffer sample → silent sample → (0 <= β)%Qc → (β <= 1)%Qc →
  Z.of_nat (blength sample) + Qcfloor (sampleRate sample) < Z.of_nat fuel →
  Hook.originalSample st = Some sample →
  Hook.mlBalance st = Fin β →
  Hook.isLoop st = isLoop →
  (∃ vs r', Hook.recipe fuel sample (Fin β) isLoop r = Ok (vs, r') ∧
            Forall finite_buffer vs) ∧
  (∃ st', Hook.generateVariations fuel st r = Some st' ∧
          Hook.error st' = None ∧
          Forall finite_buffer (Hook.variations st')) ∧
  (∃ vs r', AudioProcessor.generateVariations fuel (Some sample) isLoop r
            = Ok (vs, r') ∧
            Forall finite_buffer vs).
Proof.
  intros Hwf Hsil _ _ Hfuel Hsample Hbal Hloop.
  pose proof (silent_eq sample Hwf Hsil) as E.
  destruct Hwf as (Hn & Hl & Hr & _).
  revert E Hn Hl Hr Hfuel.
  generalize (sampleRate sample) (numberOfChannels sample) (blength sample).
  intros rate nch len -> Hn Hl Hr Hfuel.
  destruct (hook_recipe_silence rate nch len Hn Hl Hr fuel Hfuel β isLoop r)
    as (vs & r' & Hrec & Hvs%silences_finite).
  destruct (processor_recipe_silence rate nch len Hn Hl Hr fuel Hfuel isLoop r)
    as (vs2 & r2 & Hrec2 & Hvs2%silences_finite).
  split; [eauto|]. split; [|eauto].
  unfold Hook.generateVariations. rewrite Hsample, Hbal, Hloop, Hrec.
  eexists. split; [reflexivity|]. split; [reflexivity|exact Hvs].
Qed.

Lemma hush_wf : wf_buffer hush.
Proof. apply silence_wf; [lia|lia|reflexivity]. Qed.

Lemma silent_input_finite_outputs_witness :
  wf_buffer hush ∧ silent hush ∧ (0 <= qc 1 2)%Qc ∧ (qc 1 2 <= 1)%Qc ∧
  Z.of_nat (blength hush) + Qcfloor (sampleRate hush) < Z.of_nat clickFuel ∧
  Hook.originalSample hushLoaded = Some hush ∧
  Hook.mlBalance hushLoaded = Fin (qc 1 2) ∧
  Hook.isLoop hushLoaded = false ∧
  (∃ vs r', Hook.recipe clickFuel hush (Fin (qc 1 2)) false halves
            = Ok (vs, r') ∧
            Forall finite_buffer vs) ∧
  (∃ st', Hook.generateVariations clickFuel hushLoaded halves = Some st' ∧
          Hook.error st' = None ∧
          Forall finite_buffer (Hook.variations st')) ∧
  (∃ vs r', AudioProcessor.generateVariations clickFuel (Some hush) false halves
            = Ok (vs, r') ∧
            Forall finite_buffer vs).
Proof.
  assert (H0 : silent hush) by apply silence_silent.
  assert (H1 : (0 <= qc 1 2)%Qc) by discriminate.
  assert (H2 : (qc 1 2 <= 1)%Qc) by discriminate.
  assert (H3 : Z.of_nat (blength hush) + Qcfloor (sampleRate hush)
               < Z.of_nat clickFuel).
  { unfold clickFuel. rewrite Z2Nat.id by lia. vm_compute. reflexivity. }
  split; [exact hush_wf|]. split; [exact H0|]. split; [exact H1|].
  split; [exact H2|]. split; [exact H3|]. split; [reflexivity|].
  split; [reflexivity|]. split; [reflexivity|].
  exact (silent_input_finite_outputs clickFuel hush (qc 1 2) false halves
           hushLoaded hush_wf H0 H1 H2 H3 eq_refl eq_refl eq_refl).
Defined.

(** ** Reproducibility *)

Lemma same_draws_le (n m : nat) (r1 r2 : rng) :
  (n ≤ m)%nat → same_draws m r1 r2 → same_draws n r1 r2.
Proof. intros Hn H k Hk. apply H. lia. Qed.

Lemma draws_ret {A : Type} (a : A) : draws_at_most 0 (mret a : Rand A).
Proof. intros n r1 r2 H. cbn. done. Qed.

Lemma draws_pure {A : Type} (o : Outcome A) : draws_at_most 0 (pure_of o).
Proof. intros n r1 r2 H. unfold pure_of. by destruct o. Qed.

Lemma draws_random : draws_at_most 1 Math_random.
Proof.
  intros n r1 r2 H. cbn. split.
  - f_equal. apply H. lia.
  - intros k Hk. unfold rng_tail. apply H. lia.
Qed.

Lemma draws_weaken {A : Type} (c c' : nat) (m : Rand A) :
  (c ≤ c')%nat → draws_at_most c m → draws_at_most c' m.
Proof.
  intros Hc Hm n r1 r2 H.
  specialize (Hm (c' - c + n)%nat r1 r2).
  replace (c + (c' - c + n))%nat with (c' + n)%nat in Hm by lia.
  specialize (Hm H).
  destruct (m r1) as [[a1 r1']| |], (m r2) as [[a2 r2']| |]; try done.
  destruct Hm as [-> Hm]. split; [done|].
  eapply same_draws_le; [|exact Hm]. lia.
Qed.

Lemma draws_bind {A B : Type} (c1 c2 : nat) (m : Rand A) (f : A → Rand B) :
  draws_at_most c1 m →
  (∀ r a r', m r = Ok (a, r') → draws_at_most c2 (f a)) →
  draws_at_most (c1 + c2) (m ≫= f).
Proof.
  intros Hm Hf n r1 r2 H. unfold mbind, Rand_bind.
  specialize (Hm (c2 + n)%nat r1 r2).
  replace (c1 + (c2 + n))%nat with (c1 + c2 + n)%nat in Hm by lia.
  specialize (Hm H).
  destruct (m r1) as [[a1 r1']| |] eqn:E1, (m r2) as [[a2 r2']| |];
    try done.
  destruct Hm as [-> Hm]. by apply (Hf r1 a2 r1' E1).
Qed.

Lemma draws_foldlM {S A : Type} (c : nat) (f : S → A → Rand S)
    (l : list A) (s : S) :
  (∀ s a, draws_at_most c (f s a)) →
  draws_at_most (length l * c) (foldlM f s l).
Proof.
  intros Hf. revert s. induction l as [|a l IH]; intros s.
  - apply draws_ret.
  - cbn [foldlM length Nat.mul]. apply draws_bind; [apply Hf|].
    intros _ s' _ _. apply IH.
Qed.

Lemma draws_result {A : Type} (c : nat) (m : Rand A) (r1 r2 : rng) :
  draws_at_most c m → same_draws c r1 r2 → result (m r1) = result (m r2).
Proof.
  intros Hm H. specialize (Hm O r1 r2).
  rewrite Nat.add_0_r in Hm. specialize (Hm H). unfold result.
  destruct (m r1) as [[a1 r1']| |], (m r2) as [[a2 r2']| |]; try done.
  - destruct Hm as [-> _]. reflexivity.
  - by rewrite Hm.
Qed.

Lemma both_ok_ret {A : Type} (R : A → A → Prop) (a1 a2 : A) :
  R a1 a2 → both_ok R (mret a1) (mret a2).
Proof. intros H r1 r2. exists a1, r1, a2, r2. done. Qed.

Lemma both_ok_bind {A B : Type} (R : A → A → Prop) (Q : B → B → Prop)
    (m1 m2 : Rand A) (f1 f2 : A → Rand B) :
  both_ok R m1 m2 →
  (∀ a1 a2, R a1 a2 → both_ok Q (f1 a1) (f2 a2)) →
  both_ok Q (m1 ≫= f1) (m2 ≫= f2).
Proof.
  intros Hm Hf r1 r2. unfold mbind, Rand_bind.
  destruct (Hm r1 r2) as (a1 & r1' & a2 & r2' & -> & -> & HR).
  apply (Hf a1 a2 HR).
Qed.

Lemma both_ok_any {A : Type} (P Q : A → Prop) (m1 m2 : Rand A) :
  rand_ok P m1 → rand_ok Q m2 → both_ok (λ a b, P a ∧ Q b) m1 m2.
Proof.
  intros H1 H2 r1 r2.
  destruct (H1 r1) as (a1 & r1' & E1 & Ha1).
  destruct (H2 r2) as (a2 & r2' & E2 & Ha2).
  exists a1, r1', a2, r2'. done.
Qed.

(** A computation whose result is fixed in advance returns it twice. *)
Lemma both_ok_det {A : Type} (P : A → Prop) (m : Rand A) :
  (∃ v, rand_ok (λ x, x = v) m) → rand_ok P m →
  both_ok (λ a b, a = b ∧ P a) m m.
Proof.
  intros [v Hv] HP r1 r2.
  destruct (Hv r1) as (a1 & r1' & E1 & ->).
  destruct (Hv r2) as (a2 & r2' & E2 & ->).
  destruct (HP r1) as (a & r' & E & Ha).
  rewrite E1 in E. injection E as <- _.
  exists v, r1', v, r2'. done.
Qed.

Lemma both_ok_pure {A : Type} (P : A → Prop) (o : Outcome A) :
  ok_with P o → both_ok (λ a b, a = b ∧ P a) (pure_of o) (pure_of o).
Proof.
  intros (a & -> & Ha) r1 r2. exists a, r1, a, r2. done.
Qed.

Lemma pure_of_Ok {A : Type} (o : Outcome A) (a : A) (r r' : rng) :
  pure_of o r = Ok (a, r') → o = Ok a.
Proof. unfold pure_of. destruct o; [|done..]. by intros [= -> _]. Qed.

Lemma createBuffer_channels (nch : nat) (length : num) (rate : Qc)
    (b : AudioBuffer) :
  createBuffer nch length rate = Ok b → numberOfChannels b = nch.
Proof.
  unfold createBuffer. destruct length as [q| | |]; try done.
  destruct (_ && _); [|done]. intros [= <-].
  unfold numberOfChannels. cbn. apply length_replicate.
Qed.

Section Reproducible.
Context {ML : MathLib}.

Lemma fillImpulse_draws (impulse : AudioBuffer) (impulseLength : num) :
  draws_at_most (numberOfChannels impulse * iterations impulseLength)
    (AudioProcessor.fillImpulse impulse impulseLength).
Proof.
  unfold AudioProcessor.fillImpulse.
  eapply draws_weaken;
    [|apply (draws_foldlM (iterations impulseLength * 1 + 0))].
  { rewrite length_seq. lia. }
  intros imp c. apply draws_bind.
  - eapply draws_weaken; [|apply (draws_foldlM 1)].
    { by rewrite length_seq. }
    intros d i. change 1%nat with (1 + 0)%nat.
    apply draws_bind; [apply draws_random|].
    intros _ x _ _. apply draws_ret.
  - intros _ d _ _. apply draws_ret.
Qed.

(** The reverb is a function of its arguments and of the draws that fill
    the impulse response. *)
Lemma processReverb_draws (buffer : AudioBuffer) (roomSize wetDry : num) :
  draws_at_most (reverbDraws buffer roomSize)
    (AudioProcessor.processReverb buffer roomSize wetDry).
Proof.
  unfold AudioProcessor.processReverb, reverbDraws.
  set (L := Math_floor (Fin (sampleRate buffer) * roomSize)%num).
  eapply draws_weaken; [|apply (draws_bind 0 (0 + (2 * iterations L + 0)))].
  - lia.
  - apply draws_pure.
  - intros _ processedBuffer _ _. apply draws_bind; [apply draws_pure|].
    intros r impulse r' Himp%pure_of_Ok%createBuffer_channels.
    apply draws_bind.
    + rewrite <- Himp. apply fillImpulse_draws.
    + intros _ imp _ _. apply draws_pure.
Qed.

End Reproducible.

Section ZeroBalance.
Context {ML : MathLib}.

(** With amount zero the mutation returns the value it was given. *)
Lemma randomize_still (value range focusFactor : num) :
  is_finite range = true → is_finite focusFactor = true →
  rand_ok (λ x, x = value)
    (MLProcessor.randomize (Fin 0%Qc) value range focusFactor).
Proof.
  intros Hr Hf r. rewrite randomize_eq. eexists _, _.
  split; [reflexivity|].
  destruct range as [g| | |], focusFactor as [h| | |]; try done.
  assert ((nZ 1 + (Fin (r O) * nZ 2 - nZ 1) * Fin g * Fin 0%Qc * Fin h)%num
          = Fin 1%Qc) as ->.
  { cbn. f_equal. change (QcZ 1) with 1%Qc. ring. }
  apply nmul_1_r.
Qed.

Lemma mutatePeak_still (p : MLProcessor.Peak) (j : Z) :
  MLProcessor.index p = nZ j →
  rand_ok (λ p', p' = p) (MLProcessor.mutatePeak (Fin 0%Qc) p).
Proof.
  intros Hj. unfold MLProcessor.mutatePeak.
  eapply rand_ok_bind; [by apply randomize_still|]. intros ? ->.
  eapply rand_ok_bind; [by apply randomize_still|]. intros ? ->.
  apply rand_ok_ret. destruct p as [i v t]. cbn in *. subst i.
  f_equal. unfold nZ. cbn. by rewrite Qcfloor_QcZ.
Qed.

Lemma mapM_Rand_still (peaks : list MLProcessor.Peak) :
  Forall (λ p, ∃ j, MLProcessor.index p = nZ j) peaks →
  rand_ok (λ ps, ps = peaks)
    (MLProcessor.mapM_Rand (MLProcessor.mutatePeak (Fin 0%Qc)) peaks).
Proof.
  induction 1 as [|p ps [j Hj] _ IH]; [by apply rand_ok_ret|].
  cbn [MLProcessor.mapM_Rand].
  eapply rand_ok_bind; [by eapply mutatePeak_still|]. intros ? ->.
  eapply rand_ok_bind; [exact IH|]. intros ? ->.
  by apply rand_ok_ret.
Qed.

Lemma modifyFeatures_still (features : MLProcessor.FeatureSet)
    (options : MLProcessor.Options) (isLoop : bool) :
  Forall (λ p, ∃ j, MLProcessor.index p = nZ j)
    (MLProcessor.significantPeaks features) →
  rand_ok (λ f', f' = features)
    (MLProcessor.modifyFeatures features (Fin 0%Qc) options isLoop).
Proof.
  intros Hp. unfold MLProcessor.modifyFeatures.
  pose proof (focusFactor_finite options) as Hff.
  do 5 (eapply rand_ok_bind; [by apply randomize_still|]; intros ? ->).
  eapply rand_ok_bind; [apply randomize_still; by destruct isLoop|].
  intros ? ->.
  eapply rand_ok_bind with (P := λ ps, ps = MLProcessor.significantPeaks features).
  { destruct (_ && _); [by apply mapM_Rand_still|by apply rand_ok_ret]. }
  intros ? ->. apply rand_ok_ret. by destruct features.
Qed.

(** With amount zero a variation is a function of the buffer alone. *)
Lemma generateVariation_still (fuel : nat) (buffer : AudioBuffer)
    (options : MLProcessor.Options) :
  wf_buffer buffer → (blength buffer < fuel)%nat →
  ∃ v, rand_ok (λ x, x = v)
         (MLProcessor.generateVariation fuel buffer (Fin 0%Qc) options).
Proof.
  intros Hwf Hfuel.
  destruct (extractFeatures_frames fuel buffer Hwf Hfuel) as (f & Hf & Hall).
  destruct (synthesizeAudio_shaped buffer f (MLProcessor.isLikelyLoop f) Hwf)
    as (v & Hv & _).
  { eapply List.Forall_impl; [|exact Hall]. cbn beta.
    intros p [j ->]. done. }
  exists v. unfold MLProcessor.generateVariation. rewrite Hf.
  apply rand_ok_pure_bind.
  eapply rand_ok_bind; [by apply modifyFeatures_still|]. intros ? ->.
  apply rand_ok_pure. by exists v.
Qed.

End ZeroBalance.

Lemma both_ok_impl {A : Type} (R R' : A → A → Prop) (m1 m2 : Rand A) :
  both_ok R m1 m2 → (∀ a b, R a b → R' a b) → both_ok R' m1 m2.
Proof.
  intros Hm HR r1 r2.
  destruct (Hm r1 r2) as (a1 & r1' & a2 & r2' & E1 & E2 & H).
  exists a1, r1', a2, r2'. auto.
Qed.

Section Recipes.
Context {ML : MathLib}.
Variables (fuel : nat) (sample : AudioBuffer).
Hypothesis Hwf : wf_buffer sample.
Hypothesis Hfuel :
  Z.of_nat (blength sample) + Qcfloor (sampleRate sample) < Z.of_nat fuel.

Lemma still_of_workable (b : AudioBuffer) (options : MLProcessor.Options) :
  workable fuel sample b →
  both_ok (λ x y, x = y ∧ workable fuel sample x)
    (MLProcessor.generateVariation fuel b (Fin 0%Qc) options)
    (MLProcessor.generateVariation fuel b (Fin 0%Qc) options).
Proof.
  intros Hb. apply both_ok_det; [|by apply variation_of_workable].
  destruct Hb as (n & (Hb & Hn & _) & Hlt).
  apply generateVariation_still; [done|lia].
Qed.

Ltac same_stage lem H :=
  eapply both_ok_bind; [apply both_ok_pure; apply lem; done|];
  intros ? ? [<- H].

Ltac listed :=
  apply both_ok_ret; split; [reflexivity|];
  let i := fresh "i" in let Hi := fresh "Hi" in
  intros i Hi;
  do 8 (destruct i as [|i]; [try reflexivity; exfalso; apply Hi;
                             repeat constructor|]);
  reflexivity.

Lemma processor_recipe_reproducible (isLoop : bool) :
  both_ok (agree_except [4; 6]%nat)
    (AudioProcessor.generateVariations fuel (Some sample) isLoop)
    (AudioProcessor.generateVariations fuel (Some sample) isLoop).
Proof.
  destruct (fuel_bounds fuel sample Hwf Hfuel) as (Hf1 & Hf2 & Hf3).
  unfold AudioProcessor.generateVariations.
  same_stage (processTransientEnhancement_shaped sample) H1.
  same_stage (processPitchShift_shaped sample) H2.
  same_stage (processPitchShift_shaped sample) H3.
  same_stage (processBitCrush_shaped sample) H4.
  eapply both_ok_bind.
  { apply both_ok_any; destruct isLoop; apply processReverb_shaped;
      try done; apply Qcleb_spec; reflexivity. }
  intros v5 v5' _.
  same_stage (processDelay_shaped fuel sample) H6.
  same_stage (processPitchShift_shaped sample) Hps.
  eapply both_ok_bind.
  { apply both_ok_any; destruct isLoop; apply processReverb_shaped;
      try apply Hps; apply Qcleb_spec; reflexivity. }
  intros v7 v7' _.
  eapply both_ok_bind with (R := λ x y, x = y).
  { destruct isLoop.
    - same_stage (processDelay_shaped fuel sample) Hd.
      eapply both_ok_impl; [apply both_ok_pure, processDistortion_shaped|].
      + apply Hd.
      + by intros ? ? [-> _].
    - same_stage (processDistortion_shaped sample) Hd.
      eapply both_ok_impl; [apply both_ok_pure, processBitCrush_shaped|].
      + apply Hd.
      + by intros ? ? [-> _]. }
  intros v8 ? <-. listed.
Qed.

Lemma hook_recipe_reproducible (isLoop : bool) :
  both_ok (agree_except [6%nat])
    (Hook.recipe fuel sample (Fin 0%Qc) isLoop)
    (Hook.recipe fuel sample (Fin 0%Qc) isLoop).
Proof.
  destruct (fuel_bounds fuel sample Hwf Hfuel) as (Hf1 & Hf2 & Hf3).
  pose proof (shaped_refl sample Hwf) as Hs.
  assert (Hw : workable fuel sample sample) by by exists (blength sample).
  unfold Hook.recipe. rewrite !nmul_0_r by done.
  eapply both_ok_bind; [by apply still_of_workable|]. intros v1 ? [<- _].
  eapply both_ok_bind; [by apply still_of_workable|]. intros v2 ? [<- _].
  eapply both_ok_bind; [by apply still_of_workable|]. intros v3 ? [<- _].
  eapply both_ok_bind; [by apply still_of_workable|]. intros v4 ? [<- _].
  eapply both_ok_bind; [by apply still_of_workable|].
  intros toneVariation ? [<- (nt & Htone & _)].
  eapply both_ok_bind with (R := λ x y, x = y).
  { destruct (_ <? _)%num; [|by apply both_ok_ret].
    eapply both_ok_impl; [apply both_ok_pure, processBitCrush_shaped|].
    - apply Htone.
    - by intros ? ? [-> _]. }
  intros v5 ? <-.
  same_stage (processPitchShift_shaped sample) Hps.
  eapply both_ok_bind;
    [apply still_of_workable; by exists (blength sample)|].
  intros v6 ? [<- _].
  eapply both_ok_bind.
  { apply both_ok_any; destruct isLoop; apply processReverb_shaped;
      try done; apply Qcleb_spec; reflexivity. }
  intros reverbed reverbed' [Hr Hr'].
  eapply both_ok_bind.
  { apply both_ok_any; apply variation_of_workable;
      by exists (extended sample). }
  intros v7 v7' _.
  eapply both_ok_bind with (R := λ x y, x = y ∧ workable fuel sample x).
  { destruct isLoop.
    - same_stage (processDelay_shaped fuel sample) Hd.
      eapply both_ok_impl; [apply both_ok_pure, processDistortion_shaped|].
      + apply Hd.
      + intros x ? [<- Hx]. split; [done|]. exists (extended sample).
        split; [|done]. eapply shaped_trans; [exact Hd|].
        destruct Hd as (_ & <- & _). exact Hx.
    - same_stage (processDistortion_shaped sample) Hd.
      eapply both_ok_impl; [apply both_ok_pure, processBitCrush_shaped|].
      + apply Hd.
      + intros x ? [<- Hx]. split; [done|]. exists (blength sample).
        split; [|done]. eapply shaped_trans; [exact Hd|].
        destruct Hd as (_ & <- & _). exact Hx. }
  intros extreme ? [<- Hext].
  eapply both_ok_bind; [by apply still_of_workable|]. intros v8 ? [<- _].
  listed.
Qed.

End Recipes.

(** Applied twice to the same two frames with the same room size and the
    same mix, the reverb returns a buffer that starts with 1/2 and then a
    buffer that starts with 1/8: the impulse response is drawn anew from the
    random source, so the reverb is not deterministic. *)
Lemma reverb_twice_counterexample :
  ∃ first second,
    result (reverbTwice tick (nq 1 1000) (nq 1 2) harmonic)
    = Ok (first, second) ∧
    sample first 0 0 = Some (nq 1 2) ∧
    sample second 0 0 = Some (nq 1 8) ∧
    first ≠ second.
Proof.
  assert (F : firstSamples
                (result (reverbTwice tick (nq 1 1000) (nq 1 2) harmonic))
              = Some (Some (nq 1 2), Some (nq 1 8))) by decide_eq.
  destruct (result _) as [[first second]| |]; try discriminate.
  cbn in F. injection F as F1 F2.
  exists first, second. split; [reflexivity|]. split; [exact F1|].
  split; [exact F2|]. intros E. rewrite E, F2 in F1. discriminate.
Qed.

(** C8 (amended). The effects other than the reverb never consult the random
    source, and the reverb is a function of its arguments and of the draws
    that fill its impulse response.  Hence, over any two random sources, the
    recipe of the processor returns two lists of buffers that agree
    everywhere except at the two entries made with the reverb (the fifth and
    the seventh); at balance zero the recipe of the hook returns two lists
    that agree everywhere except at the entry made with the reverb (the
    seventh); and two applications of the reverb whose sources agree on its
    draws return the same buffer. *)
Theorem effects_reproducible_up_to_reverb {ML : MathLib} (fuel : nat)
    (sample : AudioBuffer) (isLoop : bool) (roomSize wetDry : num)
    (r1 r2 : rng) :
  wf_buffer sample →
  Z.of_nat (blength sample) + Qcfloor (sampleRate sample) < Z.of_nat fuel →
  (∃ vs1 vs2 r1' r2',
     AudioProcessor.generateVariations fuel (Some sample) isLoop r1
     = Ok (vs1, r1') ∧
     AudioProcessor.generateVariations fuel (Some sample) isLoop r2
     = Ok (vs2, r2') ∧
     agree_except [4; 6]%nat vs1 vs2) ∧
  (∃ vs1 vs2 r1' r2',
     Hook.recipe fuel sample (Fin 0%Qc) isLoop r1 = Ok (vs1, r1') ∧
     Hook.recipe fuel sample (Fin 0%Qc) isLoop r2 = Ok (vs2, r2') ∧
     agree_except [6%nat] vs1 vs2) ∧
  (same_draws (reverbDraws sample roomSize) r1 r2 →
   result (AudioProcessor.processReverb sample roomSize wetDry r1)
   = result (AudioProcessor.processReverb sample roomSize wetDry r2)).
Proof.
  intros Hwf Hfuel. split; [|split].
  - destruct (processor_recipe_reproducible fuel sample Hwf Hfuel isLoop r1 r2)
      as (vs1 & r1' & vs2 & r2' & H1 & H2 & H).
    by exists vs1, vs2, r1', r2'.
  - destruct (hook_recipe_reproducible fuel sample Hwf Hfuel isLoop r1 r2)
      as (vs1 & r1' & vs2 & r2' & H1 & H2 & H).
    by exists vs1, vs2, r1', r2'.
  - apply draws_result, processReverb_draws.
Qed.

Lemma effects_reproducible_up_to_reverb_witness :
  wf_buffer click ∧
  Z.of_nat (blength click) + Qcfloor (sampleRate click) < Z.of_nat clickFuel ∧
  (∃ vs1 vs2 r1' r2',
     AudioProcessor.generateVariations clickFuel (Some click) false halves
     = Ok (vs1, r1') ∧
     AudioProcessor.generateVariations clickFuel (Some click) false harmonic
     = Ok (vs2, r2') ∧
     agree_except [4; 6]%nat vs1 vs2) ∧
  (∃ vs1 vs2 r1' r2',
     Hook.recipe clickFuel click (Fin 0%Qc) false halves = Ok (vs1, r1') ∧
     Hook.recipe clickFuel click (Fin 0%Qc) false harmonic = Ok (vs2, r2') ∧
     agree_except [6%nat] vs1 vs2) ∧
  (same_draws (reverbDraws click (nq 3 10)) halves harmonic →
   result (AudioProcessor.processReverb click (nq 3 10) (nq 6 10) halves)
   = result (AudioProcessor.processReverb click (nq 3 10) (nq 6 10) harmonic)).
Proof.
  assert (H3 : Z.of_nat (blength click) + Qcfloor (sampleRate click)
               < Z.of_nat clickFuel).
  { unfold clickFuel. rewrite Z2Nat.id by lia. vm_compute. reflexivity. }
  split; [exact click_wf|]. split; [exact H3|].
  exact (effects_reproducible_up_to_reverb clickFuel click false (nq 3 10)
           (nq 6 10) halves harmonic click_wf H3).
Defined.


(** The first version of the delay has the feedback floor but no cap: at
    feedback 9/10 its loop runs 43 times, until the feedback is
    [(9/10) ^ 44]. *)
Lemma legacy_delay_uncapped :
  Legacy.delayTaps 43 [Fin 1%Qc] (zeros 3) (nZ 1) (nq 9 10) = None ∧
  snd <$> Legacy.delayTaps 44 [Fin 1%Qc] (zeros 3) (nZ 1) (nq 9 10)
  = Some (feedbackAt (nq 9 10) 43).
Proof. split; decide_eq. Qed.

(** ** WAV export *)

Lemma foldlM_option_range {S : Type} (P : nat → S → Prop) (f : S → nat → option S)
    (lo n : nat) (s : S) :
  P lo s →
  (∀ i s, (lo ≤ i < lo + n)%nat → P i s → ∃ s', f s i = Some s' ∧ P (Datatypes.S i) s') →
  ∃ s', foldlM f s (seq lo n) = Some s' ∧ P (lo + n)%nat s'.
Proof.
  revert lo s. induction n as [|n IH]; intros lo s Hs Hf.
  - exists s. rewrite Nat.add_0_r. done.
  - cbn [seq foldlM]. destruct (Hf lo s) as (s' & -> & Hs'); [lia|done|].
    cbn. destruct (IH (Datatypes.S lo) s' Hs') as (s'' & E & Hs'').
    { intros i t Hi. apply Hf. lia. }
    exists s''. split; [done|]. by rewrite Nat.add_succ_r.
Qed.

Lemma le_bytes_length (n : nat) (v : Z) : length (Wav.le_bytes n v) = n.
Proof. unfold Wav.le_bytes. by rewrite length_map, length_seq. Qed.

Lemma le_bytes_range (n : nat) (v : Z) : Forall is_byte (Wav.le_bytes n v).
Proof.
  unfold Wav.le_bytes. apply Forall_fmap, Forall_forall. intros k _.
  cbn. unfold is_byte. apply Z.mod_pos_bound. lia.
Qed.

Lemma Forall_inserts {A : Type} (P : A → Prop) (i : nat) (k l : list A) :
  Forall P k → Forall P l → Forall P (list_inserts i k l).
Proof.
  intros Hk Hl. revert i. induction Hk as [|x k Hx Hk IH]; intros i; cbn.
  - done.
  - apply Forall_insert; [apply IH|done].
Qed.

Lemma setBytes_spec (view : list Z) (off : nat) (bs : list Z) :
  (off + length bs ≤ length view)%nat →
  Wav.setBytes view off bs = Some (list_inserts off bs view).
Proof. intros H. unfold Wav.setBytes. by rewrite bool_decide_eq_true_2. Qed.

Lemma Qceiling_QcZ (z : Z) : Qceiling (QcZ z) = z.
Proof.
  unfold Qceiling.
  rewrite (Qfloor_comp (- QcZ z) (inject_Z (- z))).
  - rewrite Qfloor_Z. lia.
  - rewrite this_QcZ, inject_Z_opp. reflexivity.
Qed.

Lemma truncate_nZ (z : Z) : Wav.truncate (nZ z) = z.
Proof.
  unfold Wav.truncate, nZ. destruct (Qcltb _ _).
  - apply Qceiling_QcZ.
  - apply Qcfloor_QcZ.
Qed.

Lemma truncate_nN (n : nat) : Wav.truncate (nN n) = Z.of_nat n.
Proof. apply truncate_nZ. Qed.

Lemma foldlM_fmap {S A B : Type} (g : A → B) (f : S → B → option S)
    (l : list A) (s : S) :
  foldlM f s (g <$> l) = foldlM (λ s a, f s (g a)) s l.
Proof.
  revert s. induction l as [|a l IH]; intros s; [done|].
  cbn. destruct (f s (g a)); cbn; [apply IH|done].
Qed.

Lemma foldlM_ext_option {S A : Type} (f g : S → A → option S) (l : list A)
    (s : S) :
  (∀ s a, f s a = g s a) → foldlM f s l = foldlM g s l.
Proof.
  intros H. revert s. induction l as [|a l IH]; intros s; [done|].
  cbn. rewrite H. destruct (g s a); cbn; [apply IH|done].
Qed.

Lemma codes_range (s : String.string) : Forall is_byte (codes s).
Proof.
  unfold codes. apply Forall_fmap, Forall_forall. intros c _. cbn.
  unfold is_byte. pose proof (Ascii.nat_ascii_bounded c). lia.
Qed.

Lemma codes_length (s : String.string) : length (codes s) = String.length s.
Proof.
  unfold codes. rewrite length_map.
  induction s as [|c s IH]; cbn; [done|]. by rewrite IH.
Qed.

Lemma setUint8_code (view : list Z) (off : nat) (c : Ascii.ascii) :
  (off < length view)%nat →
  Wav.setUint8 view off (nN (Ascii.nat_of_ascii c))
  = Some (<[off := Z.of_nat (Ascii.nat_of_ascii c)]> view).
Proof.
  intros H. unfold Wav.setUint8.
  rewrite truncate_nN, setBytes_spec by (rewrite le_bytes_length; lia).
  cbn [Wav.le_bytes seq map list_inserts]. do 2 f_equal.
  change (256 ^ Z.of_nat 0) with 1. rewrite Z.div_1_r.
  apply Z.mod_small. pose proof (Ascii.nat_ascii_bounded c). lia.
Qed.

(** [writeString] stores the char codes of the string, provided they fit. *)
Lemma writeString_spec (view : list Z) (offset : nat) (s : String.string) :
  (offset + String.length s ≤ length view)%nat →
  Wav.writeString view offset s = Some (list_inserts offset (codes s) view).
Proof.
  unfold Wav.writeString. revert view offset.
  induction s as [|c s IH]; intros view offset Hfit; [done|].
  cbn [String.length] in *. cbn [seq foldlM].
  change (Wav.charCodeAt (String.String c s) 0) with (nN (Ascii.nat_of_ascii c)).
  rewrite Nat.add_0_r, setUint8_code by lia.
  cbn [mbind option_bind]. rewrite <- fmap_S_seq, foldlM_fmap.
  erewrite (foldlM_ext_option _ (λ view i,
              Wav.setUint8 view (Datatypes.S offset + i) (Wav.charCodeAt s i))).
  - rewrite IH by (rewrite length_insert; lia).
    unfold codes. cbn [String.list_ascii_of_string map list_inserts].
    by rewrite list_insert_inserts_lt by lia.
  - intros v i. rewrite Nat.add_succ_r. reflexivity.
Qed.

Lemma write_append (pre bs : list Z) (n rest : nat) :
  length bs = n →
  list_inserts (length pre) bs (pre ++ replicate (n + rest) 0)
  = (pre ++ bs) ++ replicate rest 0.
Proof.
  intros <-. rewrite <- (Nat.add_0_r (length pre)) at 1.
  rewrite list_inserts_app_r, replicate_add.
  rewrite list_inserts_0_r by by rewrite length_replicate.
  by rewrite <- app_assoc.
Qed.

(** One write of [n] bytes right after what is already written. *)
Lemma setBytes_append (pre bs : list Z) (off n rest : nat) :
  off = length pre → length bs = n →
  Wav.setBytes (pre ++ replicate (n + rest) 0) off bs
  = Some ((pre ++ bs) ++ replicate rest 0).
Proof.
  intros -> Hn. rewrite setBytes_spec.
  - by rewrite write_append.
  - rewrite length_app, length_replicate. lia.
Qed.

Lemma setInt16_append (pre : list Z) (x : num) (off rest : nat) :
  off = length pre →
  Wav.setInt16 (pre ++ replicate (2 + rest) 0) off x
  = Some ((pre ++ Wav.le_bytes 2 (Wav.truncate x)) ++ replicate rest 0).
Proof. intros H. by apply setBytes_append. Qed.

Lemma setUint16_append (pre : list Z) (x : num) (off rest : nat) :
  off = length pre →
  Wav.setUint16 (pre ++ replicate (2 + rest) 0) off x
  = Some ((pre ++ Wav.le_bytes 2 (Wav.truncate x)) ++ replicate rest 0).
Proof. intros H. by apply setBytes_append. Qed.

Lemma setUint32_append (pre : list Z) (x : num) (off rest : nat) :
  off = length pre →
  Wav.setUint32 (pre ++ replicate (4 + rest) 0) off x
  = Some ((pre ++ Wav.le_bytes 4 (Wav.truncate x)) ++ replicate rest 0).
Proof. intros H. by apply setBytes_append. Qed.

Lemma writeString_append (pre : list Z) (s : String.string) (off n rest : nat) :
  off = length pre → String.length s = n →
  Wav.writeString (pre ++ replicate (n + rest) 0) off s
  = Some ((pre ++ codes s) ++ replicate rest 0).
Proof.
  intros -> Hn. rewrite writeString_spec.
  - rewrite write_append; [done|]. by rewrite codes_length.
  - rewrite length_app, length_replicate. lia.
Qed.

Lemma flat_map_length_const {A B : Type} (f : A → list B) (l : list A) (n : nat) :
  (∀ a, length (f a) = n) → length (flat_map f l) = (length l * n)%nat.
Proof.
  intros H. induction l as [|a l IH]; [done|].
  cbn. by rewrite length_app, H, IH.
Qed.

Lemma frameBytes_length (buffer : AudioBuffer) (i : nat) :
  length (frameBytes buffer i) = (numberOfChannels buffer * 2)%nat.
Proof.
  unfold frameBytes.
  rewrite (flat_map_length_const _ _ 2), length_seq; [done|].
  intros c. apply le_bytes_length.
Qed.

Lemma wavData_length (buffer : AudioBuffer) :
  length (wavData buffer) = (blength buffer * (numberOfChannels buffer * 2))%nat.
Proof.
  unfold wavData.
  rewrite (flat_map_length_const _ _ (numberOfChannels buffer * 2)), length_seq;
    [done|].
  intros i. apply frameBytes_length.
Qed.

Lemma wavHeader_length (buffer : AudioBuffer) : length (wavHeader buffer) = 44%nat.
Proof. reflexivity. Qed.

(** The channel loop of one frame appends the samples of the channels. *)
Lemma frame_loop (g : nat → num) (cs : list nat) (pre : list Z)
    (index rest : nat) :
  (44 + index)%nat = length pre →
  foldlM
    (λ '(view, index) channel,
       view ← Wav.setInt16 view (44 + index) (g channel);
       Some (view, (index + 2)%nat))
    (pre ++ replicate (length cs * 2 + rest) 0, index) cs
  = Some ((pre ++ flat_map (λ c, Wav.le_bytes 2 (Wav.truncate (g c))) cs)
          ++ replicate rest 0,
          (index + length cs * 2)%nat).
Proof.
  revert pre index. induction cs as [|c cs IH]; intros pre index Hpre.
  - cbn. by rewrite app_nil_r, Nat.add_0_r.
  - cbn [foldlM length flat_map].
    replace (Datatypes.S (length cs) * 2 + rest)%nat
      with (2 + (length cs * 2 + rest))%nat by lia.
    rewrite setInt16_append by done.
    cbn [mbind option_bind]. rewrite IH.
    + rewrite <- !app_assoc. do 2 f_equal. lia.
    + rewrite length_app, le_bytes_length. lia.
Qed.

(** The frame loop appends the frames. *)
Lemma frames_loop (g : nat → nat → num) (nch : nat) (frames : list nat)
    (pre : list Z) (index rest : nat) :
  (44 + index)%nat = length pre →
  foldlM
    (λ s i,
       foldlM
         (λ '(view, index) channel,
            view ← Wav.setInt16 view (44 + index) (g channel i);
            Some (view, (index + 2)%nat))
         s (seq 0 nch))
    (pre ++ replicate (length frames * (nch * 2) + rest) 0, index) frames
  = Some ((pre ++ flat_map
                    (λ i, flat_map
                            (λ c, Wav.le_bytes 2 (Wav.truncate (g c i)))
                            (seq 0 nch))
                    frames)
          ++ replicate rest 0,
          (index + length frames * (nch * 2))%nat).
Proof.
  revert pre index. induction frames as [|i frames IH]; intros pre index Hpre.
  - cbn. by rewrite app_nil_r, Nat.add_0_r.
  - cbn [foldlM length flat_map].
    replace (Datatypes.S (length frames) * (nch * 2) + rest)%nat
      with (length (seq 0 nch) * 2 + (length frames * (nch * 2) + rest))%nat
      by (rewrite length_seq; lia).
    rewrite (frame_loop (λ c, g c i)) by done.
    cbn [mbind option_bind]. rewrite IH.
    + rewrite <- !app_assoc, length_seq. do 2 f_equal. lia.
    + rewrite length_app, (flat_map_length_const _ _ 2), length_seq; [lia|].
      intros c. apply le_bytes_length.
Qed.

Lemma flat_map_ext_in {A B : Type} (f g : A → list B) (l : list A) :
  (∀ a, a ∈ l → f a = g a) → flat_map f l = flat_map g l.
Proof.
  induction l as [|a l IH]; intros H; [done|].
  cbn. rewrite (H a) by left. rewrite IH; [done|].
  intros b Hb. apply H. by right.
Qed.

(** The file that [bufferToWav] returns is the header followed by the
    frames; no write falls outside it. *)
Lemma bufferToWav_layout (buffer : AudioBuffer) :
  Wav.bufferToWav buffer = Some (wavHeader buffer ++ wavData buffer).
Proof.
  unfold Wav.bufferToWav. cbv zeta.
  change (16 / 8)%nat with 2%nat.
  set (D := (blength buffer * (numberOfChannels buffer * 2))%nat).
  unfold Wav.newArrayBuffer.
  replace (44 + D)%nat
    with (4 + (4 + (4 + (4 + (4 + (2 + (2 + (4 + (4 + (2 + (2 + (4 + (4
          + (D + 0))))))))))))))%nat by lia.
  rewrite <- (app_nil_l (replicate _ 0)).
  rewrite writeString_append by reflexivity. cbn [mbind option_bind].
  rewrite setUint32_append by reflexivity. cbn [mbind option_bind].
  rewrite writeString_append by reflexivity. cbn [mbind option_bind].
  rewrite writeString_append by reflexivity. cbn [mbind option_bind].
  rewrite setUint32_append by reflexivity. cbn [mbind option_bind].
  rewrite setUint16_append by reflexivity. cbn [mbind option_bind].
  rewrite setUint16_append by reflexivity. cbn [mbind option_bind].
  rewrite setUint32_append by reflexivity. cbn [mbind option_bind].
  rewrite setUint32_append by reflexivity. cbn [mbind option_bind].
  rewrite setUint16_append by reflexivity. cbn [mbind option_bind].
  rewrite setUint16_append by reflexivity. cbn [mbind option_bind].
  rewrite writeString_append by reflexivity. cbn [mbind option_bind].
  rewrite setUint32_append by reflexivity. cbn [mbind option_bind].
  rewrite !truncate_nN, !truncate_nZ.
  match goal with
  | |- context [foldlM _ (?pre ++ _, O) _] => set (hdr := pre)
  end.
  assert (Hhdr : hdr = wavHeader buffer).
  { subst hdr. unfold wavHeader. cbv zeta. fold D.
    rewrite <- !app_assoc. reflexivity. }
  replace (D + 0)%nat
    with (length (seq 0 (blength buffer)) * (numberOfChannels buffer * 2) + 0)%nat
    by (rewrite length_seq; lia).
  rewrite (frames_loop
             (λ c i, Wav.pcmSample
                       (getn (default [] (map (channel_of buffer)
                                            (seq 0 (numberOfChannels buffer))
                                          !! c)) i)))
    by reflexivity.
  cbn [mbind option_bind fst]. rewrite app_nil_r, Hhdr. do 2 f_equal.
  unfold wavData. apply flat_map_ext_in. intros i _.
  unfold frameBytes. apply flat_map_ext_in. intros c Hc%elem_of_seq.
  rewrite list_lookup_fmap, lookup_seq_lt by lia. reflexivity.
Qed.

Lemma truncate_bounds (q : Qc) (a b : Z) :
  (QcZ a <= q)%Qc → (q <= QcZ b)%Qc → a ≤ Wav.truncate (Fin q) ≤ b.
Proof.
  intros Ha Hb. unfold Wav.truncate.
  assert (Ha' : (inject_Z a <= q)%Q).
  { revert Ha. unfold Qcle. by rewrite this_QcZ. }
  assert (Hb' : (q <= inject_Z b)%Q).
  { revert Hb. unfold Qcle. by rewrite this_QcZ. }
  pose proof (Qfloor_resp_le _ _ Ha') as F. rewrite Qfloor_Z in F.
  pose proof (Qceiling_resp_le _ _ Hb') as C. rewrite Qceiling_Z in C.
  assert (Qfloor q ≤ Qceiling q).
  { rewrite Zle_Qle. eapply Qle_trans; [apply Qfloor_le|apply Qle_ceiling]. }
  unfold Qcfloor. destruct (Qcltb q 0); lia.
Qed.

Lemma truncate_neg (q : Qc) (a : Z) :
  (q < 0)%Qc → (QcZ a < q)%Qc → a < Wav.truncate (Fin q) ≤ 0.
Proof.
  intros Hq Ha. unfold Wav.truncate.
  rewrite (proj2 (Qcltb_spec q 0) Hq).
  assert (Ha' : (inject_Z a < q)%Q).
  { revert Ha. unfold Qclt. by rewrite this_QcZ. }
  assert (Hq' : (q <= inject_Z 0)%Q).
  { apply Qlt_le_weak. exact Hq. }
  pose proof (Qceiling_resp_le _ _ Hq') as C. rewrite Qceiling_Z in C.
  split; [|done]. rewrite Zlt_Qlt.
  eapply Qlt_le_trans; [exact Ha'|apply Qle_ceiling].
Qed.

Lemma truncate_pos (q : Qc) (b : Z) :
  (0 <= q)%Qc → (q < QcZ b)%Qc → 0 ≤ Wav.truncate (Fin q) < b.
Proof.
  intros Hq Hb. unfold Wav.truncate.
  rewrite (proj2 (Qcltb_false q 0) Hq).
  assert (Hb' : (q < inject_Z b)%Q).
  { revert Hb. unfold Qclt. by rewrite this_QcZ. }
  assert (Hq' : (inject_Z 0 <= q)%Q) by exact Hq.
  pose proof (Qfloor_resp_le _ _ Hq') as F. rewrite Qfloor_Z in F.
  split; [done|]. rewrite Zlt_Qlt.
  eapply Qle_lt_trans; [apply Qfloor_le|exact Hb'].
Qed.

(** The clamped sample: [Math.max(-1, Math.min(1, x))] of a number other
    than [NaN]. *)
Lemma clamp_cases (x : num) :
  x = NaN ∨
  ∃ c, Math_max (nZ (-1)) (Math_min (nZ 1) x) = Fin c ∧
       (- (1) <= c)%Qc ∧ (c <= 1)%Qc ∧
       (∀ q, x = Fin q → (- (1) <= q)%Qc → (q <= 1)%Qc → c = q).
Proof.
  destruct x as [q| | |]; [|right..|by left].
  - right. unfold Math_min, Math_max, nZ. cbn [nlt].
    destruct (Qcltb q (QcZ 1)) eqn:E1.
    + apply Qcltb_spec in E1. destruct (Qcltb (QcZ (-1)) q) eqn:E2.
      * apply Qcltb_spec in E2. exists q.
        split; [done|]. split; [by apply Qclt_le_weak|].
        split; [by apply Qclt_le_weak|]. by intros ? [= <-].
      * apply Qcltb_false in E2. exists (QcZ (-1)).
        split; [done|]. split; [done|]. split; [done|].
        intros ? [= <-] H1 _. by apply Qcle_antisym.
    + apply Qcltb_false in E1. exists (QcZ 1).
      split; [done|]. split; [done|]. split; [done|].
      intros ? [= <-] _ H1. by apply Qcle_antisym.
  - exists (QcZ 1). split; [done|]. split; [done|]. split; [done|]. done.
  - exists (QcZ (-1)). split; [done|]. split; [done|]. split; [done|]. done.
Qed.

Lemma pcm16_clamped (c : Qc) :
  (- (1) <= c)%Qc → (c <= 1)%Qc →
  Wav.truncate
    (if (Fin c * Wav.volume <? nZ 0)%num
     then (Fin c * Wav.volume * nZ 32768)%num
     else (Fin c * Wav.volume * nZ 32767)%num)
  = (if Qcltb c 0 then Qceiling (c * qc 9 10 * QcZ 32768)%Qc
     else Qcfloor (c * qc 9 10 * QcZ 32767))
  ∧ -29491 ≤ Wav.truncate
      (if (Fin c * Wav.volume <? nZ 0)%num
       then (Fin c * Wav.volume * nZ 32768)%num
       else (Fin c * Wav.volume * nZ 32767)%num) ≤ 29490.
Proof.
  intros Hlo Hhi. unfold Wav.volume, nq, nZ. cbn [nmul nlt].
  destruct (Qcltb (c * qc 9 10) (QcZ 0)) eqn:E.
  - apply Qcltb_spec in E.
    assert (Hc : (c < 0)%Qc).
    { revert E. clear. intros E. qcq. change (inject_Z 0) with 0%Q in E. lra. }
    rewrite (proj2 (Qcltb_spec c 0) Hc).
    assert (Hv : (c * qc 9 10 * QcZ 32768 < 0)%Qc).
    { revert Hc. clear. intros. qcq. unfold inject_Z. lra. }
    destruct (truncate_neg _ (-29492) Hv) as [H1 H2].
    { revert Hlo. clear. intros. qcq. unfold inject_Z. lra. }
    split; [|lia].
    unfold Wav.truncate. by rewrite (proj2 (Qcltb_spec _ 0) Hv).
  - apply Qcltb_false in E.
    assert (Hc : (0 <= c)%Qc).
    { revert E. clear. intros E. qcq. change (inject_Z 0) with 0%Q in E. lra. }
    rewrite (proj2 (Qcltb_false c 0) Hc).
    assert (Hv : (0 <= c * qc 9 10 * QcZ 32767)%Qc).
    { revert Hc. clear. intros. qcq. unfold inject_Z. lra. }
    destruct (truncate_pos _ 29491 Hv) as [H1 H2].
    { revert Hhi. clear. intros. qcq. unfold inject_Z. lra. }
    split; [|lia].
    unfold Wav.truncate. by rewrite (proj2 (Qcltb_false _ 0) Hv).
Qed.

Lemma pcm16_range (x : num) : -29491 ≤ pcm16 x ≤ 29490.
Proof.
  unfold pcm16, Wav.pcmSample. cbv zeta.
  destruct (clamp_cases x) as [-> | (c & -> & Hlo & Hhi & _)].
  - cbn. lia.
  - by apply pcm16_clamped.
Qed.

Lemma getUint_S (n : nat) (view : list Z) (off : nat) :
  getUint (Datatypes.S n) view off
  = (b ← view !! off; v ← getUint n view (Datatypes.S off); Some (b + 256 * v)).
Proof.
  unfold getUint. cbn [seq foldr]. rewrite Nat.add_0_r.
  rewrite <- fmap_S_seq, foldr_fmap.
  destruct (view !! off) as [b|]; [|done]. cbn [mbind option_bind].
  f_equal. generalize (seq 0 n). intros l.
  induction l as [|k l IH]; [done|]. cbn [foldr].
  by rewrite IH, Nat.add_succ_r.
Qed.

(** Reading [n] little-endian bytes of an integer gives it back modulo
    [256 ^ n]. *)
Lemma getUint_le_bytes (n : nat) (v : Z) (view : list Z) (off : nat) :
  (∀ k, (k < n)%nat → view !! (off + k)%nat = Wav.le_bytes n v !! k) →
  getUint n view off = Some (v mod 256 ^ Z.of_nat n).
Proof.
  revert v off. induction n as [|n IH]; intros v off H.
  - cbn. by rewrite Z.mod_1_r.
  - rewrite getUint_S. rewrite <- (Nat.add_0_r off) at 1.
    rewrite (H O) by lia. cbn [Wav.le_bytes seq map lookup list_lookup].
    cbn [mbind option_bind]. rewrite (IH (v / 256)).
    + cbn [mbind option_bind]. f_equal.
      change (256 ^ Z.of_nat 0) with 1. rewrite Z.div_1_r.
      rewrite Nat2Z.inj_succ, Z.pow_succ_r by lia.
      rewrite Z.rem_mul_r by lia. reflexivity.
    + intros k Hk.
      replace (Datatypes.S off + k)%nat with (off + Datatypes.S k)%nat by lia.
      rewrite (H (Datatypes.S k)) by lia.
      unfold Wav.le_bytes. rewrite !list_lookup_fmap.
      rewrite !lookup_seq_lt by lia. cbn. f_equal.
      rewrite Nat2Z.inj_succ, Z.pow_succ_r by lia.
      rewrite Z.div_div by lia. reflexivity.
Qed.

Lemma flat_map_lookup_const {A B : Type} (f : A → list B) (l : list A)
    (n j r : nat) (a : A) :
  (∀ a, length (f a) = n) → l !! j = Some a → (r < n)%nat →
  flat_map f l !! (j * n + r)%nat = f a !! r.
Proof.
  intros Hn. revert j. induction l as [|b l IH]; intros j Hj Hr; [done|].
  cbn [flat_map]. destruct j as [|j].
  - injection Hj as ->. cbn. apply lookup_app_l. by rewrite Hn.
  - cbn in Hj. rewrite lookup_app_r by (rewrite Hn; lia).
    rewrite Hn.
    replace (Datatypes.S j * n + r - n)%nat with (j * n + r)%nat by lia.
    by apply IH.
Qed.

(** The two bytes of the sample of channel [c] in frame [i]. *)
Lemma wav_sample_bytes (buffer : AudioBuffer) (i c k : nat) :
  (i < blength buffer)%nat → (c < numberOfChannels buffer)%nat → (k < 2)%nat →
  (wavHeader buffer ++ wavData buffer)
    !! (44 + 2 * (i * numberOfChannels buffer + c) + k)%nat
  = Wav.le_bytes 2 (pcm16 (getn (channel_of buffer c) i)) !! k.
Proof.
  intros Hi Hc Hk.
  rewrite lookup_app_r by (rewrite wavHeader_length; lia).
  rewrite wavHeader_length.
  replace (44 + 2 * (i * numberOfChannels buffer + c) + k - 44)%nat
    with (i * (numberOfChannels buffer * 2) + (c * 2 + k))%nat by lia.
  unfold wavData.
  rewrite (flat_map_lookup_const _ _ (numberOfChannels buffer * 2) i _ i).
  - unfold frameBytes.
    by rewrite (flat_map_lookup_const _ _ 2 c k c)
      by (try apply lookup_seq_lt; done || lia || (intros; apply le_bytes_length)).
  - intros j. apply frameBytes_length.
  - by apply lookup_seq_lt.
  - lia.
Qed.

Lemma wavData_range (buffer : AudioBuffer) : Forall is_byte (wavData buffer).
Proof.
  unfold wavData, frameBytes.
  generalize (seq 0 (blength buffer)). intros frames.
  induction frames as [|i frames IH]; [done|].
  cbn [flat_map]. apply Forall_app. split; [|done].
  generalize (seq 0 (numberOfChannels buffer)). intros cs.
  induction cs as [|c cs IHc]; [done|].
  cbn [flat_map]. apply Forall_app. split; [apply le_bytes_range|done].
Qed.

Lemma wavHeader_range (buffer : AudioBuffer) : Forall is_byte (wavHeader buffer).
Proof.
  unfold wavHeader. cbv zeta.
  repeat (apply Forall_app; split;
          [first [apply le_bytes_range
                 | by repeat (apply List.Forall_cons; [unfold is_byte; lia|])]|]).
  apply le_bytes_range.
Qed.

(** X1. Export never fails, whatever the buffer, and the file is a
    canonical 16-bit PCM WAV: the 44 bytes of the header, then the frames in
    order, each holding the 16-bit samples of its channels in channel order.
    It has [44 + 2 * channels * frames] bytes, each in [[0, 256)]. *)
Theorem wav_file_layout (buffer : AudioBuffer) :
  ∃ wav,
    Wav.bufferToWav buffer = Some wav ∧
    wav = wavHeader buffer ++ wavData buffer ∧
    length (wavHeader buffer) = 44%nat ∧
    length wav = (44 + 2 * numberOfChannels buffer * blength buffer)%nat ∧
    Forall is_byte wav.
Proof.
  eexists. split; [apply bufferToWav_layout|]. split; [reflexivity|].
  split; [reflexivity|]. split.
  - rewrite length_app, wavHeader_length, wavData_length. lia.
  - apply Forall_app. split; [apply wavHeader_range|apply wavData_range].
Qed.

Ltac field_bytes :=
  let k := fresh "k" in let Hk := fresh "Hk" in
  intros k Hk;
  rewrite lookup_app_l by (rewrite wavHeader_length; lia);
  do 4 (destruct k as [|k]; [first [reflexivity | exfalso; lia]|]);
  exfalso; lia.

Ltac header_field := apply getUint_le_bytes; field_bytes.

(** X2. The header reads back as the fields of a PCM WAV file: the four
    chunk markers, format 1, 16 bits per sample, the channel count, the
    sample rate (truncated to an integer), the byte rate, the block size
    [blockAlign = 2 * channels], and the two sizes [36 + dataLength] and
    [dataLength = frames * blockAlign].  Each number is stored modulo the
    width of its field. *)
Theorem wav_header_fields (buffer : AudioBuffer) :
  ∃ wav,
    Wav.bufferToWav buffer = Some wav ∧
    bytesAt wav 0 4 = [82; 73; 70; 70] ∧
    getUint 4 wav 4 = Some (Z.of_nat (36 + dataLength buffer) mod 2 ^ 32) ∧
    bytesAt wav 8 4 = [87; 65; 86; 69] ∧
    bytesAt wav 12 4 = [102; 109; 116; 32] ∧
    getUint 4 wav 16 = Some 16 ∧
    getUint 2 wav 20 = Some 1 ∧
    getUint 2 wav 22 = Some (Z.of_nat (numberOfChannels buffer) mod 2 ^ 16) ∧
    getUint 4 wav 24
    = Some (Wav.truncate (Fin (sampleRate buffer)) mod 2 ^ 32) ∧
    getUint 4 wav 28
    = Some (Wav.truncate (Fin (sampleRate buffer) * nN (blockAlign buffer))%num
            mod 2 ^ 32) ∧
    getUint 2 wav 32 = Some (Z.of_nat (blockAlign buffer) mod 2 ^ 16) ∧
    getUint 2 wav 34 = Some 16 ∧
    bytesAt wav 36 4 = [100; 97; 116; 97] ∧
    getUint 4 wav 40 = Some (Z.of_nat (dataLength buffer) mod 2 ^ 32).
Proof.
  eexists. split; [apply bufferToWav_layout|].
  split; [reflexivity|]. split; [header_field|].
  split; [reflexivity|]. split; [reflexivity|].
  split; [by rewrite (getUint_le_bytes 4 16) by field_bytes|].
  split; [by rewrite (getUint_le_bytes 2 1) by field_bytes|].
  split; [header_field|]. split; [header_field|]. split; [header_field|].
  split; [header_field|].
  split; [by rewrite (getUint_le_bytes 2 16) by field_bytes|].
  split; [reflexivity|]. header_field.
Qed.

(** X3. Every sample reads back from the file: the signed 16-bit integer at
    byte [44 + 2 * (i * channels + c)] is the encoding of the sample of
    channel [c] in frame [i]. *)
Theorem wav_sample_round_trip (buffer : AudioBuffer) :
  ∃ wav,
    Wav.bufferToWav buffer = Some wav ∧
    ∀ i c, (i < blength buffer)%nat → (c < numberOfChannels buffer)%nat →
      getInt16 wav (44 + 2 * (i * numberOfChannels buffer + c))
      = Some (pcm16 (getn (channel_of buffer c) i)).
Proof.
  eexists. split; [apply bufferToWav_layout|].
  intros i c Hi Hc. unfold getInt16.
  rewrite (getUint_le_bytes 2 (pcm16 (getn (channel_of buffer c) i))).
  - cbn [mbind option_bind]. f_equal.
    pose proof (pcm16_range (getn (channel_of buffer c) i)) as Hr.
    change (256 ^ Z.of_nat 2) with 65536.
    case_bool_decide as Hu.
    + destruct (decide (0 ≤ pcm16 (getn (channel_of buffer c) i))) as [Hp|Hp].
      * apply Z.mod_small. lia.
      * exfalso. revert Hu.
        rewrite <- (Z.mod_add _ 1) by lia. rewrite Z.mod_small; lia.
    + destruct (decide (0 ≤ pcm16 (getn (channel_of buffer c) i))) as [Hp|Hp].
      * exfalso. apply Hu. rewrite Z.mod_small; lia.
      * rewrite <- (Z.mod_add _ 1) by lia. rewrite Z.mod_small; lia.
  - intros k Hk. by apply wav_sample_bytes.
Qed.

(** X4. The encoder never clips or wraps: whatever the sample, the stored
    integer lies in [[-29491, 29490]], well inside the 16-bit range.  A
    sample in [[0, 1]] is stored as [floor (0.9 * 32767 * x)], one in
    [[-1, 0)] as [ceiling (0.9 * 32768 * x)]; samples beyond [[-1, 1]],
    infinite ones included, are stored as the nearest end of the range, and
    [NaN] as 0. *)
Theorem wav_sample_encoding :
  (∀ x, -29491 ≤ pcm16 x ≤ 29490) ∧
  (∀ q, (0 <= q)%Qc → (q <= 1)%Qc →
        pcm16 (Fin q) = Qcfloor (q * qc 9 10 * QcZ 32767)) ∧
  (∀ q, (- (1) <= q)%Qc → (q < 0)%Qc →
        pcm16 (Fin q) = Qceiling (q * qc 9 10 * QcZ 32768)%Qc) ∧
  (∀ q, (1 <= q)%Qc → pcm16 (Fin q) = 29490) ∧
  (∀ q, (q <= - (1))%Qc → pcm16 (Fin q) = -29491) ∧
  pcm16 PInf = 29490 ∧ pcm16 NInf = -29491 ∧ pcm16 NaN = 0.
Proof.
  split; [apply pcm16_range|].
  assert (Hin : ∀ q, (- (1) <= q)%Qc → (q <= 1)%Qc →
            pcm16 (Fin q)
            = (if Qcltb q 0 then Qceiling (q * qc 9 10 * QcZ 32768)%Qc
               else Qcfloor (q * qc 9 10 * QcZ 32767))).
  { intros q Hlo Hhi. unfold pcm16, Wav.pcmSample. cbv zeta.
    destruct (clamp_cases (Fin q)) as [?|(c & -> & Hc1 & Hc2 & Hc)]; [done|].
    rewrite <- (Hc q) by done. by apply pcm16_clamped. }
  split.
  { intros q H0 H1. rewrite Hin; [|eapply Qcle_trans; [|exact H0]|]; try done.
    by rewrite (proj2 (Qcltb_false q 0) H0). }
  split.
  { intros q H0 H1. rewrite Hin; [|done|by apply Qclt_le_weak, (Qclt_trans _ 0)].
    by rewrite (proj2 (Qcltb_spec q 0) H1). }
  assert (Htop : pcm16 (Fin 1%Qc) = 29490) by (vm_compute; reflexivity).
  assert (Hbot : pcm16 (Fin (- (1))%Qc) = -29491) by (vm_compute; reflexivity).
  split.
  { intros q Hq. rewrite <- Htop. unfold pcm16, Wav.pcmSample. cbv zeta.
    do 2 f_equal. unfold Math_min, nZ. cbn [nlt].
    rewrite (proj2 (Qcltb_false q (QcZ 1)) Hq). reflexivity. }
  split.
  { intros q Hq. rewrite <- Hbot. unfold pcm16, Wav.pcmSample. cbv zeta.
    do 2 f_equal. unfold Math_min, Math_max, nZ. cbn [nlt].
    assert (Qcltb q (QcZ 1) = true) as ->.
    { apply Qcltb_spec. eapply Qcle_lt_trans; [exact Hq|]. reflexivity. }
    rewrite (proj2 (Qcltb_false (QcZ (-1)) q) Hq).
    assert (Qcltb (- (1)) (QcZ 1) = true) as -> by (vm_compute; reflexivity).
    assert (Qcltb (QcZ (-1)) (- (1)) = false) as -> by (vm_compute; reflexivity).
    apply (bool_decide_eq_true_1 _). vm_compute. reflexivity. }
  split; [vm_compute; reflexivity|]. split; vm_compute; reflexivity.
Qed.

(** ** Further properties of the effects *)

Lemma bool_decide_ext_if {A : Type} (P Q : Prop) `{Decision P, Decision Q}
    (x y : A) :
  (P ↔ Q) → (if bool_decide P then x else y) = (if bool_decide Q then x else y).
Proof. intros HPQ. by rewrite (bool_decide_ext P Q HPQ). Qed.

Section EffectFacts.
Context {ML : MathLib}.

(** X5. The error of the bit-depth reduction is less than one step: at a bit
    depth [b] from 1 to 24 (the depths at which a stored sample holds every
    level exactly), a sample [x] of a buffer in the nominal range becomes a
    sample [x'] with [|x - x'| < 2 / 2^b]. *)
Theorem bitcrush_error_bound (buffer : AudioBuffer) (b : Z) :
  wf_buffer buffer → nominal_buffer buffer → 1 ≤ b ≤ 24 →
  ∃ crushed,
    AudioProcessor.processBitCrush buffer (nZ b) = Ok crushed ∧
    ∀ c i x, sample buffer c i = Some x →
      ∃ q q', x = Fin q ∧ sample crushed c i = Some (Fin q') ∧
              (Qcabs (q - q') < QcZ 2 / Qcpow2 b)%Qc.
Proof.
  intros Hwf Hnom Hb. eexists. split; [by apply processBitCrush_spec|].
  intros c i x Hx. destruct (Hnom c i x Hx) as (q & -> & _).
  rename Hx into Hs. unfold sample in Hs.
  destruct (channelData buffer !! c) as [d|] eqn:Hd; [|done]. cbn in Hs.
  rewrite (sample_map _ _ _ _ _ _ _ Hd), list_lookup_fmap, Hs.
  rewrite Math_pow2_int by lia. cbn [fmap option_fmap option_map].
  pose proof (Qcpow2_pos b) as Hpos.
  rewrite crush_finite by (apply not_eq_sym, Qclt_not_eq, Hpos).
  eexists _, _. split; [reflexivity|]. split; [reflexivity|].
  cut ((QcZ (Qcfloor ((q + 1) / QcZ 2 * Qcpow2 b)) / Qcpow2 b * QcZ 2 - 1
        <= q)%Qc ∧
       (q < QcZ (Qcfloor ((q + 1) / QcZ 2 * Qcpow2 b)) / Qcpow2 b * QcZ 2 - 1
            + QcZ 2 / Qcpow2 b)%Qc).
  { generalize (QcZ (Qcfloor ((q + 1) / QcZ 2 * Qcpow2 b)) / Qcpow2 b
                * QcZ 2 - 1)%Qc.
    generalize (QcZ 2 / Qcpow2 b)%Qc. clear. intros st q' [H1 H2].
    unfold Qcabs. qcases; qcq; lra. }
  pose proof (Qcfloor_le ((q + 1) / QcZ 2 * Qcpow2 b)) as Hle.
  pose proof (Qcfloor_lt ((q + 1) / QcZ 2 * Qcpow2 b)) as Hlt.
  rewrite QcZ_add in Hlt.
  revert Hle Hlt Hpos.
  generalize (QcZ (Qcfloor ((q + 1) / QcZ 2 * Qcpow2 b))).
  generalize (Qcpow2 b). intros s F Hle Hlt Hpos.
  assert (Hs' : s ≠ 0%Qc) by apply not_eq_sym, Qclt_not_eq, Hpos.
  assert (Hinv : (s * / s = 1)%Qc) by by apply Qcmult_inv_r.
  assert (Hu : (0 < / s)%Qc).
  { apply Qcinv_pos. exact Hpos. }
  unfold Qcdiv in *. revert Hinv Hu Hle Hlt. generalize (/ s)%Qc.
  intros u Hinv Hu Hle Hlt. change (QcZ 1) with 1%Qc in Hlt.
  change (/ QcZ 2)%Qc with (qc 1 2) in *. change (QcZ 2) with (qc 2 1).
  assert (H1 : (F * u <= (q + 1) * qc 1 2)%Qc).
  { replace ((q + 1) * qc 1 2)%Qc with ((q + 1) * qc 1 2 * s * u)%Qc
      by (rewrite <- Qcmult_assoc, Hinv; ring).
    apply Qcmult_le_compat_r; [exact Hle|by apply Qclt_le_weak]. }
  assert (H2 : ((q + 1) * qc 1 2 < F * u + u)%Qc).
  { replace ((q + 1) * qc 1 2)%Qc with ((q + 1) * qc 1 2 * s * u)%Qc
      by (rewrite <- Qcmult_assoc, Hinv; ring).
    replace (F * u + u)%Qc with ((F + 1) * u)%Qc by ring.
    by apply Qcmult_lt_compat_r. }
  revert H1 H2. generalize (F * u)%Qc. clear. intros G H1 H2.
  qcq. split; lra.
Qed.

Lemma pitchRatio_zero : AudioProcessor.pitchRatio (nZ 0) = Fin 1%Qc.
Proof.
  unfold AudioProcessor.pitchRatio.
  assert ((nZ 0 / nZ 12)%num = nZ 0) as -> by decide_eq.
  by rewrite Math_pow2_int by lia.
Qed.

Lemma resampled_one (d : list num) :
  all_finite d → resampled (Fin 1%Qc) (length d) d = d.
Proof.
  intros Hfin. unfold resampled. apply list_eq. intros i.
  rewrite list_lookup_fmap.
  destruct (decide (i < length d)%nat) as [Hi|Hi].
  - rewrite lookup_seq_lt by done. cbn [fmap option_fmap option_map].
    rewrite resample_finite. cbv zeta.
    change (0 + i)%nat with i.
    rewrite !Qcmult_1_r. unfold QcN. rewrite !Qcfloor_QcZ.
    assert (Fin (QcZ (Z.of_nat i) - QcZ (Z.of_nat i))%Qc = Fin 0%Qc) as ->.
    { f_equal. ring. }
    destruct (lookup_lt_is_Some_2 d i Hi) as [x Hx].
    rewrite get_nat, (getn_lookup _ _ _ Hx), Hx.
    case_bool_decide as H1.
    + change (Z.of_nat i + 1) with (Z.of_nat i + Z.of_nat 1).
      rewrite <- Nat2Z.inj_add, get_nat.
      pose proof (all_finite_getn d (i + 1) Hfin ltac:(lia)) as Hy.
      destruct (getn d (i + 1)) as [y| | |]; try done.
      cbn [default]. f_equal.
      assert ((nZ 1 - Fin 0%Qc)%num = Fin 1%Qc) as -> by decide_eq.
      rewrite nmul_1_r, nmul_0_r by done. apply nadd_0_r.
    + rewrite bool_decide_eq_true_2 by lia. reflexivity.
  - rewrite lookup_seq_ge, lookup_ge_None_2 by lia. done.
Qed.

(** X6. A pitch shift by zero semitones returns a buffer of finite samples
    unchanged. *)
Theorem pitch_shift_zero_is_identity (buffer : AudioBuffer) :
  wf_buffer buffer → finite_buffer buffer →
  AudioProcessor.processPitchShift buffer (nZ 0) = Ok buffer.
Proof.
  intros Hwf Hfin. rewrite processPitchShift_spec by done.
  rewrite pitchRatio_zero. destruct buffer as [rate len chans].
  cbn [sampleRate blength channelData]. do 2 f_equal.
  rewrite <- (list_fmap_id chans) at 2. apply list_fmap_ext.
  intros c d Hd. pose proof (wf_channel _ c d Hwf Hd) as Hl. cbn in Hl.
  rewrite <- Hl. apply resampled_one.
  apply Forall_lookup. intros i x Hx. apply (Hfin c i x).
  unfold sample. cbn. by rewrite Hd.
Qed.

(** X7. The reverb refuses a room so small that its impulse response would
    have no sample: when [floor (sampleRate * roomSize) = 0] (a room size of
    zero, say), allocating the impulse throws [NotSupportedError], before any
    random number is drawn and whatever the mix. *)
Theorem reverb_rejects_empty_impulse (buffer : AudioBuffer) (q : Qc)
    (wetDry : num) (r : rng) :
  wf_buffer buffer → Qcfloor (sampleRate buffer * q) = 0 →
  AudioProcessor.processReverb buffer (Fin q) wetDry r
  = Throw NotSupportedError.
Proof.
  intros Hwf Hq. pose proof Hwf as (Hn & Hl & Hr & Hall).
  pose proof (tailFrames_pos buffer Hr) as Htail.
  unfold AudioProcessor.processReverb.
  rewrite extended_length, createBuffer_Z_ok by (done || lia).
  change (Math_floor (Fin (sampleRate buffer) * Fin q))%num
    with (nZ (Qcfloor (sampleRate buffer * q))).
  rewrite Hq. unfold mbind, Rand_bind, pure_of. cbn [createBuffer nZ].
  rewrite Qcfloor_QcZ. reflexivity.
Qed.

(** X8. Every effect returns, for a well-formed buffer and whatever its
    numeric parameters, a well-formed buffer with the channel count and the
    rate of its input.  Transient enhancement, pitch shift, bit-depth
    reduction and distortion keep the length; delay and reverb append a tail
    of [floor (sampleRate / 2)] frames when the input lasts more than 2.0 s
    and of [floor (sampleRate)] frames otherwise.  (The reverb needs a room
    of at least one sample.) *)
Theorem effects_keep_shape (fuel : nat) (buffer : AudioBuffer)
    (attackGain sustainGain semitones bits amount delayTime feedback wetDry : num)
    (roomSize : Qc) :
  wf_buffer buffer → (10 < fuel)%nat → (qc 1 3000 <= roomSize)%Qc →
  ok_with (shaped buffer (blength buffer))
    (AudioProcessor.processTransientEnhancement buffer attackGain sustainGain) ∧
  ok_with (shaped buffer (blength buffer))
    (AudioProcessor.processPitchShift buffer semitones) ∧
  ok_with (shaped buffer (blength buffer))
    (AudioProcessor.processBitCrush buffer bits) ∧
  ok_with (shaped buffer (blength buffer))
    (AudioProcessor.processDistortion buffer amount) ∧
  ok_with (shaped buffer (extended buffer))
    (AudioProcessor.processDelay fuel buffer delayTime feedback) ∧
  rand_ok (shaped buffer (extended buffer))
    (AudioProcessor.processReverb buffer (Fin roomSize) wetDry) ∧
  Z.of_nat (extended buffer)
  = Z.of_nat (blength buffer)
    + Qcfloor (sampleRate buffer
               * (if (bduration buffer >? nq 2 1)%num then qc 1 2 else 1))%Qc.
Proof.
  intros Hwf Hfuel Hq.
  split; [by apply processTransientEnhancement_shaped|].
  split; [by apply processPitchShift_shaped|].
  split; [by apply processBitCrush_shaped|].
  split; [by apply processDistortion_shaped|].
  split; [by apply processDelay_shaped|].
  split; [by apply processReverb_shaped|].
  pose proof Hwf as (_ & _ & Hr & _).
  pose proof (tailFrames_pos buffer Hr). unfold extended.
  rewrite Z2Nat.id by lia. reflexivity.
Qed.

Lemma transient_channel (attackGain sustainGain : num) (d out : list num)
    (attackSamples releaseSamples threshold : num) :
  length out = length d →
  let out' :=
    (for_range 0 (length d)
       (λ i '(envelope, outputData),
          let inputSample := Math_abs (getn d i) in
          let envelope :=
            if inputSample >? envelope
            then envelope + (inputSample - envelope) / attackSamples
            else envelope + (inputSample - envelope) / releaseSamples in
          let isTransient := inputSample >? envelope * threshold in
          (envelope,
           <[i := getn d i * (if isTransient then attackGain else sustainGain)]>
             outputData))
       (Fin 0%Qc, out)).2%num in
  ∀ i x, d !! i = Some x →
    out' !! i = Some (x * attackGain)%num ∨ out' !! i = Some (x * sustainGain)%num.
Proof.
  intros Hlen out'. subst out'.
  set (body := λ (i : nat) '(envelope, outputData), _).
  pose (P := λ (k : nat) (s : num * list num),
              length s.2 = length d ∧
              ∀ i x, (i < k)%nat → d !! i = Some x →
                s.2 !! i = Some (x * attackGain)%num
                ∨ s.2 !! i = Some (x * sustainGain)%num).
  assert (H : P (length d) (for_range 0 (length d) body (Fin 0%Qc, out))).
  { apply (for_range_inv P); [lia| |].
    - split; [exact Hlen|]. intros; lia.
    - intros k [e o] Hk [Ho Hprev]. cbn [snd] in *. subst body.
      cbv beta iota zeta. split; cbn [snd]; [by rewrite length_insert|].
      intros i x Hi Hx. destruct (decide (i = k)) as [->|Hne].
      + rewrite list_lookup_insert_eq by lia.
        rewrite (getn_lookup _ _ _ Hx).
        destruct (_ >? _)%num; [by left|by right].
      + rewrite list_lookup_insert_ne by done. apply Hprev; [lia|done]. }
  destruct H as [_ H]. intros i x Hx. apply H; [|done].
  eapply lookup_lt_Some; eauto.
Qed.

(** X9. Transient enhancement only rescales: it returns a buffer of the
    input's shape in which every sample is the input sample multiplied by one
    of the two gains.  In particular equal gains scale the whole buffer, and
    gains of 1 return it unchanged. *)
Theorem transient_scales_each_sample (buffer : AudioBuffer)
    (attackGain sustainGain : num) :
  wf_buffer buffer →
  ∃ enhanced,
    AudioProcessor.processTransientEnhancement buffer attackGain sustainGain
    = Ok enhanced ∧
    shaped buffer (blength buffer) enhanced ∧
    ∀ c i x, sample buffer c i = Some x →
      sample enhanced c i = Some (x * attackGain)%num ∨
      sample enhanced c i = Some (x * sustainGain)%num.
Proof.
  intros Hwf. pose proof Hwf as (Hn & Hl & Hr & Hall).
  destruct (processTransientEnhancement_shaped buffer attackGain sustainGain Hwf)
    as (enhanced & He & Hshape).
  exists enhanced. split; [done|]. split; [done|].
  revert He. unfold AudioProcessor.processTransientEnhancement.
  rewrite createBuffer_ok by done. cbn [mbind Outcome_bind].
  erewrite forChannels_fresh; [|intros c d Hd; reflexivity].
  intros [= <-]. intros c i x Hs. unfold sample in *.
  cbn [channelData] in *. rewrite list_lookup_imap.
  destruct (channelData buffer !! c) as [d|] eqn:Hd; [|done].
  cbn [fmap option_fmap option_map mbind option_bind] in *.
  apply transient_channel; [|done].
  rewrite zeros_length. symmetry. by eapply wf_channel.
Qed.

Lemma dry_copy (d : list num) (n : nat) (h : num → num) :
  (length d ≤ n)%nat →
  for_range 0 (length d) (λ i o, <[i := h (getn d i)]> o) (zeros n)
  = map h d ++ zeros (n - length d).
Proof.
  intros Hn.
  rewrite (for_range_written (λ i, Some (h (getn d i)))) by done.
  apply list_eq. intros i. rewrite written_lookup.
  destruct (decide (i < length d)%nat) as [Hi|Hi].
  - rewrite zeros_lookup by lia. cbn. rewrite bool_decide_eq_true_2 by done.
    rewrite lookup_app_l by by rewrite length_map.
    destruct (lookup_lt_is_Some_2 d i Hi) as [x Hx].
    by rewrite list_lookup_fmap, Hx, (getn_lookup _ _ _ Hx).
  - rewrite lookup_app_r by (rewrite length_map; lia). rewrite length_map.
    destruct (decide (i < n)%nat) as [Hin|Hin].
    + rewrite !zeros_lookup by lia. cbn. by rewrite bool_decide_eq_false_2.
    + unfold zeros. rewrite !lookup_ge_None_2 by (rewrite length_replicate; lia).
      done.
Qed.

Lemma convolve_dry (d impulseData out : list num) (L : Z) :
  all_finite d → all_finite impulseData →
  length impulseData = Z.to_nat L →
  AudioProcessor.convolve d impulseData (nZ L) (Fin 0%Qc) out = out.
Proof.
  intros Hd Himp Hlen. unfold AudioProcessor.convolve.
  apply (for_range_inv' (λ o, o = out)); [done|].
  intros i o [_ Hi] ->.
  apply (for_range_inv' (λ o, o = out)); [done|].
  intros j o [_ Hj] ->. rewrite iterations_nZ in Hj.
  pose proof (all_finite_getn d i Hd Hi) as Hx.
  pose proof (all_finite_getn impulseData j Himp ltac:(lia)) as Hy.
  destruct (getn d i) as [x| | |], (getn impulseData j) as [y| | |]; try done.
  assert ((Fin x * Fin y * Fin 0%Qc)%num = Fin 0%Qc) as ->.
  { cbn. f_equal; try ring. }
  rewrite nadd_0_r. apply list_insert_id.
  unfold getn. destruct (out !! (i + j)%nat) eqn:E; [done|].
  apply lookup_ge_None_1 in E. lia.
Qed.

(** X10. With a mix of zero the reverb is a bypass: whatever the random
    draws, it returns the (finite) input followed by its tail of silence. *)
Theorem reverb_dry_is_bypass (buffer : AudioBuffer) (q : Qc) :
  wf_buffer buffer → finite_buffer buffer → (qc 1 3000 <= q)%Qc →
  rand_ok (λ out, out = padded buffer (extended buffer))
    (AudioProcessor.processReverb buffer (Fin q) (Fin 0%Qc)).
Proof.
  intros Hwf Hfin Hq. pose proof Hwf as (Hn & Hl & Hr & Hall).
  pose proof (extended_pos buffer Hwf) as Hext.
  pose proof (tailFrames_pos buffer Hr) as Htail.
  pose proof (impulseLength_pos _ _ Hr Hq) as HL.
  unfold AudioProcessor.processReverb.
  rewrite extended_length.
  rewrite createBuffer_Z_ok by (done || lia).
  change (Math_floor (Fin (sampleRate buffer) * Fin q))%num
    with (nZ (Qcfloor (sampleRate buffer * q))).
  rewrite createBuffer_Z_ok by (done || lia).
  fold (extended buffer).
  apply rand_ok_pure_bind, rand_ok_pure_bind.
  eapply rand_ok_bind; [by apply fillImpulse_ok|].
  intros impulse [Hn2 Himp]. apply rand_ok_pure.
  eexists. split; [|reflexivity].
  rewrite (forChannels_fresh _ _ _
             (λ _ d, d ++ zeros (extended buffer - length d))).
  - unfold padded. do 2 f_equal. apply list_eq. intros c.
    rewrite list_lookup_imap, list_lookup_fmap. done.
  - intros c d Hd. f_equal.
    pose proof (wf_channel _ c d Hwf Hd) as Hdl.
    assert (Hdf : all_finite d).
    { apply Forall_lookup. intros i x Hx. apply (Hfin c i x).
      unfold sample. by rewrite Hd. }
    assert ((nZ 1 - Fin 0%Qc)%num = Fin 1%Qc) as -> by decide_eq.
    rewrite (dry_copy d (extended buffer) (λ x, x * Fin 1%Qc)%num) by lia.
    assert (map (λ x, (x * Fin 1%Qc)%num) d = d) as ->.
    { rewrite <- (list_fmap_id d) at 2. apply list_fmap_ext.
      intros i x _. apply nmul_1_r. }
    assert (Hc2 : (c mod numberOfChannels impulse
                   < length (channelData impulse))%nat).
    { rewrite Hn2. unfold numberOfChannels in Hn2. rewrite Hn2.
      apply Nat.mod_upper_bound. lia. }
    destruct (lookup_lt_is_Some_2 _ _ Hc2) as [imp Himp'].
    rewrite (channel_of_lookup _ _ _ Himp').
    rewrite Forall_lookup in Himp. destruct (Himp _ _ Himp') as [Hil Hif].
    by apply convolve_dry.
Qed.

Lemma nadd_nN (a b : nat) : (nN a + nN b)%num = nN (a + b).
Proof.
  unfold nN, QcN. cbn. f_equal. by rewrite Nat2Z.inj_add, QcZ_add.
Qed.

Lemma set_at_nN (d : list num) (i : nat) (v : num) :
  set_at d (nN i) v = <[i := v]> d.
Proof.
  unfold set_at. rewrite to_index_nN. unfold set.
  rewrite bool_decide_eq_true_2 by lia. by rewrite Nat2Z.id.
Qed.

Lemma echoed_S (x feedback : num) (taps : nat) (dry : num) :
  echoed x feedback (Datatypes.S taps) dry
  = (echoed x feedback taps dry + x * feedbackAt feedback taps)%num.
Proof. unfold echoed. by rewrite seq_S, foldl_app. Qed.

(** One tap adds the input, with the current gain, [D] frames later. *)
Lemma tap_pass (d out : list num) (D : nat) (cf : num) :
  for_range 0 (length d)
    (λ i outputData,
       let delayPos := (nN i + nN D)%num in
       if (delayPos <? nN (length outputData))%num
       then set_at outputData delayPos
              (get_at outputData delayPos + getn d i * cf)%num
       else outputData)
    out
  = imap (λ p y, if bool_decide (D ≤ p < D + length d)%nat
                 then (y + getn d (p - D) * cf)%num else y) out.
Proof.
  pose (P := λ (k : nat) (o : list num),
          o = imap (λ p y, if bool_decide (D ≤ p < D + k)%nat
                           then (y + getn d (p - D) * cf)%num else y) out).
  apply (for_range_inv P); [lia| |].
  - unfold P. apply list_eq. intros p. rewrite list_lookup_imap.
    destruct (out !! p); [|done]. cbn.
    by rewrite bool_decide_eq_false_2 by lia.
  - intros i o Hi ->. unfold P. cbv zeta. rewrite nadd_nN, nlt_nN.
    rewrite length_imap.
    case_bool_decide as Hpos.
    + rewrite set_at_nN, get_at_nN. apply list_eq. intros p.
      rewrite !list_lookup_imap.
      destruct (decide (p = i + D)%nat) as [->|Hne].
      * rewrite list_lookup_insert_eq by (rewrite length_imap; lia).
        destruct (lookup_lt_is_Some_2 out (i + D)) as [y Hy]; [lia|].
        unfold getn at 1. rewrite list_lookup_imap, Hy. cbn.
        rewrite bool_decide_eq_false_2 by lia.
        rewrite bool_decide_eq_true_2 by lia.
        by replace (i + D - D)%nat with i by lia.
      * rewrite list_lookup_insert_ne by done. rewrite list_lookup_imap.
        destruct (out !! p); [|done]. cbn. f_equal.
        apply bool_decide_ext_if. lia.
    + apply list_eq. intros p. rewrite !list_lookup_imap.
      destruct (out !! p) eqn:Hp; [|done]. cbn. f_equal.
      apply lookup_lt_Some in Hp.
      apply bool_decide_ext_if. lia.
Qed.

Lemma delayed_start (d : list num) (D : nat) (feedback : num) (n : nat) :
  (length d ≤ n)%nat →
  copied d (zeros n) = map (delayedAt d D feedback 0) (seq 0 n).
Proof.
  intros Hn. unfold copied.
  rewrite (dry_copy d n (λ x, x)) by done. rewrite list_fmap_id.
  apply list_eq. intros p. rewrite list_lookup_fmap.
  destruct (decide (p < n)%nat) as [Hp|Hp].
  - rewrite lookup_seq_lt by done. cbn.
    assert (delayedAt d D feedback 0 p = dryAt d p) as ->.
    { unfold delayedAt. by case_bool_decide. }
    unfold dryAt. destruct (decide (p < length d)%nat) as [Hd|Hd].
    + rewrite lookup_app_l by done.
      destruct (lookup_lt_is_Some_2 d p Hd) as [x ->]. done.
    + rewrite lookup_app_r by lia. rewrite zeros_lookup by lia.
      by rewrite lookup_ge_None_2 by lia.
  - rewrite lookup_seq_ge by lia.
    apply lookup_ge_None_2. rewrite length_app, zeros_length. lia.
Qed.

Lemma delayed_step (d : list num) (D : nat) (feedback : num) (n k : nat) :
  AudioProcessor.tapBody d (nN D) feedback
    (map (delayedAt d D feedback k) (seq 0 n), feedbackAt feedback k, k)
  = (map (delayedAt d D feedback (Datatypes.S k)) (seq 0 n),
     feedbackAt feedback (Datatypes.S k), Datatypes.S k).
Proof.
  unfold AudioProcessor.tapBody. rewrite tap_pass. f_equal. f_equal.
  apply list_eq. intros p. rewrite list_lookup_imap, !list_lookup_fmap.
  destruct (decide (p < n)%nat) as [Hp|Hp].
  - rewrite lookup_seq_lt by done. cbn. f_equal. unfold delayedAt.
    case_bool_decide; [|done]. by rewrite echoed_S.
  - by rewrite lookup_seq_ge by lia.
Qed.

(** X11. The delay writes one echo, not a train of echoes: every tap adds
    the input at the same distance of [D = floor (delayTime * sampleRate)]
    frames, tap [k] with the gain [feedback ^ (k + 1)].  Sample [p] of the
    output is therefore the dry sample (the input, then silence) plus, when
    [D <= p < D + length], the sample [p - D] of the input once per tap.  The
    number of taps is the same on every channel. *)
Theorem delay_is_one_echo (fuel : nat) (buffer : AudioBuffer)
    (delayTime feedback : num) (D : nat) :
  wf_buffer buffer → (10 < fuel)%nat →
  Math_floor (delayTime * Fin (sampleRate buffer))%num = nN D →
  ∃ delayed taps,
    AudioProcessor.processDelay fuel buffer delayTime feedback = Ok delayed ∧
    blength delayed = extended buffer ∧
    (taps ≤ AudioProcessor.maxTaps buffer)%nat ∧
    (∀ k, (k < taps)%nat → (feedbackAt feedback k >? nq 1 100)%num = true) ∧
    (taps = AudioProcessor.maxTaps buffer ∨
     (feedbackAt feedback taps >? nq 1 100)%num = false) ∧
    ∀ c d p, channelData buffer !! c = Some d → (p < extended buffer)%nat →
      sample delayed c p = Some (delayedAt d D feedback taps p).
Proof.
  intros Hwf Hfuel HD. pose proof Hwf as (Hn & Hl & Hr & Hall).
  pose proof (extended_pos buffer Hwf) as Hext.
  rewrite processDelay_spec by done. cbv zeta. fold (extended buffer).
  rewrite HD.
  assert (Hrun : ∀ d, (length d ≤ extended buffer)%nat →
    ∃ taps,
      AudioProcessor.delayTaps fuel buffer d (copied d (zeros (extended buffer)))
        (nN D) feedback
      = Some (map (delayedAt d D feedback taps) (seq 0 (extended buffer)),
              feedbackAt feedback taps, taps)).
  { intros d Hd.
    destruct (delayTaps_terminates fuel buffer d
                (copied d (zeros (extended buffer))) (nN D) feedback)
      as [[[out cf] k] Hs].
    { pose proof (maxTaps_le_10 buffer). lia. }
    exists k. rewrite Hs. f_equal.
    unfold AudioProcessor.delayTaps in Hs.
    apply (while_inv
      (λ s : AudioProcessor.tapState,
         s = (map (delayedAt d D feedback s.2) (seq 0 (extended buffer)),
              feedbackAt feedback s.2, s.2)) _ _ _ _ _ Hs).
    - cbn. by rewrite (delayed_start d D feedback).
    - intros [[o c] j] _ E. cbn [snd] in E. injection E as -> ->.
      rewrite delayed_step. reflexivity. }
  assert (Huniq : ∀ n1 n2,
    (n1 ≤ AudioProcessor.maxTaps buffer)%nat →
    (∀ k, (k < n1)%nat → (feedbackAt feedback k >? nq 1 100)%num = true) →
    (n2 = AudioProcessor.maxTaps buffer ∨
     (feedbackAt feedback n2 >? nq 1 100)%num = false) →
    (n1 ≤ n2)%nat).
  { intros n1 n2 H1 H2 H3.
    destruct (decide (n1 ≤ n2)%nat) as [|Hgt]; [done|].
    destruct H3 as [->|H3]; [lia|].
    rewrite H2 in H3 by lia. done. }
  destruct (lookup_lt_is_Some_2 (channelData buffer) O Hn) as [d0 Hd0].
  destruct (Hrun d0) as [taps Htaps].
  { rewrite (wf_channel _ _ _ Hwf Hd0). lia. }
  destruct (delayTaps_spec _ _ _ _ _ _ _ _ _ Htaps)
    as (Hle & _ & _ & Hall' & Hstop).
  eexists _, taps. split; [reflexivity|]. split; [reflexivity|].
  split; [done|]. split; [done|]. split; [done|].
  intros c d p Hd Hp. rewrite (sample_map _ _ _ _ _ _ _ Hd).
  destruct (Hrun d) as [taps' Htaps'].
  { rewrite (wf_channel _ _ _ Hwf Hd). lia. }
  destruct (delayTaps_spec _ _ _ _ _ _ _ _ _ Htaps')
    as (Hle' & _ & _ & Hall'' & Hstop').
  assert (taps' = taps) as ->.
  { apply Nat.le_antisymm; by apply Huniq. }
  rewrite Htaps'. cbn [from_option fst].
  by rewrite list_lookup_fmap, lookup_seq_lt.
Qed.

(** X12. A distortion amount of zero does not bypass the effect, it mutes
    it: every finite sample becomes 0. *)
Theorem distortion_zero_is_silence (buffer : AudioBuffer) :
  wf_buffer buffer → finite_buffer buffer →
  AudioProcessor.processDistortion buffer (Fin 0%Qc)
  = Ok (silence (sampleRate buffer) (numberOfChannels buffer) (blength buffer)).
Proof.
  intros Hwf Hfin. rewrite processDistortion_spec by done.
  unfold silence. do 2 f_equal. apply list_eq. intros c.
  rewrite list_lookup_fmap. unfold numberOfChannels.
  destruct (channelData buffer !! c) as [d|] eqn:Hd; cbn.
  - rewrite lookup_replicate_2 by (eapply lookup_lt_Some; eauto). f_equal.
    rewrite <- (wf_channel _ c d Hwf Hd), <- (length_map (λ x, Math_tanh (x * Fin 0%Qc)%num) d).
    apply all_zero_eq. intros i y. rewrite list_lookup_fmap.
    destruct (d !! i) as [x|] eqn:Hx; [|done]. cbn. intros [= <-].
    assert (Hf : is_finite x = true).
    { apply (Hfin c i x). unfold sample. by rewrite Hd. }
    destruct x as [q| | |]; try done. cbn. rewrite Qcmult_0_r.
    by rewrite tanh_q_0.
  - symmetry. apply lookup_ge_None_2. rewrite length_replicate.
    by apply lookup_ge_None_1.
Qed.

End EffectFacts.

Lemma click_finite : finite_buffer click.
Proof.
  intros c i x. unfold sample. destruct c as [|c]; cbn; [|by destruct c].
  destruct i as [|[|[|[|i]]]]; cbn; by intros [= <-].
Qed.

Lemma bitcrush_error_bound_witness :
  wf_buffer click ∧ nominal_buffer click ∧ 1 ≤ 8 ≤ 24 ∧
  ∃ crushed,
    AudioProcessor.processBitCrush click (nZ 8) = Ok crushed ∧
    ∀ c i x, sample click c i = Some x →
      ∃ q q', x = Fin q ∧ sample crushed c i = Some (Fin q') ∧
              (Qcabs (q - q') < QcZ 2 / Qcpow2 8)%Qc.
Proof.
  assert (H : 1 ≤ 8 ≤ 24) by lia.
  split; [exact click_wf|]. split; [exact click_in_unit|]. split; [exact H|].
  exact (bitcrush_error_bound click 8 click_wf click_in_unit H).
Defined.

Lemma pitch_shift_zero_is_identity_witness :
  wf_buffer click ∧ finite_buffer click ∧
  AudioProcessor.processPitchShift click (nZ 0) = Ok click.
Proof.
  split; [exact click_wf|]. split; [exact click_finite|].
  exact (pitch_shift_zero_is_identity click click_wf click_finite).
Defined.

Lemma reverb_rejects_empty_impulse_witness :
  wf_buffer click ∧ Qcfloor (sampleRate click * 0) = 0 ∧
  AudioProcessor.processReverb click (Fin 0%Qc) (nq 1 2) halves
  = Throw NotSupportedError.
Proof.
  assert (H : Qcfloor (sampleRate click * 0) = 0) by (vm_compute; reflexivity).
  split; [exact click_wf|]. split; [exact H|].
  exact (reverb_rejects_empty_impulse click 0%Qc (nq 1 2) halves click_wf H).
Defined.

Lemma effects_keep_shape_witness :
  wf_buffer click ∧ (10 < 11)%nat ∧ (qc 1 3000 <= qc 3 10)%Qc ∧
  ok_with (shaped click (blength click))
    (AudioProcessor.processTransientEnhancement click (nq 3 2) (nq 4 5)) ∧
  ok_with (shaped click (blength click))
    (AudioProcessor.processPitchShift click (nZ 2)) ∧
  ok_with (shaped click (blength click))
    (AudioProcessor.processBitCrush click (nZ 8)) ∧
  ok_with (shaped click (blength click))
    (AudioProcessor.processDistortion click (nZ 5)) ∧
  ok_with (shaped click (extended click))
    (AudioProcessor.processDelay 11 click (nq 1 4) (nq 1 2)) ∧
  rand_ok (shaped click (extended click))
    (AudioProcessor.processReverb click (Fin (qc 3 10)) (nq 6 10)) ∧
  Z.of_nat (extended click)
  = Z.of_nat (blength click)
    + Qcfloor (sampleRate click
               * (if (bduration click >? nq 2 1)%num then qc 1 2 else 1))%Qc.
Proof.
  assert (H1 : (10 < 11)%nat) by lia.
  assert (H2 : (qc 1 3000 <= qc 3 10)%Qc) by (vm_compute; discriminate).
  split; [exact click_wf|]. split; [exact H1|]. split; [exact H2|].
  exact (effects_keep_shape 11 click (nq 3 2) (nq 4 5) (nZ 2) (nZ 8) (nZ 5)
           (nq 1 4) (nq 1 2) (nq 6 10) (qc 3 10) click_wf H1 H2).
Defined.

Lemma transient_scales_each_sample_witness :
  wf_buffer click ∧
  ∃ enhanced,
    AudioProcessor.processTransientEnhancement click (nq 3 2) (nq 4 5)
    = Ok enhanced ∧
    shaped click (blength click) enhanced ∧
    ∀ c i x, sample click c i = Some x →
      sample enhanced c i = Some (x * nq 3 2)%num ∨
      sample enhanced c i = Some (x * nq 4 5)%num.
Proof.
  split; [exact click_wf|].
  exact (transient_scales_each_sample click (nq 3 2) (nq 4 5) click_wf).
Defined.

Lemma reverb_dry_is_bypass_witness :
  wf_buffer click ∧ finite_buffer click ∧ (qc 1 3000 <= qc 3 10)%Qc ∧
  rand_ok (λ out, out = padded click (extended click))
    (AudioProcessor.processReverb click (Fin (qc 3 10)) (Fin 0%Qc)).
Proof.
  assert (H : (qc 1 3000 <= qc 3 10)%Qc) by (vm_compute; discriminate).
  split; [exact click_wf|]. split; [exact click_finite|]. split; [exact H|].
  exact (reverb_dry_is_bypass click (qc 3 10) click_wf click_finite H).
Defined.

Lemma delay_is_one_echo_witness :
  wf_buffer click ∧ (10 < 11)%nat ∧
  Math_floor (nq 1 4 * Fin (sampleRate click))%num = nN (Z.to_nat 11025) ∧
  ∃ delayed taps,
    AudioProcessor.processDelay 11 click (nq 1 4) (nq 1 2) = Ok delayed ∧
    blength delayed = extended click ∧
    (taps ≤ AudioProcessor.maxTaps click)%nat ∧
    (∀ k, (k < taps)%nat → (feedbackAt (nq 1 2) k >? nq 1 100)%num = true) ∧
    (taps = AudioProcessor.maxTaps click ∨
     (feedbackAt (nq 1 2) taps >? nq 1 100)%num = false) ∧
    ∀ c d p, channelData click !! c = Some d → (p < extended click)%nat →
      sample delayed c p = Some (delayedAt d (Z.to_nat 11025) (nq 1 2) taps p).
Proof.
  assert (H1 : (10 < 11)%nat) by lia.
  assert (H2 : Math_floor (nq 1 4 * Fin (sampleRate click))%num = nN (Z.to_nat 11025))
    by decide_eq.
  split; [exact click_wf|]. split; [exact H1|]. split; [exact H2|].
  exact (delay_is_one_echo 11 click (nq 1 4) (nq 1 2) (Z.to_nat 11025) click_wf H1 H2).
Defined.

Lemma distortion_zero_is_silence_witness :
  wf_buffer click ∧ finite_buffer click ∧
  AudioProcessor.processDistortion click (Fin 0%Qc)
  = Ok (silence (sampleRate click) (numberOfChannels click) (blength click)).
Proof.
  split; [exact click_wf|]. split; [exact click_finite|].
  exact (distortion_zero_is_silence click click_wf click_finite).
Defined.

(** ** Feature extraction *)

Lemma all_finite_lookup (data : list num) (i : nat) (x : num) :
  all_finite data → data !! i = Some x → ∃ q, x = Fin q.
Proof.
  intros Hfin Hx. unfold all_finite in Hfin. rewrite Forall_lookup in Hfin.
  specialize (Hfin i x Hx). destruct x; try done. by eexists.
Qed.

(** The first loop of [extractFeatures] finds the first position of the
    largest absolute value. *)
Lemma findMainPeak_spec (data : list num) :
  all_finite data →
  ∃ v, (MLProcessor.findMainPeak data).2 = Fin v ∧ (0 <= v)%Qc ∧
       (∀ i x, data !! i = Some x → (Math_abs x <=? Fin v)%num = true) ∧
       (((MLProcessor.findMainPeak data).1 = O ∧ v = 0%Qc) ∨
        (((MLProcessor.findMainPeak data).1 < length data)%nat ∧
         Math_abs (getn data (MLProcessor.findMainPeak data).1) = Fin v ∧
         ∀ i x, (i < (MLProcessor.findMainPeak data).1)%nat →
                data !! i = Some x → (Math_abs x <? Fin v)%num = true)).
Proof.
  intros Hfin. unfold MLProcessor.findMainPeak.
  set (body := λ (i : nat) '(peakIndex, peakValue), _).
  pose (P := λ (k : nat) (s : nat * num),
    ∃ v, s.2 = Fin v ∧ (0 <= v)%Qc ∧
       (∀ i x, (i < k)%nat → data !! i = Some x →
               (Math_abs x <=? Fin v)%num = true) ∧
       ((s.1 = O ∧ v = 0%Qc) ∨
        ((s.1 < k)%nat ∧ Math_abs (getn data s.1) = Fin v ∧
         ∀ i x, (i < s.1)%nat → data !! i = Some x →
                (Math_abs x <? Fin v)%num = true))).
  assert (H : P (length data) (for_range 0 (length data) body (O, Fin 0%Qc))).
  { apply (for_range_inv P); [lia| |].
    - exists 0%Qc. cbn. repeat split; [apply Qcle_refl|intros; lia|by left].
    - intros k [pi pv] [_ Hk] (v & Hv & Hv0 & Hub & Hat). cbn [fst snd] in *.
      subst pv. destruct (lookup_lt_is_Some_2 data k Hk) as [x Hx].
      destruct (all_finite_lookup _ _ _ Hfin Hx) as [a ->].
      subst body. cbv beta iota. rewrite (getn_lookup _ _ _ Hx).
      cbn [Math_abs ngt nlt]. pose proof (Qcabs_nonneg a) as Ha.
      destruct (Qcltb v (Qcabs a)) eqn:E;
        [apply Qcltb_spec in E | apply Qcltb_false in E];
        unfold P; cbn [fst snd].
      + exists (Qcabs a). split; [done|]. split; [done|]. split.
        * intros j y Hj Hy. destruct (decide (j = k)) as [->|Hne].
          -- rewrite Hx in Hy. injection Hy as <-. apply nle_Fin, Qcle_refl.
          -- specialize (Hub j y ltac:(lia) Hy).
             destruct (Math_abs y) as [b| | |]; try done.
             apply nle_Fin in Hub. apply nle_Fin.
             eapply Qcle_trans; [exact Hub|by apply Qclt_le_weak].
        * right. split; [lia|]. rewrite (getn_lookup _ _ _ Hx).
          split; [done|]. intros j y Hj Hy.
          specialize (Hub j y Hj Hy).
          destruct (Math_abs y) as [b| | |]; try done.
          apply nle_Fin in Hub. cbn. apply Qcltb_spec.
          eapply Qcle_lt_trans; [exact Hub|done].
      + exists v. split; [done|]. split; [done|]. split.
        * intros j y Hj Hy. destruct (decide (j = k)) as [->|Hne].
          -- rewrite Hx in Hy. injection Hy as <-. by apply nle_Fin.
          -- apply (Hub j y); [lia|done].
        * destruct Hat as [[-> ->]|(Hlt & Hval & Hfirst)]; [by left|].
          right. split; [lia|]. done. }
  destruct H as (v & Hv & Hv0 & Hub & Hat). exists v.
  split; [done|]. split; [done|]. split.
  - intros i x Hx. apply (Hub i x); [|done]. eapply lookup_lt_Some; eauto.
  - done.
Qed.

Lemma find_seq_Some (f : nat → bool) (lo n i : nat) :
  find f (seq lo n) = Some i →
  (lo ≤ i < lo + n)%nat ∧ f i = true ∧ ∀ j, (lo ≤ j < i)%nat → f j = false.
Proof.
  revert lo. induction n as [|n IH]; intros lo; cbn; [done|].
  destruct (f lo) eqn:E.
  - intros [= <-]. split; [lia|]. split; [done|]. intros; lia.
  - intros H. destruct (IH _ H) as (Hi & Hf & Hbefore).
    split; [lia|]. split; [done|]. intros j Hj.
    destruct (decide (j = lo)) as [->|Hne]; [done|]. apply Hbefore. lia.
Qed.

Lemma find_seq_None (f : nat → bool) (lo n : nat) :
  find f (seq lo n) = None → ∀ j, (lo ≤ j < lo + n)%nat → f j = false.
Proof.
  revert lo. induction n as [|n IH]; intros lo; cbn; [intros; lia|].
  destruct (f lo) eqn:E; [done|]. intros H j Hj.
  destruct (decide (j = lo)) as [->|Hne]; [done|]. apply (IH _ H). lia.
Qed.

Lemma ndiv_Fin (a b : Qc) : b ≠ 0%Qc → (Fin a / Fin b)%num = Fin (a / b)%Qc.
Proof. intros Hb. cbn. by rewrite (proj2 (Qceqb_false b 0) Hb). Qed.

Lemma Qcinv_pos (c : Qc) : (0 < c)%Qc → (0 < / c)%Qc.
Proof. intros Hc. qcq. by apply Qinv_lt_0_compat. Qed.

Lemma Qcdiv_le_compat (a b c : Qc) :
  (0 < c)%Qc → (a <= b)%Qc → (a / c <= b / c)%Qc.
Proof.
  intros Hc Hab. unfold Qcdiv. apply Qcmult_le_compat_r; [done|].
  by apply Qclt_le_weak, Qcinv_pos.
Qed.

Lemma Qcdiv_lt_compat (a b c : Qc) :
  (0 < c)%Qc → (a < b)%Qc → (a / c < b / c)%Qc.
Proof.
  intros Hc Hab. unfold Qcdiv. apply Qcmult_lt_compat_r; [|done].
  by apply Qcinv_pos.
Qed.

Lemma Qcdiv_nonneg (a c : Qc) : (0 < c)%Qc → (0 <= a)%Qc → (0 <= a / c)%Qc.
Proof.
  intros Hc Ha. replace 0%Qc with (0 / c)%Qc by (unfold Qcdiv; ring).
  by apply Qcdiv_le_compat.
Qed.

Lemma Qcdiv_pos (a c : Qc) : (0 < c)%Qc → (0 < a)%Qc → (0 < a / c)%Qc.
Proof.
  intros Hc Ha. replace 0%Qc with (0 / c)%Qc by (unfold Qcdiv; ring).
  by apply Qcdiv_lt_compat.
Qed.

Lemma Qcmult_nonneg (a b : Qc) : (0 <= a)%Qc → (0 <= b)%Qc → (0 <= a * b)%Qc.
Proof.
  intros Ha Hb. replace 0%Qc with (0 * b)%Qc by ring.
  by apply Qcmult_le_compat_r.
Qed.

Lemma Qcdiv_le_of_mul (t c v : Qc) :
  (0 < c)%Qc → (t <= c * v)%Qc → (t / c <= v)%Qc.
Proof.
  intros Hc Ht. replace v with (c * v / c)%Qc.
  - by apply Qcdiv_le_compat.
  - field. intros ->. by apply (Qclt_not_le _ _ Hc), Qcle_refl.
Qed.

Lemma Qc_pos_nonzero (c : Qc) : (0 < c)%Qc → c ≠ 0%Qc.
Proof. intros Hc ->. by apply (Qclt_not_le _ _ Hc), Qcle_refl. Qed.

Lemma QcZ_succ (a : Z) : QcZ (a + 1) = (QcZ a + 1)%Qc.
Proof. by rewrite QcZ_add. Qed.

(** A sum of [hi - lo] finite terms in [[0, M]] is finite and lies in
    [[0, (hi - lo) * M]]. *)
Lemma sum_loop_bounds (g : nat → num) (M : Qc) (lo hi : nat) :
  (lo ≤ hi)%nat →
  (∀ i, (lo ≤ i < hi)%nat → ∃ q, g i = Fin q ∧ (0 <= q)%Qc ∧ (q <= M)%Qc) →
  ∃ t, for_range lo hi (λ i s, (s + g i)%num) (Fin 0%Qc) = Fin t ∧
       (0 <= t)%Qc ∧ (t <= QcZ (Z.of_nat hi - Z.of_nat lo) * M)%Qc.
Proof.
  intros Hle Hg.
  pose (P := λ (k : nat) (s : num),
    ∃ t, s = Fin t ∧ (0 <= t)%Qc ∧
         (t <= QcZ (Z.of_nat k - Z.of_nat lo) * M)%Qc).
  apply (for_range_inv P); [done| |].
  - exists 0%Qc. split; [done|]. split; [apply Qcle_refl|].
    rewrite Z.sub_diag. change (QcZ 0) with 0%Qc. rewrite Qcmult_0_l.
    apply Qcle_refl.
  - intros k s Hk (t & -> & Ht0 & Ht).
    destruct (Hg k Hk) as (q & -> & Hq0 & HqM). exists (t + q)%Qc.
    split; [done|]. split.
    + replace 0%Qc with (0 + 0)%Qc by ring. by apply Qcplus_le_compat.
    + replace (Z.of_nat (S k) - Z.of_nat lo)
        with (Z.of_nat k - Z.of_nat lo + 1) by lia.
      rewrite QcZ_succ, Qcmult_plus_distr_l, Qcmult_1_l.
      by apply Qcplus_le_compat.
Qed.

Lemma abs_le_sq (a v : Qc) :
  (Qcabs a <= v)%Qc → (0 <= a * a)%Qc ∧ (a * a <= v * v)%Qc.
Proof. unfold Qcabs. qcases; intros H; qcq; split; nra. Qed.

Lemma floorOfLength_mono (n : nat) (r r' : Qc) :
  (r <= r')%Qc →
  (MLProcessor.floorOfLength n r ≤ MLProcessor.floorOfLength n r')%nat.
Proof.
  intros Hr. unfold MLProcessor.floorOfLength.
  assert (Qcfloor (QcN n * r) ≤ Qcfloor (QcN n * r')); [|lia].
  apply Qcfloor_mono. rewrite !(Qcmult_comm (QcN n)).
  apply Qcmult_le_compat_r; [done|]. apply (proj2 (QcN_le 0 n)). lia.
Qed.

Lemma energyOf_bounds (data : list num) (v : Qc) :
  all_finite data → (0 < length data)%nat →
  (∀ i x, data !! i = Some x → (Math_abs x <=? Fin v)%num = true) →
  ∃ e, MLProcessor.energyOf data = Fin e ∧ (0 <= e)%Qc ∧ (e <= v * v)%Qc.
Proof.
  intros Hfin Hlen Hub. unfold MLProcessor.energyOf.
  destruct (sum_loop_bounds (λ i, getn data i * getn data i)%num (v * v)
              0 (length data)) as (t & -> & Ht0 & Ht); [lia| |].
  - intros i [_ Hi]. destruct (lookup_lt_is_Some_2 data i Hi) as [x Hx].
    rewrite (getn_lookup _ _ _ Hx).
    destruct (all_finite_lookup _ _ _ Hfin Hx) as [a ->].
    specialize (Hub _ _ Hx). apply nle_Fin in Hub.
    exists (a * a)%Qc. split; [done|]. by apply abs_le_sq.
  - assert (Hn : (0 < QcN (length data))%Qc) by by apply (proj2 (QcN_lt 0 _)).
    unfold nN. rewrite ndiv_Fin by by apply Qc_pos_nonzero.
    eexists. split; [reflexivity|]. split; [by apply Qcdiv_nonneg|].
    rewrite Z.sub_0_r in Ht. fold (QcN (length data)) in Ht.
    by apply Qcdiv_le_of_mul.
Qed.

Lemma sustainLevelOf_bounds (data : list num) (decayIndex : nat) (v : Qc) :
  all_finite data → (0 < length data)%nat → (0 <= v)%Qc →
  (∀ i x, data !! i = Some x → (Math_abs x <=? Fin v)%num = true) →
  ∃ s, MLProcessor.sustainLevelOf data decayIndex = Fin s ∧
       (0 <= s)%Qc ∧ (s <= v)%Qc.
Proof.
  intros Hfin Hlen Hv Hub. unfold MLProcessor.sustainLevelOf. cbv zeta.
  pose proof (floorOfLength_lt (length data) Hlen) as Hend.
  pose proof (floorOfLength_mono (length data) (qc 3 10) (qc 7 10)
                ltac:(discriminate)) as Hmono.
  set (sustainEnd := MLProcessor.floorOfLength (length data) (qc 7 10)) in *.
  set (sustainStart :=
         Nat.min decayIndex (MLProcessor.floorOfLength (length data) (qc 3 10))).
  assert (Hse : (sustainStart ≤ sustainEnd)%nat) by (unfold sustainStart; lia).
  rewrite (Nat.min_l sustainEnd) by lia.
  destruct (sum_loop_bounds (λ i, Math_abs (getn data i)) v
              sustainStart sustainEnd) as (t & -> & Ht0 & Ht); [lia| |].
  - intros i Hi. destruct (lookup_lt_is_Some_2 data i ltac:(lia)) as [x Hx].
    rewrite (getn_lookup _ _ _ Hx).
    destruct (all_finite_lookup _ _ _ Hfin Hx) as [a ->].
    specialize (Hub _ _ Hx). apply nle_Fin in Hub.
    exists (Qcabs a). split; [done|]. split; [apply Qcabs_nonneg|done].
  - destruct (decide (sustainStart = sustainEnd)) as [Heq|Hne].
    + rewrite Heq, Z.sub_diag in *. change (QcZ 0) with 0%Qc in Ht.
      rewrite Qcmult_0_l in Ht.
      assert (t = 0%Qc) as -> by by apply Qcle_antisym.
      exists 0%Qc. split; [by vm_compute|]. split; [apply Qcle_refl|done].
    + set (m := Z.of_nat sustainEnd - Z.of_nat sustainStart) in *.
      assert (Hm : (0 < QcZ m)%Qc) by (apply (proj2 (QcZ_lt 0 m)); lia).
      unfold num_or, truthy, nZ.
      rewrite (proj2 (Qceqb_false (QcZ m) 0)) by by apply Qc_pos_nonzero.
      cbn [negb]. rewrite ndiv_Fin by by apply Qc_pos_nonzero.
      eexists. split; [reflexivity|]. split; [by apply Qcdiv_nonneg|].
      by apply Qcdiv_le_of_mul.
Qed.

Lemma zeroCrossings_lt (data : list num) :
  (0 < length data)%nat →
  (MLProcessor.zeroCrossings data < length data)%nat.
Proof.
  intros Hlen. unfold MLProcessor.zeroCrossings.
  set (body := λ (i : nat) (zeroCrossings : nat), _).
  pose (P := λ (k c : nat), (S c ≤ k)%nat).
  assert (H : P (length data) (for_range 1 (length data) body O)).
  { apply (for_range_inv P); [lia|unfold P; lia|].
    intros k c Hk Hc. unfold P, body in *. destruct (_ || _); lia. }
  unfold P in H. lia.
Qed.

Lemma dynamicRangeOf_nonneg (data : list num) :
  all_finite data → (0 < length data)%nat →
  ∃ d, MLProcessor.dynamicRangeOf data = Fin d ∧ (0 <= d)%Qc.
Proof.
  intros Hfin Hlen. unfold MLProcessor.dynamicRangeOf.
  set (body := λ (i : nat) '(min, max), _).
  pose (P := λ (k : nat) (s : num * num),
    ∃ a b, s = (Fin a, Fin b) ∧ ((0 < k)%nat → (a <= b)%Qc)).
  assert (H : P (length data)
                (for_range 0 (length data) body (Fin 1%Qc, Fin (-1)%Qc))).
  { apply (for_range_inv P); [lia| |].
    - exists 1%Qc, (-1)%Qc. split; [done|]. lia.
    - intros k s [_ Hk] (a & b & -> & Hab).
      destruct (lookup_lt_is_Some_2 data k Hk) as [x Hx].
      destruct (all_finite_lookup _ _ _ Hfin Hx) as [c ->].
      unfold body. rewrite (getn_lookup _ _ _ Hx).
      cbn [Math_min Math_max nlt].
      exists (if Qcltb c a then c else a), (if Qcltb b c then c else b).
      split; [by do 2 destruct (Qcltb _ _)|]. intros _.
      qcases; qcq; lra. }
  destruct H as (a & b & -> & Hab). exists (b - a)%Qc. split; [done|].
  specialize (Hab Hlen). qcq. lra.
Qed.

Lemma isPeak_local_maximum (data : list num) (w j : Z) :
  MLProcessor.isPeak data w j = true → local_maximum data w j.
Proof.
  unfold MLProcessor.isPeak. rewrite forallb_forall. intros H m Hm.
  destruct (decide (m = j)) as [->|Hne]; [apply nlt_irrefl|].
  specialize (H m). rewrite bool_decide_eq_false_2 in H by done.
  cbn [negb andb] in H. apply negb_true_iff, H.
  apply list_elem_of_In, elem_of_seqZ. lia.
Qed.

(** The scan keeps its peaks more than a window apart, each one a local
    maximum inside the scanned range. *)
Lemma scan_spaced (fuel : nat) (data : list num) (rate : Qc)
    (peaks : list MLProcessor.Peak) :
  (0 <= rate)%Qc →
  MLProcessor.findSignificantPeaks fuel data rate = Some peaks →
  StronglySorted (peaks_apart (MLProcessor.windowSize rate)) peaks ∧
  Forall (λ p, ∃ j, MLProcessor.windowSize rate ≤ j
                    < Z.of_nat (length data) - MLProcessor.windowSize rate ∧
                    MLProcessor.index p = nZ j ∧
                    MLProcessor.time p = (nZ j / Fin rate)%num ∧
                    local_maximum data (MLProcessor.windowSize rate) j) peaks ∧
  Z.of_nat (length peaks) * (MLProcessor.windowSize rate + 1)
  ≤ Z.max 0 (Z.of_nat (length data) - MLProcessor.windowSize rate).
Proof.
  intros Hr H. pose proof (windowSize_nonneg rate Hr) as Hw.
  unfold MLProcessor.findSignificantPeaks in H.
  destruct (while _ _ _ _) as [[i ps]|] eqn:Hwhile; [|done].
  cbn in H. injection H as ->.
  set (w := MLProcessor.windowSize rate) in *.
  pose proof (while_inv
    (λ s : MLProcessor.scanState,
       w ≤ s.1 ∧ (s.1 ≤ Z.of_nat (length data) ∨ s.1 = w) ∧
       Z.of_nat (length s.2) * (w + 1) ≤ s.1 - w ∧
       StronglySorted (peaks_apart w) s.2 ∧
       Forall (λ p, ∃ j, (w ≤ j < Z.of_nat (length data) - w) ∧ j + w < s.1 ∧
                         MLProcessor.index p = nZ j ∧
                         MLProcessor.time p = (nZ j / Fin rate)%num ∧
                         local_maximum data w j) s.2)
    _ _ _ _ _ Hwhile) as Hinv.
  cbn [fst snd] in Hinv. destruct Hinv as (_ & Hi & Hcount & Hsorted & Hall).
  - split; [lia|]. split; [by right|]. split; [cbn; lia|]. split; constructor.
  - intros [k qs] Hc (Hk & Hkn & Hcnt & Hs & Ha). cbn [fst snd] in *.
    unfold MLProcessor.scanCond in Hc. apply bool_decide_eq_true in Hc.
    cbn [fst] in Hc. unfold MLProcessor.scanBody. fold w.
    destruct (_ && _) eqn:Htest; cbn [fst snd].
    + apply andb_true_iff in Htest as [_ Hpeak].
      apply isPeak_local_maximum in Hpeak.
      split; [lia|]. split; [left; lia|]. split.
      { rewrite length_app. cbn [length]. lia. }
      split.
      * apply StronglySorted_snoc; [done|].
        eapply List.Forall_impl; [|exact Ha]. cbn beta.
        intros p (j & _ & Hj & Hidx & _). exists j, k.
        split; [done|]. split; [done|lia].
      * apply Forall_app. split.
        -- eapply List.Forall_impl; [|exact Ha]. cbn beta.
           intros p (j & Hj1 & Hj2 & Hp). exists j.
           split; [done|]. split; [lia|done].
        -- constructor; [|constructor]. exists k.
           split; [lia|]. split; [lia|]. done.
    + split; [lia|]. split; [left; lia|]. split; [lia|]. split; [done|].
      eapply List.Forall_impl; [|exact Ha]. cbn beta.
      intros p (j & Hj1 & Hj2 & Hp). exists j.
      split; [done|]. split; [lia|done].
  - split; [done|]. split.
    + eapply List.Forall_impl; [|exact Hall]. cbn beta.
      intros p (j & Hj1 & _ & Hp). eauto.
    + lia.
Qed.

Section FeatureFacts.
Context {ML : MathLib}.

(** The features of a buffer whose first channel is [data], field by
    field. *)
Lemma extractFeatures_eq (fuel : nat) (buffer : AudioBuffer) (data : list num) :
  wf_buffer buffer → (blength buffer < fuel)%nat →
  channelData buffer !! O = Some data →
  ∃ peaks,
    MLProcessor.findSignificantPeaks fuel data (sampleRate buffer) = Some peaks ∧
    MLProcessor.extractFeatures fuel buffer
    = Ok (let peakIndex := (MLProcessor.findMainPeak data).1 in
          let peakValue := (MLProcessor.findMainPeak data).2 in
          let decayIndex := MLProcessor.findDecayIndex data peakIndex peakValue in
          MLProcessor.mkFeatures
            (nN peakIndex / Fin (sampleRate buffer))%num
            (nZ (Z.of_nat decayIndex - Z.of_nat peakIndex)
             / Fin (sampleRate buffer))%num
            (MLProcessor.sustainLevelOf data decayIndex)
            (nZ (Z.of_nat (length data)
                 - Z.of_nat (MLProcessor.floorOfLength (length data) (qc 7 10)))
             / Fin (sampleRate buffer))%num
            (MLProcessor.energyOf data)
            (nN (MLProcessor.zeroCrossings data) / nN (length data)
             * Fin (sampleRate buffer) / nZ 2)%num
            peakValue peakIndex (bduration buffer)
            (MLProcessor.dynamicRangeOf data)
            (nN (length peaks) / bduration buffer)%num
            peaks).
Proof.
  intros Hwf Hfuel Hd.
  destruct (getChannelData_wf buffer Hwf) as (data' & Hget & Hd' & Hlen).
  assert (data' = data) as -> by congruence.
  pose proof (rate_nonneg buffer Hwf) as Hr.
  destruct (scan_terminates fuel data (sampleRate buffer) Hr) as [peaks Hp];
    [lia|].
  exists peaks. split; [done|].
  unfold MLProcessor.extractFeatures. rewrite Hget. cbn [mbind Outcome_bind].
  rewrite Hp. cbn [of_fuel mbind Outcome_bind].
  by destruct (MLProcessor.findMainPeak data) as [pi pv].
Qed.

(** X13. The attack of a sample is measured at the first position of the
    largest absolute value of the first channel: the peak value is attained
    there, no sample exceeds it, every earlier sample is strictly smaller,
    and the attack time is that position divided by the sample rate. *)
Theorem main_peak_is_first_maximum (fuel : nat) (buffer : AudioBuffer)
    (data : list num) :
  wf_buffer buffer → (blength buffer < fuel)%nat →
  channelData buffer !! O = Some data → all_finite data →
  ∃ features,
    MLProcessor.extractFeatures fuel buffer = Ok features ∧
    (MLProcessor.peakIndex features < blength buffer)%nat ∧
    MLProcessor.peakValue features
    = Math_abs (getn data (MLProcessor.peakIndex features)) ∧
    (∀ i x, data !! i = Some x →
       (Math_abs x <=? MLProcessor.peakValue features)%num = true) ∧
    (∀ i x, (i < MLProcessor.peakIndex features)%nat → data !! i = Some x →
       (Math_abs x <? MLProcessor.peakValue features)%num = true) ∧
    MLProcessor.attackTime features
    = (nN (MLProcessor.peakIndex features) / Fin (sampleRate buffer))%num.
Proof.
  intros Hwf Hfuel Hd Hfin.
  destruct (extractFeatures_eq fuel buffer data Hwf Hfuel Hd)
    as (peaks & _ & ->).
  pose proof (wf_channel _ _ _ Hwf Hd) as Hlen.
  pose proof Hwf as (_ & Hpos & _).
  eexists. split; [reflexivity|]. cbn.
  destruct (findMainPeak_spec data Hfin) as (v & Hv & Hv0 & Hub & Hat).
  rewrite Hv.
  destruct Hat as [[Hi ->]|(Hlt & Hval & Hfirst)].
  - rewrite Hi. split; [lia|]. split.
    + destruct (lookup_lt_is_Some_2 data 0 ltac:(lia)) as [x Hx].
      rewrite (getn_lookup _ _ _ Hx). specialize (Hub _ _ Hx).
      destruct (all_finite_lookup _ _ _ Hfin Hx) as [a ->].
      apply nle_Fin in Hub. cbn. f_equal.
      apply Qcle_antisym; [apply Qcabs_nonneg|done].
    + split; [done|]. split; [intros; lia|done].
  - split; [lia|]. split; [done|]. split; [done|]. split; [done|done].
Qed.

(** X14. The decay of a sample of finite values is measured from the main
    peak to the first later frame whose absolute value is below a quarter of
    the peak value.  When no frame after the peak falls below that level,
    the decay time is 0, as for a sample that decays at once. *)
Theorem decay_is_first_drop_below_quarter_peak (fuel : nat)
    (buffer : AudioBuffer) (data : list num) :
  wf_buffer buffer → (blength buffer < fuel)%nat →
  channelData buffer !! O = Some data → all_finite data →
  ∃ features decayIndex,
    MLProcessor.extractFeatures fuel buffer = Ok features ∧
    MLProcessor.decayTime features
    = (nZ (Z.of_nat decayIndex - Z.of_nat (MLProcessor.peakIndex features))
       / Fin (sampleRate buffer))%num ∧
    (MLProcessor.peakIndex features ≤ decayIndex < blength buffer)%nat ∧
    (∀ i, (MLProcessor.peakIndex features ≤ i < decayIndex)%nat →
       (Math_abs (getn data i)
        <? MLProcessor.peakValue features * nq 25 100)%num = false) ∧
    ((decayIndex = MLProcessor.peakIndex features ∧
      ∀ i, (MLProcessor.peakIndex features ≤ i < blength buffer)%nat →
        (Math_abs (getn data i)
         <? MLProcessor.peakValue features * nq 25 100)%num = false) ∨
     ((MLProcessor.peakIndex features < decayIndex)%nat ∧
      (Math_abs (getn data decayIndex)
       <? MLProcessor.peakValue features * nq 25 100)%num = true)).
Proof.
  intros Hwf Hfuel Hd Hfin.
  destruct (extractFeatures_eq fuel buffer data Hwf Hfuel Hd)
    as (peaks & _ & ->).
  pose proof (wf_channel _ _ _ Hwf Hd) as Hlen.
  pose proof Hwf as (_ & Hpos & _).
  destruct (findMainPeak_spec data Hfin) as (v & Hv & Hv0 & Hub & Hat).
  assert (Hpi : ((MLProcessor.findMainPeak data).1 < length data)%nat).
  { destruct Hat as [[-> _]|[? _]]; lia. }
  assert (Hself : (Math_abs (getn data (MLProcessor.findMainPeak data).1)
                   <? (MLProcessor.findMainPeak data).2 * nq 25 100)%num
                  = false).
  { rewrite Hv. destruct Hat as [[Hi ->]|(_ & -> & _)].
    - rewrite Hi.
      destruct (lookup_lt_is_Some_2 data 0 ltac:(lia)) as [x Hx].
      rewrite (getn_lookup _ _ _ Hx).
      destruct (all_finite_lookup _ _ _ Hfin Hx) as [a ->]. cbn.
      apply Qcltb_false. pose proof (Qcabs_nonneg a). qcq. lra.
    - cbn. apply Qcltb_false. qcq. lra. }
  eexists. exists (MLProcessor.findDecayIndex data
                     (MLProcessor.findMainPeak data).1
                     (MLProcessor.findMainPeak data).2).
  split; [reflexivity|]. cbn [MLProcessor.decayTime MLProcessor.peakIndex
                              MLProcessor.peakValue].
  split; [reflexivity|]. rewrite <- Hlen.
  unfold MLProcessor.findDecayIndex. cbv zeta.
  destruct (find _ _) as [di|] eqn:Hfind; cbn [default from_option id].
  - apply find_seq_Some in Hfind as (Hdi & Hf & Hbefore).
    split; [lia|]. split; [exact Hbefore|]. right. split; [|exact Hf].
    destruct (decide (di = (MLProcessor.findMainPeak data).1)) as [->|Hne];
      [congruence|lia].
  - split; [lia|]. split; [intros; lia|]. left. split; [done|].
    intros i Hi. apply (find_seq_None _ _ _ Hfind). lia.
Qed.

(** X15. The features of a sample of finite values are finite numbers in
    their natural ranges: attack and decay are non-negative and end before
    the sample does, the release is positive and no longer than the sample,
    the sustain level is at most the peak value, the energy is non-negative,
    the spectral centroid is below half the sample rate, and the dynamic
    range and the transient density are non-negative. *)
Theorem features_within_ranges (fuel : nat) (buffer : AudioBuffer)
    (data : list num) :
  wf_buffer buffer → (blength buffer < fuel)%nat →
  channelData buffer !! O = Some data → all_finite data →
  ∃ features attackTime decayTime sustainLevel releaseTime energy
      spectralCentroid peakValue dynamicRange transientDensity duration,
    MLProcessor.extractFeatures fuel buffer = Ok features ∧
    MLProcessor.attackTime features = Fin attackTime ∧
    MLProcessor.decayTime features = Fin decayTime ∧
    MLProcessor.sustainLevel features = Fin sustainLevel ∧
    MLProcessor.releaseTime features = Fin releaseTime ∧
    MLProcessor.energy features = Fin energy ∧
    MLProcessor.spectralCentroid features = Fin spectralCentroid ∧
    MLProcessor.peakValue features = Fin peakValue ∧
    MLProcessor.dynamicRange features = Fin dynamicRange ∧
    MLProcessor.transientDensity features = Fin transientDensity ∧
    MLProcessor.duration features = Fin duration ∧
    (duration = QcN (blength buffer) / sampleRate buffer ∧ 0 < duration ∧
     0 <= attackTime ∧ 0 <= decayTime ∧ attackTime + decayTime < duration ∧
     0 <= sustainLevel ∧ sustainLevel <= peakValue ∧
     0 < releaseTime ∧ releaseTime <= duration ∧
     0 <= energy ∧
     0 <= spectralCentroid ∧ spectralCentroid < sampleRate buffer / QcZ 2 ∧
     0 <= dynamicRange ∧ 0 <= transientDensity)%Qc.
Proof.
  intros Hwf Hfuel Hd Hfin.
  destruct (extractFeatures_eq fuel buffer data Hwf Hfuel Hd)
    as (peaks & _ & ->).
  pose proof (wf_channel _ _ _ Hwf Hd) as Hlen.
  pose proof Hwf as (_ & Hpos & [Hrate _]%supportedRate_bounds & _).
  assert (Hr : (0 < sampleRate buffer)%Qc).
  { eapply Qclt_le_trans; [|exact Hrate]. reflexivity. }
  pose proof (Qc_pos_nonzero _ Hr) as Hr0.
  unfold bduration. rewrite <- Hlen in *. clear Hlen.
  destruct (findMainPeak_spec data Hfin) as (v & Hv & Hv0 & Hub & Hat).
  assert (Hpi : ((MLProcessor.findMainPeak data).1 < length data)%nat).
  { destruct Hat as [[-> _]|[? _]]; lia. }
  set (pi := (MLProcessor.findMainPeak data).1) in *.
  set (di := MLProcessor.findDecayIndex data pi
               (MLProcessor.findMainPeak data).2).
  assert (Hdi : (pi ≤ di < length data)%nat).
  { unfold di, MLProcessor.findDecayIndex. cbv zeta.
    destruct (find _ _) as [j|] eqn:Hfind; cbn [default from_option id];
      [apply find_seq_Some in Hfind as (Hj & _)|]; lia. }
  destruct (sustainLevelOf_bounds data di v Hfin Hpos Hv0 Hub)
    as (sl & Hsl & Hsl0 & Hslv).
  destruct (energyOf_bounds data v Hfin Hpos Hub) as (e & He & He0 & Hev).
  destruct (dynamicRangeOf_nonneg data Hfin Hpos) as (dr & Hdr & Hdr0).
  pose proof (zeroCrossings_lt data Hpos) as Hzc.
  pose proof (floorOfLength_lt (length data) Hpos) as Hrel.
  assert (Hn : (0 < QcN (length data))%Qc) by by apply (proj2 (QcN_lt 0 _)).
  assert (Hdur : (0 < QcN (length data) / sampleRate buffer)%Qc)
    by by apply Qcdiv_pos.
  eexists. cbv zeta.
  cbn [MLProcessor.attackTime MLProcessor.decayTime MLProcessor.sustainLevel
       MLProcessor.releaseTime MLProcessor.energy MLProcessor.spectralCentroid
       MLProcessor.peakValue MLProcessor.dynamicRange
       MLProcessor.transientDensity MLProcessor.duration].
  fold di. rewrite Hsl, He, Hdr, Hv. unfold bduration, nN, nZ.
  rewrite !(ndiv_Fin _ (sampleRate buffer)) by done.
  rewrite !(ndiv_Fin _ (QcN (length data))) by by apply Qc_pos_nonzero.
  rewrite (ndiv_Fin _ (QcN (length data) / sampleRate buffer))
    by by apply Qc_pos_nonzero.
  cbn [nmul]. rewrite (ndiv_Fin _ (QcZ 2)) by done.
  do 10 eexists. split; [reflexivity|]. do 10 (split; [reflexivity|]).
  split; [reflexivity|]. split; [done|].
  split; [apply Qcdiv_nonneg; [done|apply (proj2 (QcN_le 0 _)); lia]|].
  split; [apply Qcdiv_nonneg; [done|apply (proj2 (QcZ_le 0 _)); lia]|].
  split.
  { unfold Qcdiv. rewrite <- Qcmult_plus_distr_l. apply Qcmult_lt_compat_r;
      [by apply Qcinv_pos|].
    unfold QcN. rewrite <- QcZ_add. apply QcZ_lt. lia. }
  split; [done|]. split; [done|].
  split; [apply Qcdiv_pos; [done|apply (proj2 (QcZ_lt 0 _)); lia]|].
  split; [apply Qcdiv_le_compat; [done|apply QcZ_le; lia]|].
  split; [done|].
  assert (Hc0 : (0 <= QcN (MLProcessor.zeroCrossings data)
                      / QcN (length data) * sampleRate buffer)%Qc).
  { apply Qcmult_nonneg; [|by apply Qclt_le_weak].
    apply Qcdiv_nonneg; [done|]. apply (proj2 (QcN_le 0 _)). lia. }
  split; [apply Qcdiv_nonneg; [reflexivity|done]|].
  split.
  { apply Qcdiv_lt_compat; [reflexivity|].
    rewrite <- (Qcmult_1_l (sampleRate buffer)) at 2.
    apply Qcmult_lt_compat_r; [done|].
    replace 1%Qc with (QcN (length data) / QcN (length data))%Qc
      by (field; by apply Qc_pos_nonzero).
    apply Qcdiv_lt_compat; [done|]. by apply QcN_lt. }
  split; [done|].
  apply Qcdiv_nonneg; [done|]. apply (proj2 (QcN_le 0 _)). lia.
Qed.

(** X16. The significant peaks of a sample are more than one window (10 ms)
    apart; each lies at least one window from both ends of the first channel
    and is a local maximum of the absolute value over its window, and its
    time is its index over the sample rate.  Hence a channel of [n] frames
    has at most [(n - w) / (w + 1)] peaks for the window [w], and none when
    [n <= 2 * w]. *)
Theorem significant_peaks_spaced (fuel : nat) (buffer : AudioBuffer)
    (data : list num) :
  wf_buffer buffer → (blength buffer < fuel)%nat →
  channelData buffer !! O = Some data →
  ∃ features,
    MLProcessor.extractFeatures fuel buffer = Ok features ∧
    StronglySorted (peaks_apart (MLProcessor.windowSize (sampleRate buffer)))
      (MLProcessor.significantPeaks features) ∧
    Forall
      (λ p, ∃ j,
         MLProcessor.windowSize (sampleRate buffer) ≤ j
         < Z.of_nat (blength buffer)
           - MLProcessor.windowSize (sampleRate buffer) ∧
         MLProcessor.index p = nZ j ∧
         MLProcessor.time p = (nZ j / Fin (sampleRate buffer))%num ∧
         local_maximum data (MLProcessor.windowSize (sampleRate buffer)) j)
      (MLProcessor.significantPeaks features) ∧
    Z.of_nat (length (MLProcessor.significantPeaks features))
    * (MLProcessor.windowSize (sampleRate buffer) + 1)
    ≤ Z.max 0 (Z.of_nat (blength buffer)
               - MLProcessor.windowSize (sampleRate buffer)) ∧
    (Z.of_nat (blength buffer)
     ≤ 2 * MLProcessor.windowSize (sampleRate buffer) →
     MLProcessor.significantPeaks features = []).
Proof.
  intros Hwf Hfuel Hd.
  destruct (extractFeatures_eq fuel buffer data Hwf Hfuel Hd)
    as (peaks & Hp & ->).
  pose proof (wf_channel _ _ _ Hwf Hd) as Hlen.
  pose proof (rate_nonneg buffer Hwf) as Hr.
  destruct (scan_spaced fuel data (sampleRate buffer) peaks Hr Hp)
    as (Hsorted & Hall & Hcount).
  rewrite Hlen in *.
  eexists. split; [reflexivity|]. cbn [MLProcessor.significantPeaks].
  split; [done|]. split; [done|]. split; [done|].
  intros Hshort. destruct peaks as [|p peaks]; [done|].
  inversion_clear Hall as [|? ? (j & Hj & _) _]. lia.
Qed.

End FeatureFacts.

(** ** Feature mutation *)

Lemma unit_draws_tail (r : rng) : unit_draws r → unit_draws (rng_tail r).
Proof. intros H n. apply H. Qed.

Lemma unit_ok_ret {A : Type} (P : A → Prop) (a : A) :
  P a → unit_ok P (mret a).
Proof. intros H r Hr. by exists a, r. Qed.

Lemma unit_ok_bind {A B : Type} (P : A → Prop) (Q : B → Prop)
    (m : Rand A) (f : A → Rand B) :
  unit_ok P m → (∀ a, P a → unit_ok Q (f a)) → unit_ok Q (m ≫= f).
Proof.
  intros Hm Hf r Hr. destruct (Hm r Hr) as (a & r' & Hma & Hr' & Ha).
  destruct (Hf a Ha r' Hr') as (b & r'' & Hfb & Hr'' & Hb).
  exists b, r''. split; [|done]. unfold mbind, Rand_bind. by rewrite Hma.
Qed.

Lemma perturb_bound (q s d : Qc) :
  (0 <= d)%Qc → (- (1) <= s)%Qc → (s <= 1)%Qc →
  (Qcabs (q * (1 + s * d) - q) <= d * Qcabs q)%Qc.
Proof.
  intros Hd Hl Hu.
  assert (H1 : (0 <= d * (1 - s))%Qc) by (apply Qcmult_nonneg; qcq; lra).
  assert (H2 : (0 <= d * (1 + s))%Qc) by (apply Qcmult_nonneg; qcq; lra).
  unfold Qcabs. qcases; qcq; nra.
Qed.

Lemma randomize_within (a g h : Qc) (value : num) :
  (0 <= a)%Qc → (0 <= g)%Qc → (0 <= h)%Qc →
  unit_ok (within (g * a * h) value)
    (MLProcessor.randomize (Fin a) value (Fin g) (Fin h)).
Proof.
  intros Ha Hg Hh r Hr. rewrite randomize_eq. eexists _, _.
  split; [reflexivity|]. split; [by apply unit_draws_tail|].
  intros q ->. cbn. eexists. split; [reflexivity|].
  destruct (Hr O) as [H0 H1].
  replace (QcZ 1 + (r O * QcZ 2 + - QcZ 1) * g * a * h)%Qc
    with (1 + (r O * QcZ 2 - 1) * (g * a * h))%Qc
    by (change (QcZ 1) with 1%Qc; ring).
  apply perturb_bound.
  - by repeat apply Qcmult_nonneg.
  - revert H0 H1. generalize (r O). intros x H0 H1. qcq.
    change (inject_Z 2) with 2%Q. lra.
  - revert H0 H1. generalize (r O). intros x H0 H1. qcq.
    change (inject_Z 2) with 2%Q. lra.
Qed.

Lemma floor_moves_by_one (x c : Qc) :
  (Qcabs (QcZ (Qcfloor x) - c) <= Qcabs (x - c) + 1)%Qc.
Proof.
  pose proof (Qcfloor_le x) as Hl. pose proof (Qcfloor_lt x) as Hu.
  rewrite QcZ_succ in Hu. revert Hl Hu. generalize (QcZ (Qcfloor x)).
  intros f Hl Hu. unfold Qcabs. qcases; qcq; lra.
Qed.

Lemma within_weaken (d d' : Qc) (x x' : num) :
  d = d' → within d x x' → within d' x x'.
Proof. by intros ->. Qed.

Lemma mutatePeak_within (a : Qc) (p : MLProcessor.Peak) :
  (0 <= a)%Qc →
  unit_ok (mutated_peak a p) (MLProcessor.mutatePeak (Fin a) p).
Proof.
  intros Ha. unfold MLProcessor.mutatePeak.
  eapply unit_ok_bind; [by apply (randomize_within a (qc 2 100) (QcZ 1))|].
  intros i Hi.
  eapply unit_ok_bind; [by apply (randomize_within a (qc 1 10) (QcZ 1))|].
  intros v Hv. apply unit_ok_ret. split; [done|]. split.
  - eapply within_weaken; [|exact Hv]. change (QcZ 1) with 1%Qc. ring.
  - cbn [MLProcessor.index]. intros j Hj.
    destruct (Hi (QcZ j) Hj) as (x & -> & Hx).
    exists (Qcfloor x). split; [done|].
    eapply Qcle_trans; [apply floor_moves_by_one|].
    apply Qcplus_le_compat; [|apply Qcle_refl].
    eapply Qcle_trans; [exact Hx|]. change (QcZ 1) with 1%Qc.
    rewrite Qcmult_1_r. apply Qcle_refl.
Qed.

Lemma mapM_Rand_unit {A B : Type} (R : A → B → Prop) (f : A → Rand B)
    (l : list A) :
  (∀ a, unit_ok (R a) (f a)) →
  unit_ok (Forall2 R l) (MLProcessor.mapM_Rand f l).
Proof.
  intros Hf. induction l as [|a l IH]; [by apply unit_ok_ret|].
  cbn [MLProcessor.mapM_Rand].
  eapply unit_ok_bind; [apply Hf|]. intros b Hb.
  eapply unit_ok_bind; [exact IH|]. intros bs Hbs.
  apply unit_ok_ret. by constructor.
Qed.

Lemma focusFactor_weight (options : MLProcessor.Options)
    (field : MLProcessor.Focus) :
  MLProcessor.focusFactor options field = Fin (focusWeight options field).
Proof.
  unfold MLProcessor.focusFactor, focusWeight. by destruct (bool_decide _).
Qed.

Lemma focusWeight_nonneg (options : MLProcessor.Options)
    (field : MLProcessor.Focus) :
  (0 <= focusWeight options field)%Qc.
Proof. unfold focusWeight. by destruct (bool_decide _). Qed.

Lemma modifyFeatures_within (features : MLProcessor.FeatureSet) (a : Qc)
    (options : MLProcessor.Options) (isLoop : bool) :
  (0 <= a)%Qc →
  unit_ok (bounded_mutation a options isLoop features)
    (MLProcessor.modifyFeatures features (Fin a) options isLoop).
Proof.
  intros Ha. pose proof (focusWeight_nonneg options) as Hw.
  unfold MLProcessor.modifyFeatures. rewrite !focusFactor_weight.
  do 5 (eapply unit_ok_bind;
        [apply randomize_within; [done|done|apply Hw]|]; intros ? ?).
  eapply unit_ok_bind with
    (P := within ((if isLoop then qc 2 10 else qc 4 10) * a * QcZ 1)
            (MLProcessor.energy features)).
  { destruct isLoop; by apply randomize_within. }
  intros e He.
  eapply unit_ok_bind with
    (P := λ ps, if isLoop
                then Forall2 (mutated_peak a)
                       (MLProcessor.significantPeaks features) ps
                else ps = MLProcessor.significantPeaks features).
  { destruct isLoop; cbn [andb]; [|by apply unit_ok_ret].
    destruct (bool_decide _) eqn:E.
    - apply mapM_Rand_unit. intros p. by apply mutatePeak_within.
    - apply unit_ok_ret. apply bool_decide_eq_false in E.
      destruct (MLProcessor.significantPeaks features); [constructor|].
      cbn in E. lia. }
  intros ps Hps. apply unit_ok_ret.
  cbn [MLProcessor.peakValue MLProcessor.peakIndex MLProcessor.duration
       MLProcessor.dynamicRange MLProcessor.transientDensity
       MLProcessor.attackTime MLProcessor.decayTime
       MLProcessor.sustainLevel MLProcessor.releaseTime
       MLProcessor.spectralCentroid MLProcessor.energy
       MLProcessor.significantPeaks].
  do 5 (split; [reflexivity|]). do 5 (split; [assumption|]).
  split; [|done].
  eapply within_weaken; [|exact He]. change (QcZ 1) with 1%Qc. ring.
Qed.

Lemma draws_ok_ret {A : Type} (P : A → Prop) (a : A) :
  P a → draws_ok 0 P (mret a).
Proof. intros H r. exists a, r. split; [reflexivity|]. by split. Qed.

Lemma draws_ok_bind {A B : Type} (n1 n2 : nat) (P : A → Prop) (Q : B → Prop)
    (m : Rand A) (f : A → Rand B) :
  draws_ok n1 P m → (∀ a, P a → draws_ok n2 Q (f a)) →
  draws_ok (n1 + n2) Q (m ≫= f).
Proof.
  intros Hm Hf r. destruct (Hm r) as (a & r1 & Hr & H1 & Ha).
  destruct (Hf a Ha r1) as (b & r2 & Hr2 & H2 & Hb).
  exists b, r2. split; [unfold mbind, Rand_bind; by rewrite Hr|].
  split; [|done]. intros k. rewrite H2, H1. f_equal. lia.
Qed.

Lemma randomize_draws (amount value range focus : num) :
  draws_ok 1 (λ _, True) (MLProcessor.randomize amount value range focus).
Proof. intros r. rewrite randomize_eq. eexists _, _. by repeat split. Qed.

Lemma mutatePeak_draws (amount : num) (p : MLProcessor.Peak) :
  draws_ok 2 (λ p', MLProcessor.time p' = MLProcessor.time p)
    (MLProcessor.mutatePeak amount p).
Proof.
  unfold MLProcessor.mutatePeak. change 2%nat with (1 + (1 + 0))%nat.
  eapply draws_ok_bind; [apply randomize_draws|]. intros i _.
  eapply draws_ok_bind; [apply randomize_draws|]. intros v _.
  by apply draws_ok_ret.
Qed.

Lemma mapM_Rand_draws (amount : num) (peaks : list MLProcessor.Peak) :
  draws_ok (2 * length peaks)
    (Forall2 (λ p p', MLProcessor.time p' = MLProcessor.time p) peaks)
    (MLProcessor.mapM_Rand (MLProcessor.mutatePeak amount) peaks).
Proof.
  induction peaks as [|p ps IH]; [by apply draws_ok_ret|].
  cbn [MLProcessor.mapM_Rand].
  replace (2 * length (p :: ps))%nat with (2 + (2 * length ps + 0))%nat
    by (cbn [length]; lia).
  eapply draws_ok_bind; [apply mutatePeak_draws|]. intros p' Hp'.
  eapply draws_ok_bind; [exact IH|]. intros ps' Hps'.
  apply draws_ok_ret. by constructor.
Qed.

Lemma Forall2_same_time (peaks : list MLProcessor.Peak) :
  Forall2 (λ p p', MLProcessor.time p' = MLProcessor.time p) peaks peaks.
Proof. induction peaks; by constructor. Qed.

Lemma modifyFeatures_draws (features : MLProcessor.FeatureSet) (amount : num)
    (options : MLProcessor.Options) (isLoop : bool) :
  draws_ok (mutationDraws isLoop features)
    (kept_by_mutation isLoop features)
    (MLProcessor.modifyFeatures features amount options isLoop).
Proof.
  unfold MLProcessor.modifyFeatures, mutationDraws.
  set (n := (if isLoop
             then 2 * length (MLProcessor.significantPeaks features)
             else 0)%nat).
  change (6 + n)%nat with (1 + (1 + (1 + (1 + (1 + (1 + n))))))%nat.
  do 6 (eapply draws_ok_bind; [apply randomize_draws|]; intros ? _).
  replace n with (n + 0)%nat by lia.
  eapply draws_ok_bind with
    (P := λ ps,
       Forall2 (λ p p', MLProcessor.time p' = MLProcessor.time p)
         (MLProcessor.significantPeaks features) ps ∧
       (isLoop = false → ps = MLProcessor.significantPeaks features)).
  { subst n. destruct isLoop; cbn [andb].
    - destruct (bool_decide _) eqn:E.
      + intros r.
        destruct (mapM_Rand_draws amount
                    (MLProcessor.significantPeaks features) r)
          as (ps & r' & Hr & Hd & Hps).
        exists ps, r'. by repeat split.
      + apply bool_decide_eq_false in E.
        destruct (MLProcessor.significantPeaks features) as [|p ps] eqn:Ep;
          [|cbn in E; lia].
        apply draws_ok_ret. split; [constructor|done].
    - apply draws_ok_ret. split; [apply Forall2_same_time|done]. }
  intros ps [Hps Hone]. apply draws_ok_ret.
  unfold kept_by_mutation.
  cbn [MLProcessor.peakValue MLProcessor.peakIndex MLProcessor.duration
       MLProcessor.dynamicRange MLProcessor.transientDensity
       MLProcessor.significantPeaks].
  by repeat split.
Qed.

(** X17. What a mutation of the features keeps, and what it draws.  For every
    amount, focus and random source the mutation returns a feature set, after
    exactly six draws for a one-shot and six plus two for each peak for a
    loop.  Peak value and index, duration, dynamic range and transient
    density are never changed; the peaks keep their number and each its
    time, and are not touched at all unless the sample is a loop.  With an
    amount of zero, and peaks on whole frames, the features are returned
    unchanged, whatever the draws. *)
Theorem mutation_keeps_frame (features : MLProcessor.FeatureSet)
    (amount : num) (options : MLProcessor.Options) (isLoop : bool) (r : rng) :
  whole_frames (MLProcessor.significantPeaks features) →
  (∃ modified r',
     MLProcessor.modifyFeatures features amount options isLoop r
     = Ok (modified, r') ∧
     draws_consumed (mutationDraws isLoop features) r r' ∧
     kept_by_mutation isLoop features modified) ∧
  (∃ r',
     MLProcessor.modifyFeatures features (Fin 0%Qc) options isLoop r
     = Ok (features, r') ∧
     draws_consumed (mutationDraws isLoop features) r r').
Proof.
  intros Hp. split.
  - apply modifyFeatures_draws.
  - destruct (modifyFeatures_draws features (Fin 0%Qc) options isLoop r)
      as (modified & r' & Hr & Hd & _).
    destruct (modifyFeatures_still features options isLoop Hp r)
      as (f' & r'' & Hr' & ->).
    rewrite Hr in Hr'. injection Hr' as -> ->. by exists r''.
Qed.

(** ** Resynthesis *)

Section VariationFacts.
Context {ML : MathLib}.

Lemma copy_loop_self (d : list num) :
  for_range 0 (length d) (λ i outputData, <[i := getn d i]> outputData)
    (zeros (length d))
  = d.
Proof.
  rewrite (fill_map (λ x, x) d) by apply zeros_length. apply map_id.
Qed.

Lemma postProcess_neutral (features : MLProcessor.FeatureSet) (e c : Qc)
    (outputData : list num) :
  MLProcessor.energy features = Fin e → (0 < e)%Qc →
  MLProcessor.spectralCentroid features = Fin c → (0 < c)%Qc →
  MLProcessor.postProcess features outputData = outputData.
Proof.
  intros He Hepos Hc Hcpos. unfold MLProcessor.postProcess.
  rewrite (energyRatio_one features e He Hepos),
    (spectralRatio_one features c Hc Hcpos), rescale_by_one.
  unfold MLProcessor.applySpectralAdjustment.
  change (Fin 1%Qc >? nZ 1)%num with false.
  change (Fin 1%Qc <? nZ 1)%num with false. reflexivity.
Qed.

Lemma within_positive (d q : Qc) (x' : num) :
  (0 < q)%Qc → (d < 1)%Qc → within d (Fin q) x' →
  ∃ q', x' = Fin q' ∧ (0 < q')%Qc.
Proof.
  intros Hq Hd H. destruct (H q eq_refl) as (q' & -> & Hq').
  exists q'. split; [done|].
  assert (Hdq : (d * q < q)%Qc).
  { rewrite <- (Qcmult_1_l q) at 2. by apply Qcmult_lt_compat_r. }
  unfold Qcabs in Hq'.
  rewrite (proj2 (Qcltb_false q 0)) in Hq' by by apply Qclt_le_weak.
  revert Hq' Hdq. generalize (d * q)%Qc. intros u.
  qcases; intros; qcq; lra.
Qed.

Lemma focusWeight_le_2 (options : MLProcessor.Options)
    (field : MLProcessor.Focus) :
  (focusWeight options field <= QcZ 2)%Qc.
Proof. unfold focusWeight. by destruct (bool_decide _). Qed.

(** X18. A variation of a sample that is classified as a loop but has at
    most one significant peak (a long sample with a single hit, say) is the
    sample itself: for every amount in [[0, 5/6)], every focus and all draws
    in [[0, 1)], the envelope stage only copies, and the mutated energy and
    spectral centroid stay positive, so that both post-processing ratios are
    exactly 1. *)
Theorem sparse_loop_variation_is_identity (fuel : nat) (buffer : AudioBuffer)
    (features : MLProcessor.FeatureSet) (a e c : Qc)
    (options : MLProcessor.Options) (r : rng) :
  wf_buffer buffer →
  MLProcessor.extractFeatures fuel buffer = Ok features →
  MLProcessor.isLikelyLoop features = true →
  (length (MLProcessor.significantPeaks features) ≤ 1)%nat →
  MLProcessor.energy features = Fin e → (0 < e)%Qc →
  MLProcessor.spectralCentroid features = Fin c → (0 < c)%Qc →
  (0 <= a)%Qc → (a < qc 5 6)%Qc → unit_draws r →
  ∃ r', MLProcessor.generateVariation fuel buffer (Fin a) options r
        = Ok (buffer, r').
Proof.
  intros Hwf Hf Hloop Hpeaks He Hepos Hc Hcpos Ha Ha' Hr.
  pose proof Hwf as (Hn & Hl & Hrate & Hall).
  destruct (modifyFeatures_within features a options true Ha r Hr)
    as (modified & r' & Hm & _ & Hmut).
  destruct Hmut as (_ & _ & _ & _ & _ & _ & _ & _ & _ & Hc' & He' & Hp').
  rewrite He in He'. rewrite Hc in Hc'.
  apply within_positive in He' as (e' & He' & He'pos); [|done|]; cycle 1.
  { revert Ha Ha'. generalize a. intros x Hx Hx'. qcq. lra. }
  apply within_positive in Hc' as (c' & Hc' & Hc'pos); [|done|]; cycle 1.
  { pose proof (focusWeight_le_2 options MLProcessor.tone) as Hw2.
    pose proof (focusWeight_nonneg options MLProcessor.tone) as Hw0.
    revert Hw0 Hw2. generalize (focusWeight options MLProcessor.tone).
    intros w Hw0 Hw2. qcq. change (inject_Z 2) with 2%Q in Hw2. nra. }
  apply Forall2_length in Hp'.
  exists r'. unfold MLProcessor.generateVariation, mbind, Rand_bind, pure_of.
  rewrite Hf, Hloop, Hm.
  unfold MLProcessor.synthesizeAudio.
  rewrite createBuffer_ok by done. cbn [mbind Outcome_bind].
  rewrite (forChannels_fresh _ _ _ (λ _ d, d)).
  - destruct buffer as [rate len chans]. cbn. do 3 f_equal.
    apply list_eq. intros i. rewrite list_lookup_imap.
    by destruct (chans !! i).
  - intros ch d Hd. unfold MLProcessor.processLoopAudio.
    rewrite bool_decide_eq_false_2 by lia. cbn [of_fuel mbind Outcome_bind].
    rewrite <- (wf_channel _ _ _ Hwf Hd), copy_loop_self.
    cbn [mret Outcome_ret]. f_equal.
    by apply (postProcess_neutral modified e' c').
Qed.

End VariationFacts.

(** ** A long sample with a single hit *)

Lemma maxValue_nonneg (data : list num) :
  all_finite data → ∃ m, MLProcessor.maxValue data = Fin m ∧ (0 <= m)%Qc.
Proof.
  intros Hfin. unfold MLProcessor.maxValue.
  apply (for_range_inv (λ _ s, ∃ m, s = Fin m ∧ (0 <= m)%Qc)); [lia| |].
  - exists 0%Qc. split; [done|apply Qcle_refl].
  - intros i s [_ Hi] (m & -> & Hm).
    destruct (lookup_lt_is_Some_2 data i Hi) as [x Hx].
    destruct (all_finite_lookup _ _ _ Hfin Hx) as [a ->].
    rewrite (getn_lookup _ _ _ Hx). cbn [Math_abs Math_max nlt].
    destruct (Qcltb m (Qcabs a)); eexists; (split; [reflexivity|]);
      [apply Qcabs_nonneg|done].
Qed.

(** When no sample from the first window on exceeds the threshold, the scan
    finds no peak. *)
Lemma scan_no_peak (fuel : nat) (data : list num) (rate : Qc) :
  (0 <= rate)%Qc → (length data < fuel)%nat →
  (∀ j, MLProcessor.windowSize rate ≤ j →
        (Math_abs (get data j)
         >? MLProcessor.maxValue data * MLProcessor.threshold)%num = false) →
  MLProcessor.findSignificantPeaks fuel data rate = Some [].
Proof.
  intros Hr Hfuel Hno.
  destruct (scan_terminates fuel data rate Hr Hfuel) as [peaks Hp].
  rewrite Hp. f_equal. unfold MLProcessor.findSignificantPeaks in Hp.
  destruct (while _ _ _ _) as [[i ps]|] eqn:Hwhile; [|done].
  cbn in Hp. injection Hp as <-.
  pose proof (while_inv
    (λ s : MLProcessor.scanState,
       MLProcessor.windowSize rate ≤ s.1 ∧ s.2 = [])
    _ _ _ _ _ Hwhile) as Hinv.
  cbn [fst snd] in Hinv. destruct Hinv as [_ ->]; [| |done].
  - split; [lia|done].
  - intros [k qs] _ [Hk Hq]. cbn [fst snd] in *. subst qs.
    unfold MLProcessor.scanBody. rewrite Hno by done. cbn. split; [lia|done].
Qed.

Lemma sum_loop_pos (g : nat → num) (lo hi k : nat) :
  (lo ≤ k < hi)%nat →
  (∀ i, (lo ≤ i < hi)%nat → ∃ q, g i = Fin q ∧ (0 <= q)%Qc) →
  (∃ q, g k = Fin q ∧ (0 < q)%Qc) →
  ∃ t, for_range lo hi (λ i s, (s + g i)%num) (Fin 0%Qc) = Fin t ∧ (0 < t)%Qc.
Proof.
  intros Hk Hg (qk & Hgk & Hqk).
  pose (P := λ (j : nat) (s : num),
    ∃ t, s = Fin t ∧ (0 <= t)%Qc ∧ ((k < j)%nat → (0 < t)%Qc)).
  assert (H : P hi (for_range lo hi (λ i s, (s + g i)%num) (Fin 0%Qc))).
  { apply (for_range_inv P); [lia| |].
    - exists 0%Qc. split; [done|]. split; [apply Qcle_refl|lia].
    - intros j s Hj (t & -> & Ht0 & Ht).
      destruct (Hg j Hj) as (q & Hq & Hq0). rewrite Hq.
      exists (t + q)%Qc. split; [done|]. split.
      + replace 0%Qc with (0 + 0)%Qc by ring. by apply Qcplus_le_compat.
      + intros Hkj. destruct (decide (j = k)) as [->|Hne].
        * rewrite Hgk in Hq. injection Hq as <-.
          revert Ht0 Hqk. generalize t qk. intros x y Hx Hy. qcq. lra.
        * specialize (Ht ltac:(lia)).
          revert Ht Hq0. generalize t q. intros x y Hx Hy. qcq. lra. }
  destruct H as (t & Ht & _ & Hpos). exists t. split; [done|].
  apply Hpos. lia.
Qed.

Lemma square_pos (a : Qc) : a ≠ 0%Qc → (0 < a * a)%Qc.
Proof.
  intros Ha. destruct (Qcltb a 0) eqn:E;
    [apply Qcltb_spec in E | apply Qcltb_false in E].
  - qcq. nra.
  - assert (0 < a)%Qc.
    { apply Qcle_lt_or_eq in E as [E|E]; [done|]. by destruct Ha. }
    qcq. nra.
Qed.

Lemma energyOf_pos (data : list num) (k : nat) (a : Qc) :
  all_finite data → data !! k = Some (Fin a) → a ≠ 0%Qc →
  ∃ e, MLProcessor.energyOf data = Fin e ∧ (0 < e)%Qc.
Proof.
  intros Hfin Hk Ha. unfold MLProcessor.energyOf.
  pose proof (lookup_lt_Some _ _ _ Hk) as Hlt.
  destruct (sum_loop_pos (λ i, getn data i * getn data i)%num
              0 (length data) k) as (t & -> & Ht); [lia| | |].
  - intros i [_ Hi]. destruct (lookup_lt_is_Some_2 data i Hi) as [x Hx].
    rewrite (getn_lookup _ _ _ Hx).
    destruct (all_finite_lookup _ _ _ Hfin Hx) as [b ->].
    exists (b * b)%Qc. split; [done|].
    destruct (decide (b = 0%Qc)) as [->|Hb]; [apply Qcle_refl|].
    by apply Qclt_le_weak, square_pos.
  - rewrite (getn_lookup _ _ _ Hk). exists (a * a)%Qc.
    split; [done|by apply square_pos].
  - assert (Hn : (0 < QcN (length data))%Qc)
      by (apply (proj2 (QcN_lt 0 _)); lia).
    unfold nN. rewrite ndiv_Fin by by apply Qc_pos_nonzero.
    eexists. split; [reflexivity|]. by apply Qcdiv_pos.
Qed.

Lemma zeroCrossings_pos (data : list num) (k : nat) :
  (1 ≤ k < length data)%nat →
  (getn data k >=? Fin 0%Qc)%num && (getn data (k - 1) <? Fin 0%Qc)%num
  || (getn data k <? Fin 0%Qc)%num && (getn data (k - 1) >=? Fin 0%Qc)%num
  = true →
  (0 < MLProcessor.zeroCrossings data)%nat.
Proof.
  intros Hk Hcross. unfold MLProcessor.zeroCrossings.
  set (body := λ (i : nat) (zeroCrossings : nat), _).
  pose (P := λ (j c : nat), (k < j)%nat → (0 < c)%nat).
  assert (H : P (length data) (for_range 1 (length data) body O)).
  { apply (for_range_inv P); [lia|unfold P; lia|].
    intros j c Hj Hc. unfold P, body in *. intros Hkj.
    destruct (decide (j = k)) as [->|Hne].
    - rewrite Hcross. lia.
    - specialize (Hc ltac:(lia)). clear Hcross. destruct (_ || _); lia. }
  apply H. lia.
Qed.

Lemma centroid_pos (crossings n : nat) (rate : Qc) :
  (0 < crossings)%nat → (0 < n)%nat → (0 < rate)%Qc →
  ∃ c, (nN crossings / nN n * Fin rate / nZ 2)%num = Fin c ∧ (0 < c)%Qc.
Proof.
  intros Hc Hn Hr.
  assert (Hn' : (0 < QcN n)%Qc) by by apply (proj2 (QcN_lt 0 _)).
  assert (Hc' : (0 < QcN crossings)%Qc) by by apply (proj2 (QcN_lt 0 _)).
  unfold nN, nZ. rewrite ndiv_Fin by by apply Qc_pos_nonzero.
  cbn [nmul]. rewrite ndiv_Fin by done.
  eexists. split; [reflexivity|]. apply Qcdiv_pos; [reflexivity|].
  replace 0%Qc with (0 * rate)%Qc by ring.
  apply Qcmult_lt_compat_r; [done|]. by apply Qcdiv_pos.
Qed.

Lemma longHit_channel :
  channel_of longHit 0 = [Fin 1%Qc; Fin (-1)%Qc] ++ zeros (Z.to_nat 5999).
Proof. reflexivity. Qed.

Lemma longHit_wf : wf_buffer longHit.
Proof.
  unfold wf_buffer, longHit, numberOfChannels.
  cbn [channelData blength sampleRate length].
  split; [lia|]. split; [lia|]. split; [vm_compute; reflexivity|].
  constructor; [|constructor].
  rewrite length_app, zeros_length. cbn [length]. lia.
Qed.

Lemma longHit_finite : all_finite (channel_of longHit 0).
Proof.
  rewrite longHit_channel. apply Forall_app. split.
  - by repeat constructor.
  - apply all_finite_zeros.
Qed.

Lemma longHit_tail (j : Z) :
  2 ≤ j →
  get (channel_of longHit 0) j = Fin 0%Qc ∨ get (channel_of longHit 0) j = NaN.
Proof.
  intros Hj. rewrite longHit_channel. unfold get, getn.
  rewrite bool_decide_eq_true_2 by lia.
  rewrite lookup_app_r by (cbn [length]; lia).
  destruct (zeros _ !! _) as [x|] eqn:Hx; [|by right].
  apply lookup_replicate in Hx as [-> _]. by left.
Qed.

(** The features of [longHit]: a loop by its duration, without a
    significant peak, with some energy and some zero crossings. *)
Lemma longHit_sparse {ML : MathLib} :
  ∃ features e c,
    MLProcessor.extractFeatures longHitFuel longHit = Ok features ∧
    MLProcessor.isLikelyLoop features = true ∧
    (length (MLProcessor.significantPeaks features) ≤ 1)%nat ∧
    MLProcessor.energy features = Fin e ∧ (0 < e)%Qc ∧
    MLProcessor.spectralCentroid features = Fin c ∧ (0 < c)%Qc.
Proof.
  pose proof longHit_wf as Hwf. pose proof longHit_finite as Hfin.
  assert (Hlen : blength longHit = Z.to_nat 6001) by reflexivity.
  assert (Hfuel : (blength longHit < longHitFuel)%nat)
    by (rewrite Hlen; unfold longHitFuel; lia).
  assert (Hd : channelData longHit !! O = Some (channel_of longHit 0))
    by reflexivity.
  pose proof (wf_channel _ _ _ Hwf Hd) as Hdl. rewrite Hlen in Hdl.
  destruct (extractFeatures_eq longHitFuel longHit _ Hwf Hfuel Hd)
    as (peaks & Hp & Hf).
  assert (peaks = []) as ->.
  { destruct (maxValue_nonneg _ Hfin) as (m & Hm & Hm0).
    rewrite scan_no_peak in Hp; [congruence|done| |].
    - rewrite Hdl. unfold longHitFuel. lia.
    - intros j Hj. rewrite Hm.
      assert (Hw : MLProcessor.windowSize (sampleRate longHit) = 30)
        by (vm_compute; reflexivity).
      destruct (longHit_tail j ltac:(lia)) as [-> | ->]; [|done].
      cbn. apply Qcltb_false. unfold Qcabs. cbn.
      apply Qcmult_nonneg; [done|discriminate]. }
  destruct (energyOf_pos (channel_of longHit 0) 0 1 Hfin eq_refl)
    as (e & He & Hepos); [done|].
  pose proof (zeroCrossings_pos (channel_of longHit 0) 1) as Hzc.
  destruct (centroid_pos (MLProcessor.zeroCrossings (channel_of longHit 0))
              (length (channel_of longHit 0)) (sampleRate longHit))
    as (c & Hc & Hcpos).
  { apply Hzc; [|reflexivity]. rewrite Hdl. lia. }
  { rewrite Hdl. lia. }
  { reflexivity. }
  eexists _, e, c. split; [exact Hf|]. cbv zeta.
  cbn [MLProcessor.energy MLProcessor.spectralCentroid
       MLProcessor.significantPeaks].
  split; [|split; [cbn [length]; lia|]].
  2: { split; [exact He|]. split; [exact Hepos|]. split; [exact Hc|exact Hcpos]. }
  unfold MLProcessor.isLikelyLoop.
  cbn [MLProcessor.significantPeaks MLProcessor.duration].
  apply orb_true_iff. right. vm_compute. reflexivity.
Qed.

Lemma halves_unit : unit_draws halves.
Proof. intros n. split; reflexivity || discriminate. Qed.

Lemma harmonic_unit : unit_draws harmonic.
Proof.
  intros n. unfold harmonic, qc.
  set (p := Pos.of_succ_nat (S n)). split.
  - change (Qle 0%Q (Qred (1 # p))). rewrite (Qred_correct (1 # p)).
    unfold Qle. cbn. lia.
  - change (Qlt (Qred (1 # p)) 1%Q). rewrite (Qred_correct (1 # p)).
    unfold Qlt. cbn. lia.
Qed.

Lemma click_channel_finite : all_finite (channel_of click 0).
Proof. by repeat constructor. Qed.

Lemma main_peak_is_first_maximum_witness :
  wf_buffer click ∧ (blength click < 5)%nat ∧
  channelData click !! O = Some (channel_of click 0) ∧
  all_finite (channel_of click 0) ∧
  ∃ features,
    MLProcessor.extractFeatures 5 click = Ok features ∧
    (MLProcessor.peakIndex features < blength click)%nat ∧
    MLProcessor.peakValue features
    = Math_abs (getn (channel_of click 0) (MLProcessor.peakIndex features)) ∧
    (∀ i x, channel_of click 0 !! i = Some x →
       (Math_abs x <=? MLProcessor.peakValue features)%num = true) ∧
    (∀ i x, (i < MLProcessor.peakIndex features)%nat →
       channel_of click 0 !! i = Some x →
       (Math_abs x <? MLProcessor.peakValue features)%num = true) ∧
    MLProcessor.attackTime features
    = (nN (MLProcessor.peakIndex features) / Fin (sampleRate click))%num.
Proof.
  assert (H1 : (blength click < 5)%nat) by (cbn; lia).
  assert (H2 : channelData click !! O = Some (channel_of click 0))
    by reflexivity.
  split; [exact click_wf|]. split; [exact H1|]. split; [exact H2|].
  split; [exact click_channel_finite|].
  exact (main_peak_is_first_maximum 5 click (channel_of click 0) click_wf H1
           H2 click_channel_finite).
Defined.

Lemma decay_is_first_drop_below_quarter_peak_witness :
  wf_buffer click ∧ (blength click < 5)%nat ∧
  channelData click !! O = Some (channel_of click 0) ∧
  all_finite (channel_of click 0) ∧
  ∃ features decayIndex,
    MLProcessor.extractFeatures 5 click = Ok features ∧
    MLProcessor.decayTime features
    = (nZ (Z.of_nat decayIndex - Z.of_nat (MLProcessor.peakIndex features))
       / Fin (sampleRate click))%num ∧
    (MLProcessor.peakIndex features ≤ decayIndex < blength click)%nat ∧
    (∀ i, (MLProcessor.peakIndex features ≤ i < decayIndex)%nat →
       (Math_abs (getn (channel_of click 0) i)
        <? MLProcessor.peakValue features * nq 25 100)%num = false) ∧
    ((decayIndex = MLProcessor.peakIndex features ∧
      ∀ i, (MLProcessor.peakIndex features ≤ i < blength click)%nat →
        (Math_abs (getn (channel_of click 0) i)
         <? MLProcessor.peakValue features * nq 25 100)%num = false) ∨
     ((MLProcessor.peakIndex features < decayIndex)%nat ∧
      (Math_abs (getn (channel_of click 0) decayIndex)
       <? MLProcessor.peakValue features * nq 25 100)%num = true)).
Proof.
  assert (H1 : (blength click < 5)%nat) by (cbn; lia).
  assert (H2 : channelData click !! O = Some (channel_of click 0))
    by reflexivity.
  split; [exact click_wf|]. split; [exact H1|]. split; [exact H2|].
  split; [exact click_channel_finite|].
  exact (decay_is_first_drop_below_quarter_peak 5 click (channel_of click 0)
           click_wf H1 H2 click_channel_finite).
Defined.

Lemma features_within_ranges_witness :
  wf_buffer click ∧ (blength click < 5)%nat ∧
  channelData click !! O = Some (channel_of click 0) ∧
  all_finite (channel_of click 0) ∧
  ∃ features attackTime decayTime sustainLevel releaseTime energy
      spectralCentroid peakValue dynamicRange transientDensity duration,
    MLProcessor.extractFeatures 5 click = Ok features ∧
    MLProcessor.attackTime features = Fin attackTime ∧
    MLProcessor.decayTime features = Fin decayTime ∧
    MLProcessor.sustainLevel features = Fin sustainLevel ∧
    MLProcessor.releaseTime features = Fin releaseTime ∧
    MLProcessor.energy features = Fin energy ∧
    MLProcessor.spectralCentroid features = Fin spectralCentroid ∧
    MLProcessor.peakValue features = Fin peakValue ∧
    MLProcessor.dynamicRange features = Fin dynamicRange ∧
    MLProcessor.transientDensity features = Fin transientDensity ∧
    MLProcessor.duration features = Fin duration ∧
    (duration = QcN (blength click) / sampleRate click ∧ 0 < duration ∧
     0 <= attackTime ∧ 0 <= decayTime ∧ attackTime + decayTime < duration ∧
     0 <= sustainLevel ∧ sustainLevel <= peakValue ∧
     0 < releaseTime ∧ releaseTime <= duration ∧
     0 <= energy ∧
     0 <= spectralCentroid ∧ spectralCentroid < sampleRate click / QcZ 2 ∧
     0 <= dynamicRange ∧ 0 <= transientDensity)%Qc.
Proof.
  assert (H1 : (blength click < 5)%nat) by (cbn; lia).
  assert (H2 : channelData click !! O = Some (channel_of click 0))
    by reflexivity.
  split; [exact click_wf|]. split; [exact H1|]. split; [exact H2|].
  split; [exact click_channel_finite|].
  exact (features_within_ranges 5 click (channel_of click 0) click_wf H1 H2
           click_channel_finite).
Defined.

Lemma significant_peaks_spaced_witness :
  wf_buffer spikes ∧ (blength spikes < 601)%nat ∧
  channelData spikes !! O = Some (channel_of spikes 0) ∧
  ∃ features,
    MLProcessor.extractFeatures 601 spikes = Ok features ∧
    StronglySorted (peaks_apart (MLProcessor.windowSize (sampleRate spikes)))
      (MLProcessor.significantPeaks features) ∧
    Forall
      (λ p, ∃ j,
         MLProcessor.windowSize (sampleRate spikes) ≤ j
         < Z.of_nat (blength spikes)
           - MLProcessor.windowSize (sampleRate spikes) ∧
         MLProcessor.index p = nZ j ∧
         MLProcessor.time p = (nZ j / Fin (sampleRate spikes))%num ∧
         local_maximum (channel_of spikes 0)
           (MLProcessor.windowSize (sampleRate spikes)) j)
      (MLProcessor.significantPeaks features) ∧
    Z.of_nat (length (MLProcessor.significantPeaks features))
    * (MLProcessor.windowSize (sampleRate spikes) + 1)
    ≤ Z.max 0 (Z.of_nat (blength spikes)
               - MLProcessor.windowSize (sampleRate spikes)) ∧
    (Z.of_nat (blength spikes)
     ≤ 2 * MLProcessor.windowSize (sampleRate spikes) →
     MLProcessor.significantPeaks features = []).
Proof.
  assert (H1 : (blength spikes < 601)%nat) by (cbn; lia).
  assert (H2 : channelData spikes !! O = Some (channel_of spikes 0))
    by reflexivity.
  split; [exact spikes_wf|]. split; [exact H1|]. split; [exact H2|].
  exact (significant_peaks_spaced 601 spikes (channel_of spikes 0) spikes_wf
           H1 H2).
Defined.

Lemma mutation_keeps_frame_witness :
  whole_frames (MLProcessor.significantPeaks twoPeakFeatures) ∧
  (∃ modified r',
     MLProcessor.modifyFeatures twoPeakFeatures (Fin (qc 1 2))
       (MLProcessor.mkOptions (Some MLProcessor.tone)) true harmonic
     = Ok (modified, r') ∧
     draws_consumed (mutationDraws true twoPeakFeatures) harmonic r' ∧
     kept_by_mutation true twoPeakFeatures modified) ∧
  (∃ r',
     MLProcessor.modifyFeatures twoPeakFeatures (Fin 0%Qc)
       (MLProcessor.mkOptions (Some MLProcessor.tone)) true harmonic
     = Ok (twoPeakFeatures, r') ∧
     draws_consumed (mutationDraws true twoPeakFeatures) harmonic r').
Proof.
  assert (H : whole_frames (MLProcessor.significantPeaks twoPeakFeatures)).
  { repeat constructor; cbn [MLProcessor.index]; eauto. }
  split; [exact H|].
  exact (mutation_keeps_frame twoPeakFeatures (Fin (qc 1 2))
           (MLProcessor.mkOptions (Some MLProcessor.tone)) true harmonic H).
Defined.

Lemma sparse_loop_variation_is_identity_witness :
  wf_buffer longHit ∧
  ∃ features e c,
    MLProcessor.extractFeatures longHitFuel longHit = Ok features ∧
    MLProcessor.isLikelyLoop features = true ∧
    (length (MLProcessor.significantPeaks features) ≤ 1)%nat ∧
    MLProcessor.energy features = Fin e ∧ (0 < e)%Qc ∧
    MLProcessor.spectralCentroid features = Fin c ∧ (0 < c)%Qc ∧
    (0 <= qc 1 2)%Qc ∧ (qc 1 2 < qc 5 6)%Qc ∧ unit_draws halves ∧
    ∃ r', MLProcessor.generateVariation longHitFuel longHit (Fin (qc 1 2))
            (MLProcessor.mkOptions (Some MLProcessor.tone)) halves
          = Ok (longHit, r').
Proof.
  destruct longHit_sparse as (features & e & c & Hf & Hloop & Hpeaks & He
                              & Hepos & Hc & Hcpos).
  assert (H1 : (0 <= qc 1 2)%Qc) by (vm_compute; discriminate).
  assert (H2 : (qc 1 2 < qc 5 6)%Qc) by (vm_compute; reflexivity).
  split; [exact longHit_wf|]. exists features, e, c.
  split; [exact Hf|]. split; [exact Hloop|]. split; [exact Hpeaks|].
  split; [exact He|]. split; [exact Hepos|]. split; [exact Hc|].
  split; [exact Hcpos|]. split; [exact H1|]. split; [exact H2|].
  split; [exact halves_unit|].
  exact (sparse_loop_variation_is_identity longHitFuel longHit features
           (qc 1 2) e c (MLProcessor.mkOptions (Some MLProcessor.tone)) halves
           longHit_wf Hf Hloop Hpeaks He Hepos Hc Hcpos H1 H2 halves_unit).
Defined.

(** ** The recipes and the session *)

Section SessionFacts.
Context {ML : MathLib}.

Lemma extended_of_shaped (b b' : AudioBuffer) :
  shaped b (blength b) b' → extended b' = extended b.
Proof.
  intros (_ & Hl & _ & Hr). unfold extended, tailFrames,
    AudioProcessor.isLikelyLoop, bduration. by rewrite Hl, Hr.
Qed.

Lemma hook_recipe_shapes (fuel : nat) (sample : AudioBuffer) (β : Qc)
    (isLoop : bool) :
  wf_buffer sample →
  Z.of_nat (blength sample) + Qcfloor (sampleRate sample) < Z.of_nat fuel →
  rand_ok (Forall2 (shaped sample) (hookLengths sample isLoop))
    (Hook.recipe fuel sample (Fin β) isLoop).
Proof.
  intros Hwf Hfuel.
  destruct (fuel_bounds fuel sample Hwf Hfuel) as (Hf1 & Hf2 & Hf3).
  pose proof (shaped_refl sample Hwf) as Hs.
  unfold Hook.recipe.
  eapply rand_ok_bind; [by apply variation_of_shaped|]. intros v1 H1.
  eapply rand_ok_bind; [by apply variation_of_shaped|]. intros v2 H2.
  eapply rand_ok_bind; [by apply variation_of_shaped|]. intros v3 H3.
  eapply rand_ok_bind; [by apply variation_of_shaped|]. intros v4 H4.
  eapply rand_ok_bind; [by apply variation_of_shaped|].
  intros toneVariation Htone.
  eapply rand_ok_bind with (P := shaped sample (blength sample)).
  { destruct (_ <? _)%num; [|by apply rand_ok_ret].
    apply rand_ok_pure. eapply ok_shaped_via; [exact Htone|].
    destruct Htone as (Hwt & <- & _). by apply processBitCrush_shaped. }
  intros v5 H5.
  eapply rand_ok_bind;
    [apply rand_ok_pure; by apply processPitchShift_shaped|].
  intros pitchShifted Hps.
  eapply rand_ok_bind; [by apply (variation_of_shaped fuel sample)|].
  intros v6 H6.
  eapply rand_ok_bind.
  { destruct isLoop; apply processReverb_shaped; try done;
      apply Qcleb_spec; reflexivity. }
  intros reverbed Hrev.
  eapply rand_ok_bind; [by apply (variation_of_shaped fuel sample)|].
  intros v7 H7.
  eapply rand_ok_bind with
    (P := shaped sample (if isLoop then extended sample else blength sample)).
  { destruct isLoop.
    - eapply rand_ok_bind;
        [apply rand_ok_pure; by apply processDelay_shaped|].
      intros delayed Hd. apply rand_ok_pure.
      eapply ok_shaped_via; [exact Hd|].
      destruct Hd as (Hwd & <- & _). by apply processDistortion_shaped.
    - eapply rand_ok_bind;
        [apply rand_ok_pure; by apply processDistortion_shaped|].
      intros distorted Hd. apply rand_ok_pure.
      eapply ok_shaped_via; [exact Hd|].
      destruct Hd as (Hwd & <- & _). by apply processBitCrush_shaped. }
  intros extreme Hext.
  eapply rand_ok_bind.
  { apply (variation_of_shaped fuel sample); [exact Hext|].
    by destruct isLoop. }
  intros v8 H8. apply rand_ok_ret. unfold hookLengths. cbn [app].
  repeat (constructor; [assumption|]). constructor.
Qed.

(** X19. With a sample loaded and a balance that is a finite number, one
    call of [generateVariations] stores eight well-formed variations with
    the channel count and the rate of the sample and clears the error.  The
    first six have the length of the sample, the seventh (reverb) is longer
    by the tail, and so is the eighth for a loop.  The sample, the balance
    and the classification are left as they were. *)
Theorem hook_variations_shapes (fuel : nat) (st : Hook.State)
    (sample : AudioBuffer) (β : Qc) (r : rng) :
  wf_buffer sample →
  Z.of_nat (blength sample) + Qcfloor (sampleRate sample) < Z.of_nat fuel →
  Hook.originalSample st = Some sample →
  Hook.mlBalance st = Fin β →
  ∃ st',
    Hook.generateVariations fuel st r = Some st' ∧
    Forall2 (shaped sample) (hookLengths sample (Hook.isLoop st))
      (Hook.variations st') ∧
    Hook.error st' = None ∧
    Hook.isProcessing st' = false ∧
    Hook.originalSample st' = Some sample ∧
    Hook.mlBalance st' = Hook.mlBalance st ∧
    Hook.isLoop st' = Hook.isLoop st.
Proof.
  intros Hwf Hfuel Hsample Hbal.
  destruct (hook_recipe_shapes fuel sample β (Hook.isLoop st) Hwf Hfuel r)
    as (vs & r' & Hrec & Hshapes).
  unfold Hook.generateVariations. rewrite Hsample, Hbal, Hrec.
  eexists. split; [reflexivity|]. cbn. done.
Qed.

(** X20. The recipe of the effect library returns, for a loaded sample,
    eight well-formed variations with the channel count and the rate of the
    sample: transient, both pitch shifts and bit crush at the length of the
    sample, reverb, delay and pitch shift with reverb longer by the tail,
    and the last one longer by the tail for a loop only.  Without a sample
    it throws before any effect runs. *)
Theorem processor_variations_shapes (fuel : nat) (sample : AudioBuffer)
    (isLoop : bool) (r : rng) :
  wf_buffer sample → (10 < fuel)%nat →
  (∃ vs r',
     AudioProcessor.generateVariations fuel (Some sample) isLoop r
     = Ok (vs, r') ∧
     Forall2 (shaped sample) (processorLengths sample isLoop) vs) ∧
  AudioProcessor.generateVariations fuel None isLoop r = Throw NoSampleLoaded.
Proof.
  intros Hwf Hfuel. split; [|reflexivity].
  pose proof (shaped_refl sample Hwf) as Hs.
  revert r. change (rand_ok
    (Forall2 (shaped sample) (processorLengths sample isLoop))
    (AudioProcessor.generateVariations fuel (Some sample) isLoop)).
  unfold AudioProcessor.generateVariations.
  eapply rand_ok_bind;
    [apply rand_ok_pure; by apply processTransientEnhancement_shaped|].
  intros v1 H1.
  eapply rand_ok_bind;
    [apply rand_ok_pure; by apply processPitchShift_shaped|].
  intros v2 H2.
  eapply rand_ok_bind;
    [apply rand_ok_pure; by apply processPitchShift_shaped|].
  intros v3 H3.
  eapply rand_ok_bind;
    [apply rand_ok_pure; by apply processBitCrush_shaped|].
  intros v4 H4.
  eapply rand_ok_bind.
  { destruct isLoop; apply processReverb_shaped; try done;
      apply Qcleb_spec; reflexivity. }
  intros v5 H5.
  eapply rand_ok_bind;
    [apply rand_ok_pure; by apply processDelay_shaped|].
  intros v6 H6.
  eapply rand_ok_bind;
    [apply rand_ok_pure; by apply processPitchShift_shaped|].
  intros pitchShifted Hps.
  eapply rand_ok_bind with (P := shaped sample (extended sample)).
  { eapply rand_shaped_via; [exact Hps|].
    rewrite <- (extended_of_shaped sample pitchShifted Hps).
    destruct isLoop; apply processReverb_shaped; try apply Hps;
      apply Qcleb_spec; reflexivity. }
  intros v7 H7.
  eapply rand_ok_bind with
    (P := shaped sample (if isLoop then extended sample else blength sample)).
  { destruct isLoop.
    - eapply rand_ok_bind;
        [apply rand_ok_pure; by apply processDelay_shaped|].
      intros delayed Hd. apply rand_ok_pure.
      eapply ok_shaped_via; [exact Hd|].
      destruct Hd as (Hwd & <- & _). by apply processDistortion_shaped.
    - eapply rand_ok_bind;
        [apply rand_ok_pure; by apply processDistortion_shaped|].
      intros distorted Hd. apply rand_ok_pure.
      eapply ok_shaped_via; [exact Hd|].
      destruct Hd as (Hwd & <- & _). by apply processBitCrush_shaped. }
  intros v8 H8. apply rand_ok_ret. unfold processorLengths. cbn [app].
  repeat (constructor; [assumption|]). constructor.
Qed.

Lemma clamp_unit (x : num) :
  x ≠ NaN →
  ∃ β, Math_max (nZ 0) (Math_min (nZ 1) x) = Fin β ∧
       (0 <= β)%Qc ∧ (β <= 1)%Qc.
Proof.
  intros Hx. destruct x as [q| | |]; [| | |done].
  - unfold nZ. cbn [Math_min Math_max nlt].
    destruct (Qcltb q (QcZ 1)) eqn:E1;
      [apply Qcltb_spec in E1 | apply Qcltb_false in E1]; cbn [nlt].
    + destruct (Qcltb (QcZ 0) q) eqn:E0;
        [apply Qcltb_spec in E0 | apply Qcltb_false in E0];
        eexists; (split; [reflexivity|]).
      * split; by apply Qclt_le_weak.
      * split; [apply Qcle_refl|discriminate].
    + exists 1%Qc. split; [reflexivity|]. split; [discriminate|apply Qcle_refl].
  - exists 1%Qc. split; [reflexivity|]. split; [discriminate|apply Qcle_refl].
  - exists 0%Qc. split; [reflexivity|]. split; [apply Qcle_refl|discriminate].
Qed.

Lemma initial_consistent (fuel : nat) : consistent fuel Session.initial.
Proof.
  split; [exists (qc 5 10); repeat split; discriminate|].
  split; [done|]. split; [by left|]. done.
Qed.

Lemma step_consistent (fuel : nat) (st : Hook.State) (a : Session.Action) :
  consistent fuel st → feasible fuel a →
  ∃ st', Session.step fuel st a = Some st' ∧ consistent fuel st'.
Proof.
  intros ((β & Hbal & Hβ0 & Hβ1) & Hproc & Herr & Hsample) Ha.
  destruct a as [balance|buffer|draws]; cbn [Session.step feasible] in *.
  - eexists. split; [reflexivity|].
    destruct (clamp_unit balance Ha) as (β' & Hβ' & H0 & H1).
    split; [by exists β'|]. split; [done|]. split; [done|]. done.
  - destruct Ha as [Hwf Hfuel].
    destruct (fuel_bounds fuel buffer Hwf Hfuel) as (Hf1 & _).
    destruct (extractFeatures_frames fuel buffer Hwf Hf1) as (f & Hf & _).
    unfold Session.loadAudioFile, Hook.loadSample. rewrite Hf.
    cbn [mbind Outcome_bind mret Outcome_ret].
    eexists. split; [reflexivity|].
    split; [by exists β|]. split; [done|]. split; [by left|].
    cbn. split; [done|]. split; [done|by left].
  - destruct (Hook.originalSample st) as [sample|] eqn:Hs.
    + destruct Hsample as (Hwf & Hfuel & _).
      destruct (hook_recipe_shapes fuel sample β (Hook.isLoop st) Hwf Hfuel
                  draws) as (vs & r' & Hrec & Hshapes).
      unfold Hook.generateVariations. rewrite Hs, Hbal, Hrec.
      eexists. split; [reflexivity|].
      split; [by exists β|]. split; [done|]. split; [by left|].
      cbn. split; [done|]. split; [done|by right].
    + unfold Hook.generateVariations. rewrite Hs.
      eexists. split; [reflexivity|].
      split; [by exists β|]. split; [done|]. split; [by right|]. done.
Qed.

(** X21. Whatever the user does, the state of the hook stays consistent.
    From a consistent state (the initial one is), every sequence of balance
    changes to a number, loads of well-formed samples and generations runs
    to a state where the balance lies in [[0, 1]], nothing is processing, no
    exception has been recorded, and the variations are either none or the
    eight variations of the sample that is loaded now, with its channel
    count and rate. *)
Theorem session_stays_consistent (fuel : nat) (st : Hook.State)
    (actions : list Session.Action) :
  consistent fuel st → Forall (feasible fuel) actions →
  consistent fuel Session.initial ∧
  ∃ st', Session.run fuel st actions = Some st' ∧ consistent fuel st'.
Proof.
  intros Hst Hacts. split; [apply initial_consistent|].
  revert st Hst. unfold Session.run.
  induction Hacts as [|a actions Ha _ IH]; intros st Hst.
  - by exists st.
  - destruct (step_consistent fuel st a Hst Ha) as (st1 & Hstep & Hst1).
    destruct (IH st1 Hst1) as (st' & Hrun & Hst').
    exists st'. split; [|done]. cbn [foldlM]. rewrite Hstep. exact Hrun.
Qed.

End SessionFacts.

Lemma clickFuel_enough :
  Z.of_nat (blength click) + Qcfloor (sampleRate click) < Z.of_nat clickFuel.
Proof. unfold clickFuel. rewrite Z2Nat.id by lia. vm_compute. reflexivity. Qed.

Lemma hook_variations_shapes_witness :
  wf_buffer click ∧
  Z.of_nat (blength click) + Qcfloor (sampleRate click) < Z.of_nat clickFuel ∧
  Hook.originalSample clickLoaded = Some click ∧
  Hook.mlBalance clickLoaded = Fin (qc 1 2) ∧
  ∃ st',
    Hook.generateVariations clickFuel clickLoaded halves = Some st' ∧
    Forall2 (shaped click) (hookLengths click (Hook.isLoop clickLoaded))
      (Hook.variations st') ∧
    Hook.error st' = None ∧
    Hook.isProcessing st' = false ∧
    Hook.originalSample st' = Some click ∧
    Hook.mlBalance st' = Hook.mlBalance clickLoaded ∧
    Hook.isLoop st' = Hook.isLoop clickLoaded.
Proof.
  split; [exact click_wf|]. split; [exact clickFuel_enough|].
  split; [reflexivity|]. split; [reflexivity|].
  exact (hook_variations_shapes clickFuel clickLoaded click (qc 1 2) halves
           click_wf clickFuel_enough eq_refl eq_refl).
Defined.

Lemma processor_variations_shapes_witness :
  wf_buffer click ∧ (10 < 11)%nat ∧
  (∃ vs r',
     AudioProcessor.generateVariations 11 (Some click) false halves
     = Ok (vs, r') ∧
     Forall2 (shaped click) (processorLengths click false) vs) ∧
  AudioProcessor.generateVariations 11 None false halves
  = Throw NoSampleLoaded.
Proof.
  assert (H : (10 < 11)%nat) by lia.
  split; [exact click_wf|]. split; [exact H|].
  exact (processor_variations_shapes 11 click false halves click_wf H).
Defined.

Lemma session_stays_consistent_witness :
  consistent clickFuel Session.initial ∧
  Forall (feasible clickFuel)
    [Session.SetBalance PInf; Session.Load click; Session.Generate halves;
     Session.SetBalance (nq 1 4); Session.Generate harmonic] ∧
  consistent clickFuel Session.initial ∧
  ∃ st',
    Session.run clickFuel Session.initial
      [Session.SetBalance PInf; Session.Load click; Session.Generate halves;
       Session.SetBalance (nq 1 4); Session.Generate harmonic]
    = Some st' ∧
    consistent clickFuel st'.
Proof.
  assert (H : Forall (feasible clickFuel)
    [Session.SetBalance PInf; Session.Load click; Session.Generate halves;
     Session.SetBalance (nq 1 4); Session.Generate harmonic]).
  { constructor; [done|].
    constructor; [split; [exact click_wf|exact clickFuel_enough]|].
    repeat (constructor; [done|]). constructor. }
  split; [exact (initial_consistent clickFuel)|]. split; [exact H|].
  exact (session_stays_consistent clickFuel Session.initial _
           (initial_consistent clickFuel) H).
Defined.

(** ** The first version of the delay *)

Lemma Qcfloor_add_Z (z : Z) (q : Qc) : Qcfloor (QcZ z + q) = z + Qcfloor q.
Proof.
  apply Qcfloor_unique.
  - rewrite QcZ_add. apply Qcplus_le_compat; [apply Qcle_refl|apply Qcfloor_le].
  - replace (z + Qcfloor q + 1) with (z + (Qcfloor q + 1)) by lia.
    rewrite QcZ_add. pose proof (Qcfloor_lt q) as H.
    revert H. generalize (QcZ (Qcfloor q + 1)) (QcZ z). intros a b H.
    qcq. lra.
Qed.

Lemma legacy_createBuffer (buffer : AudioBuffer) :
  wf_buffer buffer →
  createBuffer (numberOfChannels buffer)
    (nN (blength buffer) + Fin (sampleRate buffer))%num (sampleRate buffer)
  = Ok (mkBuffer (sampleRate buffer)
          (Z.to_nat (Z.of_nat (blength buffer) + Qcfloor (sampleRate buffer)))
          (replicate (numberOfChannels buffer)
             (zeros (Z.to_nat (Z.of_nat (blength buffer)
                               + Qcfloor (sampleRate buffer)))))) ∧
  0 < Z.of_nat (blength buffer) + Qcfloor (sampleRate buffer).
Proof.
  intros (Hn & Hl & Hr & _).
  assert (H : 3000 ≤ Qcfloor (sampleRate buffer)).
  { apply supportedRate_bounds in Hr as [Hlo _].
    rewrite <- (Qcfloor_QcZ 3000). by apply Qcfloor_mono. }
  split; [|lia]. unfold createBuffer, nN, QcN. cbn [nadd].
  rewrite Qcfloor_add_Z, Hr. rewrite !bool_decide_eq_true_2 by lia.
  reflexivity.
Qed.

(** Powers of a number below 1 fall under every floor: [f ^ n * (1 + n * (1
    - f)) <= 1]. *)
Lemma power_decay (f : Qc) (n : nat) :
  (0 <= f)%Qc → (f < 1)%Qc →
  (0 <= f ^ n)%Qc ∧ (f ^ n * (1 + QcN n * (1 - f)) <= 1)%Qc.
Proof.
  intros Hf0 Hf1. induction n as [|n [IH0 IH]].
  - cbn [Qcpower]. split; [discriminate|].
    change (QcN 0) with 0%Qc. ring_simplify. apply Qcle_refl.
  - cbn [Qcpower]. split; [by apply Qcmult_nonneg|].
    replace (QcN (S n)) with (QcN n + 1)%Qc
      by (unfold QcN; rewrite Nat2Z.inj_succ; unfold Z.succ; by rewrite QcZ_succ).
    assert (Hn : (0 <= QcN n)%Qc) by (apply (proj2 (QcN_le 0 n)); lia).
    revert IH0 IH Hn. generalize (f ^ n)%Qc (QcN n). intros u m Hu IH Hm.
    assert (Hd : (0 <= 1 - f)%Qc) by (qcq; lra).
    assert (Humd : (0 <= u * m * (1 - f))%Qc)
      by (repeat apply Qcmult_nonneg; done).
    assert (Hu1 : (u <= 1)%Qc).
    { replace (u * (1 + m * (1 - f)))%Qc with (u + u * m * (1 - f))%Qc in IH
        by ring.
      revert Humd IH. generalize (u * m * (1 - f))%Qc. intros w Hw IH.
      qcq. lra. }
    assert (Hud : (u * (1 - f) <= 1 - f)%Qc).
    { rewrite <- (Qcmult_1_l (1 - f)) at 2. by apply Qcmult_le_compat_r. }
    replace (f * u * (1 + (m + 1) * (1 - f)))%Qc
      with (f * (u * (1 + m * (1 - f)) + u * (1 - f)))%Qc by ring.
    assert (Hsum : (u * (1 + m * (1 - f)) + u * (1 - f) <= 1 + (1 - f))%Qc)
      by by apply Qcplus_le_compat.
    eapply Qcle_trans.
    { rewrite Qcmult_comm. apply Qcmult_le_compat_r; [exact Hsum|done]. }
    qcq. nra.
Qed.

Lemma Qc_le_ceiling (x : Qc) : (x <= QcZ (Qceiling x))%Qc.
Proof.
  unfold Qcle, QcZ. cbn [this Q2Qc]. rewrite Qred_correct. apply Qle_ceiling.
Qed.

Lemma Qceiling_nonneg (x : Qc) : (0 <= x)%Qc → 0 ≤ Qceiling x.
Proof.
  intros Hx. change 0 with (Qceiling 0). by apply Qceiling_resp_le.
Qed.

Lemma multiple_above (d : Qc) :
  (0 < d)%Qc → ∃ n : nat, (QcZ 99 <= QcN n * d)%Qc.
Proof.
  intros Hd. exists (Z.to_nat (Qceiling (QcZ 99 / d)%Qc)).
  replace (QcZ 99) with (QcZ 99 / d * d)%Qc at 1
    by (field; by apply Qc_pos_nonzero).
  apply Qcmult_le_compat_r; [|by apply Qclt_le_weak].
  unfold QcN. rewrite Z2Nat.id.
  - apply Qc_le_ceiling.
  - apply Qceiling_nonneg, Qcdiv_nonneg; [done|discriminate].
Qed.

Lemma power_below_floor (f : Qc) :
  (0 <= f)%Qc → (f < 1)%Qc → ∃ n : nat, (f ^ n <= qc 1 100)%Qc.
Proof.
  intros Hf0 Hf1.
  assert (Hd : (0 < 1 - f)%Qc) by (qcq; lra).
  destruct (multiple_above (1 - f) Hd) as [n Hn].
  exists n. destruct (power_decay f n Hf0 Hf1) as [Hu0 Hu].
  assert (H : (f ^ n * QcZ 100 <= f ^ n * (1 + QcN n * (1 - f)))%Qc).
  { rewrite !(Qcmult_comm (f ^ n)). apply Qcmult_le_compat_r; [|done].
    revert Hn. generalize (QcN n * (1 - f))%Qc. intros x Hx. qcq.
    change (inject_Z 99) with 99%Q in Hx. change (inject_Z 100) with 100%Q.
    lra. }
  revert Hu H. generalize (f ^ n * (1 + QcN n * (1 - f)))%Qc (f ^ n)%Qc.
  intros a u Ha H. qcq. change (inject_Z 100) with 100%Q in H. lra.
Qed.

Section LegacyDelay.
Context {ML : MathLib}.

Lemma legacy_tapBody_length (inputData : list num) (delaySamples feedback : num)
    (s : Legacy.tapState) :
  length (Legacy.tapBody inputData delaySamples feedback s).1 = length s.1.
Proof.
  destruct s as [out cf]. cbn.
  apply (for_range_inv' (λ o, length o = length out)); [done|].
  intros i o _ Ho. destruct (_ <? _)%num; [|done].
  by rewrite set_at_length.
Qed.

(** At a feedback of 1 or more the gain never falls to the floor: the tap
    loop exhausts every fuel. *)
Lemma legacy_taps_diverge (inputData : list num) (delaySamples : num)
    (f : Qc) (fuel : nat) (out : list num) (c : Qc) :
  (1 <= f)%Qc → (1 <= c)%Qc →
  while fuel Legacy.tapCond (Legacy.tapBody inputData delaySamples (Fin f))
    (out, Fin c)
  = None.
Proof.
  intros Hf. revert out c. induction fuel as [|fuel IH]; intros out c Hc;
    [done|].
  cbn [while]. unfold Legacy.tapCond at 1. cbn [snd ngt nlt nq].
  rewrite (proj2 (Qcltb_spec (qc 1 100) c)).
  - apply IH. replace 1%Qc with (1 * 1)%Qc by ring.
    eapply Qcle_trans; [apply Qcmult_le_compat_r; [exact Hc|discriminate]|].
    rewrite !(Qcmult_comm c). apply Qcmult_le_compat_r; [done|].
    eapply Qcle_trans; [|exact Hc]. discriminate.
  - eapply Qclt_le_trans; [|exact Hc]. reflexivity.
Qed.

Lemma legacy_taps_diverge_inf (inputData : list num) (delaySamples : num)
    (fuel : nat) (out : list num) :
  while fuel Legacy.tapCond (Legacy.tapBody inputData delaySamples PInf)
    (out, PInf)
  = None.
Proof.
  revert out. induction fuel as [|fuel IH]; intros out; [done|].
  cbn [while]. unfold Legacy.tapCond at 1. cbn [snd ngt nlt nq]. apply IH.
Qed.

(** The tap loop stops within [k + 1] tests once the gain times
    [feedback ^ k] is at the floor. *)
Lemma legacy_taps_stop (inputData : list num) (delaySamples : num)
    (f : Qc) (k : nat) :
  ∀ (out : list num) (c : Qc) (fuel : nat),
    (c * f ^ k <= qc 1 100)%Qc → (k < fuel)%nat →
    ∃ s, while fuel Legacy.tapCond
           (Legacy.tapBody inputData delaySamples (Fin f)) (out, Fin c)
         = Some s ∧ length s.1 = length out.
Proof.
  induction k as [|k IH]; intros out c fuel Hc Hfuel;
    (destruct fuel as [|fuel]; [lia|]); cbn [while];
    unfold Legacy.tapCond at 1; cbn [snd ngt nlt nq];
    destruct (Qcltb (qc 1 100) c) eqn:E;
    [apply Qcltb_spec in E| |apply Qcltb_spec in E|]; try by eauto.
  - exfalso. cbn [Qcpower] in Hc. rewrite Qcmult_1_r in Hc.
    by apply (Qclt_not_le _ _ E).
  - destruct (IH (Legacy.tapBody inputData delaySamples (Fin f) (out, Fin c)).1
                (c * f)%Qc fuel) as (s & Hs & Hlen); [|lia|].
    + cbn [Qcpower] in Hc. by rewrite <- Qcmult_assoc.
    + exists s. split; [exact Hs|].
      rewrite Hlen. apply legacy_tapBody_length.
Qed.

Lemma legacy_delay_out_of_fuel (fuel : nat) (buffer : AudioBuffer)
    (delayTime feedback : num) :
  wf_buffer buffer →
  (∀ inputData outputData delaySamples,
     Legacy.delayTaps fuel inputData outputData delaySamples feedback = None) →
  Legacy.processDelay fuel buffer delayTime feedback = OutOfFuel.
Proof.
  intros Hwf Hnone. pose proof Hwf as (Hn & _).
  unfold Legacy.processDelay.
  rewrite (proj1 (legacy_createBuffer buffer Hwf)).
  cbn [mbind Outcome_bind]. unfold forChannels.
  destruct (numberOfChannels buffer) as [|k]; [lia|].
  cbn [seq foldlM]. by rewrite Hnone.
Qed.

(** X22. The first version of the delay terminates exactly when the feedback
    is below 1.  At a feedback of 1 or more (infinite included) the gain of
    the taps never falls to the floor of 0.01 and the tap loop runs on,
    whatever the buffer and the delay time.  Below 1 there is a number of
    taps within which the loop stops, and the effect returns a well-formed
    buffer one second longer than its input. *)
Theorem legacy_delay_terminates_below_unit_feedback (buffer : AudioBuffer)
    (delayTime : num) (f : Qc) :
  wf_buffer buffer →
  ((1 <= f)%Qc →
   ∀ fuel, Legacy.processDelay fuel buffer delayTime (Fin f) = OutOfFuel) ∧
  (∀ fuel, Legacy.processDelay fuel buffer delayTime PInf = OutOfFuel) ∧
  ((f < 1)%Qc →
   ∃ taps, ∀ fuel, (taps < fuel)%nat →
     ok_with
       (shaped buffer
          (Z.to_nat (Z.of_nat (blength buffer)
                     + Qcfloor (sampleRate buffer))))
       (Legacy.processDelay fuel buffer delayTime (Fin f))).
Proof.
  intros Hwf. split; [|split].
  - intros Hf fuel. apply legacy_delay_out_of_fuel; [done|].
    intros d out D. by apply legacy_taps_diverge.
  - intros fuel. apply legacy_delay_out_of_fuel; [done|].
    intros d out D. apply legacy_taps_diverge_inf.
  - intros Hf.
    assert (Hk : ∃ k : nat, (f * f ^ k <= qc 1 100)%Qc).
    { destruct (Qcltb f 0) eqn:E;
        [apply Qcltb_spec in E | apply Qcltb_false in E].
      - exists O. cbn [Qcpower]. rewrite Qcmult_1_r.
        eapply Qcle_trans; [by apply Qclt_le_weak|discriminate].
      - destruct (power_below_floor f E Hf) as [n Hn]. exists n.
        eapply Qcle_trans; [|exact Hn].
        rewrite <- (Qcmult_1_l (f ^ n)) at 2.
        apply Qcmult_le_compat_r; [by apply Qclt_le_weak|].
        by apply power_decay. }
    destruct Hk as [k Hk]. exists k. intros fuel Hfuel.
    destruct (legacy_createBuffer buffer Hwf) as [Hcreate Hpos].
    unfold Legacy.processDelay. rewrite Hcreate. cbn [mbind Outcome_bind].
    apply forChannels_shaped; [done|lia|].
    intros c d Hd.
    destruct (legacy_taps_stop d
                (Math_floor (delayTime * Fin (sampleRate buffer))%num) f k
                (copied d (zeros (Z.to_nat (Z.of_nat (blength buffer)
                                            + Qcfloor (sampleRate buffer)))))
                f fuel Hk Hfuel) as (s & Hs & Hlen).
    unfold Legacy.delayTaps. fold (copied d
      (zeros (Z.to_nat (Z.of_nat (blength buffer)
                        + Qcfloor (sampleRate buffer))))).
    rewrite Hs. cbn [of_fuel mbind Outcome_bind mret Outcome_ret].
    eexists. split; [reflexivity|].
    by rewrite Hlen, copied_length, zeros_length.
Qed.

End LegacyDelay.

Lemma legacy_delay_terminates_below_unit_feedback_witness :
  wf_buffer click ∧
  ((1 <= qc 1 2)%Qc →
   ∀ fuel, Legacy.processDelay fuel click (nq 1 4) (Fin (qc 1 2)) = OutOfFuel) ∧
  (∀ fuel, Legacy.processDelay fuel click (nq 1 4) PInf = OutOfFuel) ∧
  ((qc 1 2 < 1)%Qc →
   ∃ taps, ∀ fuel, (taps < fuel)%nat →
     ok_with
       (shaped click
          (Z.to_nat (Z.of_nat (blength click) + Qcfloor (sampleRate click))))
       (Legacy.processDelay fuel click (nq 1 4) (Fin (qc 1 2)))).
Proof.
  split; [exact click_wf|].
  exact (legacy_delay_terminates_below_unit_feedback click (nq 1 4) (qc 1 2)
           click_wf).
Defined.

(** ** The waveform display *)

Lemma Qcfloor_div_nat (a b : nat) :
  (0 < b)%nat → Qcfloor (QcN a / QcN b) = Z.of_nat (a / b).
Proof.
  intros Hb.
  assert (Hb' : (0 < QcN b)%Qc) by by apply (proj2 (QcN_lt 0 b)).
  pose proof (Nat.div_mod_eq a b) as Hdiv.
  pose proof (Nat.mod_upper_bound a b ltac:(lia)) as Hmod.
  apply Qcfloor_unique.
  - replace (QcZ (Z.of_nat (a / b)))
      with (QcN (a / b) * QcN b / QcN b)%Qc
      by (unfold QcN; field; by apply Qc_pos_nonzero).
    apply Qcdiv_le_compat; [done|].
    unfold QcN. rewrite <- QcZ_mul. apply QcZ_le. nia.
  - replace (QcZ (Z.of_nat (a / b) + 1))
      with (QcZ (Z.of_nat (a / b) + 1) * QcN b / QcN b)%Qc
      by (unfold QcN; field; by apply Qc_pos_nonzero).
    apply Qcdiv_lt_compat; [done|].
    unfold QcN. rewrite <- QcZ_mul. apply QcZ_lt. nia.
Qed.

Lemma samplesPerPixel_nat (len width : nat) :
  (0 < width)%nat →
  Math_floor (nN len / nN width)%num = nN (len / width).
Proof.
  intros Hw. unfold nN at 1 2.
  rewrite ndiv_Fin by (apply QcN_pos; lia).
  cbn [Math_floor]. by rewrite Qcfloor_div_nat.
Qed.

Lemma nmul_nN (a b : nat) : (nN a * nN b)%num = nN (a * b).
Proof.
  unfold nN, QcN. cbn [nmul]. f_equal. by rewrite Nat2Z.inj_mul, QcZ_mul.
Qed.

(** The range of a pixel of finite samples: an interval around zero that
    holds every sample of the pixel, with ends that are zero or samples of
    the pixel. *)
Lemma pixelRange_spec (data : list num) (k i : nat) :
  all_finite data →
  ∃ lo hi,
    WaveformVisualizer.pixelRange data (nN k) (nN (i * k)) = (Fin lo, Fin hi) ∧
    (lo <= 0)%Qc ∧ (0 <= hi)%Qc ∧
    (∀ x, pixelSample data k i x → (lo <= x)%Qc ∧ (x <= hi)%Qc) ∧
    (lo = 0%Qc ∨ pixelSample data k i lo) ∧
    (hi = 0%Qc ∨ pixelSample data k i hi).
Proof.
  intros Hfin. unfold WaveformVisualizer.pixelRange.
  set (body := λ (j : nat) '(min, max), _).
  pose (P := λ (J : nat) (s : num * num),
    ∃ lo hi, s = (Fin lo, Fin hi) ∧ (lo <= 0)%Qc ∧ (0 <= hi)%Qc ∧
      (∀ j x, (j < J)%nat → (j < k)%nat →
              data !! (i * k + j)%nat = Some (Fin x) →
              (lo <= x)%Qc ∧ (x <= hi)%Qc) ∧
      (lo = 0%Qc ∨ ∃ j, (j < J)%nat ∧ (j < k)%nat ∧
                        data !! (i * k + j)%nat = Some (Fin lo)) ∧
      (hi = 0%Qc ∨ ∃ j, (j < J)%nat ∧ (j < k)%nat ∧
                        data !! (i * k + j)%nat = Some (Fin hi))).
  assert (H : P (length data)
                (for_range 0 (length data) body (Fin 0%Qc, Fin 0%Qc))).
  { apply (for_range_inv P); [lia| |].
    - exists 0%Qc, 0%Qc. split; [done|]. split; [apply Qcle_refl|].
      split; [apply Qcle_refl|]. split; [intros; lia|]. split; by left.
    - intros J s [_ HJ] (lo & hi & -> & Hlo & Hhi & Hall & Hmin & Hmax).
      unfold body. rewrite nadd_nN, !nlt_nN, get_at_nN.
      destruct (bool_decide (J < k)%nat) eqn:E1; cbn [andb];
        [apply bool_decide_eq_true in E1 | apply bool_decide_eq_false in E1].
      2: { exists lo, hi. split; [done|]. split; [done|]. split; [done|].
           split; [|split].
           - intros j x Hj Hjk. apply Hall; [|done].
             destruct (decide (j = J)) as [->|]; [done|lia].
           - destruct Hmin as [->|(j & Hj & Hjk & Hx)]; [by left|].
             right. exists j. split; [lia|done].
           - destruct Hmax as [->|(j & Hj & Hjk & Hx)]; [by left|].
             right. exists j. split; [lia|done]. }
      destruct (bool_decide (i * k + J < length data)%nat) eqn:E2;
        [apply bool_decide_eq_true in E2 | apply bool_decide_eq_false in E2].
      2: { exists lo, hi. split; [done|]. split; [done|]. split; [done|].
           split; [|split].
           - intros j x Hj Hjk Hx. apply (Hall j); [|done..].
             destruct (decide (j = J)) as [->|]; [|lia].
             apply lookup_lt_Some in Hx. lia.
           - destruct Hmin as [->|(j & Hj & Hjk & Hx)]; [by left|].
             right. exists j. split; [lia|done].
           - destruct Hmax as [->|(j & Hj & Hjk & Hx)]; [by left|].
             right. exists j. split; [lia|done]. }
      destruct (lookup_lt_is_Some_2 data _ E2) as [y Hy].
      destruct (all_finite_lookup _ _ _ Hfin Hy) as [x ->].
      rewrite (getn_lookup _ _ _ Hy). cbn [ngt nlt].
      exists (if Qcltb x lo then x else lo), (if Qcltb hi x then x else hi).
      split; [by do 2 destruct (Qcltb _ _)|].
      split; [qcases; qcq; lra|]. split; [qcases; qcq; lra|].
      split; [|split].
      + intros j z Hj Hjk Hz. destruct (decide (j = J)) as [->|Hne].
        * rewrite Hy in Hz. injection Hz as <-. qcases; qcq; lra.
        * destruct (Hall j z ltac:(lia) Hjk Hz) as [H1 H2].
          qcases; qcq; lra.
      + destruct (Qcltb x lo) eqn:E; [right; exists J; split; [lia|by split]|].
        destruct Hmin as [->|(j & Hj & Hjk & Hx)]; [by left|].
        right. exists j. split; [lia|done].
      + destruct (Qcltb hi x) eqn:E; [right; exists J; split; [lia|by split]|].
        destruct Hmax as [->|(j & Hj & Hjk & Hx)]; [by left|].
        right. exists j. split; [lia|done]. }
  destruct H as (lo & hi & Hs & Hlo & Hhi & Hall & Hmin & Hmax).
  exists lo, hi. split; [done|]. split; [done|]. split; [done|].
  split; [|split].
  - intros x (j & Hjk & Hx). apply (Hall j); [|done..].
    apply lookup_lt_Some in Hx. lia.
  - destruct Hmin as [->|(j & _ & Hjk & Hx)]; [by left|]. right. by exists j.
  - destruct Hmax as [->|(j & _ & Hjk & Hx)]; [by left|]. right. by exists j.
Qed.

Lemma pixel_loop (n : nat) (h : nat → num * num) :
  for_range 0 n
    (λ i waveformData,
       let '(min, max) := h i in
       WaveformVisualizer.mkWaveformData
         (<[i := min]> (WaveformVisualizer.min waveformData))
         (<[i := max]> (WaveformVisualizer.max waveformData)))
    (WaveformVisualizer.mkWaveformData (replicate n (Fin 0%Qc))
       (replicate n (Fin 0%Qc)))
  = WaveformVisualizer.mkWaveformData (map (λ i, (h i).1) (seq 0 n))
      (map (λ i, (h i).2) (seq 0 n)).
Proof.
  rewrite <- (fill_indexed (λ i, (h i).1) n (zeros n)) by apply zeros_length.
  rewrite <- (fill_indexed (λ i, (h i).2) n (zeros n)) by apply zeros_length.
  generalize n at 1 4 6. intros m.
  induction m as [|m IH]; [reflexivity|].
  rewrite !for_range_last by lia. rewrite IH.
  by destruct (h m).
Qed.

Lemma pixelRange_empty (data : list num) (startSample : num) :
  WaveformVisualizer.pixelRange data (nN 0) startSample
  = (Fin 0%Qc, Fin 0%Qc).
Proof.
  unfold WaveformVisualizer.pixelRange.
  apply (for_range_inv' (λ s, s = (Fin 0%Qc, Fin 0%Qc))); [done|].
  intros j s _ ->. rewrite nlt_nN. by rewrite bool_decide_eq_false_2 by lia.
Qed.

Lemma flat_line (data : list num) (width : nat) (p : num * num → num) :
  p (Fin 0%Qc, Fin 0%Qc) = Fin 0%Qc →
  map (λ i, p (WaveformVisualizer.pixelRange data (nN 0) (nN i * nN 0)%num))
    (seq 0 width)
  = zeros width.
Proof.
  intros Hp. apply list_eq. intros i. rewrite list_lookup_fmap.
  destruct (decide (i < width)%nat) as [Hi|Hi].
  - rewrite lookup_seq_lt, zeros_lookup by done. cbn.
    by rewrite pixelRange_empty, Hp.
  - rewrite lookup_seq_ge by lia. symmetry.
    apply lookup_ge_None_2. rewrite zeros_length. lia.
Qed.

(** X23. The waveform of a buffer of finite samples, for a canvas at least
    one pixel wide: each pixel [i] stands for the [k = floor (length / width)]
    samples from [i * k] on, and its bar runs from the smallest to the
    largest of them, zero included; the bar therefore always contains the
    centre line and every sample of the pixel, and each end is zero or a
    sample of the pixel.  A buffer shorter than the canvas is drawn as a flat
    line. *)
Theorem waveform_is_envelope (buffer : AudioBuffer) (data : list num)
    (width : nat) :
  wf_buffer buffer → channelData buffer !! O = Some data →
  all_finite data → (0 < width)%nat →
  ∃ waveformData,
    WaveformVisualizer.generateWaveformData buffer width = Ok waveformData ∧
    length (WaveformVisualizer.min waveformData) = width ∧
    length (WaveformVisualizer.max waveformData) = width ∧
    (∀ i, (i < width)%nat →
       ∃ lo hi,
         WaveformVisualizer.min waveformData !! i = Some (Fin lo) ∧
         WaveformVisualizer.max waveformData !! i = Some (Fin hi) ∧
         (lo <= 0)%Qc ∧ (0 <= hi)%Qc ∧
         (∀ x, pixelSample data (blength buffer / width) i x →
               (lo <= x)%Qc ∧ (x <= hi)%Qc) ∧
         (lo = 0%Qc ∨ pixelSample data (blength buffer / width) i lo) ∧
         (hi = 0%Qc ∨ pixelSample data (blength buffer / width) i hi)) ∧
    ((blength buffer < width)%nat →
     waveformData
     = WaveformVisualizer.mkWaveformData (zeros width) (zeros width)).
Proof.
  intros Hwf Hd Hfin Hw.
  pose proof (wf_channel _ _ _ Hwf Hd) as Hlen.
  unfold WaveformVisualizer.generateWaveformData, getChannelData.
  rewrite Hd. cbn [mbind Outcome_bind mret Outcome_ret]. cbv zeta.
  rewrite samplesPerPixel_nat by done. rewrite Hlen.
  set (k := (blength buffer / width)%nat).
  rewrite (pixel_loop width
             (λ i, WaveformVisualizer.pixelRange data (nN k) (nN i * nN k)%num)).
  eexists. split; [reflexivity|].
  cbn [WaveformVisualizer.min WaveformVisualizer.max].
  rewrite !length_map, !length_seq. split; [done|]. split; [done|]. split.
  - intros i Hi. rewrite !list_lookup_fmap, lookup_seq_lt by done.
    cbn [fmap option_fmap option_map plus]. rewrite nmul_nN.
    destruct (pixelRange_spec data k i Hfin)
      as (lo & hi & -> & Hlo & Hhi & Hall & Hmin & Hmax).
    by exists lo, hi.
  - intros Hshort. assert (k = O) as -> by by apply Nat.div_small.
    f_equal.
    + by apply (flat_line data width fst).
    + by apply (flat_line data width snd).
Qed.

Lemma waveform_is_envelope_witness :
  wf_buffer click ∧ channelData click !! O = Some (channel_of click 0) ∧
  all_finite (channel_of click 0) ∧ (0 < 2)%nat ∧
  ∃ waveformData,
    WaveformVisualizer.generateWaveformData click 2 = Ok waveformData ∧
    length (WaveformVisualizer.min waveformData) = 2%nat ∧
    length (WaveformVisualizer.max waveformData) = 2%nat ∧
    (∀ i, (i < 2)%nat →
       ∃ lo hi,
         WaveformVisualizer.min waveformData !! i = Some (Fin lo) ∧
         WaveformVisualizer.max waveformData !! i = Some (Fin hi) ∧
         (lo <= 0)%Qc ∧ (0 <= hi)%Qc ∧
         (∀ x, pixelSample (channel_of click 0) (blength click / 2) i x →
               (lo <= x)%Qc ∧ (x <= hi)%Qc) ∧
         (lo = 0%Qc ∨ pixelSample (channel_of click 0) (blength click / 2) i lo) ∧
         (hi = 0%Qc ∨ pixelSample (channel_of click 0) (blength click / 2) i hi)) ∧
    ((blength click < 2)%nat →
     waveformData
     = WaveformVisualizer.mkWaveformData (zeros 2) (zeros 2)).
Proof.
  assert (H : (0 < 2)%nat) by lia.
  split; [exact click_wf|]. split; [reflexivity|].
  split; [exact click_channel_finite|]. split; [exact H|].
  exact (waveform_is_envelope click (channel_of click 0) 2 click_wf eq_refl
           click_channel_finite H).
Defined.

(** ** Variations of finite samples are finite *)

Lemma nominal_finite (b : AudioBuffer) : nominal_buffer b → finite_buffer b.
Proof. intros H c i x Hx. by destruct (H c i x Hx) as (q & -> & _). Qed.

Lemma Math_floor_nZ (q : Qc) : Math_floor (Fin q) = nZ (Qcfloor q).
Proof. reflexivity. Qed.

Lemma Qcfloor_nonneg (q : Qc) : (0 <= q)%Qc → 0 ≤ Qcfloor q.
Proof. intros Hq. rewrite <- (Qcfloor_QcZ 0). by apply Qcfloor_mono. Qed.

Lemma nsub_nZ (a b : Z) : (nZ a - nZ b)%num = nZ (a - b).
Proof.
  unfold nZ, nsub. cbn [nneg nadd]. f_equal.
  by rewrite <- QcZ_opp, <- QcZ_add.
Qed.

Lemma nadd_nZ (a b : Z) : (nZ a + nZ b)%num = nZ (a + b).
Proof. unfold nZ. cbn [nadd]. f_equal. by rewrite <- QcZ_add. Qed.

Lemma lastIndex_nZ (d : list num) :
  MLProcessor.lastIndex d = nZ (Z.of_nat (length d) - 1).
Proof. unfold MLProcessor.lastIndex. apply nsub_nZ. Qed.

(** A read at an index clamped to the last one finds a sample. *)
Lemma clamped_read_finite (d : list num) (z : Z) :
  all_finite d → (0 < length d)%nat → 0 ≤ z →
  is_finite (get_at d (Math_min (nZ z) (MLProcessor.lastIndex d))) = true.
Proof.
  intros Hd Hlen Hz. rewrite lastIndex_nZ.
  assert (∃ w, Math_min (nZ z) (nZ (Z.of_nat (length d) - 1)) = nZ w ∧
               0 ≤ w < Z.of_nat (length d)) as (w & -> & Hw).
  { unfold Math_min. change (nZ z) with (Fin (QcZ z)) at 1.
    change (nZ (Z.of_nat (length d) - 1))
      with (Fin (QcZ (Z.of_nat (length d) - 1))) at 1.
    cbn iota. rewrite nlt_nZ. case_bool_decide; eexists; (split; [done|]); lia. }
  unfold get_at. rewrite to_index_nZ. unfold get.
  rewrite bool_decide_eq_true_2 by lia.
  apply all_finite_getn; [done|lia].
Qed.

Lemma ndiv_nonneg (a b : Qc) :
  (0 <= a)%Qc → (0 < b)%Qc →
  ∃ q, (Fin a / Fin b)%num = Fin q ∧ (0 <= q)%Qc.
Proof.
  intros Ha Hb. rewrite ndiv_Fin by by apply Qc_pos_nonzero.
  eexists. split; [reflexivity|]. by apply Qcdiv_nonneg.
Qed.

Lemma set_finite (o : list num) (i : Z) (v : num) :
  all_finite o → (0 ≤ i → is_finite v = true) → all_finite (set o i v).
Proof.
  intros Ho Hv. unfold set. case_bool_decide; [|done].
  apply all_finite_insert; auto.
Qed.

Lemma get_finite (d : list num) (i : Z) :
  all_finite d → 0 ≤ i < Z.of_nat (length d) → is_finite (get d i) = true.
Proof.
  intros Hd Hi. unfold get. rewrite bool_decide_eq_true_2 by lia.
  apply all_finite_getn; [done|lia].
Qed.

Lemma ndiv_nZ_finite (x : num) (z : Z) :
  is_finite x = true → z ≠ 0 → is_finite (x / nZ z)%num = true.
Proof.
  intros Hx Hz. apply ndiv_finite; [done|].
  intros E. apply Hz. apply QcZ_inj. by rewrite E.
Qed.

Lemma Qceiling_QcZ_id (z : Z) : Qceiling (QcZ z) = z.
Proof. erewrite Qceiling_comp by apply this_QcZ. apply Qceiling_Z. Qed.

Lemma finite_buffer_channel (b : AudioBuffer) (c : nat) (d : list num) :
  finite_buffer b → channelData b !! c = Some d → all_finite d.
Proof.
  intros Hb Hd. apply Forall_lookup. intros i x Hx. apply (Hb c i x).
  unfold sample. by rewrite Hd.
Qed.

Lemma segmentLoop_nZ (s e : Z) (n : nat) (body : Z → list num → list num)
    (outputData : list num) :
  MLProcessor.segmentLoop (nZ s) (nZ e) n body outputData
  = Some (foldl (λ outputData i, body i outputData) outputData
            (seqZ s (Z.min e (Z.of_nat n) - s))).
Proof.
  unfold MLProcessor.segmentLoop, MLProcessor.segmentRange.
  rewrite to_index_nZ. unfold nZ. by rewrite Qceiling_QcZ_id.
Qed.

Lemma foldl_invariant {A B : Type} (P : A → Prop) (Q : B → Prop)
    (f : A → B → A) (l : list B) (a : A) :
  P a → Forall Q l → (∀ a b, P a → Q b → P (f a b)) → P (foldl f a l).
Proof.
  intros Ha Hl Hf. revert a Ha.
  induction Hl as [|b l Hb Hl IH]; intros a Ha; [done|].
  cbn [foldl]. apply IH. by apply Hf.
Qed.

Section FiniteResynthesis.
Context {ML : MathLib}.

(** The envelope of a one-shot reads inside the input and divides by no
    zero. *)
Lemma processOneShot_finite (inputData outputData : list num)
    (features : MLProcessor.FeatureSet) (at_ pv dt sl rt : Qc) :
  all_finite inputData → all_finite outputData →
  (0 < length inputData)%nat → length outputData = length inputData →
  MLProcessor.attackTime features = Fin at_ →
  MLProcessor.peakValue features = Fin pv →
  MLProcessor.decayTime features = Fin dt →
  MLProcessor.sustainLevel features = Fin sl →
  MLProcessor.releaseTime features = Fin rt →
  all_finite (MLProcessor.processOneShot inputData outputData features).
Proof.
  intros Hin Hout Hlen Hlo Hat Hpv Hdt Hsl Hrt.
  unfold MLProcessor.processOneShot. cbv zeta.
  rewrite Hat, Hpv, Hdt, Hsl, Hrt.
  set (A := Qcfloor (at_ * pv * QcN (length inputData))).
  set (F := Qcfloor (dt * QcN (length inputData))).
  set (R := Qcfloor (QcN (length inputData) * qc 7 10)).
  change (Math_floor (Fin at_ * Fin pv * nN (length inputData)))%num
    with (nZ A).
  change (Math_floor (Fin dt * nN (length inputData)))%num with (nZ F).
  change (Math_floor (nN (length inputData) * nq 7 10))%num with (nZ R).
  rewrite nadd_nZ.
  assert (HF : (QcZ F <= dt * QcN (length inputData))%Qc) by apply Qcfloor_le.
  assert (HR : R < Z.of_nat (length inputData)).
  { pose proof (floorOfLength_lt (length inputData) Hlen) as H.
    unfold MLProcessor.floorOfLength in H. fold R in H.
    assert (0 ≤ R); [|lia]. apply Qcfloor_nonneg, Qcmult_nonneg; [|done].
    apply (proj2 (QcN_le 0 _)). lia. }
  refine (proj1 (for_range_inv'
            (λ o, all_finite o ∧ length o = length inputData) _ _ _ _ _ _));
    [done|].
  intros i o [_ Hi] [Ho Hol]. rewrite Hlo in Hi.
  split; [|by repeat destruct (_ <? _)%num; rewrite length_insert].
  change (nN i) with (nZ (Z.of_nat i)). rewrite !nlt_nZ.
  case_bool_decide as H1.
  { apply all_finite_insert; [done|].
    assert (HA : (0 < QcZ A)%Qc) by (apply (proj2 (QcZ_lt 0 A)); lia).
    unfold nZ at 1 2, nN. cbn [nmul].
    rewrite ndiv_Fin by by apply Qc_pos_nonzero.
    rewrite Math_floor_nZ. apply clamped_read_finite; [done..|].
    apply Qcfloor_nonneg, Qcdiv_nonneg; [done|].
    apply Qcmult_nonneg; apply (proj2 (QcZ_le 0 _)); lia. }
  case_bool_decide as H2.
  { apply all_finite_insert; [done|].
    assert (HF0 : (0 < QcZ F)%Qc) by (apply (proj2 (QcZ_lt 0 F)); lia).
    rewrite !nsub_nZ. replace (A + F - A) with F by lia.
    unfold nZ at 1 2, nN. cbn [nmul].
    rewrite ndiv_Fin by by apply Qc_pos_nonzero.
    cbn [nmul nadd]. rewrite Math_floor_nZ.
    apply clamped_read_finite; [done..|].
    apply Qcfloor_nonneg.
    replace 0%Qc with (0 + 0)%Qc by ring. apply Qcplus_le_compat.
    - apply (proj2 (QcZ_le 0 _)). lia.
    - apply Qcmult_nonneg.
      + apply Qcdiv_nonneg; [done|]. apply (proj2 (QcZ_le 0 _)). lia.
      + eapply Qcle_trans; [|exact HF]. by apply Qclt_le_weak. }
  case_bool_decide as H3.
  { apply all_finite_insert; [done|]. apply nmul_finite.
    - apply all_finite_getn; [done|lia].
    - apply ndiv_finite; [done|discriminate]. }
  apply all_finite_insert; [done|]. apply nmul_finite.
  - apply all_finite_getn; [done|lia].
  - apply Math_max_finite; [done|]. apply nsub_finite; [done|].
    apply nmul_finite; [|apply ndiv_finite; [done|discriminate]].
    rewrite Hol. change (nN (length inputData))
      with (nZ (Z.of_nat (length inputData))).
    rewrite !nsub_nZ. apply ndiv_finite; [done|].
    apply Qc_pos_nonzero, (proj2 (QcZ_lt 0 _)). lia.
Qed.

(** The envelope of one segment of a loop scales samples in place and
    divides by no zero. *)
Lemma processSegment_finite (inputData outputData : list num)
    (features : MLProcessor.FeatureSet) (s e : Z) (at_ dt sl rt : Qc) :
  all_finite inputData → all_finite outputData →
  length outputData = length inputData →
  MLProcessor.attackTime features = Fin at_ →
  MLProcessor.decayTime features = Fin dt →
  MLProcessor.sustainLevel features = Fin sl →
  MLProcessor.releaseTime features = Fin rt →
  ∃ x, MLProcessor.processSegment inputData features (nZ s) (nZ e) outputData
       = Some x ∧ all_finite x ∧ length x = length outputData.
Proof.
  intros Hin Hout Hlo Hat Hdt Hsl Hrt.
  unfold MLProcessor.processSegment. cbv zeta.
  rewrite Hat, Hdt, Hsl, Hrt, nsub_nZ.
  destruct (_ <? _)%num; [by eauto|].
  set (Fa := Qcfloor (QcZ (e - s) * qc 1 10 * at_ / qc 1 100)).
  set (Fd := Qcfloor (QcZ (e - s) * qc 3 10)).
  set (Fr := Qcfloor (QcZ (e - s) * qc 7 10)).
  change (Math_floor (nZ (e - s) * nq 1 10 * Fin at_ / nq 1 100))%num
    with (nZ Fa).
  change (Math_floor (nZ (e - s) * nq 3 10))%num with (nZ Fd).
  change (Math_floor (nZ (e - s) * nq 7 10))%num with (nZ Fr).
  rewrite !nadd_nZ.
  rewrite segmentLoop_nZ. eexists. split; [reflexivity|].
  set (stop := Z.min e (Z.of_nat (length outputData))).
  apply (foldl_invariant (λ o, all_finite o ∧ length o = length outputData)
           (λ i, s ≤ i < stop)); [done| |].
  { apply Forall_forall. intros i Hi%list_elem_of_In%elem_of_seqZ. lia. }
  intros o i [Ho Hol] Hi. cbv beta.
  rewrite !nlt_nZ, !nsub_nZ. unfold stop in Hi.
  split; [|by repeat case_bool_decide; rewrite set_length].
  case_bool_decide as H1.
  { apply set_finite; [done|]. intros Hi0.
    apply nmul_finite; [apply get_finite; [done|lia]|].
    apply nmul_finite.
    - apply ndiv_nZ_finite; [done|lia].
    - apply nsub_finite; [done|]. apply ndiv_finite; [done|discriminate]. }
  case_bool_decide as H2.
  { apply set_finite; [done|]. intros Hi0.
    apply nmul_finite; [apply get_finite; [done|lia]|].
    apply nsub_finite; [done|]. apply nmul_finite.
    - apply nmul_finite; [apply ndiv_nZ_finite; [done|lia]|].
      apply nsub_finite; [done|]. apply ndiv_finite; [done|discriminate].
    - apply ndiv_finite; [done|discriminate]. }
  case_bool_decide as H3.
  { apply set_finite; [done|]. intros Hi0.
    apply nmul_finite; [apply get_finite; [done|lia]|].
    apply ndiv_finite; [done|discriminate]. }
  apply set_finite; [done|]. intros Hi0.
  apply nmul_finite; [apply get_finite; [done|lia]|].
  apply Math_max_finite; [done|]. apply nmul_finite.
  - apply ndiv_finite; [done|discriminate].
  - apply nsub_finite; [done|]. apply nmul_finite.
    + apply ndiv_nZ_finite; [done|lia].
    + apply ndiv_finite; [done|discriminate].
Qed.

(** The envelope of a loop: a copy of the input, then one pass per peak. *)
Lemma processLoopAudio_finite (inputData outputData : list num)
    (features : MLProcessor.FeatureSet) (at_ dt sl rt : Qc) :
  all_finite inputData → all_finite outputData →
  length outputData = length inputData →
  MLProcessor.attackTime features = Fin at_ →
  MLProcessor.decayTime features = Fin dt →
  MLProcessor.sustainLevel features = Fin sl →
  MLProcessor.releaseTime features = Fin rt →
  Forall (λ p, ∃ j, MLProcessor.index p = nZ j)
    (MLProcessor.significantPeaks features) →
  ∃ x, MLProcessor.processLoopAudio inputData outputData features = Some x ∧
       all_finite x ∧ length x = length inputData.
Proof.
  intros Hin Hout Hlo Hat Hdt Hsl Hrt Hpeaks.
  unfold MLProcessor.processLoopAudio. cbv zeta.
  set (out := for_range _ _ _ _).
  assert (Hcopy : all_finite out ∧ length out = length inputData).
  { apply (for_range_inv'
             (λ o, all_finite o ∧ length o = length inputData)); [done|].
    intros i o Hi [Ho Hol]. split; [|by rewrite length_insert].
    apply all_finite_insert; [done|]. apply all_finite_getn; [done|lia]. }
  case_bool_decide; [|by eauto].
  apply (foldlM_option_inv
           (λ o, all_finite o ∧ length o = length inputData)); [done|].
  intros o p Hp%elem_of_seq [Ho Hol].
  destruct (lookup_lt_is_Some_2 (MLProcessor.significantPeaks features) p)
    as [pk Hpk]; [lia|].
  rewrite Hpk. cbn [from_option].
  destruct (Forall_lookup_1 _ _ _ _ Hpeaks Hpk) as [j ->].
  assert (∃ j', from_option MLProcessor.index (nN (length inputData))
                  (MLProcessor.significantPeaks features !! S p) = nZ j')
    as [j' ->].
  { destruct (_ !! S p) as [pk'|] eqn:Hpk'; cbn [from_option].
    - exact (Forall_lookup_1 _ _ _ _ Hpeaks Hpk').
    - by exists (Z.of_nat (length inputData)). }
  destruct (processSegment_finite inputData o features j j' at_ dt sl rt)
    as (x & Hx & Hfin & Hxl); try done.
  exists x. split; [done|]. split; [done|]. by rewrite Hxl.
Qed.

(** The volume ratio of the post-processing is a number as soon as the
    energy is not negative. *)
Lemma energyRatio_finite (features : MLProcessor.FeatureSet) (e : Qc) :
  MLProcessor.energy features = Fin e → (0 <= e)%Qc →
  is_finite (MLProcessor.energyRatio features) = true.
Proof.
  intros He He0. unfold MLProcessor.energyRatio. rewrite He.
  assert (∃ d, (if (Fin e >? Fin 0%Qc)%num then Fin e else nq 1 10000)
               = Fin d ∧ (0 < d)%Qc) as (d & -> & Hd).
  { destruct (Fin e >? Fin 0%Qc)%num eqn:E.
    - exists e. split; [done|]. by apply Qcltb_spec in E.
    - by exists (qc 1 10000). }
  destruct (ndiv_nonneg e d He0 Hd) as (q & -> & Hq).
  unfold Math_sqrt. by rewrite (proj2 (Qcltb_false q 0)).
Qed.

Lemma spectralRatio_finite (features : MLProcessor.FeatureSet) (c : Qc) :
  MLProcessor.spectralCentroid features = Fin c →
  is_finite (MLProcessor.spectralRatio features) = true.
Proof.
  intros Hc. unfold MLProcessor.spectralRatio. rewrite Hc.
  destruct (Fin c >? Fin 0%Qc)%num eqn:E;
    (apply ndiv_finite; [done|]); [|discriminate].
  apply Qcltb_spec in E. by apply Qc_pos_nonzero.
Qed.

Lemma applySpectralAdjustment_finite (data : list num) (ratio : num) :
  all_finite data → is_finite ratio = true →
  all_finite (MLProcessor.applySpectralAdjustment data ratio).
Proof.
  intros Hd Hr. unfold MLProcessor.applySpectralAdjustment.
  destruct (ratio >? nZ 1)%num.
  { refine (proj1 (for_range_inv'
                     (λ o, all_finite o ∧ length o = length data) _ _ _ _ _ _));
      [done|].
    intros i o Hi [Ho Hol]. split; [|by rewrite length_insert].
    apply all_finite_insert; [done|].
    assert (is_finite (getn o i) = true) by (apply all_finite_getn; [done|lia]).
    apply nadd_finite; [done|]. apply nmul_finite; [|done].
    apply nmul_finite; [|by apply nsub_finite].
    apply nsub_finite; [done|]. apply all_finite_getn; [done|lia]. }
  destruct (ratio <? nZ 1)%num; [|done].
  destruct (decide (length data ≤ 1)%nat) as [Hshort|Hlong].
  { by rewrite for_range_nil by lia. }
  refine (proj1 (proj2 (for_range_inv'
            (λ s, is_finite s.1 = true ∧ all_finite s.2 ∧
                  length s.2 = length data) _ _ _ _ _ _))).
  { cbn [fst snd]. split; [|done]. apply all_finite_getn; [done|lia]. }
  intros i [prev o] Hi (Hprev & Ho & Hol). cbn [fst snd] in *.
  assert (is_finite (getn o i * ratio + prev * (nZ 1 - ratio))%num = true).
  { apply nadd_finite; apply nmul_finite; try done.
    - apply all_finite_getn; [done|lia].
    - by apply nsub_finite. }
  split; [done|]. split; [|by rewrite length_insert].
  by apply all_finite_insert.
Qed.

Lemma postProcess_finite (features : MLProcessor.FeatureSet)
    (outputData : list num) (e c : Qc) :
  all_finite outputData →
  MLProcessor.energy features = Fin e → (0 <= e)%Qc →
  MLProcessor.spectralCentroid features = Fin c →
  all_finite (MLProcessor.postProcess features outputData).
Proof.
  intros Ho He He0 Hc. unfold MLProcessor.postProcess. cbv zeta.
  apply applySpectralAdjustment_finite; [|by eapply spectralRatio_finite].
  refine (proj1 (for_range_inv'
            (λ o, all_finite o ∧ length o = length outputData) _ _ _ _ _ _));
    [done|].
  intros i o Hi [Hfin Hol]. split; [|by rewrite length_insert].
  apply all_finite_insert; [done|]. apply nmul_finite.
  - apply all_finite_getn; [done|lia].
  - by eapply energyRatio_finite.
Qed.

End FiniteResynthesis.

(** ** From the sample to its variation *)

Lemma is_finite_Fin (x : num) : is_finite x = true → ∃ q, x = Fin q.
Proof. destruct x; try done. eauto. Qed.

Lemma within_finite (d : Qc) (x x' : num) :
  is_finite x = true → within d x x' → is_finite x' = true.
Proof.
  intros [q ->]%is_finite_Fin H. by destruct (H q eq_refl) as (q' & -> & _).
Qed.

Lemma within_nonneg (d q : Qc) (x' : num) :
  (0 <= q)%Qc → (d <= 1)%Qc → within d (Fin q) x' →
  ∃ q', x' = Fin q' ∧ (0 <= q')%Qc.
Proof.
  intros Hq Hd H. destruct (H q eq_refl) as (q' & -> & Hq').
  exists q'. split; [done|].
  assert (Hdq : (d * q <= q)%Qc).
  { rewrite <- (Qcmult_1_l q) at 2. by apply Qcmult_le_compat_r. }
  unfold Qcabs in Hq'. rewrite (proj2 (Qcltb_false q 0)) in Hq' by done.
  revert Hq' Hdq. generalize (d * q)%Qc. intros u.
  qcases; intros; qcq; lra.
Qed.

Lemma unit_ok_impl {A : Type} (P Q : A → Prop) (m : Rand A) :
  unit_ok P m → (∀ a, P a → Q a) → unit_ok Q m.
Proof.
  intros Hm HPQ r Hr. destruct (Hm r Hr) as (a & r' & Hma & Hr' & Ha).
  exists a, r'. auto.
Qed.

Lemma unit_ok_pure {A : Type} (P : A → Prop) (o : Outcome A) :
  ok_with P o → unit_ok P (pure_of o).
Proof. intros (a & -> & Ha) r Hr. by exists a, r. Qed.

Lemma finite_buffer_channels (rate : Qc) (len : nat) (cs : list (list num)) :
  Forall all_finite cs → finite_buffer (mkBuffer rate len cs).
Proof.
  intros Hcs c i x. unfold sample. cbn.
  destruct (cs !! c) as [d|] eqn:Hd; cbn; [|done].
  intros Hx. pose proof (Forall_lookup_1 _ _ _ _ Hcs Hd) as Hfin.
  exact (Forall_lookup_1 _ _ _ _ Hfin Hx).
Qed.

(** The channel loop over a freshly allocated buffer, when the body returns
    as many samples as it was given, all of them finite. *)
Lemma forChannels_finite (buffer : AudioBuffer) (len : nat)
    (body : nat → list num → list num → Outcome (list num)) :
  wf_buffer buffer → (0 < len)%nat →
  (∀ c d, channelData buffer !! c = Some d →
     ∃ x, body c d (zeros len) = Ok x ∧ length x = len ∧ all_finite x) →
  ok_with (finite_shaped buffer len)
    (forChannels buffer
       (mkBuffer (sampleRate buffer) len
          (replicate (numberOfChannels buffer) (zeros len))) body).
Proof.
  intros Hwf Hlen Hbody. pose proof Hwf as (Hn & Hl & Hr & Hall).
  set (f := λ c d, match body c d (zeros len) with Ok x => x | _ => [] end).
  eexists. split.
  - apply (forChannels_fresh _ _ _ f). intros c d Hd.
    destruct (Hbody c d Hd) as (x & Hx & _). unfold f. by rewrite Hx.
  - split.
    + repeat split; cbn; try done.
      * unfold numberOfChannels in *. cbn. by rewrite length_imap.
      * apply Forall_lookup. intros c x. rewrite list_lookup_imap.
        destruct (channelData buffer !! c) as [d|] eqn:Hd; cbn; [|done].
        intros [= <-]. destruct (Hbody c d Hd) as (x & Hx & Hxl & _).
        unfold f. by rewrite Hx.
      * unfold numberOfChannels. cbn. by rewrite length_imap.
    + apply finite_buffer_channels, Forall_lookup. intros c x.
      rewrite list_lookup_imap.
      destruct (channelData buffer !! c) as [d|] eqn:Hd; cbn; [|done].
      intros [= <-]. destruct (Hbody c d Hd) as (x & Hx & _ & Hfin).
      unfold f. by rewrite Hx.
Qed.

Section FiniteVariation.
Context {ML : MathLib}.

Lemma extractFeatures_finite (fuel : nat) (buffer : AudioBuffer) :
  wf_buffer buffer → (blength buffer < fuel)%nat → finite_buffer buffer →
  ok_with finite_features (MLProcessor.extractFeatures fuel buffer).
Proof.
  intros Hwf Hfuel Hfb.
  destruct (getChannelData_wf buffer Hwf) as (data & _ & Hd & Hlen).
  pose proof (finite_buffer_channel _ _ _ Hfb Hd) as Hfin.
  destruct (extractFeatures_eq fuel buffer data Hwf Hfuel Hd)
    as (peaks & Hp & ->).
  pose proof Hwf as (_ & Hpos & [Hrate _]%supportedRate_bounds & _).
  assert (Hr : (0 < sampleRate buffer)%Qc).
  { eapply Qclt_le_trans; [|exact Hrate]. reflexivity. }
  pose proof (Qc_pos_nonzero _ Hr) as Hr0.
  rewrite <- Hlen in Hpos.
  destruct (findMainPeak_spec data Hfin) as (v & Hv & Hv0 & Hub & _).
  destruct (energyOf_bounds data v Hfin Hpos Hub) as (e & He & He0 & _).
  assert (Hn : (0 < QcN (length data))%Qc) by by apply (proj2 (QcN_lt 0 _)).
  eexists. split; [reflexivity|]. cbv zeta. unfold finite_features.
  cbn [MLProcessor.attackTime MLProcessor.decayTime MLProcessor.sustainLevel
       MLProcessor.releaseTime MLProcessor.energy MLProcessor.spectralCentroid
       MLProcessor.peakValue MLProcessor.significantPeaks].
  split; [apply ndiv_finite; [reflexivity|done]|].
  split; [apply ndiv_finite; [reflexivity|done]|].
  split.
  { destruct (sustainLevelOf_bounds data
                (MLProcessor.findDecayIndex data
                   (MLProcessor.findMainPeak data).1
                   (MLProcessor.findMainPeak data).2) v Hfin Hpos Hv0 Hub)
      as (sl & -> & _). done. }
  split; [apply ndiv_finite; [reflexivity|done]|].
  split.
  { apply ndiv_finite; [|done]. apply nmul_finite; [|reflexivity].
    apply ndiv_finite; [reflexivity|]. by apply Qc_pos_nonzero. }
  split; [by rewrite Hv|]. split; [by exists e|].
  pose proof (rate_nonneg buffer Hwf) as Hrn.
  destruct (scan_spec fuel data (sampleRate buffer) peaks Hrn Hp) as [_ Hall].
  eapply List.Forall_impl; [|exact Hall]. cbn beta.
  intros p (j & _ & Hidx & _). by exists j.
Qed.

Lemma mutated_peaks_frames (a : Qc) (ps ps' : list MLProcessor.Peak) :
  Forall (λ p, ∃ j, MLProcessor.index p = nZ j) ps →
  Forall2 (mutated_peak a) ps ps' →
  Forall (λ p, ∃ j, MLProcessor.index p = nZ j) ps'.
Proof.
  intros Hps H. induction H as [|p p' ps ps' (_ & _ & Hidx) _ IH];
    [constructor|].
  inversion_clear Hps as [|? ? [j Hj] Hps']. constructor; [|by apply IH].
  destruct (Hidx j Hj) as (j' & Hj' & _). by exists j'.
Qed.

Lemma modifyFeatures_finite (features : MLProcessor.FeatureSet) (a : Qc)
    (options : MLProcessor.Options) (isLoop : bool) :
  (0 <= a)%Qc → (a <= qc 5 2)%Qc → finite_features features →
  unit_ok finite_features
    (MLProcessor.modifyFeatures features (Fin a) options isLoop).
Proof.
  intros Ha Ha' (Hat & Hdt & Hsl & Hrt & Hsc & Hpv & (e & He & He0) & Hps).
  eapply unit_ok_impl; [by apply modifyFeatures_within|].
  intros f' (Epv & _ & _ & _ & _ & Wat & Wdt & Wsl & Wrt & Wsc & Wen & Wps).
  split; [exact (within_finite _ _ _ Hat Wat)|].
  split; [exact (within_finite _ _ _ Hdt Wdt)|].
  split; [exact (within_finite _ _ _ Hsl Wsl)|].
  split; [exact (within_finite _ _ _ Hrt Wrt)|].
  split; [exact (within_finite _ _ _ Hsc Wsc)|]. split; [by rewrite Epv|].
  split.
  - rewrite He in Wen. eapply within_nonneg; [done| |exact Wen].
    destruct isLoop; revert Ha Ha'; intros; qcq; lra.
  - destruct isLoop; [by eapply mutated_peaks_frames|by rewrite Wps].
Qed.

Lemma synthesizeAudio_finite (buffer : AudioBuffer)
    (features : MLProcessor.FeatureSet) (isLoop : bool) :
  wf_buffer buffer → finite_buffer buffer → finite_features features →
  ok_with (finite_shaped buffer (blength buffer))
    (MLProcessor.synthesizeAudio buffer features isLoop).
Proof.
  intros Hwf Hfb
    ([at_ Hat]%is_finite_Fin & [dt Hdt]%is_finite_Fin & [sl Hsl]%is_finite_Fin
     & [rt Hrt]%is_finite_Fin & [sc Hsc]%is_finite_Fin & [pv Hpv]%is_finite_Fin
     & (e & He & He0) & Hps).
  pose proof Hwf as (Hn & Hl & Hr & Hall).
  unfold MLProcessor.synthesizeAudio.
  rewrite createBuffer_ok by done. cbn [mbind Outcome_bind].
  apply forChannels_finite; [done..|].
  intros c d Hd. pose proof (finite_buffer_channel _ _ _ Hfb Hd) as Hfin.
  pose proof (wf_channel _ _ _ Hwf Hd) as Hlen.
  pose proof (all_finite_zeros (blength buffer)) as Hz.
  pose proof (zeros_length (blength buffer)) as Hzl.
  destruct isLoop.
  - destruct (processLoopAudio_finite d (zeros (blength buffer)) features
                at_ dt sl rt) as (x & Hx & Hxf & Hxl); try done; [congruence|].
    rewrite Hx. cbn. eexists. split; [reflexivity|].
    split; [by rewrite postProcess_length, Hxl|].
    by eapply postProcess_finite.
  - cbn. eexists. split; [reflexivity|].
    split; [by rewrite postProcess_length, processOneShot_length|].
    eapply postProcess_finite; try done.
    eapply processOneShot_finite; try done; [lia|congruence].
Qed.

Lemma generateVariation_finite (fuel : nat) (buffer : AudioBuffer) (a : Qc)
    (options : MLProcessor.Options) :
  wf_buffer buffer → (blength buffer < fuel)%nat → finite_buffer buffer →
  (0 <= a)%Qc → (a <= qc 5 2)%Qc →
  unit_ok (finite_shaped buffer (blength buffer))
    (MLProcessor.generateVariation fuel buffer (Fin a) options).
Proof.
  intros Hwf Hfuel Hfb Ha Ha'. unfold MLProcessor.generateVariation.
  eapply unit_ok_bind;
    [apply unit_ok_pure; by apply extractFeatures_finite|].
  intros f Hf. cbv zeta.
  eapply unit_ok_bind; [by apply modifyFeatures_finite|].
  intros f' Hf'. apply unit_ok_pure. by apply synthesizeAudio_finite.
Qed.

(** X24. A variation of a sample in the nominal range [[-1, 1]] holds no
    [NaN] and no infinite value.  For every amount [a >= 0] that is below
    5/3, or below 5/6 when the focus is the tone (the hook asks for at most
    0.9, and 0.8 with the tone in focus), every focus and every run of
    [Math.random], [generateVariation] returns a buffer of the sample's
    length, rate and channel count whose every sample is a finite number: no
    envelope phase divides by zero or reads outside the input, and the
    mutated energy never turns negative under the square root.  The bound on
    the amount is the one that keeps the mutated centroid from turning
    negative as well. *)
Theorem variation_of_finite_is_finite (fuel : nat) (buffer : AudioBuffer)
    (a : Qc) (options : MLProcessor.Options) (r : rng) :
  wf_buffer buffer → (blength buffer < fuel)%nat → nominal_buffer buffer →
  (0 <= a)%Qc → (a * focusWeight options MLProcessor.tone < qc 5 3)%Qc →
  unit_draws r →
  ∃ out r',
    MLProcessor.generateVariation fuel buffer (Fin a) options r
    = Ok (out, r') ∧
    shaped buffer (blength buffer) out ∧ finite_buffer out.
Proof.
  intros Hwf Hfuel Hnom Ha Ha' Hr.
  pose proof (nominal_finite buffer Hnom) as Hfb.
  assert (Ha2 : (a <= qc 5 2)%Qc).
  { revert Ha Ha'. unfold focusWeight. destruct (bool_decide _);
      intros; qcq; unfold inject_Z in *; lra. }
  destruct (generateVariation_finite fuel buffer a options Hwf Hfuel Hfb
              Ha Ha2 r Hr) as (out & r' & Hout & _ & Hshape & Hfin).
  eauto.
Qed.

End FiniteVariation.

Lemma variation_of_finite_is_finite_witness :
  wf_buffer click ∧ (blength click < 5)%nat ∧ nominal_buffer click ∧
  (0 <= qc 4 5)%Qc ∧
  (qc 4 5 * focusWeight (MLProcessor.mkOptions (Some MLProcessor.tone))
              MLProcessor.tone < qc 5 3)%Qc ∧
  unit_draws harmonic ∧
  ∃ out r',
    MLProcessor.generateVariation 5 click (Fin (qc 4 5))
      (MLProcessor.mkOptions (Some MLProcessor.tone)) harmonic
    = Ok (out, r') ∧
    shaped click (blength click) out ∧ finite_buffer out.
Proof.
  assert (H0 : (blength click < 5)%nat) by (cbn; lia).
  assert (H1 : (0 <= qc 4 5)%Qc) by (vm_compute; discriminate).
  assert (H2 : (qc 4 5 * focusWeight
                           (MLProcessor.mkOptions (Some MLProcessor.tone))
                           MLProcessor.tone < qc 5 3)%Qc)
    by (vm_compute; reflexivity).
  split; [exact click_wf|]. split; [exact H0|].
  split; [exact click_in_unit|].
  split; [exact H1|]. split; [exact H2|]. split; [exact harmonic_unit|].
  exact (variation_of_finite_is_finite 5 click (qc 4 5)
           (MLProcessor.mkOptions (Some MLProcessor.tone)) harmonic
           click_wf H0 click_in_unit H1 H2 harmonic_unit).
Defined.

(** ** The effects keep samples finite *)

Lemma finite_map_channels (buffer : AudioBuffer) (n : nat)
    (h : list num → list num) :
  finite_buffer buffer → (∀ d, all_finite d → all_finite (h d)) →
  finite_buffer (mkBuffer (sampleRate buffer) n (map h (channelData buffer))).
Proof.
  intros Hfb Hh. apply finite_buffer_channels, Forall_fmap, Forall_lookup.
  intros c d Hd. apply Hh. by eapply finite_buffer_channel.
Qed.

Lemma ok_finite_shaped (b : AudioBuffer) (n : nat) (o : Outcome AudioBuffer) :
  ok_with (shaped b n) o → (∀ out, o = Ok out → finite_buffer out) →
  ok_with (finite_shaped b n) o.
Proof.
  intros (out & -> & Hs) Hfin. exists out. split; [done|].
  split; [done|]. by apply Hfin.
Qed.

Lemma all_finite_map (h : num → num) (d : list num) :
  all_finite d → (∀ q, is_finite (h (Fin q)) = true) → all_finite (map h d).
Proof.
  intros Hd Hh. apply Forall_fmap. eapply List.Forall_impl; [|exact Hd].
  cbn beta. intros x [q ->]%is_finite_Fin. apply Hh.
Qed.

Lemma copied_finite (inputData outputData : list num) :
  all_finite inputData → all_finite outputData →
  all_finite (copied inputData outputData).
Proof.
  intros Hin Hout. unfold copied.
  apply (for_range_inv' all_finite); [done|].
  intros i o Hi Ho. apply all_finite_insert; [done|].
  apply all_finite_getn; [done|lia].
Qed.

Lemma unit_ok_pure_bind {A B : Type} (Q : B → Prop) (a : A) (f : A → Rand B) :
  unit_ok Q (f a) → unit_ok Q (pure_of (Ok a) ≫= f).
Proof. intros H r. exact (H r). Qed.

Lemma Math_random_unit : unit_ok (λ x, is_finite x = true) Math_random.
Proof.
  intros r Hr. eexists _, _. split; [reflexivity|].
  split; [by apply unit_draws_tail|reflexivity].
Qed.

Lemma foldlM_unit_inv {S A : Type} (P : S → Prop) (f : S → A → Rand S)
    (l : list A) (s : S) :
  P s → (∀ s a, a ∈ l → P s → unit_ok P (f s a)) →
  unit_ok P (foldlM f s l).
Proof.
  revert s. induction l as [|a l IH]; intros s Hs Hf.
  - by apply unit_ok_ret.
  - cbn. eapply unit_ok_bind.
    + apply Hf; [left|done].
    + intros s' Hs'. apply IH; [done|].
      intros s'' b Hb. apply Hf. by right.
Qed.

Section FiniteEffects.
Context {ML : MathLib}.

(** Between -1075 and 1024 bits, both excluded, the number of steps is
    neither zero nor infinite. *)
Lemma processBitCrush_finite (buffer : AudioBuffer) (bits : Qc) :
  wf_buffer buffer → finite_buffer buffer →
  Qcleb (QcZ 1024) bits = false → Qcleb bits (QcZ (-1075)) = false →
  ok_with (finite_shaped buffer (blength buffer))
    (AudioProcessor.processBitCrush buffer (Fin bits)).
Proof.
  intros Hwf Hfb Hhi Hlo.
  apply ok_finite_shaped; [by apply processBitCrush_shaped|].
  rewrite processBitCrush_spec by done. intros out [= <-].
  apply finite_map_channels; [done|]. intros d Hd.
  apply all_finite_map; [done|]. intros q. cbn [Math_pow2].
  rewrite Hhi, Hlo.
  rewrite crush_finite; [done|]. apply Qc_pos_nonzero, exp2_q_pos.
Qed.

Lemma processDistortion_finite (buffer : AudioBuffer) (amount : Qc) :
  wf_buffer buffer → finite_buffer buffer →
  ok_with (finite_shaped buffer (blength buffer))
    (AudioProcessor.processDistortion buffer (Fin amount)).
Proof.
  intros Hwf Hfb. apply ok_finite_shaped; [by apply processDistortion_shaped|].
  rewrite processDistortion_spec by done. intros out [= <-].
  apply finite_map_channels; [done|]. intros d Hd.
  by apply all_finite_map.
Qed.

Lemma resampled_finite (d : list num) (s : Qc) (n : nat) :
  all_finite d →
  all_finite (resampled (AudioProcessor.pitchRatio (Fin s)) n d).
Proof.
  intros Hd. unfold resampled.
  apply Forall_fmap, Forall_forall. intros i _. unfold compose.
  destruct (pitchRatio_cases s) as [->|(ratio & -> & Hratio)];
    [by rewrite resample_PInf|].
  rewrite resample_finite. cbv zeta.
  assert (Hf : 0 ≤ Qcfloor (QcN i * ratio)).
  { apply Qcfloor_nonneg, Qcmult_nonneg; [|done].
    apply (proj2 (QcN_le 0 _)). lia. }
  case_bool_decide.
  { cbn [default from_option id].
    apply nadd_finite; apply nmul_finite; try done;
      apply get_finite; try done; lia. }
  case_bool_decide; cbn [default from_option id]; [|done].
  apply get_finite; [done|lia].
Qed.

Lemma processPitchShift_finite (buffer : AudioBuffer) (semitones : Qc) :
  wf_buffer buffer → finite_buffer buffer →
  ok_with (finite_shaped buffer (blength buffer))
    (AudioProcessor.processPitchShift buffer (Fin semitones)).
Proof.
  intros Hwf Hfb. apply ok_finite_shaped; [by apply processPitchShift_shaped|].
  rewrite processPitchShift_spec by done. intros out [= <-].
  apply finite_map_channels; [done|]. intros d Hd.
  by apply resampled_finite.
Qed.

Lemma processTransientEnhancement_finite (buffer : AudioBuffer)
    (attackGain sustainGain : Qc) :
  wf_buffer buffer → finite_buffer buffer →
  ok_with (finite_shaped buffer (blength buffer))
    (AudioProcessor.processTransientEnhancement buffer
       (Fin attackGain) (Fin sustainGain)).
Proof.
  intros Hwf Hfb. pose proof Hwf as (Hn & Hl & Hr & Hall).
  unfold AudioProcessor.processTransientEnhancement.
  rewrite createBuffer_ok by done. cbn [mbind Outcome_bind].
  apply forChannels_finite; [done..|].
  intros c d Hd. pose proof (finite_buffer_channel _ _ _ Hfb Hd) as Hfin.
  eexists. split; [reflexivity|].
  apply (for_range_inv'
           (λ s : num * list num,
              length s.2 = blength buffer ∧ all_finite s.2)).
  - split; [apply zeros_length|apply all_finite_zeros].
  - intros i [e o] Hi [Ho Hof]. cbn in *. split; [by rewrite length_insert|].
    apply all_finite_insert; [done|]. apply nmul_finite.
    + apply all_finite_getn; [done|lia].
    + by destruct (_ >? _)%num.
Qed.

Lemma tapBody_finite (inputData : list num) (D : Z) (feedback : num)
    (out : list num) (cf : Qc) (n : nat) :
  all_finite inputData → all_finite out →
  all_finite
    (AudioProcessor.tapBody inputData (nZ D) feedback (out, Fin cf, n)).1.1.
Proof.
  intros Hin Hout. unfold AudioProcessor.tapBody. cbn [fst snd].
  apply (for_range_inv' all_finite); [done|].
  intros i o Hi Ho.
  change (nN i) with (nZ (Z.of_nat i)).
  change (nN (length o)) with (nZ (Z.of_nat (length o))).
  rewrite nadd_nZ, nlt_nZ. case_bool_decide; [|done].
  unfold set_at, get_at. rewrite to_index_nZ.
  apply set_finite; [done|]. intros Hpos.
  apply nadd_finite; [apply get_finite; [done|lia]|].
  apply nmul_finite; [|done]. apply all_finite_getn; [done|lia].
Qed.

Lemma delayTaps_finite (fuel : nat) (buffer : AudioBuffer)
    (inputData outputData : list num) (D : Z) (feedback : Qc)
    (s : AudioProcessor.tapState) :
  all_finite inputData → all_finite outputData →
  AudioProcessor.delayTaps fuel buffer inputData outputData (nZ D)
    (Fin feedback) = Some s →
  all_finite s.1.1.
Proof.
  intros Hin Hout H. unfold AudioProcessor.delayTaps in H.
  refine (proj1 (while_inv
    (λ s : AudioProcessor.tapState,
       all_finite s.1.1 ∧ is_finite s.1.2 = true) _ _ _ _ _ H _ _)).
  - done.
  - intros [[o cf] k] _ [Ho [q Hq]%is_finite_Fin]. cbn [fst snd] in *.
    subst cf. split; [by apply tapBody_finite|]. reflexivity.
Qed.

Lemma processDelay_finite (fuel : nat) (buffer : AudioBuffer)
    (delayTime feedback : Qc) :
  wf_buffer buffer → (10 < fuel)%nat → finite_buffer buffer →
  ok_with (finite_shaped buffer (extended buffer))
    (AudioProcessor.processDelay fuel buffer (Fin delayTime) (Fin feedback)).
Proof.
  intros Hwf Hfuel Hfb.
  apply ok_finite_shaped; [by apply processDelay_shaped|].
  rewrite processDelay_spec by done. cbv zeta. intros out [= <-].
  pose proof (extended_pos buffer Hwf) as Hext.
  apply finite_map_channels; [done|]. intros d Hd.
  change (Math_floor (Fin delayTime * Fin (sampleRate buffer)))%num
    with (nZ (Qcfloor (delayTime * sampleRate buffer))).
  destruct (AudioProcessor.delayTaps _ _ _ _ _ _) as [s|] eqn:E;
    cbn [from_option]; [|constructor].
  eapply delayTaps_finite; [exact Hd| |exact E].
  apply copied_finite; [done|apply all_finite_zeros].
Qed.

Lemma fillImpulse_unit (L : Z) (rate : Qc) :
  0 < L →
  unit_ok (impulse_ok (Z.to_nat L))
    (AudioProcessor.fillImpulse
       (mkBuffer rate (Z.to_nat L) (replicate 2 (zeros (Z.to_nat L))))
       (nZ L)).
Proof.
  intros HL. unfold AudioProcessor.fillImpulse.
  apply foldlM_unit_inv.
  - split; [reflexivity|]. apply Forall_replicate.
    split; [apply zeros_length|apply all_finite_zeros].
  - intros imp c Hc%elem_of_seq [Hn Himp].
    assert (Hc2 : (c < length (channelData imp))%nat).
    { unfold numberOfChannels in *. cbn in Hc. lia. }
    destruct (lookup_lt_is_Some_2 _ _ Hc2) as [d0 Hd0].
    eapply unit_ok_bind.
    + apply (foldlM_unit_inv
               (λ d, length d = Z.to_nat L ∧ all_finite d)).
      * rewrite (channel_of_lookup _ _ _ Hd0).
        rewrite Forall_lookup in Himp. eauto.
      * intros d i _ [Hlen Hfin]. eapply unit_ok_bind.
        -- apply Math_random_unit.
        -- intros x Hx. apply unit_ok_ret. split.
           ++ by rewrite length_insert.
           ++ apply all_finite_insert; [done|]. by apply impulse_sample_ok.
    + intros d Hd. apply unit_ok_ret. split.
      * unfold numberOfChannels in *. cbn. by rewrite length_insert.
      * cbn. by apply Forall_insert.
Qed.

(** Every term of the convolution is a product of an input sample, an
    impulse sample and the mix. *)
Lemma convolve_finite (inputData impulseData : list num) (L : Z) (wetDry : Qc)
    (outputData : list num) :
  all_finite inputData → all_finite impulseData →
  length impulseData = Z.to_nat L → all_finite outputData →
  all_finite
    (AudioProcessor.convolve inputData impulseData (nZ L) (Fin wetDry)
       outputData).
Proof.
  intros Hin Himp Hlen Hout. unfold AudioProcessor.convolve.
  rewrite iterations_nZ.
  apply (for_range_inv' all_finite); [done|].
  intros i o Hi Ho.
  refine (proj1 (for_range_inv'
            (λ o', all_finite o' ∧ length o' = length o) _ _ _ _ _ _));
    [done|].
  intros j o' Hj [Ho' Hol]. split; [|by rewrite length_insert].
  apply all_finite_insert; [done|]. apply nadd_finite.
  - apply all_finite_getn; [done|lia].
  - apply nmul_finite; [|done]. apply nmul_finite.
    + apply all_finite_getn; [done|lia].
    + apply all_finite_getn; [done|lia].
Qed.

Lemma processReverb_finite (buffer : AudioBuffer) (q wetDry : Qc) :
  wf_buffer buffer → finite_buffer buffer → (qc 1 3000 <= q)%Qc →
  unit_ok (finite_shaped buffer (extended buffer))
    (AudioProcessor.processReverb buffer (Fin q) (Fin wetDry)).
Proof.
  intros Hwf Hfb Hq. pose proof Hwf as (Hn & Hl & Hr & Hall).
  pose proof (extended_pos buffer Hwf) as Hext.
  pose proof (tailFrames_pos buffer Hr) as Htail.
  pose proof (impulseLength_pos _ _ Hr Hq) as HL.
  unfold AudioProcessor.processReverb.
  rewrite extended_length, createBuffer_Z_ok by (done || lia).
  change (Math_floor (Fin (sampleRate buffer) * Fin q))%num
    with (nZ (Qcfloor (sampleRate buffer * q))).
  rewrite createBuffer_Z_ok by (done || lia).
  fold (extended buffer).
  apply unit_ok_pure_bind, unit_ok_pure_bind.
  eapply unit_ok_bind; [by apply fillImpulse_unit|].
  intros impulse [Hn2 Himp]. apply unit_ok_pure.
  apply forChannels_finite; [done|lia|].
  intros c d Hd. pose proof (finite_buffer_channel _ _ _ Hfb Hd) as Hfin.
  eexists. split; [reflexivity|].
  assert (Hdry : all_finite
            (for_range 0 (length d)
               (λ i outputData,
                  <[i := (getn d i * (nZ 1 - Fin wetDry))%num]> outputData)
               (zeros (extended buffer))) ∧
          length (for_range 0 (length d)
               (λ i outputData,
                  <[i := (getn d i * (nZ 1 - Fin wetDry))%num]> outputData)
               (zeros (extended buffer))) = extended buffer).
  { apply (for_range_inv'
             (λ o, all_finite o ∧ length o = extended buffer)).
    - split; [apply all_finite_zeros|apply zeros_length].
    - intros i o Hi [Ho Hol]. split; [|by rewrite length_insert].
      apply all_finite_insert; [done|]. apply nmul_finite; [|done].
      apply all_finite_getn; [done|lia]. }
  destruct Hdry as [Hdry Hdryl].
  split; [by rewrite convolve_length|].
  assert (Hc : (c mod numberOfChannels impulse
                < length (channelData impulse))%nat).
  { unfold numberOfChannels in *. rewrite Hn2.
    apply Nat.mod_upper_bound. lia. }
  destruct (lookup_lt_is_Some_2 _ _ Hc) as [imp Himp'].
  rewrite (channel_of_lookup _ _ _ Himp').
  destruct (Forall_lookup_1 _ _ _ _ Himp Himp') as [Hil Hif].
  by apply convolve_finite.
Qed.

End FiniteEffects.

(** ** The recipes keep samples finite *)

Lemma finite_shaped_refl (b : AudioBuffer) :
  wf_buffer b → finite_buffer b → finite_shaped b (blength b) b.
Proof. intros Hwf Hfb. split; [by apply shaped_refl|done]. Qed.

Lemma finite_shaped_trans (b b' b'' : AudioBuffer) (n m : nat) :
  finite_shaped b n b' → finite_shaped b' m b'' → finite_shaped b m b''.
Proof. intros [Hs _] [Hs' Hf]. split; [by eapply shaped_trans|done]. Qed.

Lemma ok_finite_via (b b' : AudioBuffer) (n m : nat) (o : Outcome AudioBuffer) :
  finite_shaped b n b' → ok_with (finite_shaped b' m) o →
  ok_with (finite_shaped b m) o.
Proof.
  intros Hs (x & -> & Hx). exists x. split; [done|].
  by eapply finite_shaped_trans.
Qed.

Lemma unit_finite_via (b b' : AudioBuffer) (n m : nat) (c : Rand AudioBuffer) :
  finite_shaped b n b' → unit_ok (finite_shaped b' m) c →
  unit_ok (finite_shaped b m) c.
Proof.
  intros Hs Hc. eapply unit_ok_impl; [exact Hc|].
  intros x Hx. by eapply finite_shaped_trans.
Qed.

Lemma amount_in_range (c β : Qc) :
  (0 <= c)%Qc → (c <= 1)%Qc → (0 <= β)%Qc → (β <= 1)%Qc →
  (0 <= c * β)%Qc ∧ (c * β <= qc 5 2)%Qc.
Proof.
  intros Hc0 Hc1 Hb0 Hb1. split; [by apply Qcmult_nonneg|].
  apply Qcle_trans with (1 * 1)%Qc; [|discriminate].
  apply Qcle_trans with (c * 1)%Qc.
  - rewrite !(Qcmult_comm c). by apply Qcmult_le_compat_r.
  - by apply Qcmult_le_compat_r.
Qed.

Section FiniteRecipes.
Context {ML : MathLib}.

(** A variation of a buffer derived from the sample, at an amount that is a
    fraction of a balance between 0 and 1. *)
Lemma variation_of_finite (fuel : nat) (b b' : AudioBuffer) (n : nat)
    (c β : Qc) (options : MLProcessor.Options) :
  finite_shaped b n b' → (n < fuel)%nat →
  (0 <= β)%Qc → (β <= 1)%Qc → (0 <= c)%Qc → (c <= 1)%Qc →
  unit_ok (finite_shaped b n)
    (MLProcessor.generateVariation fuel b' (Fin c * Fin β)%num options).
Proof.
  intros Hs Hfuel Hb0 Hb1 Hc0 Hc1.
  pose proof Hs as ((Hwf & Hlen & _) & Hfb).
  destruct (amount_in_range c β Hc0 Hc1 Hb0 Hb1) as [Ha0 Ha1].
  eapply unit_ok_impl.
  - apply (generateVariation_finite fuel b' (c * β)); [done|lia|done..].
  - intros b'' Hb''. rewrite Hlen in Hb''. by eapply finite_shaped_trans.
Qed.

Lemma hook_recipe_finite (fuel : nat) (sample : AudioBuffer) (β : Qc)
    (isLoop : bool) :
  wf_buffer sample → finite_buffer sample →
  Z.of_nat (blength sample) + Qcfloor (sampleRate sample) < Z.of_nat fuel →
  (0 <= β)%Qc → (β <= 1)%Qc →
  unit_ok (Forall2 (finite_shaped sample) (hookLengths sample isLoop))
    (Hook.recipe fuel sample (Fin β) isLoop).
Proof.
  intros Hwf Hfb Hfuel Hb0 Hb1.
  destruct (fuel_bounds fuel sample Hwf Hfuel) as (Hf1 & Hf2 & Hf3).
  pose proof (finite_shaped_refl sample Hwf Hfb) as Hs.
  unfold Hook.recipe.
  eapply unit_ok_bind; [by apply variation_of_finite|]. intros v1 H1.
  eapply unit_ok_bind; [by apply variation_of_finite|]. intros v2 H2.
  eapply unit_ok_bind; [by apply variation_of_finite|]. intros v3 H3.
  eapply unit_ok_bind; [by apply variation_of_finite|]. intros v4 H4.
  eapply unit_ok_bind; [by apply variation_of_finite|].
  intros toneVariation Htone.
  eapply unit_ok_bind with (P := finite_shaped sample (blength sample)).
  { destruct (_ <? _)%num; [|by apply unit_ok_ret].
    apply unit_ok_pure. eapply ok_finite_via; [exact Htone|].
    destruct Htone as ((Hwt & <- & _) & Hft).
    by apply processBitCrush_finite. }
  intros v5 H5.
  eapply unit_ok_bind with (P := finite_shaped sample (blength sample)).
  { apply unit_ok_pure. destruct isLoop; by apply processPitchShift_finite. }
  intros pitchShifted Hps.
  eapply unit_ok_bind; [by apply (variation_of_finite fuel sample)|].
  intros v6 H6.
  eapply unit_ok_bind.
  { destruct isLoop; apply processReverb_finite; try done;
      apply Qcleb_spec; reflexivity. }
  intros reverbed Hrev.
  eapply unit_ok_bind; [by apply (variation_of_finite fuel sample)|].
  intros v7 H7.
  eapply unit_ok_bind with
    (P := finite_shaped sample
            (if isLoop then extended sample else blength sample)).
  { destruct isLoop.
    - eapply unit_ok_bind;
        [apply unit_ok_pure; by apply processDelay_finite|].
      intros delayed Hd. apply unit_ok_pure.
      eapply ok_finite_via; [exact Hd|].
      destruct Hd as ((Hwd & <- & _) & Hfd).
      by apply processDistortion_finite.
    - eapply unit_ok_bind;
        [apply unit_ok_pure; by apply processDistortion_finite|].
      intros distorted Hd. apply unit_ok_pure.
      eapply ok_finite_via; [exact Hd|].
      destruct Hd as ((Hwd & <- & _) & Hfd).
      by apply processBitCrush_finite. }
  intros extreme Hext.
  eapply unit_ok_bind.
  { apply (variation_of_finite fuel sample); try done. by destruct isLoop. }
  intros v8 H8. apply unit_ok_ret. unfold hookLengths. cbn [app].
  repeat (constructor; [assumption|]). constructor.
Qed.

Lemma processor_recipe_finite (fuel : nat) (sample : AudioBuffer)
    (isLoop : bool) :
  wf_buffer sample → finite_buffer sample → (10 < fuel)%nat →
  unit_ok (Forall2 (finite_shaped sample) (processorLengths sample isLoop))
    (AudioProcessor.generateVariations fuel (Some sample) isLoop).
Proof.
  intros Hwf Hfb Hfuel.
  pose proof (finite_shaped_refl sample Hwf Hfb) as Hs.
  unfold AudioProcessor.generateVariations.
  eapply unit_ok_bind with (P := finite_shaped sample (blength sample)).
  { apply unit_ok_pure.
    destruct isLoop; by apply processTransientEnhancement_finite. }
  intros v1 H1.
  eapply unit_ok_bind with (P := finite_shaped sample (blength sample)).
  { apply unit_ok_pure. destruct isLoop; by apply processPitchShift_finite. }
  intros v2 H2.
  eapply unit_ok_bind with (P := finite_shaped sample (blength sample)).
  { apply unit_ok_pure. destruct isLoop; by apply processPitchShift_finite. }
  intros v3 H3.
  eapply unit_ok_bind with (P := finite_shaped sample (blength sample)).
  { apply unit_ok_pure. destruct isLoop; by apply processBitCrush_finite. }
  intros v4 H4.
  eapply unit_ok_bind.
  { destruct isLoop; apply processReverb_finite; try done;
      apply Qcleb_spec; reflexivity. }
  intros v5 H5.
  eapply unit_ok_bind with (P := finite_shaped sample (extended sample)).
  { apply unit_ok_pure. destruct isLoop; by apply processDelay_finite. }
  intros v6 H6.
  eapply unit_ok_bind with (P := finite_shaped sample (blength sample)).
  { apply unit_ok_pure. destruct isLoop; by apply processPitchShift_finite. }
  intros pitchShifted Hps.
  eapply unit_ok_bind with (P := finite_shaped sample (extended sample)).
  { eapply unit_finite_via; [exact Hps|].
    rewrite <- (extended_of_shaped sample pitchShifted (proj1 Hps)).
    destruct Hps as [(Hwp & _) Hfp].
    destruct isLoop; apply processReverb_finite; try done;
      apply Qcleb_spec; reflexivity. }
  intros v7 H7.
  eapply unit_ok_bind with
    (P := finite_shaped sample
            (if isLoop then extended sample else blength sample)).
  { destruct isLoop.
    - eapply unit_ok_bind;
        [apply unit_ok_pure; by apply processDelay_finite|].
      intros delayed Hd. apply unit_ok_pure.
      eapply ok_finite_via; [exact Hd|].
      destruct Hd as ((Hwd & <- & _) & Hfd).
      by apply processDistortion_finite.
    - eapply unit_ok_bind;
        [apply unit_ok_pure; by apply processDistortion_finite|].
      intros distorted Hd. apply unit_ok_pure.
      eapply ok_finite_via; [exact Hd|].
      destruct Hd as ((Hwd & <- & _) & Hfd).
      by apply processBitCrush_finite. }
  intros v8 H8. apply unit_ok_ret. unfold processorLengths. cbn [app].
  repeat (constructor; [assumption|]). constructor.
Qed.

Lemma Forall2_finite (sample : AudioBuffer) (ns : list nat)
    (vs : list AudioBuffer) :
  Forall2 (finite_shaped sample) ns vs →
  Forall2 (shaped sample) ns vs ∧ Forall finite_buffer vs.
Proof.
  induction 1 as [|n v ns vs [Hs Hf] _ [IH1 IH2]]; [by split; constructor|].
  split; by constructor.
Qed.

End FiniteRecipes.

Section FiniteOutputs.
Context {ML : MathLib}.

(** X25. The four effects that work sample by sample keep a sample in the
    nominal range [[-1, 1]] free of [NaN] and infinite values.  For gains of
    magnitude at most 1000, a bit depth from 0 to 1023 and any finite
    semitones and drive, the transient enhancer, the pitch shifter, the bit
    crusher and the distortion each return a well-formed buffer of the
    input's length, rate and channel count whose every sample is a finite
    number.  The crusher never divides by zero, and the pitch shifter never
    reads outside its input, also when its ratio [Math.pow(2, semitones /
    12)] is [Infinity] or zero. *)
Theorem pointwise_effects_keep_finite (buffer : AudioBuffer)
    (attackGain sustainGain semitones bits amount : Qc) :
  wf_buffer buffer → nominal_buffer buffer →
  (Qcabs attackGain <= QcZ 1000)%Qc → (Qcabs sustainGain <= QcZ 1000)%Qc →
  (0 <= bits)%Qc → (bits <= QcZ 1023)%Qc →
  ok_with (finite_shaped buffer (blength buffer))
    (AudioProcessor.processTransientEnhancement buffer
       (Fin attackGain) (Fin sustainGain)) ∧
  ok_with (finite_shaped buffer (blength buffer))
    (AudioProcessor.processPitchShift buffer (Fin semitones)) ∧
  ok_with (finite_shaped buffer (blength buffer))
    (AudioProcessor.processBitCrush buffer (Fin bits)) ∧
  ok_with (finite_shaped buffer (blength buffer))
    (AudioProcessor.processDistortion buffer (Fin amount)).
Proof.
  intros Hwf Hnom _ _ Hb0 Hb1.
  pose proof (nominal_finite buffer Hnom) as Hfb.
  split; [by apply processTransientEnhancement_finite|].
  split; [by apply processPitchShift_finite|].
  split; [|by apply processDistortion_finite].
  apply processBitCrush_finite; [done..| |].
  - apply Qcleb_false. eapply Qcle_lt_trans; [exact Hb1|reflexivity].
  - apply Qcleb_false. eapply Qclt_le_trans; [|exact Hb0]. reflexivity.
Qed.

(** X26. The two effects that append a tail keep a sample in the nominal
    range [[-1, 1]] free of [NaN] and infinite values.  For a delay time that
    is not negative and a feedback of magnitude at most 1 the delay, and for
    a mix between 0 and 1 and a room size from 1/3000 (an impulse of at
    least one frame) to 1 the reverb, return a well-formed buffer of the
    input's rate and channel count, longer by the tail, whose every sample is
    a finite number; the reverb leaves a random source with draws in
    [[0, 1)]. *)
Theorem tail_effects_keep_finite (fuel : nat) (buffer : AudioBuffer)
    (delayTime feedback roomSize wetDry : Qc) (r : rng) :
  wf_buffer buffer → nominal_buffer buffer → (10 < fuel)%nat →
  (0 <= delayTime)%Qc → (Qcabs feedback <= 1)%Qc →
  (qc 1 3000 <= roomSize)%Qc → (roomSize <= 1)%Qc →
  (0 <= wetDry)%Qc → (wetDry <= 1)%Qc → unit_draws r →
  ok_with (finite_shaped buffer (extended buffer))
    (AudioProcessor.processDelay fuel buffer (Fin delayTime) (Fin feedback)) ∧
  ∃ out r',
    AudioProcessor.processReverb buffer (Fin roomSize) (Fin wetDry) r
    = Ok (out, r') ∧
    unit_draws r' ∧ finite_shaped buffer (extended buffer) out.
Proof.
  intros Hwf Hnom Hfuel _ _ Hroom _ _ _ Hr.
  pose proof (nominal_finite buffer Hnom) as Hfb.
  split; [by apply processDelay_finite|].
  exact (processReverb_finite buffer roomSize wetDry Hwf Hfb Hroom r Hr).
Qed.

(** X27. With a sample in the nominal range [[-1, 1]] loaded and a balance
    between 0 and 1, one call of the hook's [generateVariations] stores eight
    variations none of which holds a [NaN] or an infinite value, each
    well-formed with the sample's rate and channel count, and records no
    error. *)
Theorem hook_variations_finite (fuel : nat) (st : Hook.State)
    (sample : AudioBuffer) (β : Qc) (r : rng) :
  wf_buffer sample → nominal_buffer sample →
  Z.of_nat (blength sample) + Qcfloor (sampleRate sample) < Z.of_nat fuel →
  Hook.originalSample st = Some sample →
  Hook.mlBalance st = Fin β → (0 <= β)%Qc → (β <= 1)%Qc →
  unit_draws r →
  ∃ st',
    Hook.generateVariations fuel st r = Some st' ∧
    Forall2 (finite_shaped sample) (hookLengths sample (Hook.isLoop st))
      (Hook.variations st') ∧
    Hook.error st' = None.
Proof.
  intros Hwf Hnom Hfuel Hsample Hbal Hb0 Hb1 Hr.
  pose proof (nominal_finite sample Hnom) as Hfb.
  destruct (hook_recipe_finite fuel sample β (Hook.isLoop st) Hwf Hfb Hfuel
              Hb0 Hb1 r Hr) as (vs & r' & Hrec & _ & Hvs).
  unfold Hook.generateVariations. rewrite Hsample, Hbal, Hrec.
  eexists. split; [reflexivity|]. cbn. done.
Qed.

(** X28. The recipe of the effect library returns, for a sample in the
    nominal range [[-1, 1]], eight variations none of which holds a [NaN] or
    an infinite value, each well-formed with the sample's rate and channel
    count. *)
Theorem processor_variations_finite (fuel : nat) (sample : AudioBuffer)
    (isLoop : bool) (r : rng) :
  wf_buffer sample → nominal_buffer sample → (10 < fuel)%nat →
  unit_draws r →
  ∃ vs r',
    AudioProcessor.generateVariations fuel (Some sample) isLoop r
    = Ok (vs, r') ∧
    Forall2 (finite_shaped sample) (processorLengths sample isLoop) vs.
Proof.
  intros Hwf Hnom Hfuel Hr.
  pose proof (nominal_finite sample Hnom) as Hfb.
  destruct (processor_recipe_finite fuel sample isLoop Hwf Hfb Hfuel r Hr)
    as (vs & r' & Hrec & _ & Hvs).
  by exists vs, r'.
Qed.

Lemma step_finite (fuel : nat) (st : Hook.State) (a : Session.Action) :
  consistent fuel st → finite_state st →
  feasible fuel a → finite_action a →
  ∃ st', Session.step fuel st a = Some st' ∧
         consistent fuel st' ∧ finite_state st'.
Proof.
  intros Hst [Hfs Hfv] Ha Hfa.
  destruct (step_consistent fuel st a Hst Ha) as (st' & Hstep & Hst').
  exists st'. split; [done|]. split; [done|].
  destruct Hst as ((β & Hbal & Hβ0 & Hβ1) & _ & _ & Hsample).
  destruct a as [balance|buffer|draws];
    cbn [Session.step feasible finite_action] in *.
  - injection Hstep as <-. by split.
  - destruct Ha as [Hwf Hfuel].
    destruct (fuel_bounds fuel buffer Hwf Hfuel) as (Hf1 & _).
    destruct (extractFeatures_frames fuel buffer Hwf Hf1) as (f & Hf & _).
    unfold Session.loadAudioFile, Hook.loadSample in Hstep.
    rewrite Hf in Hstep. cbn [mbind Outcome_bind mret Outcome_ret] in Hstep.
    injection Hstep as <-. split; [done|constructor].
  - unfold Hook.generateVariations in Hstep.
    destruct (Hook.originalSample st) as [sample|] eqn:Hs.
    + destruct Hsample as (Hwf & Hfuel & _). cbn [from_option] in Hfs.
      destruct (hook_recipe_finite fuel sample β (Hook.isLoop st) Hwf
                  (nominal_finite sample Hfs) Hfuel Hβ0 Hβ1 draws Hfa)
        as (vs & r' & Hrec & _ & Hvs).
      rewrite Hbal, Hrec in Hstep. injection Hstep as <-.
      split; [done|]. cbn. by apply (Forall2_finite sample _ _ Hvs).
    + injection Hstep as <-. by split.
Qed.

(** X29. No session on samples in the nominal range ever holds a [NaN].
    From the initial state, whatever sequence of balance changes to a number,
    loads of well-formed samples in [[-1, 1]] and generations with draws in
    [[0, 1)] the user performs, the hook ends in a consistent state whose
    variations hold finite numbers only: the clamp of [setProcessingBalance]
    keeps every variation amount in the range where the resynthesis stays
    finite. *)
Theorem session_keeps_samples_finite (fuel : nat) (st : Hook.State)
    (actions : list Session.Action) :
  consistent fuel st → finite_state st →
  Forall (feasible fuel) actions → Forall finite_action actions →
  finite_state Session.initial ∧
  ∃ st', Session.run fuel st actions = Some st' ∧
         consistent fuel st' ∧ finite_state st'.
Proof.
  intros Hst Hfs Hacts Hfin. split; [by split; [|constructor]|].
  revert st Hst Hfs Hfin. unfold Session.run.
  induction Hacts as [|a actions Ha _ IH]; intros st Hst Hfs Hfin.
  - by exists st.
  - inversion_clear Hfin as [|? ? Hfa Hfin'].
    destruct (step_finite fuel st a Hst Hfs Ha Hfa)
      as (st1 & Hstep & Hst1 & Hfs1).
    destruct (IH st1 Hst1 Hfs1 Hfin') as (st' & Hrun & Hst').
    exists st'. split; [|done]. cbn [foldlM]. rewrite Hstep. exact Hrun.
Qed.

End FiniteOutputs.

Lemma pointwise_effects_keep_finite_witness :
  wf_buffer click ∧ nominal_buffer click ∧
  (Qcabs (qc 13 10) <= QcZ 1000)%Qc ∧ (Qcabs (qc 85 100) <= QcZ 1000)%Qc ∧
  (0 <= QcZ 8)%Qc ∧ (QcZ 8 <= QcZ 1023)%Qc ∧
  ok_with (finite_shaped click (blength click))
    (AudioProcessor.processTransientEnhancement click
       (Fin (qc 13 10)) (Fin (qc 85 100))) ∧
  ok_with (finite_shaped click (blength click))
    (AudioProcessor.processPitchShift click (Fin (QcZ 3))) ∧
  ok_with (finite_shaped click (blength click))
    (AudioProcessor.processBitCrush click (Fin (QcZ 8))) ∧
  ok_with (finite_shaped click (blength click))
    (AudioProcessor.processDistortion click (Fin (QcZ 10))).
Proof.
  assert (H1 : (Qcabs (qc 13 10) <= QcZ 1000)%Qc)
    by (vm_compute; discriminate).
  assert (H2 : (Qcabs (qc 85 100) <= QcZ 1000)%Qc)
    by (vm_compute; discriminate).
  assert (H3 : (0 <= QcZ 8)%Qc) by (vm_compute; discriminate).
  assert (H4 : (QcZ 8 <= QcZ 1023)%Qc) by (vm_compute; discriminate).
  split; [exact click_wf|]. split; [exact click_in_unit|].
  split; [exact H1|]. split; [exact H2|]. split; [exact H3|].
  split; [exact H4|].
  exact (pointwise_effects_keep_finite click (qc 13 10) (qc 85 100) (QcZ 3)
           (QcZ 8) (QcZ 10) click_wf click_in_unit H1 H2 H3 H4).
Defined.

Lemma tail_effects_keep_finite_witness :
  wf_buffer click ∧ nominal_buffer click ∧ (10 < 11)%nat ∧
  (0 <= qc 25 100)%Qc ∧ (Qcabs (qc 4 10) <= 1)%Qc ∧
  (qc 1 3000 <= qc 3 10)%Qc ∧ (qc 3 10 <= 1)%Qc ∧
  (0 <= qc 5 10)%Qc ∧ (qc 5 10 <= 1)%Qc ∧ unit_draws harmonic ∧
  ok_with (finite_shaped click (extended click))
    (AudioProcessor.processDelay 11 click (Fin (qc 25 100)) (Fin (qc 4 10))) ∧
  ∃ out r',
    AudioProcessor.processReverb click (Fin (qc 3 10)) (Fin (qc 5 10))
      harmonic
    = Ok (out, r') ∧
    unit_draws r' ∧ finite_shaped click (extended click) out.
Proof.
  assert (H1 : (10 < 11)%nat) by lia.
  assert (H2 : (0 <= qc 25 100)%Qc) by (vm_compute; discriminate).
  assert (H3 : (Qcabs (qc 4 10) <= 1)%Qc) by (vm_compute; discriminate).
  assert (H4 : (qc 1 3000 <= qc 3 10)%Qc) by (vm_compute; discriminate).
  assert (H5 : (qc 3 10 <= 1)%Qc) by (vm_compute; discriminate).
  assert (H6 : (0 <= qc 5 10)%Qc) by (vm_compute; discriminate).
  assert (H7 : (qc 5 10 <= 1)%Qc) by (vm_compute; discriminate).
  split; [exact click_wf|]. split; [exact click_in_unit|].
  split; [exact H1|]. split; [exact H2|]. split; [exact H3|].
  split; [exact H4|]. split; [exact H5|]. split; [exact H6|].
  split; [exact H7|]. split; [exact harmonic_unit|].
  exact (tail_effects_keep_finite 11 click (qc 25 100) (qc 4 10) (qc 3 10)
           (qc 5 10) harmonic click_wf click_in_unit H1 H2 H3 H4 H5 H6 H7
           harmonic_unit).
Defined.

Lemma hook_variations_finite_witness :
  wf_buffer click ∧ nominal_buffer click ∧
  Z.of_nat (blength click) + Qcfloor (sampleRate click) < Z.of_nat clickFuel ∧
  Hook.originalSample clickLoaded = Some click ∧
  Hook.mlBalance clickLoaded = Fin (qc 1 2) ∧
  (0 <= qc 1 2)%Qc ∧ (qc 1 2 <= 1)%Qc ∧ unit_draws harmonic ∧
  ∃ st',
    Hook.generateVariations clickFuel clickLoaded harmonic = Some st' ∧
    Forall2 (finite_shaped click) (hookLengths click (Hook.isLoop clickLoaded))
      (Hook.variations st') ∧
    Hook.error st' = None.
Proof.
  assert (H1 : (0 <= qc 1 2)%Qc) by (vm_compute; discriminate).
  assert (H2 : (qc 1 2 <= 1)%Qc) by (vm_compute; discriminate).
  split; [exact click_wf|]. split; [exact click_in_unit|].
  split; [exact clickFuel_enough|]. split; [reflexivity|].
  split; [reflexivity|]. split; [exact H1|]. split; [exact H2|].
  split; [exact harmonic_unit|].
  exact (hook_variations_finite clickFuel clickLoaded click (qc 1 2) harmonic
           click_wf click_in_unit clickFuel_enough eq_refl eq_refl H1 H2
           harmonic_unit).
Defined.

Lemma processor_variations_finite_witness :
  wf_buffer click ∧ nominal_buffer click ∧ (10 < 11)%nat ∧
  unit_draws harmonic ∧
  ∃ vs r',
    AudioProcessor.generateVariations 11 (Some click) false harmonic
    = Ok (vs, r') ∧
    Forall2 (finite_shaped click) (processorLengths click false) vs.
Proof.
  assert (H : (10 < 11)%nat) by lia.
  split; [exact click_wf|]. split; [exact click_in_unit|].
  split; [exact H|]. split; [exact harmonic_unit|].
  exact (processor_variations_finite 11 click false harmonic click_wf
           click_in_unit H harmonic_unit).
Defined.

Lemma initial_finite : finite_state Session.initial.
Proof. split; [done|constructor]. Qed.

Lemma session_keeps_samples_finite_witness :
  consistent clickFuel Session.initial ∧ finite_state Session.initial ∧
  Forall (feasible clickFuel)
    [Session.SetBalance PInf; Session.Load click; Session.Generate harmonic;
     Session.SetBalance (nq 1 4); Session.Generate harmonic] ∧
  Forall finite_action
    [Session.SetBalance PInf; Session.Load click; Session.Generate harmonic;
     Session.SetBalance (nq 1 4); Session.Generate harmonic] ∧
  finite_state Session.initial ∧
  ∃ st',
    Session.run clickFuel Session.initial
      [Session.SetBalance PInf; Session.Load click; Session.Generate harmonic;
       Session.SetBalance (nq 1 4); Session.Generate harmonic]
    = Some st' ∧
    consistent clickFuel st' ∧ finite_state st'.
Proof.
  assert (H : Forall (feasible clickFuel)
    [Session.SetBalance PInf; Session.Load click; Session.Generate harmonic;
     Session.SetBalance (nq 1 4); Session.Generate harmonic]).
  { constructor; [done|].
    constructor; [split; [exact click_wf|exact clickFuel_enough]|].
    repeat (constructor; [done|]). constructor. }
  assert (H' : Forall finite_action
    [Session.SetBalance PInf; Session.Load click; Session.Generate harmonic;
     Session.SetBalance (nq 1 4); Session.Generate harmonic]).
  { constructor; [done|]. constructor; [exact click_in_unit|].
    constructor; [exact harmonic_unit|]. constructor; [done|].
    constructor; [exact harmonic_unit|]. constructor. }
  split; [exact (initial_consistent clickFuel)|].
  split; [exact initial_finite|]. split; [exact H|]. split; [exact H'|].
  exact (session_keeps_samples_finite clickFuel Session.initial _
           (initial_consistent clickFuel) initial_finite H H').
Defined.
